(** * Brisk: a shallow embedding of the interpreter core and its specification

    The development follows the layout of the C sources:
    - [Value]    : value.c / value.h  (tagged values, interned strings,
                   the open-addressing table);
    - [Env]      : env.c              (chained scopes);
    - [Ast]      : token.h, ast.h     (tokens and the syntax tree);
    - [Object]   : value.h            (arrays and the other heap objects);
    - [Cffi]     : cffi.c             (marshalling to and from C slots);
    - [Interp]   : interp.c           (the tree-walking evaluator);
    - [Tables]   : value.c            (lookup, insertion, deletion, keys
                   and values of a table);
    - [Memory]   : value.c            (reference counting, and the table
                   operations with the counts they keep);
    - [Builtins] : builtins.c         (the array built-ins);
    - [Scopes]   : env.c              (name resolution and definition);
    - [Defers]   : interp.c           (the defer stack);
    - [Lexical]  : interp.c           (the scope an evaluation runs in);
    - [Lexer]    : lexer.c            (the scanner);
    - [Parser]   : parser.c           (the Pratt expression parser);
    - [Equality] : value.c            (value_equals);
    - [Strings]  : builtins.c         (the string built-ins);
    - [Marshal]  : cffi.c             (a value through a C slot and back).

    C [int] and [int64_t] quantities are integers of [Z]; where the C code
    can leave the range of its type the wrap-around or the undefined
    behaviour is written out.  Pointers to heap objects are addresses
    ([nat]); strings, which are immutable, are carried together with their
    address. *)

From Stdlib Require Import ZArith Lia Bool String Ascii Floats SpecFloat.
From stdpp Require Import base option list.

Local Open Scope Z_scope.

(** ** Outcomes of C computations *)

(** A C function either returns, loops for ever ([Hang]: the model of a
    [for (;;)] loop that never reaches its [return], or of an evaluation
    that exhausts every recursion budget), or leaves defined behaviour
    ([Fault]: a NULL or out-of-bounds access, a signed overflow). *)
Inductive res (A : Type) : Type :=
  | Ok (a : A)
  | Hang
  | Fault.
Arguments Ok {A} a.
Arguments Hang {A}.
Arguments Fault {A}.

Definition res_bind {A B : Type} (m : res A) (k : A -> res B) : res B :=
  match m with
  | Ok a => k a
  | Hang => Hang
  | Fault => Fault
  end.

#[global] Instance res_mret : MRet res := fun A a => Ok a.
#[global] Instance res_mbind : MBind res := fun A B k m => res_bind m k.

Definition is_Ok {A : Type} (m : res A) : Prop := exists a, m = Ok a.

Definition INT_MAX : Z := 2147483647.
Definition INT64_MIN : Z := - 2 ^ 63.
Definition INT64_MAX : Z := 2 ^ 63 - 1.

(** Conversion of an integer to a signed/unsigned C integer type of [w]
    bits (the value-preserving-modulo-2^w conversion every supported
    compiler implements). *)
Definition to_unsigned (w : Z) (n : Z) : Z := n mod 2 ^ w.
Definition to_signed (w : Z) (n : Z) : Z :=
  let u := n mod 2 ^ w in
  if u <? 2 ^ (w - 1) then u else u - 2 ^ w.

(* ===================================================================== *)
(** * value.c *)
(* ===================================================================== *)

Module Value.

(** [ObjString]: an interned, immutable string object.  [s_addr] is the
    address of the object (the [ObjString*] handle); [length], [hash] and
    [chars] are the fields of the C struct. *)
Record ObjString : Type := mkObjString {
  s_addr : nat;
  s_length : Z;
  s_hash : Z;
  s_chars : string
}.

(** A reference to a heap object: strings carry their (immutable)
    contents, every other object lives in the object heap. *)
Inductive ObjRef : Type :=
  | StrRef (s : ObjString)
  | HeapRef (a : nat).

Inductive Value : Type :=
  | NIL_VAL
  | BOOL_VAL (b : bool)
  | INT_VAL (n : Z)
  | FLOAT_VAL (f : float)
  | OBJ_VAL (o : ObjRef).

Definition IS_NIL (v : Value) : bool :=
  match v with NIL_VAL => true | _ => false end.
Definition IS_BOOL (v : Value) : bool :=
  match v with BOOL_VAL _ => true | _ => false end.
Definition IS_INT (v : Value) : bool :=
  match v with INT_VAL _ => true | _ => false end.
Definition IS_FLOAT (v : Value) : bool :=
  match v with FLOAT_VAL _ => true | _ => false end.
Definition IS_NUMBER (v : Value) : bool := IS_INT v || IS_FLOAT v.
Definition IS_OBJ (v : Value) : bool :=
  match v with OBJ_VAL _ => true | _ => false end.
Definition IS_STRING (v : Value) : bool :=
  match v with OBJ_VAL (StrRef _) => true | _ => false end.

(** ** string_hash (FNV-1a, 32 bit) *)

Definition byte_of (c : ascii) : Z := Z.of_N (N_of_ascii c).

Fixpoint string_hash_from (hash : Z) (chars : string) : Z :=
  match chars with
  | EmptyString => hash
  | String c rest =>
      string_hash_from ((Z.lxor hash (byte_of c) * 16777619) mod 2 ^ 32) rest
  end.

Definition string_hash (chars : string) : Z :=
  string_hash_from 2166136261 chars.

Definition str_len (chars : string) : Z := Z.of_nat (String.length chars).

(** ** Tables *)

Record TableEntry : Type := mkEntry {
  key : option ObjString;      (* NULL = None *)
  value : Value;
  is_const : bool
}.

Record ObjTable : Type := mkTable {
  entries : list TableEntry;   (* NULL = [] *)
  count : Z;
  capacity : Z
}.

Definition table_create : ObjTable :=
  {| entries := []; count := 0; capacity := 0 |}.

Definition empty_entry : TableEntry :=
  {| key := None; value := NIL_VAL; is_const := false |}.

(** [entry->key == key]: pointer comparison. *)
Definition same_obj (a b : ObjString) : bool := Nat.eqb (s_addr a) (s_addr b).

(** The probe loop of [find_entry].  [fuel] bounds the number of slots
    visited; [find_entry] gives it [capacity] steps, after which the probe
    has seen every slot and the C loop, which changes nothing, would
    revisit them for ever. *)
Fixpoint find_entry_loop (fuel : nat) (entries : list TableEntry)
    (capacity : Z) (key0 : ObjString) (index : Z) (tombstone : option nat)
  : res nat :=
  match fuel with
  | O => Hang
  | S fuel' =>
      match entries !! Z.to_nat index with
      | None => Fault
      | Some entry =>
          match key entry with
          | None =>
              if IS_NIL (value entry) then
                (* empty entry: return the tombstone if one was seen *)
                Ok (match tombstone with
                    | Some t => t
                    | None => Z.to_nat index
                    end)
              else
                find_entry_loop fuel' entries capacity key0
                  ((index + 1) mod capacity)
                  (match tombstone with
                   | Some t => Some t
                   | None => Some (Z.to_nat index)
                   end)
          | Some k =>
              if same_obj k key0 then Ok (Z.to_nat index)
              else
                find_entry_loop fuel' entries capacity key0
                  ((index + 1) mod capacity) tombstone
          end
      end
  end.

(** [find_entry] returns NULL ([None]) for a table without storage. *)
Definition find_entry (entries : list TableEntry) (capacity : Z)
    (key0 : ObjString) : res (option nat) :=
  if capacity =? 0 then Ok None
  else
    i ← find_entry_loop (Z.to_nat capacity) entries capacity key0
          (s_hash key0 mod capacity) None;
    Ok (Some i).

(** The rehashing loop of [grow_table]: every live entry of the old
    storage is placed in the new one. *)
Fixpoint rehash (old : list TableEntry) (entries : list TableEntry)
    (capacity : Z) (count : Z) : res (list TableEntry * Z) :=
  match old with
  | [] => Ok (entries, count)
  | entry :: old' =>
      match key entry with
      | None => rehash old' entries capacity count
      | Some k =>
          dest ← find_entry entries capacity k;
          match dest with
          | None => Fault
          | Some d =>
              rehash old'
                (<[d := {| key := Some k; value := value entry;
                           is_const := is_const entry |}]> entries)
                capacity (count + 1)
          end
      end
  end.

Definition grow_table (table : ObjTable) (capacity' : Z) : res ObjTable :=
  '(entries', count') ←
     rehash (entries table) (replicate (Z.to_nat capacity') empty_entry)
            capacity' 0;
  Ok {| entries := entries'; count := count'; capacity := capacity' |}.

Definition table_get (table : ObjTable) (key0 : ObjString)
  : res (option Value) :=
  if count table =? 0 then Ok None
  else
    e ← find_entry (entries table) (capacity table) key0;
    match e with
    | None => Fault
    | Some i =>
        match entries table !! i with
        | None => Fault
        | Some entry =>
            match key entry with
            | None => Ok None
            | Some _ => Ok (Some (value entry))
            end
        end
    end.

(** [table->count + 1 > table->capacity * 0.75] is decided in [double];
    for 32-bit operands both sides are exact, so the test is
    [4 * (count + 1) > 3 * capacity].  Doubling a capacity of 2^30 or more
    overflows [int].  This is the table that [table_set] leaves; the
    references it takes and gives back are written out in
    [Memory.table_set]. *)
Definition table_set (table : ObjTable) (key0 : ObjString) (value0 : Value)
    (is_const0 : bool) : res (ObjTable * bool) :=
  table1 ←
    (if 3 * capacity table <? 4 * (count table + 1) then
       capacity' ←
         (if capacity table <? 8 then Ok 8
          else if INT_MAX <? capacity table * 2 then Fault
          else Ok (capacity table * 2));
       grow_table table capacity'
     else Ok table);
  e ← find_entry (entries table1) (capacity table1) key0;
  match e with
  | None => Fault
  | Some i =>
      match entries table1 !! i with
      | None => Fault
      | Some entry =>
          let is_new := match key entry with None => true | Some _ => false end in
          let count' :=
            if is_new && IS_NIL (value entry) then count table1 + 1
            else count table1 in
          Ok ({| entries :=
                   <[i := {| key := Some key0; value := value0;
                             is_const := is_const0 |}]> (entries table1);
                 count := count';
                 capacity := capacity table1 |},
              is_new)
      end
  end.

(** What [table_delete] does to the storage: the slot of the key becomes
    a tombstone, [key = NULL] and [value = true]; the count is not
    decremented, and [is_const] keeps its old value.  [table_delete]
    itself, which also releases the references the entry held, is
    [Memory.table_delete]; whenever that returns, this is its table. *)
Definition table_delete_entries (table : ObjTable) (key0 : ObjString)
  : res (ObjTable * bool) :=
  if count table =? 0 then Ok (table, false)
  else
    e ← find_entry (entries table) (capacity table) key0;
    match e with
    | None => Fault
    | Some i =>
        match entries table !! i with
        | None => Fault
        | Some entry =>
            match key entry with
            | None => Ok (table, false)
            | Some _ =>
                Ok ({| entries :=
                         <[i := {| key := None; value := BOOL_VAL true;
                                   is_const := is_const entry |}]>
                           (entries table);
                       count := count table;
                       capacity := capacity table |},
                    true)
            end
        end
    end.

Definition table_has (table : ObjTable) (key0 : ObjString) : res bool :=
  if count table =? 0 then Ok false
  else
    e ← find_entry (entries table) (capacity table) key0;
    match e with
    | None => Fault
    | Some i =>
        match entries table !! i with
        | None => Fault
        | Some entry =>
            Ok (match key entry with None => false | Some _ => true end)
        end
    end.

(** ** Interned strings *)

(** The process-wide state of value.c that strings depend on: the
    interning table [string_table] (NULL until the first string is made)
    and the allocator, of which only the next fresh address matters. *)
Record StringPool : Type := mkPool {
  string_table : option ObjTable;
  next_addr : nat
}.

Definition pool_init : StringPool :=
  {| string_table := None; next_addr := 0 |}.

(** The first [length] bytes of a string object, as [memcpy] and
    [memcmp] read them. *)
Definition bytes_of (a : ObjString) : string :=
  String.substring 0 (Z.to_nat (s_length a)) (s_chars a).

(** [k->length == length && k->hash == hash &&
    memcmp (k->chars, chars, length) == 0] *)
Definition same_bytes (k : ObjString) (length0 : Z) (hash0 : Z)
    (chars : string) : bool :=
  (s_length k =? length0) && (s_hash k =? hash0)
  && String.eqb (bytes_of k) chars.

(** The linear search of [string_create] over the slots of the interning
    table, in index order. *)
Fixpoint intern_lookup (entries : list TableEntry) (length0 hash0 : Z)
    (chars : string) : option ObjString :=
  match entries with
  | [] => None
  | entry :: rest =>
      match key entry with
      | Some k =>
          if same_bytes k length0 hash0 chars then Some k
          else intern_lookup rest length0 hash0 chars
      | None => intern_lookup rest length0 hash0 chars
      end
  end.

(** [string_create (chars, length)]: [chars] holds exactly the [length]
    bytes read by the C function. *)
Definition string_create (pool : StringPool) (chars : string)
  : res (ObjString * StringPool) :=
  let length0 := str_len chars in
  let hash0 := string_hash chars in
  match
    match string_table pool with
    | Some t => intern_lookup (entries t) length0 hash0 chars
    | None => None
    end
  with
  | Some k => Ok (k, pool)
  | None =>
      let str := {| s_addr := next_addr pool; s_length := length0;
                    s_hash := hash0; s_chars := chars |} in
      let t := match string_table pool with
               | Some t => t
               | None => table_create
               end in
      '(t', _) ← table_set t str NIL_VAL false;
      Ok (str, {| string_table := Some t'; next_addr := S (next_addr pool) |})
  end.

Definition string_concat (pool : StringPool) (a b : ObjString)
  : res (ObjString * StringPool) :=
  string_create pool (bytes_of a ++ bytes_of b)%string.

(** ** value_is_truthy *)

Definition value_is_truthy (v : Value) : bool :=
  match v with
  | NIL_VAL => false
  | BOOL_VAL b => b
  | INT_VAL n => negb (n =? 0)
  | FLOAT_VAL f => negb (PrimFloat.eqb f 0%float)
  | OBJ_VAL _ => true
  end.

(* --------------------------------------------------------------------- *)
(** ** Facts about the table *)
(* --------------------------------------------------------------------- *)

Definition is_empty_entry (e : TableEntry) : bool :=
  match key e with
  | None => IS_NIL (value e)
  | Some _ => false
  end.

(** Number of slots that are not empty (live entries and tombstones). *)
Fixpoint used_slots (es : list TableEntry) : Z :=
  match es with
  | [] => 0
  | e :: es' => (if is_empty_entry e then 0 else 1) + used_slots es'
  end.

Lemma used_slots_bounds es : 0 <= used_slots es <= Z.of_nat (length es).
Proof.
  induction es as [|e es IH]; simpl; [lia|].
  destruct (is_empty_entry e); lia.
Qed.

Lemma used_slots_replicate n : used_slots (replicate n empty_entry) = 0.
Proof. induction n as [|n IH]; simpl; [reflexivity | exact IH]. Qed.

Lemma used_slots_insert es i e e' :
  es !! i = Some e ->
  used_slots (<[i := e']> es) =
  used_slots es - (if is_empty_entry e then 0 else 1)
                + (if is_empty_entry e' then 0 else 1).
Proof.
  revert i. induction es as [|x es IH]; intros [|i] H; simpl in *;
    try discriminate.
  - injection H as ->. lia.
  - rewrite (IH i H). lia.
Qed.

Lemma used_slots_has_empty es :
  used_slots es < Z.of_nat (length es) ->
  exists j e, es !! j = Some e /\ is_empty_entry e = true.
Proof.
  induction es as [|x es IH]; simpl; [lia|].
  destruct (is_empty_entry x) eqn:Hx; intros H.
  - exists 0%nat, x. split; [reflexivity | exact Hx].
  - destruct IH as (j & e & Hj & He); [lia|].
    exists (S j), e. split; assumption.
Qed.


(** *** The probe sequence of [find_entry] *)

(** A probe stops at an empty slot or at the slot holding the key. *)
Definition stops (k : ObjString) (e : TableEntry) : bool :=
  match key e with
  | None => IS_NIL (value e)
  | Some k' => same_obj k' k
  end.

(** The [n]-th slot visited by a probe that starts at [idx]. *)
Definition probe (cap idx : Z) (n : nat) : Z := (idx + Z.of_nat n) mod cap.

Lemma probe_0 cap idx : 0 <= idx < cap -> probe cap idx 0 = idx.
Proof. intros H. unfold probe. rewrite Z.add_0_r. apply Z.mod_small, H. Qed.

Lemma probe_S cap idx n :
  0 < cap -> probe cap ((idx + 1) mod cap) n = probe cap idx (S n).
Proof.
  intros H. unfold probe. rewrite Zplus_mod_idemp_l. f_equal. lia.
Qed.

Lemma probe_range cap idx n : 0 < cap -> 0 <= probe cap idx n < cap.
Proof. intros H. unfold probe. apply Z.mod_pos_bound, H. Qed.

Lemma probe_reaches cap idx j :
  0 < cap -> 0 <= idx < cap -> 0 <= j < cap ->
  exists d, (d < Z.to_nat cap)%nat /\ probe cap idx d = j.
Proof.
  intros Hc Hi Hj. exists (Z.to_nat ((j - idx) mod cap)).
  pose proof (Z.mod_pos_bound (j - idx) cap Hc) as Hb.
  split; [lia|]. unfold probe. rewrite Z2Nat.id by lia.
  rewrite Zplus_mod_idemp_r. replace (idx + (j - idx)) with j by lia.
  apply Z.mod_small, Hj.
Qed.

(** The least index at which a decidable property holds. *)
Lemma least_witness_or (P : nat -> bool) d :
  (exists n, (n < d)%nat /\ P n = true /\ forall m, (m < n)%nat -> P m = false)
  \/ (forall m, (m < d)%nat -> P m = false).
Proof.
  induction d as [|d [(n & Hn & HP & Hmin)|Hnone]].
  - right. intros m Hm. lia.
  - left. exists n. split; [lia|]. split; assumption.
  - destruct (P d) eqn:E.
    + left. exists d. split; [lia|]. split; assumption.
    + right. intros m Hm. destruct (decide (m = d)) as [->|Hne];
        [assumption | apply Hnone; lia].
Qed.

Lemma least_witness (P : nat -> bool) d :
  P d = true ->
  exists n, (n <= d)%nat /\ P n = true /\ forall m, (m < n)%nat -> P m = false.
Proof.
  intros Hd. destruct (least_witness_or P (S d)) as [(n & Hn & HP & Hmin)|Hnone].
  - exists n. split; [lia|]. split; assumption.
  - rewrite Hnone in Hd by lia. discriminate.
Qed.

Section probe_loop.
Variables (es : list TableEntry) (cap : Z) (k : ObjString).
Hypothesis Hcap : 0 < cap.

Definition passes (idx : Z) (m : nat) : Prop :=
  exists e', es !! Z.to_nat (probe cap idx m) = Some e' /\ stops k e' = false.

(** What [find_entry_loop] returns when the first stopping slot is the
    [n]-th of the probe. *)
Definition loop_result (idx : Z) (n : nat) (e : TableEntry)
    (tomb : option nat) (r : nat) : Prop :=
  match key e with
  | Some _ => r = Z.to_nat (probe cap idx n)
  | None =>
      match tomb with
      | Some t => r = t
      | None =>
          exists m e', (m <= n)%nat /\ r = Z.to_nat (probe cap idx m)
                       /\ es !! r = Some e' /\ key e' = None
      end
  end.

Lemma find_entry_loop_spec n :
  forall fuel idx tomb e,
    0 <= idx < cap ->
    (forall m, (m < n)%nat -> passes idx m) ->
    es !! Z.to_nat (probe cap idx n) = Some e ->
    stops k e = true ->
    (n < fuel)%nat ->
    exists r, find_entry_loop fuel es cap k idx tomb = Ok r
              /\ loop_result idx n e tomb r.
Proof.
  induction n as [|n IH]; intros fuel idx tomb e Hidx Hpass He Hstop Hfuel.
  - destruct fuel as [|fuel]; [lia|]. simpl.
    rewrite probe_0 in He by assumption. rewrite He.
    unfold stops in Hstop. unfold loop_result.
    destruct (key e) as [k'|] eqn:Hk.
    + rewrite Hstop. eexists; split; [reflexivity|].
      rewrite probe_0 by assumption. reflexivity.
    + rewrite Hstop. eexists; split; [reflexivity|].
      destruct tomb as [t|]; [reflexivity|].
      exists 0%nat, e. rewrite probe_0 by assumption.
      repeat split; [lia | assumption | assumption].
  - destruct fuel as [|fuel]; [lia|]. simpl.
    destruct (Hpass 0%nat ltac:(lia)) as (e0 & He0 & Hns).
    rewrite probe_0 in He0 by assumption. rewrite He0.
    assert (Hidx' : 0 <= (idx + 1) mod cap < cap)
      by (apply Z.mod_pos_bound; assumption).
    assert (Hpass' : forall m, (m < n)%nat -> passes ((idx + 1) mod cap) m).
    { intros m Hm. unfold passes. rewrite probe_S by assumption.
      apply Hpass. lia. }
    assert (He' : es !! Z.to_nat (probe cap ((idx + 1) mod cap) n) = Some e)
      by (rewrite probe_S by assumption; exact He).
    unfold stops in Hns. destruct (key e0) as [k0|] eqn:Hk0.
    + rewrite Hns.
      destruct (IH fuel _ tomb e Hidx' Hpass' He' Hstop ltac:(lia))
        as (r & Hr & Hres).
      exists r. split; [exact Hr|].
      unfold loop_result in *. rewrite probe_S in Hres by assumption.
      destruct (key e); [exact Hres|].
      destruct tomb; [exact Hres|].
      destruct Hres as (m & e' & Hm & -> & Hl & Hk').
      exists (S m), e'. rewrite probe_S in Hl |- * by assumption.
      repeat split; [lia | assumption | assumption].
    + rewrite Hns.
      destruct (IH fuel _
                  (match tomb with Some t => Some t
                              | None => Some (Z.to_nat idx) end)
                  e Hidx' Hpass' He' Hstop ltac:(lia))
        as (r & Hr & Hres).
      exists r. split; [exact Hr|].
      unfold loop_result in *. rewrite probe_S in Hres by assumption.
      destruct (key e); [exact Hres|].
      destruct tomb as [t|]; [exact Hres|].
      subst r. exists 0%nat, e0. rewrite probe_0 by assumption.
      repeat split; [lia | assumption | assumption].
Qed.

End probe_loop.

(** *** [find_entry] returns whenever the storage has an empty slot *)

Record storage_ok (es : list TableEntry) (cap : Z) : Prop := {
  st_len : length es = Z.to_nat cap;
  st_cap : 0 < cap
}.

Lemma storage_lookup es cap i :
  storage_ok es cap -> 0 <= i < cap -> exists e, es !! Z.to_nat i = Some e.
Proof.
  intros [Hl Hc] Hi. apply lookup_lt_is_Some_2. lia.
Qed.

Lemma find_entry_spec es cap k :
  storage_ok es cap ->
  (exists j e, es !! j = Some e /\ is_empty_entry e = true) ->
  exists n e r,
    (n < Z.to_nat cap)%nat
    /\ (forall m, (m < n)%nat -> passes es cap k (s_hash k mod cap) m)
    /\ es !! Z.to_nat (probe cap (s_hash k mod cap) n) = Some e
    /\ stops k e = true
    /\ find_entry es cap k = Ok (Some r)
    /\ loop_result es cap (s_hash k mod cap) n e None r.
Proof.
  intros Hok (j & ej & Hj & Hej). pose proof Hok as [Hl Hc].
  set (h := s_hash k mod cap).
  assert (Hh : 0 <= h < cap) by (apply Z.mod_pos_bound; assumption).
  assert (Hjlt : (j < length es)%nat) by (eapply lookup_lt_Some; eassumption).
  destruct (probe_reaches cap h (Z.of_nat j) Hc Hh ltac:(lia)) as (d & Hd & Hpd).
  set (P := fun m : nat =>
              match es !! Z.to_nat (probe cap h m) with
              | Some e => stops k e
              | None => false
              end).
  assert (HPd : P d = true).
  { unfold P. rewrite Hpd, Nat2Z.id, Hj. unfold stops.
    unfold is_empty_entry in Hej. destruct (key ej); [discriminate | exact Hej]. }
  destruct (least_witness P d HPd) as (n & Hn & HPn & Hmin).
  unfold P in HPn.
  destruct (es !! Z.to_nat (probe cap h n)) as [e|] eqn:He; [|discriminate].
  assert (Hpass : forall m, (m < n)%nat -> passes es cap k h m).
  { intros m Hm. specialize (Hmin m Hm). unfold P in Hmin. unfold passes.
    destruct (storage_lookup es cap (probe cap h m) Hok (probe_range _ _ _ Hc))
      as (e' & He').
    rewrite He' in Hmin. exists e'. split; [exact He' | exact Hmin]. }
  destruct (find_entry_loop_spec es cap k Hc n (Z.to_nat cap) h None e
              Hh Hpass He HPn ltac:(lia)) as (r & Hr & Hres).
  exists n, e, r. repeat split; try assumption; try lia.
  unfold find_entry. destruct (cap =? 0) eqn:E; [lia|].
  fold h. rewrite Hr. reflexivity.
Qed.

(** The slot returned holds no key, or the key searched for. *)
Lemma find_entry_slot es cap k :
  storage_ok es cap ->
  (exists j e, es !! j = Some e /\ is_empty_entry e = true) ->
  exists r e, find_entry es cap k = Ok (Some r)
              /\ es !! r = Some e
              /\ match key e with
                 | None => True
                 | Some k' => same_obj k' k = true
                 end.
Proof.
  intros Hok Hempty.
  destruct (find_entry_spec es cap k Hok Hempty)
    as (n & e & r & Hn & Hpass & He & Hstop & Hfind & Hres).
  unfold loop_result in Hres. unfold stops in Hstop.
  destruct (key e) as [k'|] eqn:Hk.
  - subst r. eexists _, e. rewrite Hk. repeat split; eassumption.
  - destruct Hres as (m & e' & _ & _ & He' & Hk').
    exists r, e'. rewrite Hk'. repeat split; assumption.
Qed.

(** *** The load-factor invariant *)

Fixpoint live_slots (es : list TableEntry) : Z :=
  match es with
  | [] => 0
  | e :: es' => (match key e with Some _ => 1 | None => 0 end) + live_slots es'
  end.

Lemma live_slots_le_used es : 0 <= live_slots es <= used_slots es.
Proof.
  induction es as [|e es IH]; simpl; [lia|].
  unfold is_empty_entry. destruct (key e); [lia|].
  destruct (IS_NIL (value e)); lia.
Qed.

(** [count] bounds the number of used slots, and stays within three
    quarters of the capacity. *)
Record load_ok (t : ObjTable) : Prop := {
  lo_len : length (entries t) = Z.to_nat (capacity t);
  lo_cap : 0 <= capacity t;
  lo_used : used_slots (entries t) <= count t;
  lo_load : 4 * count t <= 3 * capacity t
}.

Lemma load_ok_create : load_ok table_create.
Proof. split; simpl; lia. Qed.

Lemma load_ok_has_empty t :
  load_ok t -> 0 < capacity t ->
  exists j e, entries t !! j = Some e /\ is_empty_entry e = true.
Proof.
  intros [Hl Hc Hu Hld] Hpos. apply used_slots_has_empty. lia.
Qed.

Lemma rehash_ok old :
  forall es cap cnt,
    storage_ok es cap ->
    used_slots es + live_slots old < cap ->
    exists es',
      rehash old es cap cnt = Ok (es', cnt + live_slots old)
      /\ length es' = length es
      /\ used_slots es' <= used_slots es + live_slots old.
Proof.
  induction old as [|e old IH]; intros es cap cnt Hok Hroom; simpl in *.
  - exists es. rewrite Z.add_0_r. repeat split; lia.
  - destruct (key e) as [k|] eqn:Hk; cbn iota in *.
    + pose proof (live_slots_le_used old) as Hlo.
      pose proof Hok as [Hl Hc].
      destruct (find_entry_slot es cap k Hok) as (r & er & Hfind & Her & _).
      { apply used_slots_has_empty. lia. }
      rewrite Hfind. simpl.
      set (es1 := <[r := _]> es).
      assert (Hu1 : used_slots es1 <= used_slots es + 1).
      { unfold es1. rewrite (used_slots_insert es r er _ Her).
        unfold is_empty_entry at 2. simpl. destruct (is_empty_entry er); lia. }
      destruct (IH es1 cap (cnt + 1)) as (es' & Hre & Hlen & Hused).
      { split; [|assumption]. unfold es1. rewrite length_insert. exact Hl. }
      { lia. }
      exists es'. rewrite Hre. split; [rewrite Z.add_assoc; reflexivity|].
      split; [unfold es1 in Hlen; rewrite length_insert in Hlen; exact Hlen|].
      lia.
    + destruct (IH es cap cnt Hok ltac:(lia)) as (es' & Hre & Hlen & Hused).
      exists es'. rewrite Hre, Z.add_0_l. repeat split; lia.
Qed.

Lemma grow_table_ok t cap' :
  load_ok t -> capacity t <= cap' -> 0 < cap' ->
  exists t',
    grow_table t cap' = Ok t'
    /\ capacity t' = cap'
    /\ length (entries t') = Z.to_nat cap'
    /\ used_slots (entries t') <= count t'
    /\ count t' <= count t.
Proof.
  intros [Hl Hc Hu Hld] Hle Hpos. unfold grow_table.
  pose proof (live_slots_le_used (entries t)) as Hlive.
  pose proof (used_slots_bounds (entries t)) as Hub.
  destruct (rehash_ok (entries t) (replicate (Z.to_nat cap') empty_entry) cap' 0)
    as (es' & Hre & Hlen & Hused).
  - split; [apply length_replicate | assumption].
  - rewrite used_slots_replicate. lia.
  - rewrite Hre. simpl. eexists. split; [reflexivity|]. simpl.
    rewrite used_slots_replicate in Hused. rewrite length_replicate in Hlen.
    repeat split; lia.
Qed.

(** [table_set] returns and keeps the invariant, unless doubling the
    capacity overflows [int]. *)
Lemma table_set_load_ok t k v c :
  load_ok t ->
  (3 * capacity t < 4 * (count t + 1) -> capacity t * 2 <= INT_MAX) ->
  exists t' b,
    table_set t k v c = Ok (t', b)
    /\ load_ok t'
    /\ count t' <= count t + 1
    /\ (capacity t' = capacity t
        \/ 3 * capacity t < 4 * (count t + 1)
           /\ capacity t' = (if capacity t <? 8 then 8 else capacity t * 2)).
Proof.
  intros Hok Hovf. unfold table_set.
  assert (Hgrow : exists t1,
    (if 3 * capacity t <? 4 * (count t + 1)
     then capacity' ←
            (if capacity t <? 8 then Ok 8
             else if INT_MAX <? capacity t * 2 then Fault
                  else Ok (capacity t * 2));
          grow_table t capacity'
     else Ok t) = Ok t1
    /\ length (entries t1) = Z.to_nat (capacity t1)
    /\ used_slots (entries t1) <= count t1
    /\ 4 * (count t1 + 1) <= 3 * capacity t1
    /\ count t1 <= count t
    /\ (capacity t1 = capacity t
        \/ 3 * capacity t < 4 * (count t + 1)
           /\ capacity t1 = (if capacity t <? 8 then 8 else capacity t * 2))).
  { destruct Hok as [Hl Hc Hu Hld].
    destruct (3 * capacity t <? 4 * (count t + 1)) eqn:Hfull.
    - apply Z.ltb_lt in Hfull. specialize (Hovf Hfull).
      destruct (capacity t <? 8) eqn:Hsmall.
      + apply Z.ltb_lt in Hsmall.
        destruct (grow_table_ok t 8) as (t1 & Hg & Hcap & Hlen & Hused & Hcnt);
          [split; assumption | lia | lia |].
        exists t1. simpl. rewrite Hg.
        repeat split; try assumption; lia.
      + apply Z.ltb_ge in Hsmall.
        destruct (INT_MAX <? capacity t * 2) eqn:Hmax;
          [apply Z.ltb_lt in Hmax; lia|].
        destruct (grow_table_ok t (capacity t * 2))
          as (t1 & Hg & Hcap & Hlen & Hused & Hcnt);
          [split; assumption | lia | lia |].
        exists t1. simpl. rewrite Hg.
        repeat split; try assumption; lia.
    - apply Z.ltb_ge in Hfull. exists t.
      repeat split; try assumption; lia. }
  destruct Hgrow as (t1 & -> & Hlen & Hused & Hload & Hcnt & Hcap). simpl.
  pose proof (used_slots_bounds (entries t1)) as Hub.
  assert (Hst : storage_ok (entries t1) (capacity t1)) by (split; lia).
  destruct (find_entry_slot (entries t1) (capacity t1) k Hst)
    as (r & e & Hfind & He & _).
  { apply used_slots_has_empty. lia. }
  rewrite Hfind. simpl. rewrite He.
  eexists _, _. split; [reflexivity|]. simpl.
  assert (Hins := used_slots_insert (entries t1) r e
                    {| key := Some k; value := v; is_const := c |} He).
  unfold is_empty_entry at 2 in Hins. simpl in Hins.
  unfold is_empty_entry in Hins.
  split; [split; simpl|].
  - rewrite length_insert. exact Hlen.
  - lia.
  - rewrite Hins. destruct (key e); simpl; [lia|].
    destruct (IS_NIL (value e)); lia.
  - destruct (key e); simpl; [lia|]. destruct (IS_NIL (value e)); lia.
  - split; [|exact Hcap].
    destruct (key e); simpl; [lia|]. destruct (IS_NIL (value e)); lia.
Qed.

Lemma table_delete_load_ok t k :
  load_ok t ->
  exists t' b,
    table_delete_entries t k = Ok (t', b)
    /\ load_ok t' /\ count t' = count t /\ capacity t' = capacity t.
Proof.
  intros Hok. unfold table_delete_entries.
  destruct (count t =? 0) eqn:Hz.
  - exists t, false. repeat split; try reflexivity; apply Hok.
  - apply Z.eqb_neq in Hz. pose proof Hok as [Hl Hc Hu Hld].
    pose proof (used_slots_bounds (entries t)) as Hub.
    assert (Hst : storage_ok (entries t) (capacity t)) by (split; lia).
    destruct (find_entry_slot (entries t) (capacity t) k Hst)
      as (r & e & Hfind & He & _).
    { apply used_slots_has_empty. lia. }
    rewrite Hfind. simpl. rewrite He.
    destruct (key e) as [k'|] eqn:Hk.
    + eexists _, _. split; [reflexivity|]. simpl.
      split; [split; simpl|split; reflexivity].
      * rewrite length_insert. exact Hl.
      * exact Hc.
      * rewrite (used_slots_insert _ _ _ _ He). unfold is_empty_entry.
        rewrite Hk. simpl. lia.
      * exact Hld.
    + exists t, false. repeat split; try reflexivity; assumption.
Qed.

(** A string object at the address [a] with the hash [h]. *)
Definition sample_key (a : nat) (h : Z) : ObjString :=
  {| s_addr := a; s_length := 1; s_hash := h; s_chars := "k" |}.

(** *** Keys held by the storage, and the probe-chain invariant *)

(** Slot [i] of the storage holds the live entry [e] under key [k]. *)
Definition holds (es : list TableEntry) (i : nat) (k : ObjString)
    (e : TableEntry) : Prop :=
  es !! i = Some e /\ key e = Some k.

(** No two slots hold the same string object. *)
Definition uniq (es : list TableEntry) : Prop :=
  forall i j k1 k2 e1 e2,
    holds es i k1 e1 -> holds es j k2 e2 -> s_addr k1 = s_addr k2 -> i = j.

(** Every live entry is reached from its home slot without crossing an
    empty slot. *)
Definition probe_inv (es : list TableEntry) (cap : Z) : Prop :=
  forall j k e,
    holds es j k e ->
    exists n,
      (n < Z.to_nat cap)%nat
      /\ Z.to_nat (probe cap (s_hash k mod cap) n) = j
      /\ forall m, (m < n)%nat ->
           exists e', es !! Z.to_nat (probe cap (s_hash k mod cap) m) = Some e'
                      /\ is_empty_entry e' = false.

(** No slot holds the object [k]. *)
Definition fresh_in (es : list TableEntry) (k : ObjString) : Prop :=
  forall j k' e, holds es j k' e -> s_addr k' <> s_addr k.

Lemma same_obj_true a b : same_obj a b = true <-> s_addr a = s_addr b.
Proof. unfold same_obj. apply Nat.eqb_eq. Qed.

Lemma same_obj_false a b : same_obj a b = false <-> s_addr a <> s_addr b.
Proof. unfold same_obj. apply Nat.eqb_neq. Qed.

Lemma stops_false_used k e : stops k e = false -> is_empty_entry e = false.
Proof.
  unfold stops, is_empty_entry. destruct (key e); [reflexivity | tauto].
Qed.

(** A key held by the table is found in its slot. *)
Lemma find_entry_found es cap k j k' e :
  storage_ok es cap ->
  (exists i e0, es !! i = Some e0 /\ is_empty_entry e0 = true) ->
  uniq es -> probe_inv es cap ->
  holds es j k' e -> s_addr k' = s_addr k -> s_hash k' = s_hash k ->
  find_entry es cap k = Ok (Some j).
Proof.
  intros Hok Hempty Huniq Hpi Hj Haddr Hhash.
  destruct (find_entry_spec es cap k Hok Hempty)
    as (n0 & e0 & r & Hn0 & Hpass & He0 & Hstop & Hfind & Hres).
  destruct (Hpi j k' e Hj) as (n & Hn & Hpn & Hbefore).
  rewrite Hhash in Hpn, Hbefore.
  rewrite Hfind. do 2 f_equal.
  destruct Hj as [Hje Hjk].
  destruct (lt_eq_lt_dec n0 n) as [[Hlt|Heq]|Hgt].
  - (* the probe stops before reaching slot [j]: at another copy of [k] *)
    destruct (Hbefore n0 Hlt) as (e' & He' & Hne).
    rewrite He0 in He'. injection He' as <-.
    unfold stops in Hstop. unfold is_empty_entry in Hne.
    unfold loop_result in Hres.
    destruct (key e0) as [k0|] eqn:Hk0; [|congruence].
    subst r. apply same_obj_true in Hstop.
    apply (Huniq _ _ k0 k' e0 e); [split; assumption | split; assumption | congruence].
  - subst n0. rewrite Hpn in He0. rewrite Hje in He0. injection He0 as <-.
    unfold loop_result in Hres. rewrite Hjk in Hres. congruence.
  - destruct (Hpass n Hgt) as (e' & He' & Hns).
    rewrite Hpn, Hje in He'. injection He' as <-.
    unfold stops in Hns. rewrite Hjk in Hns.
    apply same_obj_false in Hns. contradiction.
Qed.

(** A key not held by the table leads to a slot without key that lies
    on its probe path before any empty slot. *)
Lemma find_entry_fresh es cap k :
  storage_ok es cap ->
  (exists i e0, es !! i = Some e0 /\ is_empty_entry e0 = true) ->
  fresh_in es k ->
  exists r e m,
    find_entry es cap k = Ok (Some r)
    /\ es !! r = Some e /\ key e = None
    /\ (m < Z.to_nat cap)%nat
    /\ r = Z.to_nat (probe cap (s_hash k mod cap) m)
    /\ forall m', (m' < m)%nat ->
         exists e', es !! Z.to_nat (probe cap (s_hash k mod cap) m') = Some e'
                    /\ is_empty_entry e' = false.
Proof.
  intros Hok Hempty Hfresh.
  destruct (find_entry_spec es cap k Hok Hempty)
    as (n0 & e0 & r & Hn0 & Hpass & He0 & Hstop & Hfind & Hres).
  unfold loop_result in Hres. unfold stops in Hstop.
  destruct (key e0) as [k0|] eqn:Hk0.
  - exfalso. apply same_obj_true in Hstop.
    apply (Hfresh _ k0 e0 (conj He0 Hk0)). assumption.
  - destruct Hres as (m & e' & Hm & Hr & He' & Hk').
    exists r, e', m. repeat split; try assumption; [lia|].
    intros m' Hm'. destruct (Hpass m' ltac:(lia)) as (e1 & He1 & Hns).
    exists e1. split; [assumption | eapply stops_false_used; eassumption].
Qed.

(** *** Writing a slot *)

Lemma holds_insert es r ne i k e :
  holds (<[r := ne]> es) i k e <->
  (i = r /\ (r < length es)%nat /\ e = ne /\ key ne = Some k)
  \/ (i <> r /\ holds es i k e).
Proof.
  unfold holds. destruct (decide (i = r)) as [->|Hne].
  - destruct (decide (r < length es)%nat) as [Hlt|Hge].
    + rewrite list_lookup_insert_eq by assumption. split.
      * intros [[= <-] Hk]. left. repeat split; assumption.
      * intros [(_ & _ & -> & Hk)|[Hc _]]; [split; [reflexivity|assumption]|].
        contradiction.
    + rewrite list_insert_ge by lia. split.
      * intros [He _]. apply lookup_lt_Some in He. lia.
      * intros [(_ & Hlt & _)|[Hc _]]; [lia | contradiction].
  - rewrite list_lookup_insert_ne by congruence. split.
    + intros H. right. split; assumption.
    + intros [(Hc & _)|[_ H]]; [contradiction | assumption].
Qed.

Lemma used_insert (es : list TableEntry) (r : nat) ne (i : nat) :
  is_empty_entry ne = false ->
  (exists e', es !! i = Some e' /\ is_empty_entry e' = false) ->
  exists e', <[r := ne]> es !! i = Some e' /\ is_empty_entry e' = false.
Proof.
  intros Hne (e' & He' & Hu). destruct (decide (i = r)) as [->|Hd].
  - exists ne. split; [|assumption].
    apply list_lookup_insert_eq. eapply lookup_lt_Some; eassumption.
  - exists e'. rewrite list_lookup_insert_ne by congruence. split; assumption.
Qed.

(** Replacing a slot by a used entry keeps the invariants, provided the
    key written (if any) is held nowhere else and slot [r] lies on its
    probe path before any empty slot. *)
Lemma replace_slot_inv es cap r ne :
  uniq es -> probe_inv es cap ->
  is_empty_entry ne = false ->
  (forall k, key ne = Some k ->
     (forall j k2 e2, j <> r -> holds es j k2 e2 -> s_addr k2 <> s_addr k)
     /\ exists n,
          (n < Z.to_nat cap)%nat
          /\ Z.to_nat (probe cap (s_hash k mod cap) n) = r
          /\ forall m, (m < n)%nat ->
               exists e', es !! Z.to_nat (probe cap (s_hash k mod cap) m) = Some e'
                          /\ is_empty_entry e' = false) ->
  uniq (<[r := ne]> es) /\ probe_inv (<[r := ne]> es) cap.
Proof.
  intros Huniq Hpi Hused Hkey. split.
  - intros i j k1 k2 e1 e2 H1 H2 Haddr.
    apply holds_insert in H1. apply holds_insert in H2.
    destruct H1 as [(-> & _ & -> & Hk1)|[Hi H1]];
      destruct H2 as [(-> & _ & -> & Hk2)|[Hj H2]].
    + reflexivity.
    + exfalso. destruct (Hkey k1 Hk1) as [Hother _].
      apply (Hother j k2 e2 Hj H2). congruence.
    + exfalso. destruct (Hkey k2 Hk2) as [Hother _].
      apply (Hother i k1 e1 Hi H1). congruence.
    + eapply Huniq; eassumption.
  - intros j k e Hj. apply holds_insert in Hj.
    destruct Hj as [(-> & _ & -> & Hk)|[Hne Hj]].
    + destruct (Hkey k Hk) as [_ (n & Hn & Hpn & Hbefore)].
      exists n. repeat split; [assumption | assumption |].
      intros m Hm. apply used_insert; [assumption | apply Hbefore, Hm].
    + destruct (Hpi j k e Hj) as (n & Hn & Hpn & Hbefore).
      exists n. repeat split; [assumption | assumption |].
      intros m Hm. apply used_insert; [assumption | apply Hbefore, Hm].
Qed.

(** *** Rehashing *)

Lemma entry_eta e k :
  key e = Some k ->
  {| key := Some k; value := value e; is_const := is_const e |} = e.
Proof. destruct e; simpl; intros ->; reflexivity. Qed.

Lemma holds_cons_S e old i k e' :
  holds (e :: old) (S i) k e' <-> holds old i k e'.
Proof. unfold holds. simpl. tauto. Qed.

Lemma holds_cons_0 e old k e' :
  holds (e :: old) 0 k e' <-> e' = e /\ key e = Some k.
Proof.
  unfold holds. simpl. split.
  - intros [[= ->] H]. split; [reflexivity | assumption].
  - intros [-> H]. split; [reflexivity | assumption].
Qed.

Lemma uniq_tail e old : uniq (e :: old) -> uniq old.
Proof.
  intros H i j k1 k2 e1 e2 H1 H2 Ha.
  apply holds_cons_S with (e := e) in H1, H2.
  specialize (H _ _ _ _ _ _ H1 H2 Ha). lia.
Qed.

(** Rehashing entries with pairwise distinct keys, none of them in the
    new storage, places each of them and keeps the invariants. *)
Lemma rehash_wf old :
  forall es cap cnt,
    storage_ok es cap ->
    used_slots es + live_slots old < cap ->
    uniq es -> probe_inv es cap -> uniq old ->
    (forall i k e j k' e',
        holds old i k e -> holds es j k' e' -> s_addr k <> s_addr k') ->
    exists es',
      rehash old es cap cnt = Ok (es', cnt + live_slots old)
      /\ length es' = length es
      /\ used_slots es' <= used_slots es + live_slots old
      /\ uniq es' /\ probe_inv es' cap
      /\ forall k e,
           (exists j, holds es' j k e) <->
           (exists j, holds es j k e) \/ (exists i, holds old i k e).
Proof.
  induction old as [|e old IH];
    intros es cap cnt Hok Hroom Huniq Hpi Huold Hcross; simpl in *.
  - exists es. rewrite Z.add_0_r. repeat split; try assumption; try lia.
    + intros H. left. exact H.
    + intros [H|[i [H _]]]; [exact H | discriminate].
  - pose proof (live_slots_le_used old) as Hlo. pose proof Hok as [Hl Hc].
    destruct (key e) as [k|] eqn:Hk; cbn iota in *.
    + assert (Hfresh : fresh_in es k).
      { intros j k' e' Hj Ha.
        apply (Hcross 0%nat k e j k' e'); [|assumption|congruence].
        apply holds_cons_0. split; [reflexivity | assumption]. }
      destruct (find_entry_fresh es cap k Hok) as
        (r & er & m & Hfind & Her & Hker & Hm & Hr & Hpath);
        [apply used_slots_has_empty; lia | assumption |].
      rewrite Hfind. simpl. rewrite (entry_eta e k Hk).
      set (es1 := <[r := e]> es).
      assert (Hrlt : (r < length es)%nat) by (eapply lookup_lt_Some; eassumption).
      assert (Hue : is_empty_entry e = false)
        by (unfold is_empty_entry; rewrite Hk; reflexivity).
      destruct (replace_slot_inv es cap r e Huniq Hpi Hue) as [Hu1 Hp1].
      { intros k0 Hk0. rewrite Hk in Hk0. injection Hk0 as <-. split.
        - intros j k2 e2 _ Hj. eapply Hfresh; eassumption.
        - exists m. repeat split; [assumption | congruence | assumption]. }
      assert (Hused1 : used_slots es1 <= used_slots es + 1).
      { unfold es1. rewrite (used_slots_insert es r er e Her), Hue.
        destruct (is_empty_entry er); lia. }
      destruct (IH es1 cap (cnt + 1)) as (es' & Hre & Hlen & Hused & Hu' & Hp' & Hiff).
      * split; [unfold es1; rewrite length_insert; exact Hl | exact Hc].
      * lia.
      * exact Hu1.
      * exact Hp1.
      * eapply uniq_tail; eassumption.
      * intros i k2 e2 j k' e' Hi Hj. unfold es1 in Hj. apply holds_insert in Hj.
        destruct Hj as [(-> & _ & -> & Hk')|[_ Hj]].
        -- rewrite Hk in Hk'. injection Hk' as <-. intros Ha.
           assert (S i = 0%nat); [|lia].
           apply (Huold (S i) 0%nat k2 k e2 e); [apply holds_cons_S; assumption | | assumption].
           apply holds_cons_0. split; [reflexivity | assumption].
        -- apply (Hcross (S i) k2 e2 j k' e'); [apply holds_cons_S|]; assumption.
      * exists es'. rewrite Hre. split; [rewrite Z.add_assoc; reflexivity|].
        split; [unfold es1 in Hlen; rewrite length_insert in Hlen; exact Hlen|].
        split; [lia|]. split; [assumption|]. split; [assumption|].
        intros k2 e2. rewrite Hiff. unfold es1. split.
        -- intros [[j Hj]|[i Hi]].
           ++ apply holds_insert in Hj. destruct Hj as [(-> & _ & -> & Hk')|[_ Hj]].
              ** right. exists 0%nat. apply holds_cons_0. split; [reflexivity | assumption].
              ** left. exists j. assumption.
           ++ right. exists (S i). apply holds_cons_S. assumption.
        -- intros [[j Hj]|[[|i] Hi]].
           ++ left. exists j. apply holds_insert. right. split; [|assumption].
              intros ->. destruct Hj as [Hj1 Hj2]. congruence.
           ++ apply (proj1 (holds_cons_0 _ _ _ _)) in Hi. destruct Hi as [-> Hk2].
              left. exists r. apply holds_insert. left.
              repeat split; assumption.
           ++ right. exists i. apply (proj1 (holds_cons_S _ _ _ _ _)) in Hi. assumption.
    + destruct (IH es cap cnt Hok ltac:(lia) Huniq Hpi (uniq_tail _ _ Huold))
        as (es' & Hre & Hlen & Hused & Hu' & Hp' & Hiff).
      * intros i k2 e2 j k' e' Hi Hj.
        apply (Hcross (S i) k2 e2 j k' e'); [apply holds_cons_S|]; assumption.
      * exists es'. rewrite Hre, Z.add_0_l.
        split; [reflexivity|]. split; [assumption|]. split; [lia|].
        split; [assumption|]. split; [assumption|].
        intros k2 e2. rewrite Hiff. split.
        -- intros [H|[i Hi]]; [left; assumption|].
           right. exists (S i). apply holds_cons_S. assumption.
        -- intros [H|[[|i] Hi]]; [left; assumption| |].
           ++ apply (proj1 (holds_cons_0 _ _ _ _)) in Hi. destruct Hi as [_ Hk2]. congruence.
           ++ right. exists i. apply (proj1 (holds_cons_S _ _ _ _ _)) in Hi. assumption.
Qed.

(** *** Well-formed tables and the finite map they represent *)

Record table_wf (t : ObjTable) : Prop := {
  wf_load : load_ok t;
  wf_uniq : uniq (entries t);
  wf_probe : probe_inv (entries t) (capacity t)
}.

(** [bound t k e]: the table maps the string object [k] to the entry [e]. *)
Definition bound (t : ObjTable) (k : ObjString) (e : TableEntry) : Prop :=
  exists j k', holds (entries t) j k' e /\ s_addr k' = s_addr k.

(** The object [k] carries the hash under which the table filed it; this
    holds whenever the keys of the table and [k] come from one heap, where
    an address determines the object. *)
Definition agrees (t : ObjTable) (k : ObjString) : Prop :=
  forall j k' e, holds (entries t) j k' e -> s_addr k' = s_addr k ->
                 s_hash k' = s_hash k.

Lemma holds_replicate n j k e : ~ holds (replicate n empty_entry) j k e.
Proof.
  intros [Hl Hk]. apply lookup_replicate in Hl as [-> _]. discriminate.
Qed.

Lemma table_wf_create : table_wf table_create.
Proof.
  split; [apply load_ok_create | |].
  - intros i j k1 k2 e1 e2 [H _]. discriminate.
  - intros j k e [H _]. discriminate.
Qed.

Lemma holds_used es j k e : holds es j k e -> 1 <= used_slots es.
Proof.
  revert j. induction es as [|x es IH]; intros [|j] [Hl Hk]; simpl in *;
    try discriminate.
  - injection Hl as ->. unfold is_empty_entry. rewrite Hk.
    pose proof (used_slots_bounds es). lia.
  - specialize (IH j (conj Hl Hk)). destruct (is_empty_entry x); lia.
Qed.

Lemma table_wf_has_empty t :
  table_wf t -> 0 < capacity t ->
  exists j e, entries t !! j = Some e /\ is_empty_entry e = true.
Proof. intros [Hl _ _]. apply load_ok_has_empty, Hl. Qed.

Lemma table_wf_storage t :
  table_wf t -> 0 < capacity t -> storage_ok (entries t) (capacity t).
Proof. intros [[Hl _ _ _] _ _] Hc. split; assumption. Qed.

Lemma bound_capacity t k e : table_wf t -> bound t k e -> 0 < capacity t /\ 0 < count t.
Proof.
  intros [[Hl Hc Hu Hld] _ _] (j & k' & Hj & _).
  apply holds_used in Hj. lia.
Qed.

Lemma grow_table_wf t cap' :
  table_wf t -> capacity t <= cap' -> 0 < cap' ->
  exists t',
    grow_table t cap' = Ok t'
    /\ capacity t' = cap'
    /\ length (entries t') = Z.to_nat cap'
    /\ used_slots (entries t') <= count t'
    /\ count t' <= count t
    /\ uniq (entries t') /\ probe_inv (entries t') cap'
    /\ forall k e, (exists j, holds (entries t') j k e)
                   <-> (exists j, holds (entries t) j k e).
Proof.
  intros [[Hl Hc Hu Hld] Huniq Hpi] Hle Hpos. unfold grow_table.
  pose proof (live_slots_le_used (entries t)) as Hlive.
  pose proof (used_slots_bounds (entries t)) as Hub.
  destruct (rehash_wf (entries t) (replicate (Z.to_nat cap') empty_entry) cap' 0)
    as (es' & Hre & Hlen & Hused & Hu' & Hp' & Hiff).
  - split; [apply length_replicate | assumption].
  - rewrite used_slots_replicate. lia.
  - intros i j k1 k2 e1 e2 H1. exfalso. eapply holds_replicate, H1.
  - intros j k e H1. exfalso. eapply holds_replicate, H1.
  - assumption.
  - intros i k e j k' e' _ H2. exfalso. eapply holds_replicate, H2.
  - rewrite Hre. simpl. eexists. split; [reflexivity|]. simpl.
    rewrite used_slots_replicate in Hused. rewrite length_replicate in Hlen.
    split; [reflexivity|]. split; [assumption|]. split; [lia|]. split; [lia|].
    split; [assumption|]. split; [assumption|].
    intros k e. rewrite Hiff. split; [|intros H; right; exact H].
    intros [[j H]|H]; [|exact H]. exfalso. eapply holds_replicate, H.
Qed.

Lemma table_get_bound t k e :
  table_wf t -> agrees t k -> bound t k e ->
  table_get t k = Ok (Some (value e)).
Proof.
  intros Hwf Hag Hb. destruct (bound_capacity t k e Hwf Hb) as [Hc Hcnt].
  destruct Hb as (j & k' & Hj & Ha). unfold table_get.
  destruct (count t =? 0) eqn:E; [lia|].
  rewrite (find_entry_found (entries t) (capacity t) k j k' e);
    try assumption.
  - simpl. destruct Hj as [-> ->]. reflexivity.
  - apply table_wf_storage; assumption.
  - apply table_wf_has_empty; assumption.
  - apply Hwf.
  - apply Hwf.
  - eapply Hag; eassumption.
Qed.

Lemma table_get_unbound t k :
  table_wf t -> (forall e, ~ bound t k e) -> table_get t k = Ok None.
Proof.
  intros Hwf Hnb. unfold table_get.
  destruct (count t =? 0) eqn:E; [reflexivity|]. apply Z.eqb_neq in E.
  assert (Hc : 0 < capacity t).
  { destruct Hwf as [[Hl Hc Hu Hld] _ _].
    pose proof (used_slots_bounds (entries t)). lia. }
  destruct (find_entry_fresh (entries t) (capacity t) k)
    as (r & e & m & Hfind & He & Hk & _).
  - apply table_wf_storage; assumption.
  - apply table_wf_has_empty; assumption.
  - intros j k' e Hj Ha. apply (Hnb e). exists j, k'. split; assumption.
  - rewrite Hfind. simpl. rewrite He, Hk. reflexivity.
Qed.

(** The growth step at the head of [table_set]. *)
Lemma table_set_reserve t :
  table_wf t ->
  (3 * capacity t < 4 * (count t + 1) -> capacity t * 2 <= INT_MAX) ->
  exists t1,
    (if 3 * capacity t <? 4 * (count t + 1)
     then capacity' ←
            (if capacity t <? 8 then Ok 8
             else if INT_MAX <? capacity t * 2 then Fault
                  else Ok (capacity t * 2));
          grow_table t capacity'
     else Ok t) = Ok t1
    /\ length (entries t1) = Z.to_nat (capacity t1)
    /\ used_slots (entries t1) <= count t1
    /\ 4 * (count t1 + 1) <= 3 * capacity t1
    /\ count t1 <= count t
    /\ (capacity t1 = capacity t
        \/ 3 * capacity t < 4 * (count t + 1)
           /\ capacity t1 = (if capacity t <? 8 then 8 else capacity t * 2))
    /\ uniq (entries t1) /\ probe_inv (entries t1) (capacity t1)
    /\ forall k e, (exists j, holds (entries t1) j k e)
                   <-> (exists j, holds (entries t) j k e).
Proof.
  intros Hwf Hovf. pose proof Hwf as [[Hl Hc Hu Hld] Huniq Hpi].
  destruct (3 * capacity t <? 4 * (count t + 1)) eqn:Hfull.
  - apply Z.ltb_lt in Hfull. specialize (Hovf Hfull).
    destruct (capacity t <? 8) eqn:Hsmall.
    + apply Z.ltb_lt in Hsmall.
      destruct (grow_table_wf t 8 Hwf)
        as (t1 & Hg & Hcap & Hlen & Hused & Hcnt & Hu1 & Hp1 & Hiff); [lia | lia |].
      exists t1. simpl. rewrite Hg, Hcap.
      split; [reflexivity|]. split; [assumption|]. split; [assumption|].
      split; [lia|]. split; [assumption|]. split; [right; lia|].
      split; [assumption|]. split; assumption.
    + apply Z.ltb_ge in Hsmall.
      destruct (INT_MAX <? capacity t * 2) eqn:Hmax;
        [apply Z.ltb_lt in Hmax; lia|].
      destruct (grow_table_wf t (capacity t * 2) Hwf)
        as (t1 & Hg & Hcap & Hlen & Hused & Hcnt & Hu1 & Hp1 & Hiff); [lia | lia |].
      exists t1. simpl. rewrite Hg, Hcap.
      split; [reflexivity|]. split; [assumption|]. split; [assumption|].
      split; [lia|]. split; [assumption|]. split; [right; lia|].
      split; [assumption|]. split; assumption.
  - apply Z.ltb_ge in Hfull. exists t.
    split; [reflexivity|]. split; [assumption|]. split; [assumption|].
    split; [lia|]. split; [lia|]. split; [left; reflexivity|].
    split; [assumption|]. split; [assumption|]. intros; reflexivity.
Qed.

(** [table_set] as an update of the finite map: it returns, keeps the
    table well formed, binds [k] to the new entry and leaves every other
    binding as it was; its result tells whether [k] was unbound. *)
Lemma table_set_spec t k v c :
  table_wf t -> agrees t k ->
  (3 * capacity t < 4 * (count t + 1) -> capacity t * 2 <= INT_MAX) ->
  exists t' b,
    table_set t k v c = Ok (t', b)
    /\ table_wf t'
    /\ bound t' k {| key := Some k; value := v; is_const := c |}
    /\ (forall k2 e, s_addr k2 <> s_addr k ->
          ((exists j, holds (entries t') j k2 e)
           <-> (exists j, holds (entries t) j k2 e)))
    /\ (forall j k2 e, holds (entries t') j k2 e -> s_addr k2 = s_addr k ->
          k2 = k /\ e = {| key := Some k; value := v; is_const := c |})
    /\ (b = true <-> forall e, ~ bound t k e)
    /\ count t' <= count t + 1
    /\ (capacity t' = capacity t
        \/ 3 * capacity t < 4 * (count t + 1)
           /\ capacity t' = (if capacity t <? 8 then 8 else capacity t * 2)).
Proof.
  intros Hwf Hag Hovf. unfold table_set.
  destruct (table_set_reserve t Hwf Hovf)
    as (t1 & -> & Hlen & Hused & Hload & Hcnt & Hcap & Hu1 & Hp1 & Hiff).
  simpl. pose proof (used_slots_bounds (entries t1)) as Hub.
  assert (Hst : storage_ok (entries t1) (capacity t1)) by (split; lia).
  assert (Hempty : exists j e, entries t1 !! j = Some e /\ is_empty_entry e = true)
    by (apply used_slots_has_empty; lia).
  assert (Hag1 : forall j k' e, holds (entries t1) j k' e ->
                   s_addr k' = s_addr k -> s_hash k' = s_hash k).
  { intros j k' e Hj Ha. destruct (proj1 (Hiff k' e) (ex_intro _ j Hj)) as [j0 Hj0].
    eapply Hag; eassumption. }
  set (ne := {| key := Some k; value := v; is_const := c |}).
  assert (Hne : is_empty_entry ne = false) by reflexivity.
  destruct (find_entry_slot (entries t1) (capacity t1) k Hst Hempty)
    as (r & e & Hfind & He & Hke).
  rewrite Hfind. simpl. rewrite He.
  assert (Hrlt : (r < length (entries t1))%nat)
    by (eapply lookup_lt_Some; eassumption).
  assert (Hins := used_slots_insert (entries t1) r e ne He).
  rewrite Hne in Hins.
  (* the slot written satisfies the side conditions of [replace_slot_inv] *)
  assert (Hside :
    (forall j k2 e2, j <> r -> holds (entries t1) j k2 e2 -> s_addr k2 <> s_addr k)
    /\ (exists n, (n < Z.to_nat (capacity t1))%nat
          /\ Z.to_nat (probe (capacity t1) (s_hash k mod capacity t1) n) = r
          /\ forall m, (m < n)%nat ->
               exists e', entries t1 !! Z.to_nat (probe (capacity t1) (s_hash k mod capacity t1) m) = Some e'
                          /\ is_empty_entry e' = false)
    /\ ((key e = None) <-> forall e0, ~ bound t k e0)).
  { destruct (key e) as [k'|] eqn:Hk.
    - apply same_obj_true in Hke.
      assert (Hh : s_hash k' = s_hash k) by (eapply Hag1; [split|]; eassumption).
      split; [|split].
      + intros j k2 e2 Hjr Hj Ha. apply Hjr.
        apply (Hu1 j r k2 k' e2 e); [assumption | split; assumption | congruence].
      + destruct (Hp1 r k' e (conj He Hk)) as (n & Hn & Hpn & Hb).
        rewrite Hh in Hpn, Hb. exists n. repeat split; assumption.
      + split; [discriminate|]. intros Hnb. exfalso.
        destruct (proj1 (Hiff k' e) (ex_intro _ r (conj He Hk))) as [j0 Hj0].
        apply (Hnb e). exists j0, k'. split; assumption.
    - assert (Hfresh : fresh_in (entries t1) k).
      { intros j k' e' Hj Ha.
        assert (Hf := find_entry_found (entries t1) (capacity t1) k j k' e'
                        Hst Hempty Hu1 Hp1 Hj Ha (Hag1 _ _ _ Hj Ha)).
        rewrite Hfind in Hf. injection Hf as <-.
        destruct Hj as [Hj1 Hj2]. congruence. }
      destruct (find_entry_fresh (entries t1) (capacity t1) k Hst Hempty Hfresh)
        as (r' & e' & m & Hfind' & He' & Hk' & Hm & Hr' & Hpath).
      rewrite Hfind in Hfind'. injection Hfind' as <-.
      split; [|split].
      + intros j k2 e2 _ Hj. eapply Hfresh; eassumption.
      + exists m. repeat split; [assumption | congruence | assumption].
      + split; [|reflexivity]. intros _ e0 (j & k' & Hj & Ha).
        destruct (proj2 (Hiff k' e0) (ex_intro _ j Hj)) as [j1 Hj1].
        eapply Hfresh; eassumption. }
  destruct Hside as (Hother & Hpath & Hnew).
  destruct (replace_slot_inv (entries t1) (capacity t1) r ne Hu1 Hp1 Hne)
    as [Hu2 Hp2].
  { intros k0 [= <-]. split; assumption. }
  eexists _, _. split; [reflexivity|].
  split.
  { split; [split|..]; simpl.
    - rewrite length_insert. exact Hlen.
    - lia.
    - fold ne. rewrite Hins. unfold is_empty_entry.
      destruct (key e); simpl; [lia|]. destruct (IS_NIL (value e)); lia.
    - destruct (key e); simpl; [lia|]. destruct (IS_NIL (value e)); lia.
    - exact Hu2.
    - exact Hp2. }
  split.
  { exists r, k. split; [|reflexivity]. simpl. fold ne. apply holds_insert.
    left. repeat split; try reflexivity; assumption. }
  split.
  { intros k2 e2 Hk2. simpl. fold ne. rewrite <- Hiff. split.
    - intros [j Hj]. apply holds_insert in Hj.
      destruct Hj as [(-> & _ & -> & [= ->])|[_ Hj]]; [congruence|].
      exists j. assumption.
    - intros [j Hj]. exists j. apply holds_insert. right. split; [|assumption].
      intros ->. destruct Hj as [Hj1 Hj2]. rewrite He in Hj1.
      injection Hj1 as <-. rewrite Hj2 in Hke. apply same_obj_true in Hke.
      contradiction. }
  split.
  { intros j k2 e2 Hj Ha. simpl in Hj. fold ne in Hj. apply holds_insert in Hj.
    destruct Hj as [(-> & _ & -> & [= ->])|[Hjr Hj]]; [split; reflexivity|].
    exfalso. eapply Hother; eassumption. }
  split.
  { rewrite <- Hnew. destruct (key e); split; congruence. }
  split.
  { simpl. destruct (key e); simpl; [lia|]. destruct (IS_NIL (value e)); lia. }
  simpl. exact Hcap.
Qed.

Lemma table_set_no_overflow t k v c x :
  table_set t k v c = Ok x ->
  3 * capacity t < 4 * (count t + 1) -> capacity t * 2 <= INT_MAX.
Proof.
  unfold table_set. intros H Hfull.
  apply Z.ltb_lt in Hfull. rewrite Hfull in H.
  destruct (capacity t <? 8) eqn:Hs; [apply Z.ltb_lt in Hs; unfold INT_MAX; lia|].
  destruct (INT_MAX <? capacity t * 2) eqn:Hm; [discriminate|].
  apply Z.ltb_ge in Hm. exact Hm.
Qed.

(* --------------------------------------------------------------------- *)
(** ** Facts about interning *)
(* --------------------------------------------------------------------- *)

Definition pool_table (p : StringPool) : ObjTable :=
  match string_table p with
  | Some t => t
  | None => table_create
  end.

(** The string object [s] is a key of the interning table. *)
Definition interned (p : StringPool) (s : ObjString) : Prop :=
  exists j e, holds (entries (pool_table p)) j s e.

(** The fields of a string object agree with its bytes. *)
Definition string_wf (s : ObjString) : Prop :=
  s_length s = str_len (s_chars s) /\ s_hash s = string_hash (s_chars s).

Record pool_ok (p : StringPool) : Prop := {
  po_wf : table_wf (pool_table p);
  po_keys : forall s, interned p s ->
              (s_addr s < next_addr p)%nat /\ string_wf s;
  po_bytes : forall i j k1 k2 e1 e2,
               holds (entries (pool_table p)) i k1 e1 ->
               holds (entries (pool_table p)) j k2 e2 ->
               s_chars k1 = s_chars k2 -> i = j;
  po_count : count (pool_table p) <= Z.of_nat (next_addr p);
  po_cap : 3 * capacity (pool_table p) <= Z.max 24 (8 * Z.of_nat (next_addr p))
}.

Lemma pool_ok_init : pool_ok pool_init.
Proof.
  split; simpl.
  - apply table_wf_create.
  - intros s (j & e & H & _). discriminate.
  - intros i j k1 k2 e1 e2 [H _]. discriminate.
  - lia.
  - lia.
Qed.

Lemma substring_all s : String.substring 0 (String.length s) s = s.
Proof. induction s as [|c s IH]; simpl; [reflexivity | rewrite IH; reflexivity]. Qed.

Lemma bytes_of_wf s : string_wf s -> bytes_of s = s_chars s.
Proof.
  intros [Hl _]. unfold bytes_of. rewrite Hl. unfold str_len.
  rewrite Nat2Z.id. apply substring_all.
Qed.

Lemma same_bytes_true k len h cs :
  same_bytes k len h cs = true <->
  s_length k = len /\ s_hash k = h /\ bytes_of k = cs.
Proof.
  unfold same_bytes. rewrite !andb_true_iff, !Z.eqb_eq, String.eqb_eq. tauto.
Qed.

Lemma intern_lookup_Some es len h cs k :
  intern_lookup es len h cs = Some k ->
  (exists j e, holds es j k e) /\ same_bytes k len h cs = true.
Proof.
  induction es as [|e es IH]; simpl; [discriminate|].
  destruct (key e) as [k0|] eqn:Hk.
  - destruct (same_bytes k0 len h cs) eqn:Hs.
    + intros [= <-]. split; [|assumption].
      exists 0%nat, e. split; [reflexivity | assumption].
    + intros H. destruct (IH H) as [(j & e' & Hj) Hb]. split; [|assumption].
      exists (S j), e'. apply holds_cons_S. assumption.
  - intros H. destruct (IH H) as [(j & e' & Hj) Hb]. split; [|assumption].
    exists (S j), e'. apply holds_cons_S. assumption.
Qed.

Lemma intern_lookup_None es len h cs :
  intern_lookup es len h cs = None ->
  forall j k e, holds es j k e -> same_bytes k len h cs = false.
Proof.
  induction es as [|e es IH]; simpl; intros H j k e' Hj.
  - destruct Hj as [Hj _]. discriminate.
  - destruct j as [|j].
    + apply (proj1 (holds_cons_0 _ _ _ _)) in Hj. destruct Hj as [-> Hk].
      rewrite Hk in H. destruct (same_bytes k len h cs); [discriminate|reflexivity].
    + apply (proj1 (holds_cons_S _ _ _ _ _)) in Hj.
      destruct (key e) as [k0|]; [destruct (same_bytes k0 len h cs); [discriminate|]|];
        eapply IH; eassumption.
Qed.

Lemma string_create_unfold p cs :
  string_create p cs =
  match intern_lookup (entries (pool_table p)) (str_len cs) (string_hash cs) cs with
  | Some k => Ok (k, p)
  | None =>
      '(t', _) ← table_set (pool_table p)
                  {| s_addr := next_addr p; s_length := str_len cs;
                     s_hash := string_hash cs; s_chars := cs |} NIL_VAL false;
      Ok ({| s_addr := next_addr p; s_length := str_len cs;
             s_hash := string_hash cs; s_chars := cs |},
          {| string_table := Some t'; next_addr := S (next_addr p) |})
  end.
Proof.
  unfold string_create, pool_table. destruct (string_table p); reflexivity.
Qed.

(** What a returning call of [string_create] does to the pool. *)
Lemma string_create_inv p cs s p' :
  pool_ok p -> string_create p cs = Ok (s, p') ->
  pool_ok p' /\ s_chars s = cs /\ interned p' s
  /\ (forall s0, interned p s0 -> interned p' s0).
Proof.
  intros Hok. rewrite string_create_unfold.
  destruct (intern_lookup _ _ _ _) as [k|] eqn:Hlook.
  - intros [= <- <-]. apply intern_lookup_Some in Hlook as [Hheld Hb].
    apply same_bytes_true in Hb as (_ & _ & Hc).
    rewrite bytes_of_wf in Hc by (apply (po_keys p Hok), Hheld).
    split; [assumption|]. split; [assumption|]. split; [exact Hheld | tauto].
  - set (str := {| s_addr := next_addr p; s_length := str_len cs;
                   s_hash := string_hash cs; s_chars := cs |}).
    destruct (table_set (pool_table p) str NIL_VAL false) as [[t' b]| |] eqn:Hset;
      simpl; try discriminate.
    intros [= <- <-].
    pose proof Hok as [Hwf Hkeys Hbytes Hcnt Hcap].
    assert (Hag : agrees (pool_table p) str).
    { intros j k' e Hj Ha. exfalso.
      destruct (Hkeys k' (ex_intro _ j (ex_intro _ e Hj))) as [Hlt _].
      simpl in Ha. lia. }
    destruct (table_set_spec (pool_table p) str NIL_VAL false Hwf Hag
                (table_set_no_overflow _ _ _ _ _ Hset))
      as (t2 & b2 & Hset2 & Hwf2 & Hb2 & Hother & Hsame & _ & Hcnt2 & Hcap2).
    rewrite Hset in Hset2. injection Hset2 as <- <-.
    assert (Hold : forall j k e, holds (entries t') j k e ->
                     k = str \/ (s_addr k <> s_addr str /\ interned p k)).
    { intros j k e Hj. destruct (decide (s_addr k = s_addr str)) as [Ha|Hna].
      - left. apply (Hsame j k e Hj Ha).
      - right. split; [assumption|].
        destruct (proj1 (Hother k e Hna) (ex_intro _ j Hj)) as [j0 Hj0].
        exists j0, e. assumption. }
    split; [split; simpl|].
    + exact Hwf2.
    + intros s0 (j & e & Hj). unfold pool_table in Hj. simpl in Hj.
      destruct (Hold j s0 e Hj) as [->|[_ Hint]].
      * split; [simpl; lia | split; reflexivity].
      * destruct (Hkeys s0 Hint) as [Hlt Hswf]. split; [lia | assumption].
    + intros i j k1 k2 e1 e2 H1 H2 Hc.
      apply (wf_uniq _ Hwf2 i j k1 k2 e1 e2 H1 H2).
      assert (Hnew : forall j0 k0 e0, holds (entries t') j0 k0 e0 ->
                       s_chars k0 = cs -> k0 = str).
      { intros j0 k0 e0 Hj0 Hc0. destruct (Hold j0 k0 e0 Hj0) as [->|[_ Hint]];
          [reflexivity|]. exfalso.
        destruct Hint as (j1 & e1' & Hj1).
        destruct (Hkeys k0 (ex_intro _ j1 (ex_intro _ e1' Hj1))) as [_ Hswf].
        assert (Hsb := intern_lookup_None _ _ _ _ Hlook j1 k0 e1' Hj1).
        assert (same_bytes k0 (str_len cs) (string_hash cs) cs = true); [|congruence].
        apply same_bytes_true. rewrite (bytes_of_wf k0 Hswf).
        destruct Hswf as [Hl Hh]. rewrite Hl, Hh, Hc0. repeat split. }
      destruct (Hold i k1 e1 H1) as [->|[_ (i0 & e1' & Hi0)]].
      * simpl in Hc. symmetry in Hc. rewrite (Hnew j k2 e2 H2 Hc). reflexivity.
      * destruct (Hold j k2 e2 H2) as [->|[_ (j0 & e2' & Hj0)]].
        -- simpl in Hc. rewrite (Hnew i k1 e1 H1 Hc). reflexivity.
        -- assert (i0 = j0) by (eapply Hbytes; eassumption). subst j0.
           destruct Hi0 as [Hi0 Hk1]. destruct Hj0 as [Hj0 Hk2]. congruence.
    + unfold pool_table. simpl. lia.
    + unfold pool_table. simpl.
      destruct Hcap2 as [->|[Hfull ->]]; [lia|].
      destruct (capacity (pool_table p) <? 8); lia.
    + split; [reflexivity|]. split.
      * destruct Hb2 as (j & k' & Hj & Ha). eexists j, _. unfold pool_table. simpl.
        destruct Hj as [Hj1 Hj2]. simpl in Hj2. injection Hj2 as <-.
        split; [exact Hj1 | reflexivity].
      * intros s0 (j & e & Hj). unfold interned, pool_table. simpl.
        destruct (Hkeys s0 (ex_intro _ j (ex_intro _ e Hj))) as [Hlt _].
        assert (Hna : s_addr s0 <> s_addr str) by (simpl; lia).
        destruct (proj2 (Hother s0 e Hna) (ex_intro _ j Hj)) as [j1 Hj1].
        exists j1, e. assumption.
Qed.

(** [string_create] returns as long as fewer than 2^28 strings exist (the
    interning table then never doubles past [INT_MAX]). *)
Lemma string_create_returns p cs :
  pool_ok p -> Z.of_nat (next_addr p) < 2 ^ 28 ->
  exists s p', string_create p cs = Ok (s, p').
Proof.
  intros Hok Hsmall. rewrite string_create_unfold.
  destruct (intern_lookup _ _ _ _) as [k|] eqn:Hlook; [eexists _, _; reflexivity|].
  pose proof Hok as [Hwf Hkeys Hbytes Hcnt Hcap].
  set (str := {| s_addr := next_addr p; s_length := str_len cs;
                 s_hash := string_hash cs; s_chars := cs |}).
  destruct (table_set_spec (pool_table p) str NIL_VAL false Hwf)
    as (t' & b & Hset & _).
  - intros j k' e Hj Ha. exfalso.
    destruct (Hkeys k' (ex_intro _ j (ex_intro _ e Hj))) as [Hlt _].
    simpl in Ha. lia.
  - intros Hfull. unfold INT_MAX. lia.
  - rewrite Hset. simpl. eexists _, _. reflexivity.
Qed.

(** A history of the string operations of value.c: the pool reached and
    the string objects handed out so far. *)
Inductive produced : StringPool -> list ObjString -> Prop :=
  | produced_init : produced pool_init []
  | produced_create p outs cs s p' :
      produced p outs ->
      string_create p cs = Ok (s, p') ->
      produced p' (s :: outs)
  | produced_concat p outs a b s p' :
      produced p outs -> a ∈ outs -> b ∈ outs ->
      string_concat p a b = Ok (s, p') ->
      produced p' (s :: outs).

Lemma produced_interned p outs :
  produced p outs -> pool_ok p /\ forall s, s ∈ outs -> interned p s.
Proof.
  induction 1 as [|p outs cs s p' _ [IHok IHin] Hc
                  |p outs a b s p' _ [IHok IHin] _ _ Hc].
  - split; [apply pool_ok_init|]. intros s Hs. inversion Hs.
  - destruct (string_create_inv p cs s p' IHok Hc) as (Hok' & _ & Hs & Hmono).
    split; [assumption|]. intros s0 Hs0. apply elem_of_cons in Hs0 as [->|Hs0];
      [assumption | apply Hmono, IHin, Hs0].
  - destruct (string_create_inv p _ s p' IHok Hc) as (Hok' & _ & Hs & Hmono).
    split; [assumption|]. intros s0 Hs0. apply elem_of_cons in Hs0 as [->|Hs0];
      [assumption | apply Hmono, IHin, Hs0].
Qed.

(** C6.  Two string objects handed out by [string_create] or
    [string_concat] whose bytes are equal are the identical object: they
    have the same address, and so are the same record. *)
Theorem string_interning p outs s1 s2 :
  produced p outs -> s1 ∈ outs -> s2 ∈ outs ->
  s_chars s1 = s_chars s2 ->
  s_addr s1 = s_addr s2 /\ s1 = s2.
Proof.
  intros Hp H1 H2 Hc. destruct (produced_interned p outs Hp) as [Hok Hin].
  destruct (Hin s1 H1) as (i & e1 & Hi). destruct (Hin s2 H2) as (j & e2 & Hj).
  assert (i = j) by (eapply (po_bytes p Hok); eassumption). subst j.
  destruct Hi as [Hi Hk1]. destruct Hj as [Hj Hk2].
  assert (s1 = s2) by congruence. subst s2. split; reflexivity.
Qed.

Definition demo_create (p : StringPool) (cs : string) : ObjString * StringPool :=
  match string_create p cs with
  | Ok r => r
  | _ => ({| s_addr := 0; s_length := 0; s_hash := 0; s_chars := "" |}, p)
  end.

Definition demo_ab : ObjString * StringPool :=
  Eval vm_compute in demo_create pool_init "ab".
Definition demo_a : ObjString * StringPool :=
  Eval vm_compute in demo_create (snd demo_ab) "a".
Definition demo_b : ObjString * StringPool :=
  Eval vm_compute in demo_create (snd demo_a) "b".
Definition demo_cat : ObjString * StringPool :=
  Eval vm_compute in
    match string_concat (snd demo_b) (fst demo_a) (fst demo_b) with
    | Ok r => r
    | _ => demo_b
    end.

Lemma string_interning_witness :
  produced (snd demo_cat) [fst demo_cat; fst demo_b; fst demo_a; fst demo_ab]
  /\ fst demo_cat ∈ [fst demo_cat; fst demo_b; fst demo_a; fst demo_ab]
  /\ fst demo_ab ∈ [fst demo_cat; fst demo_b; fst demo_a; fst demo_ab]
  /\ s_chars (fst demo_cat) = s_chars (fst demo_ab)
  /\ s_addr (fst demo_cat) = s_addr (fst demo_ab)
  /\ fst demo_cat = fst demo_ab.
Proof.
  assert (Hp : produced (snd demo_cat)
                 [fst demo_cat; fst demo_b; fst demo_a; fst demo_ab]).
  { eapply produced_concat with (p := snd demo_b) (a := fst demo_a) (b := fst demo_b).
    - eapply produced_create with (p := snd demo_a) (cs := "b"%string).
      + eapply produced_create with (p := snd demo_ab) (cs := "a"%string).
        * eapply produced_create with (p := pool_init) (cs := "ab"%string).
          -- apply produced_init.
          -- vm_compute. reflexivity.
        * vm_compute. reflexivity.
      + vm_compute. reflexivity.
    - apply elem_of_cons. right. apply elem_of_cons. left. reflexivity.
    - apply elem_of_cons. left. reflexivity.
    - vm_compute. reflexivity. }
  assert (H1 : fst demo_cat ∈ [fst demo_cat; fst demo_b; fst demo_a; fst demo_ab])
    by (apply elem_of_cons; left; reflexivity).
  assert (H2 : fst demo_ab ∈ [fst demo_cat; fst demo_b; fst demo_a; fst demo_ab])
    by (do 3 (apply elem_of_cons; right); apply elem_of_cons; left; reflexivity).
  assert (Hc : s_chars (fst demo_cat) = s_chars (fst demo_ab)) by reflexivity.
  split; [exact Hp|]. split; [exact H1|]. split; [exact H2|]. split; [exact Hc|].
  exact (string_interning _ _ _ _ Hp H1 H2 Hc).
Defined.

(** The first stopping slot of the probe for a key the table holds is the
    slot that holds it. *)
Lemma first_stop_bound es cap k j k' e n0 e0 :
  uniq es -> probe_inv es cap ->
  holds es j k' e -> s_addr k' = s_addr k -> s_hash k' = s_hash k ->
  (forall m, (m < n0)%nat -> passes es cap k (s_hash k mod cap) m) ->
  es !! Z.to_nat (probe cap (s_hash k mod cap) n0) = Some e0 ->
  stops k e0 = true ->
  e0 = e.
Proof.
  intros Huniq Hpi Hj Haddr Hhash Hpass He0 Hstop.
  destruct (Hpi j k' e Hj) as (n & Hn & Hpn & Hbefore).
  rewrite Hhash in Hpn, Hbefore. destruct Hj as [Hje Hjk].
  destruct (lt_eq_lt_dec n0 n) as [[Hlt|Heq]|Hgt].
  - destruct (Hbefore n0 Hlt) as (e' & He' & Hne).
    rewrite He0 in He'. injection He' as <-.
    unfold stops in Hstop. unfold is_empty_entry in Hne.
    destruct (key e0) as [k0|] eqn:Hk0; [|congruence].
    apply same_obj_true in Hstop.
    assert (Z.to_nat (probe cap (s_hash k mod cap) n0) = j).
    { apply (Huniq _ _ k0 k' e0 e);
        [split; assumption | split; assumption | congruence]. }
    congruence.
  - subst n0. congruence.
  - destruct (Hpass n Hgt) as (e' & He' & Hns).
    rewrite Hpn, Hje in He'. injection He' as <-.
    unfold stops in Hns. rewrite Hjk in Hns.
    apply same_obj_false in Hns. contradiction.
Qed.

End Value.

(* ===================================================================== *)
(** * env.c *)
(* ===================================================================== *)

Module Env.
Import Value.

(** An environment: its table of variables (owned by the environment,
    so held in place) and the address of the enclosing environment.
    Environments live in a store indexed by address, because closures
    and nested scopes share them. *)
Record Environment : Type := mkEnv {
  variables : ObjTable;
  enclosing : option nat       (* NULL = None *)
}.

Definition env_create (envs : list Environment) (enclosing0 : option nat)
  : nat * list Environment :=
  (length envs,
   envs ++ [{| variables := table_create; enclosing := enclosing0 |}]).

Definition env_define (pool : StringPool) (envs : list Environment)
    (env : nat) (name : string) (value0 : Value) (is_const0 : bool)
  : res (bool * StringPool * list Environment) :=
  '(key0, pool') ← string_create pool name;
  match envs !! env with
  | None => Fault
  | Some e =>
      existing ← table_get (variables e) key0;
      match existing with
      | Some _ => Ok (false, pool', envs)     (* already defined *)
      | None =>
          '(t', _) ← table_set (variables e) key0 value0 is_const0;
          Ok (true, pool',
              <[env := {| variables := t'; enclosing := enclosing e |}]> envs)
      end
  end.

(** The walk along the [enclosing] pointers.  A chain longer than the
    store has a cycle, on which the C loop would not end. *)
Fixpoint env_get_walk (fuel : nat) (envs : list Environment)
    (current : option nat) (key0 : ObjString) : res (option Value) :=
  match current with
  | None => Ok None
  | Some a =>
      match fuel with
      | O => Hang
      | S fuel' =>
          match envs !! a with
          | None => Fault
          | Some e =>
              found ← table_get (variables e) key0;
              match found with
              | Some v => Ok (Some v)
              | None => env_get_walk fuel' envs (enclosing e) key0
              end
          end
      end
  end.

Definition env_get (pool : StringPool) (envs : list Environment)
    (env : option nat) (name : string)
  : res (option Value * StringPool) :=
  '(key0, pool') ← string_create pool name;
  v ← env_get_walk (S (length envs)) envs env key0;
  Ok (v, pool').

Definition env_get_local (pool : StringPool) (envs : list Environment)
    (env : nat) (name : string) : res (option Value * StringPool) :=
  '(key0, pool') ← string_create pool name;
  match envs !! env with
  | None => Fault
  | Some e => v ← table_get (variables e) key0; Ok (v, pool')
  end.

(** The probe of [find_entry_const]: it compares keys by their bytes and
    passes over tombstones. *)
Fixpoint find_entry_const_loop (fuel : nat) (entries : list TableEntry)
    (capacity : Z) (key0 : ObjString) (index : Z) : res (option bool) :=
  match fuel with
  | O => Hang
  | S fuel' =>
      match entries !! Z.to_nat index with
      | None => Fault
      | Some entry =>
          match key entry with
          | None =>
              if IS_NIL (value entry) then Ok None
              else find_entry_const_loop fuel' entries capacity key0
                     ((index + 1) mod capacity)
          | Some k =>
              if same_bytes k (s_length key0) (s_hash key0) (bytes_of key0)
              then Ok (Some (is_const entry))
              else find_entry_const_loop fuel' entries capacity key0
                     ((index + 1) mod capacity)
          end
      end
  end.

(** [find_entry_const (env, key, &is_const)]: [Some c] when the key is
    found with const flag [c], [None] when it returns false. *)
Definition find_entry_const (e : Environment) (key0 : ObjString)
  : res (option bool) :=
  if count (variables e) =? 0 then Ok None
  else if capacity (variables e) =? 0 then Fault
  else
    find_entry_const_loop (Z.to_nat (capacity (variables e)))
      (entries (variables e)) (capacity (variables e)) key0
      (s_hash key0 mod capacity (variables e)).

Fixpoint env_is_const_walk (fuel : nat) (envs : list Environment)
    (current : option nat) (key0 : ObjString) : res bool :=
  match current with
  | None => Ok false
  | Some a =>
      match fuel with
      | O => Hang
      | S fuel' =>
          match envs !! a with
          | None => Fault
          | Some e =>
              c ← find_entry_const e key0;
              match c with
              | Some is_const0 => Ok is_const0
              | None => env_is_const_walk fuel' envs (enclosing e) key0
              end
          end
      end
  end.

Definition env_is_const (pool : StringPool) (envs : list Environment)
    (env : option nat) (name : string) : res (bool * StringPool) :=
  '(key0, pool') ← string_create pool name;
  c ← env_is_const_walk (S (length envs)) envs env key0;
  Ok (c, pool').

Fixpoint env_set_walk (fuel : nat) (envs : list Environment)
    (current : option nat) (key0 : ObjString) (value0 : Value)
  : res (bool * list Environment) :=
  match current with
  | None => Ok (false, envs)              (* variable not found *)
  | Some a =>
      match fuel with
      | O => Hang
      | S fuel' =>
          match envs !! a with
          | None => Fault
          | Some e =>
              existing ← table_get (variables e) key0;
              match existing with
              | Some _ =>
                  c ← find_entry_const e key0;
                  match c with
                  | Some true => Ok (false, envs)   (* cannot assign to const *)
                  | _ =>
                      '(t', _) ← table_set (variables e) key0 value0 false;
                      Ok (true,
                          <[a := {| variables := t';
                                    enclosing := enclosing e |}]> envs)
                  end
              | None => env_set_walk fuel' envs (enclosing e) key0 value0
              end
          end
      end
  end.

Definition env_set (pool : StringPool) (envs : list Environment)
    (env : option nat) (name : string) (value0 : Value)
  : res (bool * StringPool * list Environment) :=
  '(key0, pool') ← string_create pool name;
  '(ok, envs') ← env_set_walk (S (length envs)) envs env key0 value0;
  Ok (ok, pool', envs').


(* --------------------------------------------------------------------- *)
(** ** Facts about environments *)
(* --------------------------------------------------------------------- *)

(** Whether a well-formed table binds a key is decided by the probe. *)
Lemma bound_cases t k :
  table_wf t -> agrees t k ->
  (exists x, bound t k x) \/ (forall x, ~ bound t k x).
Proof.
  intros Hwf Hag. destruct (Z.eq_dec (capacity t) 0) as [Hz|Hnz].
  - right. intros x Hb. destruct (bound_capacity t k x Hwf Hb). lia.
  - assert (Hc : 0 < capacity t) by (destruct Hwf as [[_ Hc _ _] _ _]; lia).
    pose proof (table_wf_storage t Hwf Hc) as Hst.
    pose proof (table_wf_has_empty t Hwf Hc) as Hempty.
    destruct (find_entry_slot (entries t) (capacity t) k Hst Hempty)
      as (r & e & Hfind & He & Hke).
    destruct (key e) as [k'|] eqn:Hk.
    + left. exists e, r, k'. apply same_obj_true in Hke.
      split; [split; assumption | assumption].
    + right. intros x (j & k' & Hj & Ha).
      assert (Hf := find_entry_found (entries t) (capacity t) k j k' x Hst Hempty
                      (wf_uniq _ Hwf) (wf_probe _ Hwf) Hj Ha (Hag _ _ _ Hj Ha)).
      rewrite Hfind in Hf. injection Hf as <-. destruct Hj as [Hj1 Hj2]. congruence.
Qed.

(** In a pool, the address, and the bytes, determine the string object. *)
Lemma interned_addr_inj p a b :
  pool_ok p -> interned p a -> interned p b -> s_addr a = s_addr b -> a = b.
Proof.
  intros Hok (i & ea & Hi) (j & eb & Hj) Haddr.
  assert (i = j) by (eapply (wf_uniq _ (po_wf p Hok)); eassumption). subst j.
  destruct Hi as [Hi Hka]. destruct Hj as [Hj Hkb]. congruence.
Qed.

Lemma interned_bytes_inj p a b :
  pool_ok p -> interned p a -> interned p b -> s_chars a = s_chars b -> a = b.
Proof.
  intros Hok (i & ea & Hi) (j & eb & Hj) Hc.
  assert (i = j) by (eapply (po_bytes p Hok); eassumption). subst j.
  destruct Hi as [Hi Hka]. destruct Hj as [Hj Hkb]. congruence.
Qed.

(** Comparing two interned strings by their bytes is comparing them by
    address. *)
Lemma same_bytes_same_obj p a b :
  pool_ok p -> interned p a -> interned p b ->
  same_bytes a (s_length b) (s_hash b) (bytes_of b) = same_obj a b.
Proof.
  intros Hok Ha Hb.
  destruct (po_keys p Hok a Ha) as [_ Hwa]. destruct (po_keys p Hok b Hb) as [_ Hwb].
  destruct (same_obj a b) eqn:Hs.
  - apply same_obj_true in Hs.
    rewrite (interned_addr_inj p a b Hok Ha Hb Hs). apply same_bytes_true.
    repeat split.
  - apply same_obj_false in Hs.
    destruct (same_bytes a (s_length b) (s_hash b) (bytes_of b)) eqn:E; [|reflexivity].
    exfalso. apply Hs. apply same_bytes_true in E as (_ & _ & E).
    rewrite !bytes_of_wf in E by assumption.
    rewrite (interned_bytes_inj p a b Hok Ha Hb E). reflexivity.
Qed.

Section const_loop.
Variables (es : list TableEntry) (cap : Z) (k : ObjString).
Hypothesis Hcap : 0 < cap.

(** [find_entry_const] stops where [find_entry] does when, on the slots
    of the storage, equal bytes mean the same object. *)
Hypothesis Hsame : forall i e k', es !! i = Some e -> key e = Some k' ->
  same_bytes k' (s_length k) (s_hash k) (bytes_of k) = same_obj k' k.

Lemma find_entry_const_loop_spec n :
  forall fuel idx e,
    0 <= idx < cap ->
    (forall m, (m < n)%nat -> passes es cap k idx m) ->
    es !! Z.to_nat (probe cap idx n) = Some e ->
    stops k e = true ->
    (n < fuel)%nat ->
    find_entry_const_loop fuel es cap k idx =
    Ok (match key e with Some _ => Some (is_const e) | None => None end).
Proof.
  induction n as [|n IH]; intros fuel idx e Hidx Hpass He Hstop Hfuel.
  - destruct fuel as [|fuel]; [lia|]. simpl.
    rewrite probe_0 in He by assumption. rewrite He.
    unfold stops in Hstop. destruct (key e) as [k'|] eqn:Hk.
    + rewrite (Hsame _ e k' He Hk), Hstop. reflexivity.
    + rewrite Hstop. reflexivity.
  - destruct fuel as [|fuel]; [lia|]. simpl.
    destruct (Hpass 0%nat ltac:(lia)) as (e0 & He0 & Hns).
    rewrite probe_0 in He0 by assumption. rewrite He0.
    assert (Hidx' : 0 <= (idx + 1) mod cap < cap)
      by (apply Z.mod_pos_bound; assumption).
    assert (Hnext : find_entry_const_loop fuel es cap k ((idx + 1) mod cap) =
                    Ok (match key e with Some _ => Some (is_const e) | None => None end)).
    { apply IH; [assumption | | | assumption | lia].
      - intros m Hm. unfold passes. rewrite probe_S by assumption.
        apply Hpass. lia.
      - rewrite probe_S by assumption. exact He. }
    unfold stops in Hns. destruct (key e0) as [k0|] eqn:Hk0.
    + rewrite (Hsame _ e0 k0 He0 Hk0), Hns. exact Hnext.
    + rewrite Hns. exact Hnext.
Qed.

End const_loop.

(** *** The state invariant *)

(** Every scope is a well-formed table whose keys are interned strings,
    and enclosing scopes were created earlier. *)
Record scope_ok (pool : StringPool) (a : nat) (e : Environment) : Prop := {
  so_wf : table_wf (variables e);
  so_keys : forall j k x, holds (entries (variables e)) j k x -> interned pool k;
  so_up : forall b, enclosing e = Some b -> (b < a)%nat
}.

Record envs_ok (pool : StringPool) (envs : list Environment) : Prop := {
  eo_pool : pool_ok pool;
  eo_scope : forall a e, envs !! a = Some e -> scope_ok pool a e
}.

(** The sizes are far from the overflow of [int]: fewer than 2^28
    strings, and no scope so large that doubling its capacity overflows.
    [smallb] decides it. *)
Definition small (pool : StringPool) (envs : list Environment) : Prop :=
  Z.of_nat (next_addr pool) < 2 ^ 28
  /\ forall a e, envs !! a = Some e -> capacity (variables e) * 2 <= INT_MAX.

Definition smallb (pool : StringPool) (envs : list Environment) : bool :=
  (Z.of_nat (next_addr pool) <? 2 ^ 28)
  && forallb (fun e => capacity (variables e) * 2 <=? INT_MAX) envs.

Lemma smallb_small pool envs : smallb pool envs = true -> small pool envs.
Proof.
  unfold smallb, small. rewrite andb_true_iff, Z.ltb_lt, forallb_forall.
  intros [H1 H2]. split; [exact H1|]. intros a e He. apply Z.leb_le, H2.
  apply list_elem_of_In. eapply list_elem_of_lookup_2. eassumption.
Qed.

Lemma scope_agrees pool a e k :
  pool_ok pool -> scope_ok pool a e -> interned pool k ->
  agrees (variables e) k.
Proof.
  intros Hp Hs Hk j k' x Hj Ha.
  rewrite (interned_addr_inj pool k' k Hp (so_keys _ _ _ Hs _ _ _ Hj) Hk Ha).
  reflexivity.
Qed.

Lemma find_entry_const_bound pool a e k x :
  pool_ok pool -> scope_ok pool a e -> interned pool k ->
  bound (variables e) k x ->
  find_entry_const e k = Ok (Some (is_const x)).
Proof.
  intros Hp Hs Hk Hb. pose proof (so_wf _ _ _ Hs) as Hwf.
  destruct (bound_capacity _ k x Hwf Hb) as [Hc Hcnt].
  unfold find_entry_const.
  destruct (count (variables e) =? 0) eqn:E1; [lia|].
  destruct (capacity (variables e) =? 0) eqn:E2; [lia|].
  pose proof (table_wf_storage _ Hwf Hc) as Hst.
  destruct (find_entry_spec (entries (variables e)) (capacity (variables e)) k Hst
              (table_wf_has_empty _ Hwf Hc))
    as (n0 & e0 & r & Hn0 & Hpass & He0 & Hstop & _ & _).
  destruct Hb as (j & k' & Hj & Ha).
  assert (He : e0 = x).
  { eapply first_stop_bound; try eassumption; try apply Hwf.
    eapply scope_agrees; eassumption. }
  subst e0.
  rewrite (find_entry_const_loop_spec (entries (variables e))
             (capacity (variables e)) k Hc) with (n := n0) (e := x);
    try assumption; try lia.
  - destruct Hj as [_ ->]. reflexivity.
  - intros i e1 k1 Hi Hk1. apply (same_bytes_same_obj pool); try assumption.
    eapply (so_keys _ _ _ Hs). split; eassumption.
  - apply Z.mod_pos_bound. assumption.
Qed.

(** *** Resolution of a name along the chain *)

(** [resolves envs k start r]: walking from [start], [r] is the innermost
    scope that binds [k], with the entry it binds it to; [None] when no
    scope of the chain binds [k]. *)
Inductive resolves (envs : list Environment) (k : ObjString)
  : option nat -> option (nat * Environment * TableEntry) -> Prop :=
  | resolves_end : resolves envs k None None
  | resolves_here a e x :
      envs !! a = Some e -> bound (variables e) k x ->
      resolves envs k (Some a) (Some (a, e, x))
  | resolves_up a e r :
      envs !! a = Some e -> (forall x, ~ bound (variables e) k x) ->
      resolves envs k (enclosing e) r ->
      resolves envs k (Some a) r.

(** What [env_set] is to return for a resolution [r]. *)
Definition env_set_result (envs : list Environment) (k : ObjString)
    (v : Value) (r : option (nat * Environment * TableEntry))
    (out : res (bool * list Environment)) : Prop :=
  match r with
  | None => out = Ok (false, envs)
  | Some (c, ec, x) =>
      if is_const x then out = Ok (false, envs)
      else
        exists t',
          out = Ok (true, <[c := {| variables := t'; enclosing := enclosing ec |}]> envs)
          /\ table_wf t'
          /\ bound t' k {| key := Some k; value := v; is_const := false |}
          /\ (forall k2 y, s_addr k2 <> s_addr k ->
                ((exists j, holds (entries t') j k2 y)
                 <-> (exists j, holds (entries (variables ec)) j k2 y)))
          /\ (forall j k2 y, holds (entries t') j k2 y -> s_addr k2 = s_addr k ->
                k2 = k)
  end.

Lemma env_set_walk_spec pool envs k v :
  pool_ok pool -> interned pool k ->
  (forall a e, envs !! a = Some e -> scope_ok pool a e) ->
  (forall a e, envs !! a = Some e -> capacity (variables e) * 2 <= INT_MAX) ->
  forall fuel current,
    (forall a, current = Some a -> (a < fuel)%nat /\ (a < length envs)%nat) ->
    exists r, resolves envs k current r
              /\ env_set_result envs k v r (env_set_walk fuel envs current k v).
Proof.
  intros Hp Hk Hscope Hsmall. induction fuel as [|fuel IH]; intros current Hcur.
  - destruct current as [a|]; [destruct (Hcur a eq_refl); lia|].
    exists None. split; [constructor | reflexivity].
  - destruct current as [a|]; [|exists None; split; [constructor | reflexivity]].
    destruct (Hcur a eq_refl) as [Hfuel Hlen]. simpl.
    destruct (lookup_lt_is_Some_2 envs a Hlen) as [e He]. rewrite He.
    pose proof (Hscope a e He) as Hs. pose proof (so_wf _ _ _ Hs) as Hwf.
    pose proof (scope_agrees pool a e k Hp Hs Hk) as Hag.
    destruct (bound_cases (variables e) k Hwf Hag) as [[x Hb]|Hnb].
    + rewrite (table_get_bound _ k x Hwf Hag Hb). simpl.
      rewrite (find_entry_const_bound pool a e k x Hp Hs Hk Hb). simpl.
      exists (Some (a, e, x)). split; [constructor; assumption|].
      unfold env_set_result. destruct (is_const x); [reflexivity|].
      destruct (table_set_spec (variables e) k v false Hwf Hag)
        as (t' & b & Hset & Hwf' & Hb' & Hother & Hsame & _).
      { intros _. apply (Hsmall a e He). }
      rewrite Hset. simpl. exists t'.
      split; [reflexivity|]. split; [assumption|]. split; [assumption|].
      split; [assumption|]. intros j k2 y Hj Ha. apply (Hsame j k2 y Hj Ha).
    + rewrite (table_get_unbound _ k Hwf Hnb). simpl.
      destruct (IH (enclosing e)) as (r & Hr & Hres).
      { intros b Hb. pose proof (so_up _ _ _ Hs b Hb). lia. }
      exists r. split; [|exact Hres]. eapply resolves_up; eassumption.
Qed.

Lemma scope_ok_mono pool pool' a e :
  (forall s, interned pool s -> interned pool' s) ->
  scope_ok pool a e -> scope_ok pool' a e.
Proof.
  intros Hmono [Hwf Hkeys Hup]. split; [assumption | | assumption].
  intros j k x Hj. apply Hmono. eapply Hkeys. eassumption.
Qed.

(** C8.  [env_set] on a chain of scopes: with [r] the innermost scope of
    the chain that binds the name (the interned string [k]), the call
    succeeds exactly when [r] exists and its binding is not const.  On
    success the binding of [k] in that scope, and no other binding of any
    scope, is updated; on failure (the innermost binding is const, or no
    scope binds the name) the call returns false and the store of scopes
    is returned unchanged. *)
Theorem env_set_spec pool envs env name v :
  envs_ok pool envs -> small pool envs ->
  (forall a, env = Some a -> (a < length envs)%nat) ->
  exists k pool' r ok envs',
    string_create pool name = Ok (k, pool') /\ s_chars k = name
    /\ resolves envs k env r
    /\ env_set pool envs env name v = Ok (ok, pool', envs')
    /\ match r with
       | None => ok = false /\ envs' = envs
       | Some (c, ec, x) =>
           if is_const x then ok = false /\ envs' = envs
           else
             ok = true
             /\ (forall b, b <> c -> envs' !! b = envs !! b)
             /\ exists ec',
                  envs' !! c = Some ec'
                  /\ enclosing ec' = enclosing ec
                  /\ bound (variables ec') k
                       {| key := Some k; value := v; is_const := false |}
                  /\ forall k2 y, s_addr k2 <> s_addr k ->
                       ((exists j, holds (entries (variables ec')) j k2 y)
                        <-> (exists j, holds (entries (variables ec)) j k2 y))
       end.
Proof.
  intros [Hp Hscope] [Hsmall Hcaps] Henv.
  destruct (string_create_returns pool name Hp Hsmall) as (k & pool' & Hcreate).
  destruct (string_create_inv pool name k pool' Hp Hcreate)
    as (Hp' & Hchars & Hk & Hmono).
  destruct (env_set_walk_spec pool' envs k v Hp' Hk) with
    (fuel := S (length envs)) (current := env) as (r & Hr & Hres).
  - intros a e He. eapply scope_ok_mono; [exact Hmono | apply Hscope, He].
  - exact Hcaps.
  - intros a Ha. specialize (Henv a Ha). lia.
  - unfold env_set. rewrite Hcreate. cbn -[env_set_walk].
    exists k, pool', r. unfold env_set_result in Hres.
    destruct r as [[[c ec] x]|].
    + assert (Hc : envs !! c = Some ec).
      { clear Hres Henv. remember (Some (c, ec, x)) as r eqn:Er.
        induction Hr as [|a e x0 He Hb|a e r He Hnb Hr IH].
        - discriminate.
        - injection Er as -> -> ->. assumption.
        - apply IH, Er. }
      destruct (is_const x).
      * rewrite Hres. simpl. exists false, envs. repeat split; assumption.
      * destruct Hres as (t' & -> & Hwf' & Hb' & Hother & _). simpl.
        eexists true, _. split; [reflexivity|]. split; [assumption|].
        split; [assumption|]. split; [reflexivity|]. split; [reflexivity|].
        split; [intros b Hb; apply list_lookup_insert_ne; congruence|].
        eexists. split.
        { apply list_lookup_insert_eq. eapply lookup_lt_Some. eassumption. }
        simpl. split; [reflexivity|]. split; assumption.
    + rewrite Hres. simpl. exists false, envs. repeat split; assumption.
Qed.

(** *** The invariant is kept by the operations *)

Lemma envs_ok_init : envs_ok pool_init [].
Proof. split; [apply pool_ok_init|]. intros a e H. discriminate. Qed.

Lemma envs_ok_mono pool pool' envs :
  pool_ok pool' -> (forall s, interned pool s -> interned pool' s) ->
  envs_ok pool envs -> envs_ok pool' envs.
Proof.
  intros Hp' Hmono [_ Hs]. split; [assumption|].
  intros a e He. eapply scope_ok_mono; [exact Hmono | apply Hs, He].
Qed.

Lemma env_create_ok pool envs up :
  envs_ok pool envs ->
  (forall b, up = Some b -> (b < length envs)%nat) ->
  envs_ok pool (snd (env_create envs up)).
Proof.
  intros [Hp Hs] Hup. split; [assumption|]. simpl. intros a e He.
  apply lookup_app_Some in He as [He|[Hlen He]]; [apply Hs, He|].
  apply list_lookup_singleton_Some in He as [Ha <-].
  assert (a = length envs) by lia. subst a.
  split; simpl.
  - apply table_wf_create.
  - intros j k x [H _]. discriminate.
  - exact Hup.
Qed.

Lemma scope_set_ok pool a e k v c t' b :
  pool_ok pool -> scope_ok pool a e -> interned pool k ->
  table_set (variables e) k v c = Ok (t', b) ->
  scope_ok pool a {| variables := t'; enclosing := enclosing e |}.
Proof.
  intros Hp Hs Hk Hset. pose proof (so_wf _ _ _ Hs) as Hwf.
  destruct (table_set_spec (variables e) k v c Hwf
              (scope_agrees pool a e k Hp Hs Hk)
              (table_set_no_overflow _ _ _ _ _ Hset))
    as (t2 & b2 & Hset2 & Hwf2 & _ & Hother & Hsame & _).
  rewrite Hset in Hset2. injection Hset2 as <- <-.
  split; simpl; [assumption | | apply (so_up _ _ _ Hs)].
  intros j k2 x Hj. destruct (decide (s_addr k2 = s_addr k)) as [Ha|Hna].
  - destruct (Hsame j k2 x Hj Ha) as [-> _]. assumption.
  - destruct (proj1 (Hother k2 x Hna) (ex_intro _ j Hj)) as [j0 Hj0].
    eapply (so_keys _ _ _ Hs). eassumption.
Qed.

Lemma scopes_insert_ok pool (envs : list Environment) a e e' :
  (forall b x, envs !! b = Some x -> scope_ok pool b x) ->
  envs !! a = Some e -> scope_ok pool a e' ->
  forall b x, <[a := e']> envs !! b = Some x -> scope_ok pool b x.
Proof.
  intros Hs He He' b x Hb. destruct (decide (b = a)) as [->|Hne].
  - rewrite list_lookup_insert_eq in Hb by (eapply lookup_lt_Some; eassumption).
    injection Hb as <-. assumption.
  - rewrite list_lookup_insert_ne in Hb by congruence. apply Hs, Hb.
Qed.

Lemma env_define_ok pool envs a name v c b pool' envs' :
  envs_ok pool envs ->
  env_define pool envs a name v c = Ok (b, pool', envs') ->
  envs_ok pool' envs' /\ length envs' = length envs.
Proof.
  intros Hok. unfold env_define.
  destruct (string_create pool name) as [[k p1]| |] eqn:Hc; simpl; try discriminate.
  destruct (string_create_inv pool name k p1 (eo_pool _ _ Hok) Hc)
    as (Hp1 & _ & Hk & Hmono).
  pose proof (envs_ok_mono pool p1 envs Hp1 Hmono Hok) as [_ Hs].
  destruct (envs !! a) as [e|] eqn:He; [|discriminate].
  destruct (table_get (variables e) k) as [[x|]| |]; simpl; try discriminate.
  - intros [= <- <- <-]. split; [split; assumption | reflexivity].
  - destruct (table_set (variables e) k v c) as [[t' b']| |] eqn:Hset;
      simpl; try discriminate.
    intros [= <- <- <-]. split; [|apply length_insert].
    split; [assumption|].
    eapply scopes_insert_ok; [exact Hs | exact He |].
    eapply scope_set_ok; [exact Hp1 | apply Hs, He | exact Hk | exact Hset].
Qed.

Lemma env_set_walk_ok pool envs k v :
  pool_ok pool -> interned pool k ->
  forall fuel current b envs',
    (forall a e, envs !! a = Some e -> scope_ok pool a e) ->
    env_set_walk fuel envs current k v = Ok (b, envs') ->
    (forall a e, envs' !! a = Some e -> scope_ok pool a e)
    /\ length envs' = length envs.
Proof.
  intros Hp Hk. induction fuel as [|fuel IH]; intros current b envs' Hs;
    destruct current as [a|]; simpl; try discriminate;
    try (intros [= <- <-]; split; [assumption | reflexivity]).
  destruct (envs !! a) as [e|] eqn:He; [|discriminate].
  destruct (table_get (variables e) k) as [[x|]| |]; simpl; try discriminate.
  - destruct (find_entry_const e k) as [[[|]|]| |]; simpl; try discriminate;
      try (intros [= <- <-]; split; [assumption | reflexivity]);
      (destruct (table_set (variables e) k v false) as [[t' b']| |] eqn:Hset;
       simpl; try discriminate;
       intros [= <- <-]; split; [|apply length_insert];
       eapply scopes_insert_ok; [exact Hs | exact He |];
       eapply scope_set_ok; [exact Hp | apply Hs, He | exact Hk | exact Hset]).
  - apply IH. assumption.
Qed.

Lemma env_set_ok pool envs env name v b pool' envs' :
  envs_ok pool envs ->
  env_set pool envs env name v = Ok (b, pool', envs') ->
  envs_ok pool' envs' /\ length envs' = length envs.
Proof.
  intros Hok. unfold env_set.
  destruct (string_create pool name) as [[k p1]| |] eqn:Hc;
    cbn -[env_set_walk]; try discriminate.
  destruct (string_create_inv pool name k p1 (eo_pool _ _ Hok) Hc)
    as (Hp1 & _ & Hk & Hmono).
  pose proof (envs_ok_mono pool p1 envs Hp1 Hmono Hok) as [_ Hs].
  destruct (env_set_walk (S (length envs)) envs env k v) as [[b1 envs1]| |] eqn:Hw;
    cbn -[env_set_walk]; try discriminate.
  intros [= <- <- <-].
  destruct (env_set_walk_ok p1 envs k v Hp1 Hk _ _ _ _ Hs Hw) as [Hs' Hlen].
  split; [split; assumption | assumption].
Qed.

(** A global scope binding [x], and an empty scope nested in it. *)
Definition demo_global : list Environment := snd (env_create [] None).

Definition demo_defined : bool * StringPool * list Environment :=
  Eval vm_compute in
    match env_define pool_init demo_global 0 "x" (INT_VAL 1) false with
    | Ok r => r
    | _ => (false, pool_init, [])
    end.

Definition demo_pool : StringPool := snd (fst demo_defined).
Definition demo_envs : list Environment :=
  snd (env_create (snd demo_defined) (Some 0%nat)).

Lemma demo_envs_ok : envs_ok demo_pool demo_envs.
Proof.
  apply env_create_ok.
  - eapply (env_define_ok pool_init demo_global 0 "x" (INT_VAL 1) false true).
    + apply (env_create_ok pool_init [] None envs_ok_init). discriminate.
    + vm_compute. reflexivity.
  - intros b [= <-]. vm_compute. lia.
Qed.

Lemma env_set_spec_witness :
  envs_ok demo_pool demo_envs /\ small demo_pool demo_envs
  /\ (forall a, Some 1%nat = Some a -> (a < length demo_envs)%nat)
  /\ exists k pool' r ok envs',
       string_create demo_pool "x" = Ok (k, pool') /\ s_chars k = "x"%string
       /\ resolves demo_envs k (Some 1%nat) r
       /\ env_set demo_pool demo_envs (Some 1%nat) "x" (INT_VAL 5)
          = Ok (ok, pool', envs')
       /\ match r with
          | None => ok = false /\ envs' = demo_envs
          | Some (c, ec, x) =>
              if is_const x then ok = false /\ envs' = demo_envs
              else
                ok = true
                /\ (forall b, b <> c -> envs' !! b = demo_envs !! b)
                /\ exists ec',
                     envs' !! c = Some ec'
                     /\ enclosing ec' = enclosing ec
                     /\ bound (variables ec') k
                          {| key := Some k; value := INT_VAL 5; is_const := false |}
                     /\ forall k2 y, s_addr k2 <> s_addr k ->
                          ((exists j, holds (entries (variables ec')) j k2 y)
                           <-> (exists j, holds (entries (variables ec)) j k2 y))
          end.
Proof.
  assert (H1 : envs_ok demo_pool demo_envs) by exact demo_envs_ok.
  assert (H2 : small demo_pool demo_envs)
    by (apply smallb_small; vm_compute; reflexivity).
  assert (H3 : forall a, Some 1%nat = Some a -> (a < length demo_envs)%nat)
    by (intros a [= <-]; vm_compute; lia).
  split; [exact H1|]. split; [exact H2|]. split; [exact H3|].
  exact (env_set_spec demo_pool demo_envs (Some 1%nat) "x" (INT_VAL 5) H1 H2 H3).
Defined.

(** The three outcomes on that state: an update of the binding of the
    enclosing scope, an unknown name, and (after [c :: 2]) a constant. *)
Example env_set_updates_outer :
  exists pool' envs',
    env_set demo_pool demo_envs (Some 1%nat) "x" (INT_VAL 5)
      = Ok (true, pool', envs')
    /\ env_get pool' envs' (Some 1%nat) "x" = Ok (Some (INT_VAL 5), pool').
Proof. eexists _, _. split; vm_compute; reflexivity. Qed.

Example env_set_unknown_name :
  exists pool',
    env_set demo_pool demo_envs (Some 1%nat) "y" (INT_VAL 5)
      = Ok (false, pool', demo_envs).
Proof. eexists. vm_compute. reflexivity. Qed.

Example env_set_constant :
  exists p1 e1 p2,
    env_define demo_pool demo_envs 0 "c" (INT_VAL 2) true = Ok (true, p1, e1)
    /\ env_set p1 e1 (Some 1%nat) "c" (INT_VAL 7) = Ok (false, p2, e1).
Proof. eexists _, _, _. split; vm_compute; reflexivity. Qed.
End Env.

(* ===================================================================== *)
(** * token.h, ast.h *)
(* ===================================================================== *)

Module Ast.

Inductive TokenType : Type :=
  | TOKEN_EOF | TOKEN_ERROR | TOKEN_NEWLINE
  | TOKEN_INT | TOKEN_FLOAT | TOKEN_STRING | TOKEN_TRUE | TOKEN_FALSE
  | TOKEN_NIL
  | TOKEN_IDENTIFIER
  | TOKEN_FN | TOKEN_IF | TOKEN_ELIF | TOKEN_ELSE | TOKEN_WHILE | TOKEN_FOR
  | TOKEN_IN | TOKEN_RETURN | TOKEN_BREAK | TOKEN_CONTINUE | TOKEN_MATCH
  | TOKEN_DEFER | TOKEN_AND | TOKEN_OR | TOKEN_NOT
  | TOKEN_PLUS | TOKEN_MINUS | TOKEN_STAR | TOKEN_SLASH | TOKEN_PERCENT
  | TOKEN_EQ | TOKEN_EQEQ | TOKEN_NEQ | TOKEN_LT | TOKEN_GT | TOKEN_LTE
  | TOKEN_GTE | TOKEN_AMPERSAND | TOKEN_DOTDOT | TOKEN_ARROW | TOKEN_RARROW
  | TOKEN_LPAREN | TOKEN_RPAREN | TOKEN_LBRACE | TOKEN_RBRACE
  | TOKEN_LBRACKET | TOKEN_RBRACKET | TOKEN_COMMA | TOKEN_DOT | TOKEN_COLON
  | TOKEN_COLONCOLON | TOKEN_COLONEQ | TOKEN_SEMICOLON | TOKEN_HASH
  | TOKEN_AT | TOKEN_UNDERSCORE | TOKEN_BANG.

Definition TokenType_eq_dec (a b : TokenType) : {a = b} + {a <> b}.
Proof. decide equality. Defined.

Definition token_eqb (a b : TokenType) : bool :=
  if TokenType_eq_dec a b then true else false.

(** Source position of a node: [line] and [column]. *)
Record Pos : Type := mkPos { line : Z; column : Z }.

(** The tagged union [AstNode].  [NODE_NULL] stands for the null pointer
    where a child is absent (no [else] branch, a bare [return], a child
    the parser could not build).  A [var_decl] node is a [NODE_CONST_DECL]
    when its [is_const] flag is set and a [NODE_VAR_DECL] otherwise. *)
#[local] Unset Elimination Schemes.
Inductive AstNode : Type :=
  | NODE_NULL
  | NODE_LITERAL_INT (pos : Pos) (value : Z)
  | NODE_LITERAL_FLOAT (pos : Pos) (value : float)
  | NODE_LITERAL_STRING (pos : Pos) (value : string)
  | NODE_LITERAL_BOOL (pos : Pos) (value : bool)
  | NODE_LITERAL_NIL (pos : Pos)
  | NODE_IDENTIFIER (pos : Pos) (name : string)
  | NODE_BINARY (pos : Pos) (operator : TokenType) (left right : AstNode)
  | NODE_UNARY (pos : Pos) (operator : TokenType) (operand : AstNode)
  | NODE_CALL (pos : Pos) (callee : AstNode) (arguments : list AstNode)
  | NODE_INDEX (pos : Pos) (object index : AstNode)
  | NODE_FIELD (pos : Pos) (object : AstNode) (field_name : string)
  | NODE_ARRAY (pos : Pos) (elements : list AstNode)
  | NODE_TABLE (pos : Pos) (fields : list (string * AstNode))
  | NODE_LAMBDA (pos : Pos) (parameters : list string) (body : AstNode)
  | NODE_RANGE (pos : Pos) (start end_ : AstNode)
  | NODE_ADDRESS_OF (pos : Pos) (operand : AstNode)
  | NODE_VAR_DECL (pos : Pos) (name : string) (initializer : AstNode)
      (is_const : bool)
  | NODE_ASSIGNMENT (pos : Pos) (target value : AstNode)
  | NODE_EXPR_STMT (pos : Pos) (operand : AstNode)
  | NODE_BLOCK (pos : Pos) (statements : list AstNode)
  | NODE_IF (pos : Pos) (condition then_branch else_branch : AstNode)
  | NODE_WHILE (pos : Pos) (condition body : AstNode)
  | NODE_FOR (pos : Pos) (iterator_name : string) (iterable body : AstNode)
  | NODE_RETURN (pos : Pos) (value : AstNode)
  | NODE_BREAK (pos : Pos)
  | NODE_CONTINUE (pos : Pos)
  | NODE_FN_DECL (pos : Pos) (name : string) (parameters : list string)
      (body : AstNode)
  | NODE_MATCH (pos : Pos) (value : AstNode) (arms : list (AstNode * AstNode))
  | NODE_DEFER (pos : Pos) (statement : AstNode)
  | NODE_PROGRAM (statements : list AstNode)
  | NODE_IMPORT (pos : Pos) (path : string)
  | NODE_C_BLOCK (pos : Pos) (code : string)
  | NODE_CTYPE (pos : Pos).
#[local] Set Elimination Schemes.

Definition node_line (n : AstNode) : Z :=
  match n with
  | NODE_NULL | NODE_PROGRAM _ => 0
  | NODE_LITERAL_INT p _ | NODE_LITERAL_FLOAT p _ | NODE_LITERAL_STRING p _
  | NODE_LITERAL_BOOL p _ | NODE_LITERAL_NIL p | NODE_IDENTIFIER p _
  | NODE_BINARY p _ _ _ | NODE_UNARY p _ _ | NODE_CALL p _ _
  | NODE_INDEX p _ _ | NODE_FIELD p _ _ | NODE_ARRAY p _ | NODE_TABLE p _
  | NODE_LAMBDA p _ _ | NODE_RANGE p _ _ | NODE_ADDRESS_OF p _
  | NODE_VAR_DECL p _ _ _ | NODE_ASSIGNMENT p _ _ | NODE_EXPR_STMT p _
  | NODE_BLOCK p _ | NODE_IF p _ _ _ | NODE_WHILE p _ _ | NODE_FOR p _ _ _
  | NODE_RETURN p _ | NODE_BREAK p | NODE_CONTINUE p | NODE_FN_DECL p _ _ _
  | NODE_MATCH p _ _ | NODE_DEFER p _ | NODE_IMPORT p _ | NODE_C_BLOCK p _
  | NODE_CTYPE p => line p
  end.

End Ast.

(* ===================================================================== *)
(** * value.h: heap objects other than strings *)
(* ===================================================================== *)

Module Object.
Import Value Ast.

(** A C address as the bridge sees it: NULL, the bytes of a string
    object ([str->chars]), or an address of foreign memory. *)
Inductive CAddr : Type :=
  | NULL
  | CharsOf (s : ObjString)
  | Raw (a : Z).

Inductive CType : Type :=
  | CTYPE_VOID | CTYPE_CHAR | CTYPE_SCHAR | CTYPE_UCHAR | CTYPE_SHORT
  | CTYPE_USHORT | CTYPE_INT | CTYPE_UINT | CTYPE_LONG | CTYPE_ULONG
  | CTYPE_LONGLONG | CTYPE_ULONGLONG | CTYPE_FLOAT | CTYPE_DOUBLE
  | CTYPE_POINTER | CTYPE_STRING | CTYPE_STRUCT | CTYPE_BOOL | CTYPE_SIZE_T
  | CTYPE_INT8 | CTYPE_INT16 | CTYPE_INT32 | CTYPE_INT64
  | CTYPE_UINT8 | CTYPE_UINT16 | CTYPE_UINT32 | CTYPE_UINT64.

Record CFunctionDesc : Type := mkCFunctionDesc {
  cf_name : string;
  return_type : CType;
  param_types : list CType;
  is_variadic : bool;
  func_ptr : Z
}.

(** The objects of the heap.  An array keeps its [count] live elements
    and its capacity; a function its captured environment (an address of
    the store of environments); a native its function pointer, here an
    identifier of the built-in. *)
Inductive Obj : Type :=
  | ObjArray (elements : list Value) (capacity : Z)
  | ObjTableO (table : ObjTable)
  | ObjFunction (name : option string) (params : list string)
      (body : AstNode) (closure : option nat)
  | ObjNative (function : nat) (arity : Z) (name : string)
  | ObjPointer (ptr : CAddr) (type_name : option string)
  | ObjCStruct (desc : nat) (data : CAddr)
  | ObjCFunction (desc : CFunctionDesc).

(** [allocate_object]: a fresh address. *)
Definition allocate_object (heap : list Obj) (o : Obj) : nat * list Obj :=
  (length heap, heap ++ [o]).

Definition deref (heap : list Obj) (v : Value) : option Obj :=
  match v with
  | OBJ_VAL (HeapRef a) => heap !! a
  | _ => None
  end.

Definition IS_ARRAY (heap : list Obj) (v : Value) : bool :=
  match deref heap v with Some (ObjArray _ _) => true | _ => false end.
Definition IS_TABLE (heap : list Obj) (v : Value) : bool :=
  match deref heap v with Some (ObjTableO _) => true | _ => false end.
Definition IS_FUNCTION (heap : list Obj) (v : Value) : bool :=
  match deref heap v with Some (ObjFunction _ _ _ _) => true | _ => false end.
Definition IS_NATIVE (heap : list Obj) (v : Value) : bool :=
  match deref heap v with Some (ObjNative _ _ _) => true | _ => false end.
Definition IS_POINTER (heap : list Obj) (v : Value) : bool :=
  match deref heap v with Some (ObjPointer _ _) => true | _ => false end.
Definition IS_CSTRUCT (heap : list Obj) (v : Value) : bool :=
  match deref heap v with Some (ObjCStruct _ _) => true | _ => false end.
Definition IS_CFUNCTION (heap : list Obj) (v : Value) : bool :=
  match deref heap v with Some (ObjCFunction _) => true | _ => false end.

Definition array_create (heap : list Obj) : nat * list Obj :=
  allocate_object heap (ObjArray [] 0).

(** [array_push] on the array at address [a]. *)
Definition array_push (heap : list Obj) (a : nat) (v : Value) : res (list Obj) :=
  match heap !! a with
  | Some (ObjArray elements capacity) =>
      capacity' ←
        (if capacity <=? Z.of_nat (length elements) then
           if capacity <? 8 then Ok 8
           else if INT_MAX <? capacity * 2 then Fault
           else Ok (capacity * 2)
         else Ok capacity);
      Ok (<[a := ObjArray (elements ++ [v]) capacity']> heap)
  | _ => Fault
  end.

Definition array_get (elements : list Value) (index : Z) : Value :=
  if (index <? 0) || (Z.of_nat (length elements) <=? index) then NIL_VAL
  else match elements !! Z.to_nat index with
       | Some v => v
       | None => NIL_VAL
       end.

(** [array_set]: an index out of range is ignored. *)
Definition array_set (heap : list Obj) (a : nat) (index : Z) (v : Value)
  : res (list Obj) :=
  match heap !! a with
  | Some (ObjArray elements capacity) =>
      if (index <? 0) || (Z.of_nat (length elements) <=? index) then Ok heap
      else Ok (<[a := ObjArray (<[Z.to_nat index := v]> elements) capacity]> heap)
  | _ => Fault
  end.

Definition pointer_create (heap : list Obj) (ptr : CAddr)
    (type_name : option string) : nat * list Obj :=
  allocate_object heap (ObjPointer ptr type_name).

End Object.

(* ===================================================================== *)
(** * cffi.c: marshalling *)
(* ===================================================================== *)

Module Cffi.
Import Value Object.

(** ** C conversions between integers and floating-point numbers *)

(** [(double) n] and [(float) n] for an [int64_t] [n], and [(float) f]
    for a [double] [f]: rounding to nearest even in binary64 (53 bits,
    emax 1024) and binary32 (24 bits, emax 128).  A binary32 number is
    held as the [double] of the same value. *)
Definition double_of_int64 (n : Z) : float :=
  SF2Prim (SpecFloat.binary_normalize 53 1024 n 0 false).

Definition float_of_int64 (n : Z) : float :=
  SF2Prim (SpecFloat.binary_normalize 24 128 n 0 false).

Definition float_of_double (f : float) : float :=
  match Prim2SF f with
  | SpecFloat.S754_finite s m e => SF2Prim (SpecFloat.binary_round 24 128 s m e)
  | _ => f
  end.

(** ** Slots *)

(** A C slot, by the type of the lvalue the bridge writes and reads it
    through. *)
Inductive CSlot : Type :=
  | S_none
  | S_char (n : Z)
  | S_uchar (n : Z)
  | S_short (n : Z)
  | S_ushort (n : Z)
  | S_int (n : Z)
  | S_uint (n : Z)
  | S_long (n : Z)
  | S_ulong (n : Z)
  | S_longlong (n : Z)
  | S_ulonglong (n : Z)
  | S_float (f : float)
  | S_double (f : float)
  | S_ptr (p : CAddr).

(** [(void * ) (intptr_t) n] *)
Definition addr_of_int (n : Z) : CAddr := if n =? 0 then NULL else Raw n.

Definition first_byte (s : ObjString) : Z :=
  match s_chars s with
  | String c _ => byte_of c
  | EmptyString => 0
  end.

(** [marshal_to_c (value, type, out)]: the slot written, [None] when the
    function returns false.  [char] is a signed type and [long] has 64
    bits, as [ctype_to_ffi] and [ctype_size] have them. *)
Definition marshal_to_c (heap : list Obj) (v : Value) (type : CType)
  : option CSlot :=
  match type with
  | CTYPE_VOID => Some S_none
  | CTYPE_CHAR | CTYPE_SCHAR =>
      match v with
      | INT_VAL n => Some (S_char (to_signed 8 n))
      | OBJ_VAL (StrRef s) =>
          if 0 <? s_length s then Some (S_char (to_signed 8 (first_byte s)))
          else None
      | _ => None
      end
  | CTYPE_UCHAR | CTYPE_UINT8 =>
      match v with INT_VAL n => Some (S_uchar (to_unsigned 8 n)) | _ => None end
  | CTYPE_SHORT | CTYPE_INT16 =>
      match v with INT_VAL n => Some (S_short (to_signed 16 n)) | _ => None end
  | CTYPE_USHORT | CTYPE_UINT16 =>
      match v with INT_VAL n => Some (S_ushort (to_unsigned 16 n)) | _ => None end
  | CTYPE_INT | CTYPE_INT32 | CTYPE_BOOL =>
      match v with
      | INT_VAL n => Some (S_int (to_signed 32 n))
      | BOOL_VAL b => Some (S_int (if b then 1 else 0))
      | _ => None
      end
  | CTYPE_UINT | CTYPE_UINT32 =>
      match v with INT_VAL n => Some (S_uint (to_unsigned 32 n)) | _ => None end
  | CTYPE_LONG | CTYPE_INT64 =>
      match v with INT_VAL n => Some (S_long (to_signed 64 n)) | _ => None end
  | CTYPE_ULONG | CTYPE_UINT64 | CTYPE_SIZE_T =>
      match v with INT_VAL n => Some (S_ulong (to_unsigned 64 n)) | _ => None end
  | CTYPE_LONGLONG =>
      match v with INT_VAL n => Some (S_longlong (to_signed 64 n)) | _ => None end
  | CTYPE_ULONGLONG =>
      match v with
      | INT_VAL n => Some (S_ulonglong (to_unsigned 64 n))
      | _ => None
      end
  | CTYPE_FLOAT =>
      match v with
      | INT_VAL n => Some (S_float (float_of_int64 n))
      | FLOAT_VAL f => Some (S_float (float_of_double f))
      | _ => None
      end
  | CTYPE_DOUBLE =>
      match v with
      | INT_VAL n => Some (S_double (double_of_int64 n))
      | FLOAT_VAL f => Some (S_double f)
      | _ => None
      end
  | CTYPE_STRING =>
      match v with
      | NIL_VAL => Some (S_ptr NULL)
      | OBJ_VAL (StrRef s) => Some (S_ptr (CharsOf s))
      | _ => None
      end
  | CTYPE_POINTER =>
      match v with
      | NIL_VAL => Some (S_ptr NULL)
      | INT_VAL n =>  Some (S_ptr (addr_of_int n))
      | _ =>
          match deref heap v with
          | Some (ObjPointer ptr _) => Some (S_ptr ptr)
          | Some (ObjCStruct _ data) => Some (S_ptr data)
          | _ => None
          end
      end
  | CTYPE_STRUCT =>
      match deref heap v with
      | Some (ObjCStruct _ data) => Some (S_ptr data)
      | _ => None
      end
  | CTYPE_INT8 => None             (* no case of the switch: [default] *)
  end.

(** [strlen]: the bytes before the first NUL. *)
Fixpoint until_nul (s : string) : string :=
  match s with
  | EmptyString => EmptyString
  | String c rest =>
      if Ascii.eqb c Ascii.zero then EmptyString else String c (until_nul rest)
  end.

Section marshal_out.

(** The NUL-terminated bytes found at an address of foreign memory. *)
Variable c_string_at : Z -> string.

Definition c_string (p : CAddr) : string :=
  match p with
  | NULL => EmptyString
  | CharsOf s => until_nul (bytes_of s)
  | Raw a => c_string_at a
  end.

(** [marshal_from_c (in, type)].  Reading a slot through an lvalue of
    another type than it was written through is not modelled ([Fault]). *)
Definition marshal_from_c (pool : StringPool) (heap : list Obj) (slot : CSlot)
    (type : CType) : res (Value * StringPool * list Obj) :=
  match type with
  | CTYPE_VOID => Ok (NIL_VAL, pool, heap)
  | CTYPE_CHAR | CTYPE_SCHAR =>
      match slot with S_char n => Ok (INT_VAL n, pool, heap) | _ => Fault end
  | CTYPE_UCHAR | CTYPE_UINT8 =>
      match slot with S_uchar n => Ok (INT_VAL n, pool, heap) | _ => Fault end
  | CTYPE_SHORT | CTYPE_INT16 =>
      match slot with S_short n => Ok (INT_VAL n, pool, heap) | _ => Fault end
  | CTYPE_USHORT | CTYPE_UINT16 =>
      match slot with S_ushort n => Ok (INT_VAL n, pool, heap) | _ => Fault end
  | CTYPE_INT | CTYPE_INT32 =>
      match slot with S_int n => Ok (INT_VAL n, pool, heap) | _ => Fault end
  | CTYPE_UINT | CTYPE_UINT32 =>
      match slot with S_uint n => Ok (INT_VAL n, pool, heap) | _ => Fault end
  | CTYPE_LONG | CTYPE_INT64 =>
      match slot with S_long n => Ok (INT_VAL n, pool, heap) | _ => Fault end
  | CTYPE_ULONG | CTYPE_UINT64 | CTYPE_SIZE_T =>
      match slot with
      | S_ulong n => Ok (INT_VAL (to_signed 64 n), pool, heap)
      | _ => Fault
      end
  | CTYPE_LONGLONG =>
      match slot with S_longlong n => Ok (INT_VAL n, pool, heap) | _ => Fault end
  | CTYPE_ULONGLONG =>
      match slot with
      | S_ulonglong n => Ok (INT_VAL (to_signed 64 n), pool, heap)
      | _ => Fault
      end
  | CTYPE_FLOAT =>
      match slot with S_float f => Ok (FLOAT_VAL f, pool, heap) | _ => Fault end
  | CTYPE_DOUBLE =>
      match slot with S_double f => Ok (FLOAT_VAL f, pool, heap) | _ => Fault end
  | CTYPE_BOOL =>
      match slot with
      | S_int n => Ok (BOOL_VAL (negb (n =? 0)), pool, heap)
      | _ => Fault
      end
  | CTYPE_STRING =>
      match slot with
      | S_ptr NULL => Ok (NIL_VAL, pool, heap)
      | S_ptr p =>
          '(s, pool') ← string_create pool (c_string p);
          Ok (OBJ_VAL (StrRef s), pool', heap)
      | _ => Fault
      end
  | CTYPE_POINTER =>
      match slot with
      | S_ptr NULL => Ok (NIL_VAL, pool, heap)
      | S_ptr p =>
          let '(a, heap') := pointer_create heap p (Some "void*"%string) in
          Ok (OBJ_VAL (HeapRef a), pool, heap')
      | _ => Fault
      end
  | CTYPE_STRUCT | CTYPE_INT8 => Ok (NIL_VAL, pool, heap)     (* [default] *)
  end.

End marshal_out.


(* --------------------------------------------------------------------- *)
(** ** Facts about marshalling *)
(* --------------------------------------------------------------------- *)

(** The result of [to_signed] lies in the range of the signed type. *)
Lemma to_signed_range (w n : Z) :
  0 < w -> - 2 ^ (w - 1) <= to_signed w n < 2 ^ (w - 1).
Proof.
  intros Hw. unfold to_signed.
  assert (Hp : 2 ^ w = 2 * 2 ^ (w - 1)).
  { replace w with (Z.succ (w - 1)) at 1 by lia. apply Z.pow_succ_r. lia. }
  assert (Hpos : 0 < 2 ^ (w - 1)) by (apply Z.pow_pos_nonneg; lia).
  pose proof (Z.mod_pos_bound n (2 ^ w) ltac:(lia)) as Hm.
  destruct (Z.ltb_spec (n mod 2 ^ w) (2 ^ (w - 1))); lia.
Qed.

Lemma to_signed_small w n :
  0 < w -> - 2 ^ (w - 1) <= n < 2 ^ (w - 1) -> to_signed w n = n.
Proof.
  intros Hw Hn. unfold to_signed.
  assert (Hp : 2 ^ w = 2 * 2 ^ (w - 1)).
  { replace w with (Z.succ (w - 1)) at 1 by lia. apply Z.pow_succ_r. lia. }
  assert (Hpos : 0 < 2 ^ (w - 1)) by (apply Z.pow_pos_nonneg; lia).
  destruct (Z.neg_nonneg_cases n) as [Hneg|Hnn].
  - assert (Hm : n mod 2 ^ w = n + 2 ^ w).
    { symmetry. apply Z.mod_unique with (q := -1); lia. }
    rewrite Hm. destruct (n + 2 ^ w <? 2 ^ (w - 1)) eqn:E;
      [apply Z.ltb_lt in E; lia | lia].
  - rewrite Z.mod_small by lia.
    destruct (n <? 2 ^ (w - 1)) eqn:E; [reflexivity | apply Z.ltb_ge in E; lia].
Qed.

Lemma to_unsigned_small w n : 0 <= n < 2 ^ w -> to_unsigned w n = n.
Proof. intros H. unfold to_unsigned. apply Z.mod_small, H. Qed.

Lemma to_signed_unsigned w n :
  0 < w -> - 2 ^ (w - 1) <= n < 2 ^ (w - 1) ->
  to_signed w (to_unsigned w n) = n.
Proof.
  intros Hw Hn. rewrite <- (to_signed_small w n Hw Hn) at 2.
  unfold to_signed, to_unsigned. rewrite Z.mod_mod; [reflexivity|].
  apply Z.pow_nonzero; lia.
Qed.

(** The value range of the integer tags, cut to what an [int64_t] value
    can hold; [None] for the other tags. *)
Definition int_range (T : CType) : option (Z * Z) :=
  match T with
  | CTYPE_CHAR | CTYPE_SCHAR => Some (-128, 127)
  | CTYPE_UCHAR | CTYPE_UINT8 => Some (0, 255)
  | CTYPE_SHORT | CTYPE_INT16 => Some (-32768, 32767)
  | CTYPE_USHORT | CTYPE_UINT16 => Some (0, 65535)
  | CTYPE_INT | CTYPE_INT32 => Some (-2147483648, 2147483647)
  | CTYPE_UINT | CTYPE_UINT32 => Some (0, 4294967295)
  | CTYPE_LONG | CTYPE_INT64 | CTYPE_LONGLONG => Some (INT64_MIN, INT64_MAX)
  | CTYPE_ULONG | CTYPE_UINT64 | CTYPE_SIZE_T | CTYPE_ULONGLONG =>
      Some (0, INT64_MAX)
  | _ => None
  end.

Fixpoint has_nul (s : string) : bool :=
  match s with
  | EmptyString => false
  | String c rest => Ascii.eqb c Ascii.zero || has_nul rest
  end.

Lemma until_nul_id s : has_nul s = false -> until_nul s = s.
Proof.
  induction s as [|c s IH]; simpl; [reflexivity|].
  destruct (Ascii.eqb c Ascii.zero); simpl; [discriminate|].
  intros H. rewrite IH by assumption. reflexivity.
Qed.

(** Creating a string whose bytes are those of an interned string gives
    that string back. *)
Lemma string_create_interned pool s :
  pool_ok pool -> interned pool s ->
  string_create pool (s_chars s) = Ok (s, pool).
Proof.
  intros Hok Hs. rewrite string_create_unfold.
  destruct (po_keys pool Hok s Hs) as [_ Hwf].
  destruct (intern_lookup _ _ _ _) as [k|] eqn:Hl.
  - apply intern_lookup_Some in Hl as [Hk Hb].
    apply same_bytes_true in Hb as (_ & _ & Hb).
    rewrite bytes_of_wf in Hb by (apply (po_keys pool Hok), Hk).
    rewrite (Env.interned_bytes_inj pool k s Hok Hk Hs Hb). reflexivity.
  - exfalso. destruct Hs as (j & e & Hj).
    pose proof (intern_lookup_None _ _ _ _ Hl j s e Hj) as Hf.
    assert (Ht : same_bytes s (str_len (s_chars s)) (string_hash (s_chars s))
                   (s_chars s) = true); [|congruence].
    apply same_bytes_true. rewrite (bytes_of_wf s Hwf).
    destruct Hwf as [-> ->]. repeat split.
Qed.

(** Accepted pairs that a round trip changes. *)
Example marshal_int_as_bool :
  marshal_to_c [] (INT_VAL 5) CTYPE_BOOL = Some (S_int 5)
  /\ marshal_from_c (fun _ => ""%string) pool_init [] (S_int 5) CTYPE_BOOL
     = Ok (BOOL_VAL true, pool_init, []).
Proof. split; reflexivity. Qed.

Example marshal_int_as_double :
  marshal_to_c [] (INT_VAL 3) CTYPE_DOUBLE = Some (S_double 3%float)
  /\ marshal_from_c (fun _ => ""%string) pool_init [] (S_double 3%float) CTYPE_DOUBLE
     = Ok (FLOAT_VAL 3%float, pool_init, []).
Proof. split; vm_compute; reflexivity. Qed.

Example marshal_int_as_pointer :
  marshal_to_c [] (INT_VAL 4096) CTYPE_POINTER = Some (S_ptr (Raw 4096))
  /\ marshal_from_c (fun _ => ""%string) pool_init [] (S_ptr (Raw 4096)) CTYPE_POINTER
     = Ok (OBJ_VAL (HeapRef 0), pool_init,
           [ObjPointer (Raw 4096) (Some "void*"%string)]).
Proof. split; reflexivity. Qed.

Example marshal_float_narrowing :
  float_of_double 0.5%float = 0.5%float
  /\ float_of_double 0x1.999999999999ap-4%float <> 0x1.999999999999ap-4%float.
Proof. split; [vm_compute; reflexivity|]. vm_compute. discriminate. Qed.
End Cffi.

(* ===================================================================== *)
(** * interp.c *)
(* ===================================================================== *)

Module Interp.
Import Value Env Ast Object.

(** ** The interpreter state *)

(** History of the defer stack, kept for the specification only: which
    statement was pushed, and for each entry popped whether [exec] ran
    its statement or returned at once because [had_error] was set. *)
Inductive DeferEvent : Type :=
  | Pushed (stmt : AstNode)
  | Ran (stmt : AstNode)
  | Dropped (stmt : AstNode).

(** The fields of the C struct [Interpreter], followed by the memory the
    interpreter works on (the string pool, the store of environments, the
    object heap) and the history of the defer stack.  The defer stack is
    the list of the statements of its entries, top first; a marker into
    it is the depth of the stack when the marker was taken. *)
Record Interpreter : Type := mkInterpreter {
  global : nat;
  current : nat;
  return_value : Value;
  last_value : Value;
  returning : bool;
  breaking : bool;
  continuing : bool;
  had_error : bool;
  error_message : string;
  error_line : Z;
  defer_stack : list AstNode;
  pool : StringPool;
  envs : list Environment;
  heap : list Obj;
  defer_log : list DeferEvent
}.

Definition set_current (st : Interpreter) (e : nat) : Interpreter :=
  {| global := global st; current := e; return_value := return_value st;
     last_value := last_value st; returning := returning st;
     breaking := breaking st; continuing := continuing st;
     had_error := had_error st; error_message := error_message st;
     error_line := error_line st; defer_stack := defer_stack st;
     pool := pool st; envs := envs st; heap := heap st;
     defer_log := defer_log st |}.

Definition set_return_value (st : Interpreter) (v : Value) : Interpreter :=
  {| global := global st; current := current st; return_value := v;
     last_value := last_value st; returning := returning st;
     breaking := breaking st; continuing := continuing st;
     had_error := had_error st; error_message := error_message st;
     error_line := error_line st; defer_stack := defer_stack st;
     pool := pool st; envs := envs st; heap := heap st;
     defer_log := defer_log st |}.

Definition set_last_value (st : Interpreter) (v : Value) : Interpreter :=
  {| global := global st; current := current st;
     return_value := return_value st; last_value := v;
     returning := returning st; breaking := breaking st;
     continuing := continuing st; had_error := had_error st;
     error_message := error_message st; error_line := error_line st;
     defer_stack := defer_stack st; pool := pool st; envs := envs st;
     heap := heap st; defer_log := defer_log st |}.

(** [returning], [breaking] and [continuing] at once. *)
Definition set_flags (st : Interpreter) (r b c : bool) : Interpreter :=
  {| global := global st; current := current st;
     return_value := return_value st; last_value := last_value st;
     returning := r; breaking := b; continuing := c;
     had_error := had_error st; error_message := error_message st;
     error_line := error_line st; defer_stack := defer_stack st;
     pool := pool st; envs := envs st; heap := heap st;
     defer_log := defer_log st |}.

Definition set_returning (st : Interpreter) (r : bool) : Interpreter :=
  set_flags st r (breaking st) (continuing st).
Definition set_breaking (st : Interpreter) (b : bool) : Interpreter :=
  set_flags st (returning st) b (continuing st).
Definition set_continuing (st : Interpreter) (c : bool) : Interpreter :=
  set_flags st (returning st) (breaking st) c.

(** The defer stack together with the event that records the change. *)
Definition set_defers (st : Interpreter) (stack : list AstNode)
    (ev : DeferEvent) : Interpreter :=
  {| global := global st; current := current st;
     return_value := return_value st; last_value := last_value st;
     returning := returning st; breaking := breaking st;
     continuing := continuing st; had_error := had_error st;
     error_message := error_message st; error_line := error_line st;
     defer_stack := stack; pool := pool st; envs := envs st;
     heap := heap st; defer_log := defer_log st ++ [ev] |}.

Definition set_pool (st : Interpreter) (p : StringPool) : Interpreter :=
  {| global := global st; current := current st;
     return_value := return_value st; last_value := last_value st;
     returning := returning st; breaking := breaking st;
     continuing := continuing st; had_error := had_error st;
     error_message := error_message st; error_line := error_line st;
     defer_stack := defer_stack st; pool := p; envs := envs st;
     heap := heap st; defer_log := defer_log st |}.

Definition set_envs (st : Interpreter) (es : list Environment) : Interpreter :=
  {| global := global st; current := current st;
     return_value := return_value st; last_value := last_value st;
     returning := returning st; breaking := breaking st;
     continuing := continuing st; had_error := had_error st;
     error_message := error_message st; error_line := error_line st;
     defer_stack := defer_stack st; pool := pool st; envs := es;
     heap := heap st; defer_log := defer_log st |}.

Definition set_heap (st : Interpreter) (h : list Obj) : Interpreter :=
  {| global := global st; current := current st;
     return_value := return_value st; last_value := last_value st;
     returning := returning st; breaking := breaking st;
     continuing := continuing st; had_error := had_error st;
     error_message := error_message st; error_line := error_line st;
     defer_stack := defer_stack st; pool := pool st; envs := envs st;
     heap := h; defer_log := defer_log st |}.

(** [runtime_error (interp, line, format, ...)]; the message is kept
    without the diagnostic printed to stderr. *)
Definition runtime_error (st : Interpreter) (line0 : Z) (message : string)
  : Interpreter :=
  {| global := global st; current := current st;
     return_value := return_value st; last_value := last_value st;
     returning := returning st; breaking := breaking st;
     continuing := continuing st; had_error := true;
     error_message := message; error_line := line0;
     defer_stack := defer_stack st; pool := pool st; envs := envs st;
     heap := heap st; defer_log := defer_log st |}.

(** [push_defer] *)
Definition push_defer (st : Interpreter) (stmt : AstNode) : Interpreter :=
  set_defers st (stmt :: defer_stack st) (Pushed stmt).

(** ** Values: equality, names, printing *)

Definition ObjectType_of (heap : list Obj) (o : ObjRef) : option nat :=
  match o with
  | StrRef _ => Some 0%nat
  | HeapRef a =>
      match heap !! a with
      | Some (ObjArray _ _) => Some 1%nat
      | Some (ObjTableO _) => Some 2%nat
      | Some (ObjFunction _ _ _ _) => Some 3%nat
      | Some (ObjNative _ _ _) => Some 4%nat
      | Some (ObjPointer _ _) => Some 5%nat
      | Some (ObjCStruct _ _) => Some 6%nat
      | Some (ObjCFunction _) => Some 7%nat
      | None => None
      end
  end.

(** [AS_NUMBER] *)
Definition AS_NUMBER (v : Value) : float :=
  match v with
  | INT_VAL n => Cffi.double_of_int64 n
  | FLOAT_VAL f => f
  | _ => 0%float
  end.

(** [value_equals]; a reference to no object of the heap compares
    unequal. *)
Definition value_equals (heap : list Obj) (a b : Value) : bool :=
  match a, b with
  | NIL_VAL, NIL_VAL => true
  | BOOL_VAL x, BOOL_VAL y => Bool.eqb x y
  | INT_VAL x, INT_VAL y => x =? y
  | FLOAT_VAL x, FLOAT_VAL y => PrimFloat.eqb x y
  | INT_VAL _, FLOAT_VAL _ | FLOAT_VAL _, INT_VAL _ =>
      PrimFloat.eqb (AS_NUMBER a) (AS_NUMBER b)
  | OBJ_VAL (StrRef sa), OBJ_VAL (StrRef sb) =>
      same_bytes sb (s_length sa) (s_hash sa) (bytes_of sa)
  | OBJ_VAL (HeapRef x), OBJ_VAL (HeapRef y) =>
      match ObjectType_of heap (HeapRef x), ObjectType_of heap (HeapRef y) with
      | Some tx, Some ty => Nat.eqb tx ty && Nat.eqb x y
      | _, _ => false
      end
  | _, _ => false
  end.

Definition value_type_name (heap : list Obj) (v : Value) : string :=
  match v with
  | NIL_VAL => "nil"
  | BOOL_VAL _ => "bool"
  | INT_VAL _ => "int"
  | FLOAT_VAL _ => "float"
  | OBJ_VAL (StrRef _) => "string"
  | OBJ_VAL (HeapRef a) =>
      match heap !! a with
      | Some (ObjArray _ _) => "array"
      | Some (ObjTableO _) => "table"
      | Some (ObjFunction _ _ _ _) => "function"
      | Some (ObjNative _ _ _) => "native"
      | Some (ObjPointer _ _) => "pointer"
      | Some (ObjCStruct _ _) => "cstruct"
      | Some (ObjCFunction _) => "cfunction"
      | None => "unknown"
      end
  end.

(** Decimal digits of an integer, as ["%ld"] and ["%d"] print it. *)
Fixpoint digits_of (fuel : nat) (n : Z) (acc : string) : string :=
  match fuel with
  | O => acc
  | S fuel' =>
      let d := ascii_of_nat (48 + Z.to_nat (n mod 10)) in
      if n <? 10 then String d acc
      else digits_of fuel' (n / 10) (String d acc)
  end.

Definition string_of_Z (n : Z) : string :=
  if n <? 0 then String "-" (digits_of 20 (- n) "")
  else digits_of 20 n "".


(** ** The evaluator *)

(** What lies outside the sources modelled here: the built-in functions
    behind the native function pointers, the foreign call, the files read
    by [@import] and their parse, the header reader, and two functions of
    the C library. *)
Inductive ModuleFile : Type :=
  | ModuleMissing                       (* [fopen] fails twice *)
  | ModuleUnparsed                      (* [parse_program] reports errors *)
  | ModuleAst (ast : AstNode).

Inductive HeaderImport : Type :=
  | HeaderMissing
  | HeaderUnparsed
  | HeaderRegistered (pool' : StringPool) (envs' : list Environment)
      (heap' : list Obj).

Record World : Type := mkWorld {
  native_call : nat -> list Value -> StringPool -> list Obj ->
                res (Value * StringPool * list Obj);
  cffi_call : CFunctionDesc -> list Value -> StringPool -> list Obj ->
              res (Value * StringPool * list Obj);
  import_module : string -> ModuleFile;
  import_header : string -> nat -> StringPool -> list Environment -> list Obj ->
                  HeaderImport;
  fmod : float -> float -> float;
  format_g : float -> string            (* [snprintf ("%g")] *)
}.

(** The functions of the evaluator that call each other recursively, at
    one recursion budget: [eval], [exec], and the re-entry points of the
    loops of [exec_while], [exec_for] and [pop_defers]. *)
Record Rec : Type := mkRec {
  r_eval : Interpreter -> AstNode -> res (Value * Interpreter);
  r_exec : Interpreter -> AstNode -> res Interpreter;
  r_while : Interpreter -> AstNode -> AstNode -> res Interpreter;
  r_for : Interpreter -> nat -> string -> AstNode -> Z -> res Interpreter;
  r_pop : Interpreter -> nat -> res Interpreter
}.

Section evaluator.
Variable W : World.
Variable rec : Rec.

(** [value_to_string] *)
Definition value_to_string (heap : list Obj) (v : Value) : string :=
  match v with
  | NIL_VAL => "nil"
  | BOOL_VAL b => if b then "true" else "false"
  | INT_VAL n => string_of_Z n
  | FLOAT_VAL f => format_g W f
  | OBJ_VAL (StrRef s) => bytes_of s
  | OBJ_VAL (HeapRef _) => "<" ++ value_type_name heap v ++ ">"
  end.

Definition wrap64 (n : Z) : Z := to_signed 64 n.

(** The numeric part of [eval_binary], both operands being numbers. *)
Definition binary_float (st : Interpreter) (line0 : Z) (op : TokenType)
    (l r : float) : Value * Interpreter :=
  match op with
  | TOKEN_PLUS => (FLOAT_VAL (l + r), st)
  | TOKEN_MINUS => (FLOAT_VAL (l - r), st)
  | TOKEN_STAR => (FLOAT_VAL (l * r), st)
  | TOKEN_SLASH =>
      if PrimFloat.eqb r 0 then (NIL_VAL, runtime_error st line0 "Division by zero")
      else (FLOAT_VAL (l / r), st)
  | TOKEN_PERCENT =>
      if PrimFloat.eqb r 0 then (NIL_VAL, runtime_error st line0 "Modulo by zero")
      else (FLOAT_VAL (fmod W l r), st)
  | TOKEN_LT => (BOOL_VAL (PrimFloat.ltb l r), st)
  | TOKEN_GT => (BOOL_VAL (PrimFloat.ltb r l), st)
  | TOKEN_LTE => (BOOL_VAL (PrimFloat.leb l r), st)
  | TOKEN_GTE => (BOOL_VAL (PrimFloat.leb r l), st)
  | _ => (NIL_VAL, runtime_error st line0 "Unknown operator")
  end.

(** [int64_t] arithmetic wraps; [INT64_MIN / -1] and [INT64_MIN % -1]
    trap. *)
Definition binary_int (st : Interpreter) (line0 : Z) (op : TokenType)
    (l r : Z) : res (Value * Interpreter) :=
  match op with
  | TOKEN_PLUS => Ok (INT_VAL (wrap64 (l + r)), st)
  | TOKEN_MINUS => Ok (INT_VAL (wrap64 (l - r)), st)
  | TOKEN_STAR => Ok (INT_VAL (wrap64 (l * r)), st)
  | TOKEN_SLASH =>
      if r =? 0 then Ok (NIL_VAL, runtime_error st line0 "Division by zero")
      else if (l =? INT64_MIN) && (r =? -1) then Fault
      else Ok (INT_VAL (Z.quot l r), st)
  | TOKEN_PERCENT =>
      if r =? 0 then Ok (NIL_VAL, runtime_error st line0 "Modulo by zero")
      else if (l =? INT64_MIN) && (r =? -1) then Fault
      else Ok (INT_VAL (Z.rem l r), st)
  | TOKEN_LT => Ok (BOOL_VAL (l <? r), st)
  | TOKEN_GT => Ok (BOOL_VAL (r <? l), st)
  | TOKEN_LTE => Ok (BOOL_VAL (l <=? r), st)
  | TOKEN_GTE => Ok (BOOL_VAL (r <=? l), st)
  | _ => Ok (NIL_VAL, runtime_error st line0 "Unknown operator")
  end.

Definition AS_STRING (v : Value) : option ObjString :=
  match v with
  | OBJ_VAL (StrRef s) => Some s
  | _ => None
  end.

Definition eval_binary (st : Interpreter) (p : Pos) (op : TokenType)
    (left right : AstNode) : res (Value * Interpreter) :=
  '(l, st) ← r_eval rec st left;
  if had_error st then Ok (NIL_VAL, st)
  (* short-circuit for and/or *)
  else if token_eqb op TOKEN_AND then
    if negb (value_is_truthy l) then Ok (l, st) else r_eval rec st right
  else if token_eqb op TOKEN_OR then
    if value_is_truthy l then Ok (l, st) else r_eval rec st right
  else
    '(r, st) ← r_eval rec st right;
    if had_error st then Ok (NIL_VAL, st)
    (* equality: works for all types *)
    else if token_eqb op TOKEN_EQEQ then
      Ok (BOOL_VAL (value_equals (heap st) l r), st)
    else if token_eqb op TOKEN_NEQ then
      Ok (BOOL_VAL (negb (value_equals (heap st) l r)), st)
    else
      match (if token_eqb op TOKEN_PLUS then AS_STRING l else None) with
      | Some a =>
          match AS_STRING r with
          | Some b =>
              (* string concatenation *)
              '(s, pool') ← string_concat (pool st) a b;
              Ok (OBJ_VAL (StrRef s), set_pool st pool')
          | None =>
              (* string + anything *)
              '(right_obj, pool1) ←
                 string_create (pool st)
                   (Cffi.until_nul (value_to_string (heap st) r));
              '(s, pool2) ← string_concat pool1 a right_obj;
              Ok (OBJ_VAL (StrRef s), set_pool st pool2)
          end
      | None =>
          (* numeric operations *)
          if negb (IS_NUMBER l) || negb (IS_NUMBER r) then
            Ok (NIL_VAL, runtime_error st (line p) "Operands must be numbers")
          else
            match l, r with
            | INT_VAL x, INT_VAL y => binary_int st (line p) op x y
            | _, _ =>
                Ok (binary_float st (line p) op (AS_NUMBER l) (AS_NUMBER r))
            end
      end.

Definition eval_unary (st : Interpreter) (p : Pos) (op : TokenType)
    (operand : AstNode) : res (Value * Interpreter) :=
  '(v, st) ← r_eval rec st operand;
  if had_error st then Ok (NIL_VAL, st)
  else
    match op with
    | TOKEN_MINUS =>
        match v with
        | INT_VAL n => Ok (INT_VAL (wrap64 (- n)), st)
        | FLOAT_VAL f => Ok (FLOAT_VAL (- f), st)
        | _ => Ok (NIL_VAL, runtime_error st (line p) "Operand must be a number")
        end
    | TOKEN_NOT | TOKEN_BANG => Ok (BOOL_VAL (negb (value_is_truthy v)), st)
    | _ => Ok (NIL_VAL, runtime_error st (line p) "Unknown unary operator")
    end.

(** The arguments of a call, left to right; [None] when one of them
    raised an error. *)
Fixpoint eval_args (st : Interpreter) (args : list AstNode)
  : res (option (list Value) * Interpreter) :=
  match args with
  | [] => Ok (Some [], st)
  | a :: rest =>
      '(v, st) ← r_eval rec st a;
      if had_error st then Ok (None, st)
      else
        '(vs, st) ← eval_args st rest;
        Ok (match vs with Some vs => Some (v :: vs) | None => None end, st)
  end.

(** [env_define (fn_env, fn->params[i], ..., args[i], false)] for each
    parameter; the result of [env_define] is not looked at. *)
Fixpoint bind_params (st : Interpreter) (fn_env : nat)
    (params : list string) (args : list Value) : res Interpreter :=
  match params, args with
  | name :: params', v :: args' =>
      '(_, pool', envs') ← env_define (pool st) (envs st) fn_env name v false;
      bind_params (set_envs (set_pool st pool') envs') fn_env params' args'
  | [], _ => Ok st
  | _ :: _, [] => Fault
  end.

(** [pop_defers (interp, marker)] *)
Definition pop_defers (st : Interpreter) (marker : nat) : res Interpreter :=
  if Nat.eqb (length (defer_stack st)) marker then Ok st
  else
    match defer_stack st with
    | [] => Fault                          (* the marker is not on the stack *)
    | stmt :: rest =>
        let st1 := set_defers st rest
                     (if had_error st then Dropped stmt else Ran stmt) in
        let was_returning := returning st1 in
        let was_breaking := breaking st1 in
        let was_continuing := continuing st1 in
        st2 ← r_exec rec (set_flags st1 false false false) stmt;
        r_pop rec (set_flags st2 was_returning was_breaking was_continuing)
          marker
    end.

Definition arity_message (arity arg_count : Z) : string :=
  "Expected " ++ string_of_Z arity ++ " arguments but got "
  ++ string_of_Z arg_count.

Definition eval_call (st : Interpreter) (p : Pos) (callee : AstNode)
    (arguments : list AstNode) : res (Value * Interpreter) :=
  '(callee, st) ← r_eval rec st callee;
  if had_error st then Ok (NIL_VAL, st)
  else
    '(args, st) ← eval_args st arguments;
    match args with
    | None => Ok (NIL_VAL, st)
    | Some args =>
        let arg_count := Z.of_nat (length arguments) in
        match deref (heap st) callee with
        | Some (ObjNative fn arity _) =>
            if (0 <=? arity) && negb (arg_count =? arity) then
              Ok (NIL_VAL,
                  runtime_error st (line p) (arity_message arity arg_count))
            else
              '(result, pool', heap') ←
                 native_call W fn args (pool st) (heap st);
              Ok (result, set_heap (set_pool st pool') heap')
        | Some (ObjCFunction desc) =>
            '(result, pool', heap') ←
               cffi_call W desc args (pool st) (heap st);
            Ok (result, set_heap (set_pool st pool') heap')
        | Some (ObjFunction _ params body closure) =>
            let arity := Z.of_nat (length params) in
            if negb (arg_count =? arity) then
              Ok (NIL_VAL,
                  runtime_error st (line p) (arity_message arity arg_count))
            else
              (* new environment for the function *)
              let '(fn_env, envs') := env_create (envs st) closure in
              st ← bind_params (set_envs st envs') fn_env params args;
              let previous := current st in
              let st := set_current st fn_env in
              let defer_marker := length (defer_stack st) in
              (* reset last_value for implicit return tracking *)
              let st := set_last_value st NIL_VAL in
              st ← r_exec rec st body;
              st ← pop_defers st defer_marker;
              let st := set_current st previous in
              if returning st then
                Ok (return_value st, set_returning st false)
              else
                (* last expression value as implicit return *)
                Ok (last_value st, st)
        | _ =>
            Ok (NIL_VAL, runtime_error st (line p) "Can only call functions")
        end
    end.

(** The elements of a range: [s, s+1, ..., e-1] when [s <= e], and
    [s, s-1, ..., e+1] otherwise. *)
Definition range_values (s e : Z) : list Value :=
  if s <=? e then (fun i => INT_VAL i) <$> seqZ s (e - s)
  else (fun i => INT_VAL (s - i)) <$> seqZ 0 (s - e).

Fixpoint array_push_all (heap : list Obj) (a : nat) (vs : list Value)
  : res (list Obj) :=
  match vs with
  | [] => Ok heap
  | v :: rest => heap' ← array_push heap a v; array_push_all heap' a rest
  end.

Fixpoint eval_elements (st : Interpreter) (arr : nat)
    (elements : list AstNode) : res (bool * Interpreter) :=
  match elements with
  | [] => Ok (true, st)
  | e :: rest =>
      '(v, st) ← r_eval rec st e;
      if had_error st then Ok (false, st)
      else
        heap' ← array_push (heap st) arr v;
        eval_elements (set_heap st heap') arr rest
  end.

Definition heap_table_set (heap : list Obj) (a : nat) (k : ObjString)
    (v : Value) : res (list Obj) :=
  match heap !! a with
  | Some (ObjTableO t) =>
      '(t', _) ← table_set t k v false;
      Ok (<[a := ObjTableO t']> heap)
  | _ => Fault
  end.

Fixpoint eval_fields (st : Interpreter) (table : nat)
    (fields : list (string * AstNode)) : res (bool * Interpreter) :=
  match fields with
  | [] => Ok (true, st)
  | (name, e) :: rest =>
      '(k, pool') ← string_create (pool st) name;
      '(v, st) ← r_eval rec (set_pool st pool') e;
      if had_error st then Ok (false, st)
      else
        heap' ← heap_table_set (heap st) table k v;
        eval_fields (set_heap st heap') table rest
  end.

(** [eval] *)
Definition eval (st : Interpreter) (node : AstNode)
  : res (Value * Interpreter) :=
  if had_error st then Ok (NIL_VAL, st)
  else
    match node with
    | NODE_NULL => Ok (NIL_VAL, st)
    | NODE_LITERAL_INT _ n => Ok (INT_VAL n, st)
    | NODE_LITERAL_FLOAT _ f => Ok (FLOAT_VAL f, st)
    | NODE_LITERAL_STRING _ chars =>
        '(s, pool') ← string_create (pool st) chars;
        Ok (OBJ_VAL (StrRef s), set_pool st pool')
    | NODE_LITERAL_BOOL _ b => Ok (BOOL_VAL b, st)
    | NODE_LITERAL_NIL _ => Ok (NIL_VAL, st)
    | NODE_IDENTIFIER p name =>
        '(found, pool') ←
           env_get (pool st) (envs st) (Some (current st)) name;
        match found with
        | Some v => Ok (v, set_pool st pool')
        | None =>
            Ok (NIL_VAL,
                runtime_error (set_pool st pool') (line p)
                  ("Undefined variable '" ++ name ++ "'"))
        end
    | NODE_BINARY p op left0 right0 => eval_binary st p op left0 right0
    | NODE_UNARY p op operand => eval_unary st p op operand
    | NODE_CALL p callee arguments => eval_call st p callee arguments
    | NODE_INDEX p object index =>
        '(object, st) ← r_eval rec st object;
        if had_error st then Ok (NIL_VAL, st)
        else
          '(index, st) ← r_eval rec st index;
          if had_error st then Ok (NIL_VAL, st)
          else
            match object with
            | OBJ_VAL (StrRef str) =>
                match index with
                | INT_VAL i =>
                    let idx := to_signed 32 i in
                    if (idx <? 0) || (s_length str <=? idx) then
                      Ok (NIL_VAL,
                          runtime_error st (line p) "String index out of bounds")
                    else
                      match String.get (Z.to_nat idx) (s_chars str) with
                      | Some c =>
                          '(s, pool') ← string_create (pool st) (String c "");
                          Ok (OBJ_VAL (StrRef s), set_pool st pool')
                      | None => Fault
                      end
                | _ =>
                    Ok (NIL_VAL,
                        runtime_error st (line p) "String index must be integer")
                end
            | _ =>
                match deref (heap st) object with
                | Some (ObjArray elements _) =>
                    match index with
                    | INT_VAL i =>
                        let idx := to_signed 32 i in
                        if (idx <? 0) || (Z.of_nat (length elements) <=? idx)
                        then
                          Ok (NIL_VAL,
                              runtime_error st (line p)
                                "Array index out of bounds")
                        else
                          match elements !! Z.to_nat idx with
                          | Some v => Ok (v, st)
                          | None => Fault
                          end
                    | _ =>
                        Ok (NIL_VAL,
                            runtime_error st (line p)
                              "Array index must be integer")
                    end
                | Some (ObjTableO t) =>
                    match index with
                    | OBJ_VAL (StrRef k) =>
                        found ← table_get t k;
                        Ok (match found with Some v => v | None => NIL_VAL end,
                            st)
                    | _ =>
                        Ok (NIL_VAL,
                            runtime_error st (line p) "Table key must be string")
                    end
                | _ =>
                    Ok (NIL_VAL,
                        runtime_error st (line p)
                          ("Cannot index type "
                           ++ value_type_name (heap st) object))
                end
            end
    | NODE_FIELD p object field_name =>
        '(object, st) ← r_eval rec st object;
        if had_error st then Ok (NIL_VAL, st)
        else
          match deref (heap st) object with
          | Some (ObjTableO t) =>
              '(k, pool') ← string_create (pool st) field_name;
              found ← table_get t k;
              Ok (match found with Some v => v | None => NIL_VAL end,
                  set_pool st pool')
          | _ =>
              Ok (NIL_VAL,
                  runtime_error st (line p)
                    ("Cannot access field on type "
                     ++ value_type_name (heap st) object))
          end
    | NODE_ARRAY _ elements =>
        let '(arr, heap') := array_create (heap st) in
        '(ok, st) ← eval_elements (set_heap st heap') arr elements;
        if (ok : bool) then Ok (OBJ_VAL (HeapRef arr), st) else Ok (NIL_VAL, st)
    | NODE_TABLE _ fields =>
        let '(table, heap') := allocate_object (heap st) (ObjTableO table_create) in
        '(ok, st) ← eval_fields (set_heap st heap') table fields;
        if (ok : bool) then Ok (OBJ_VAL (HeapRef table), st) else Ok (NIL_VAL, st)
    | NODE_RANGE p start end_ =>
        '(s, st) ← r_eval rec st start;
        if had_error st then Ok (NIL_VAL, st)
        else
          '(e, st) ← r_eval rec st end_;
          if had_error st then Ok (NIL_VAL, st)
          else
            match s, e with
            | INT_VAL s, INT_VAL e =>
                (* create the array of the range *)
                let '(arr, heap') := array_create (heap st) in
                heap'' ← array_push_all heap' arr (range_values s e);
                Ok (OBJ_VAL (HeapRef arr), set_heap st heap'')
            | _, _ =>
                Ok (NIL_VAL,
                    runtime_error st (line p) "Range bounds must be integers")
            end
    | NODE_LAMBDA _ parameters body =>
        let '(fn, heap') :=
          allocate_object (heap st)
            (ObjFunction None parameters body (Some (current st))) in
        Ok (OBJ_VAL (HeapRef fn), set_heap st heap')
    | NODE_ADDRESS_OF p operand =>
        '(v, st) ← r_eval rec st operand;
        if had_error st then Ok (NIL_VAL, st)
        else
          match deref (heap st) v with
          | Some (ObjCStruct _ data) =>
              let '(ptr, heap') :=
                pointer_create (heap st) data (Some "void*"%string) in
              Ok (OBJ_VAL (HeapRef ptr), set_heap st heap')
          | _ =>
              Ok (NIL_VAL,
                  runtime_error st (line p) "Cannot take address of this value")
          end
    | _ =>
        Ok (NIL_VAL,
            runtime_error st (node_line node) "Unknown expression type")
    end.


(** ** Statements *)

Definition stopped (st : Interpreter) : bool :=
  returning st || breaking st || continuing st || had_error st.

(** The statements of a block, until a flag is raised. *)
Fixpoint exec_statements (st : Interpreter) (stmts : list AstNode)
  : res Interpreter :=
  match stmts with
  | [] => Ok st
  | s :: rest =>
      st ← r_exec rec st s;
      if stopped st then Ok st else exec_statements st rest
  end.

(** [exec_block] *)
Definition exec_block (st : Interpreter) (stmts : list AstNode)
  : res Interpreter :=
  let previous := current st in
  let '(scope, envs') := env_create (envs st) (Some previous) in
  let st := set_current (set_envs st envs') scope in
  let defer_marker := length (defer_stack st) in
  st ← exec_statements st stmts;
  st ← pop_defers st defer_marker;
  Ok (set_current st previous).

(** The statements of a program, until an error. *)
Fixpoint exec_program_statements (st : Interpreter) (stmts : list AstNode)
  : res Interpreter :=
  match stmts with
  | [] => Ok st
  | s :: rest =>
      st ← r_exec rec st s;
      if had_error st then Ok st else exec_program_statements st rest
  end.

(** [exec_if] *)
Definition exec_if (st : Interpreter) (condition then_branch else_branch : AstNode)
  : res Interpreter :=
  '(c, st) ← r_eval rec st condition;
  if had_error st then Ok st
  else if value_is_truthy c then r_exec rec st then_branch
  else
    match else_branch with
    | NODE_NULL => Ok st
    | _ => r_exec rec st else_branch
    end.

(** The end of an iteration of a loop: [returning] and [breaking] leave
    the loop, the latter being consumed; [continuing] is consumed and
    the loop goes on from [again]. *)
Definition loop_next (st : Interpreter)
    (again : Interpreter -> res Interpreter) : res Interpreter :=
  if returning st then Ok st
  else if breaking st then Ok (set_breaking st false)
  else again (if continuing st then set_continuing st false else st).

(** [exec_while], from the test of the loop *)
Definition exec_while (st : Interpreter) (condition body : AstNode)
  : res Interpreter :=
  if had_error st then Ok st
  else
    '(c, st) ← r_eval rec st condition;
    if had_error st then Ok st
    else if negb (value_is_truthy c) then Ok st
    else
      st ← r_exec rec st body;
      loop_next st (fun st => r_while rec st condition body).

(** The loop of [exec_for], from its test at index [i]. *)
Definition exec_for_loop (st : Interpreter) (arr : nat) (name : string)
    (body : AstNode) (i : Z) : res Interpreter :=
  match heap st !! arr with
  | Some (ObjArray elements _) =>
      if (i <? Z.of_nat (length elements)) && negb (had_error st) then
        match elements !! Z.to_nat i with
        | None => Fault
        | Some v =>
            (* update the iterator *)
            '(_, pool', envs') ←
               env_set (pool st) (envs st) (Some (current st)) name v;
            st ← r_exec rec (set_envs (set_pool st pool') envs') body;
            loop_next st (fun st => r_for rec st arr name body (i + 1))
        end
      else Ok st
  | _ => Fault
  end.

(** [exec_for] *)
Definition exec_for (st : Interpreter) (p : Pos) (name : string)
    (iterable body : AstNode) : res Interpreter :=
  '(it, st) ← r_eval rec st iterable;
  if had_error st then Ok st
  else
    match it, deref (heap st) it with
    | OBJ_VAL (HeapRef arr), Some (ObjArray _ _) =>
        let previous := current st in
        let '(scope, envs') := env_create (envs st) (Some previous) in
        let st := set_current (set_envs st envs') scope in
        (* define the iterator variable *)
        '(_, pool', envs'') ←
           env_define (pool st) (envs st) scope name NIL_VAL false;
        st ← exec_for_loop (set_envs (set_pool st pool') envs'') arr name body 0;
        Ok (set_current st previous)
    | _, _ =>
        Ok (runtime_error st (line p) "Can only iterate over arrays")
    end.

(** The wildcard pattern: the identifier [_]. *)
Definition is_wildcard (pattern : AstNode) : bool :=
  match pattern with
  | NODE_IDENTIFIER _ name => String.eqb name "_"
  | _ => false
  end.

(** The arms of a [match], in declaration order. *)
Fixpoint exec_match_arms (st : Interpreter) (v : Value)
    (arms : list (AstNode * AstNode)) : res Interpreter :=
  match arms with
  | [] => Ok st
  | (pattern, body) :: rest =>
      matched ←
        match pattern with
        | NODE_NULL => Fault
        | NODE_RANGE _ start end_ =>
            match v with
            | INT_VAL n =>
                '(s, st) ← r_eval rec st start;
                '(e, st) ← r_eval rec st end_;
                match s, e with
                | INT_VAL s, INT_VAL e => Ok (Some ((s <=? n) && (n <? e)), st)
                | _, _ => Ok (Some false, st)
                end
            | _ => Ok (Some false, st)
            end
        | _ =>
            if is_wildcard pattern then Ok (Some true, st)
            else
              (* literal pattern *)
              '(pattern_val, st) ← r_eval rec st pattern;
              if had_error st then Ok (None, st)
              else Ok (Some (value_equals (heap st) v pattern_val), st)
        end;
      match matched with
      | (None, st) => Ok st
      | (Some true, st) =>
          match body with
          | NODE_NULL => Fault
          | NODE_BLOCK _ _ => r_exec rec st body
          | _ =>
              (* an expression: its value becomes last_value *)
              '(r, st) ← r_eval rec st body;
              Ok (set_last_value st r)
          end
      | (Some false, st) => exec_match_arms st v rest
      end
  end.

Fixpoint ends_with (suffix s : string) : bool :=
  if String.eqb s suffix then true
  else match s with
       | EmptyString => false
       | String _ rest => ends_with suffix rest
       end.

(** The assignment to [target], the value being evaluated. *)
Definition exec_assign (st : Interpreter) (p : Pos) (target : AstNode)
    (v : Value) : res Interpreter :=
  match target with
  | NODE_NULL => Fault
  | NODE_IDENTIFIER _ name =>
      '(c, pool') ← env_is_const (pool st) (envs st) (Some (current st)) name;
      let st := set_pool st pool' in
      if (c : bool) then
        Ok (runtime_error st (line p)
              ("Cannot assign to constant '" ++ name ++ "'"))
      else
        '(ok, pool', envs') ←
           env_set (pool st) (envs st) (Some (current st)) name v;
        let st := set_envs (set_pool st pool') envs' in
        if (ok : bool) then Ok st
        else Ok (runtime_error st (line p)
                   ("Undefined variable '" ++ name ++ "'"))
  | NODE_INDEX _ object index =>
      '(object, st) ← r_eval rec st object;
      if had_error st then Ok st
      else
        '(index, st) ← r_eval rec st index;
        if had_error st then Ok st
        else
          match object, deref (heap st) object with
          | OBJ_VAL (HeapRef a), Some (ObjArray _ _) =>
              match index with
              | INT_VAL i =>
                  heap' ← array_set (heap st) a (to_signed 32 i) v;
                  Ok (set_heap st heap')
              | _ => Ok (runtime_error st (line p) "Array index must be integer")
              end
          | OBJ_VAL (HeapRef a), Some (ObjTableO _) =>
              match index with
              | OBJ_VAL (StrRef k) =>
                  heap' ← heap_table_set (heap st) a k v;
                  Ok (set_heap st heap')
              | _ => Ok (runtime_error st (line p) "Table key must be string")
              end
          | _, _ =>
              Ok (runtime_error st (line p)
                    ("Cannot index type " ++ value_type_name (heap st) object))
          end
  | NODE_FIELD _ object field_name =>
      '(object, st) ← r_eval rec st object;
      if had_error st then Ok st
      else
        match object, deref (heap st) object with
        | OBJ_VAL (HeapRef a), Some (ObjTableO _) =>
            '(k, pool') ← string_create (pool st) field_name;
            heap' ← heap_table_set (heap st) a k v;
            Ok (set_heap (set_pool st pool') heap')
        | _, _ =>
            Ok (runtime_error st (line p)
                  ("Cannot set field on type "
                   ++ value_type_name (heap st) object))
        end
  | _ => Ok (runtime_error st (line p) "Invalid assignment target")
  end.

(** [exec] *)
Definition exec (st : Interpreter) (node : AstNode) : res Interpreter :=
  if had_error st then Ok st
  else if returning st || breaking st || continuing st then Ok st
  else
    match node with
    | NODE_NULL => Ok st
    | NODE_VAR_DECL p name initializer is_const =>
        '(v, st) ← r_eval rec st initializer;
        if had_error st then Ok st
        else
          '(ok, pool', envs') ←
             env_define (pool st) (envs st) (current st) name v is_const;
          let st := set_envs (set_pool st pool') envs' in
          if (ok : bool) then Ok st
          else Ok (runtime_error st (line p)
                     ("Variable '" ++ name ++ "' already defined"))
    | NODE_ASSIGNMENT p target value =>
        '(v, st) ← r_eval rec st value;
        if had_error st then Ok st else exec_assign st p target v
    | NODE_EXPR_STMT _ operand =>
        (* track the last expression value for implicit return *)
        '(v, st) ← r_eval rec st operand;
        Ok (set_last_value st v)
    | NODE_BLOCK _ statements => exec_block st statements
    | NODE_PROGRAM statements => exec_program_statements st statements
    | NODE_IF _ condition then_branch else_branch =>
        exec_if st condition then_branch else_branch
    | NODE_WHILE _ condition body => exec_while st condition body
    | NODE_FOR p name iterable body => exec_for st p name iterable body
    | NODE_RETURN _ value =>
        '(v, st) ←
           match value with
           | NODE_NULL => Ok (NIL_VAL, st)
           | _ => r_eval rec st value
           end;
        Ok (set_returning (set_return_value st v) true)
    | NODE_BREAK _ => Ok (set_breaking st true)
    | NODE_CONTINUE _ => Ok (set_continuing st true)
    | NODE_FN_DECL _ name parameters body =>
        let '(fn, heap') :=
          allocate_object (heap st)
            (ObjFunction (Some name) parameters body (Some (current st))) in
        '(_, pool', envs') ←
           env_define (pool st) (envs st) (current st) name
             (OBJ_VAL (HeapRef fn)) false;
        Ok (set_envs (set_pool (set_heap st heap') pool') envs')
    | NODE_MATCH _ value arms =>
        '(v, st) ← r_eval rec st value;
        if had_error st then Ok st else exec_match_arms st v arms
    | NODE_DEFER _ statement => Ok (push_defer st statement)
    | NODE_IMPORT p path =>
        if (6 <? str_len path) && ends_with ".brisk" path then
          match import_module W path with
          | ModuleMissing =>
              Ok (runtime_error st (line p)
                    ("Cannot find module '" ++ path ++ "'"))
          | ModuleUnparsed =>
              Ok (runtime_error st (line p)
                    ("Failed to parse module '" ++ path ++ "'"))
          | ModuleAst ast => r_exec rec st ast
          end
        else
          match import_header W path (global st) (pool st) (envs st) (heap st) with
          | HeaderMissing =>
              Ok (runtime_error st (line p)
                    ("Cannot find header '" ++ path ++ "'"))
          | HeaderUnparsed =>
              Ok (runtime_error st (line p)
                    ("Failed to parse header '" ++ path ++ "'"))
          | HeaderRegistered pool' envs' heap' =>
              Ok (set_heap (set_envs (set_pool st pool') envs') heap')
          end
    | NODE_C_BLOCK p _ =>
        Ok (runtime_error st (line p) "@c blocks not yet implemented")
    | _ => Ok (runtime_error st (node_line node) "Unknown statement type")
    end.

End evaluator.

(** ** Recursion *)

(** The evaluator at recursion budget [fuel]: every recursive call of the
    C code lowers the budget by one, and no call is made on an empty
    budget.  An evaluation that does not return on any budget does not
    terminate. *)
Fixpoint interp_rec (W : World) (fuel : nat) : Rec :=
  match fuel with
  | O =>
      {| r_eval := fun _ _ => Hang; r_exec := fun _ _ => Hang;
         r_while := fun _ _ _ => Hang; r_for := fun _ _ _ _ _ => Hang;
         r_pop := fun _ _ => Hang |}
  | S fuel' =>
      let rec := interp_rec W fuel' in
      {| r_eval := eval W rec; r_exec := exec W rec;
         r_while := exec_while rec; r_for := exec_for_loop rec;
         r_pop := pop_defers rec |}
  end.

Definition eval_at (W : World) (fuel : nat) := r_eval (interp_rec W fuel).
Definition exec_at (W : World) (fuel : nat) := r_exec (interp_rec W fuel).

(** [exec_program] *)
Definition exec_program (W : World) (fuel : nat) (st : Interpreter)
    (program : AstNode) : res Interpreter :=
  match program with
  | NODE_PROGRAM statements =>
      exec_program_statements (interp_rec W fuel) st statements
  | _ => Ok st
  end.

(** ** Start-up *)

(** The built-in functions in the order of [register_all_builtins], each
    with its arity ([-1]: variadic).  A native function pointer is the
    position of the function in this list. *)
Definition builtins : list (string * Z) :=
  [("print", -1); ("println", -1); ("input", -1);
   ("type", 1); ("int", 1); ("float", 1); ("str", 1); ("bool", 1);
   ("len", 1); ("push", 2); ("pop", 1); ("first", 1); ("last", 1);
   ("insert", 3); ("remove", 2);
   ("substr", -1); ("find", 2); ("replace", 3); ("split", 2); ("join", 2);
   ("upper", 1); ("lower", 1); ("trim", 1);
   ("abs", 1); ("min", -1); ("max", -1); ("floor", 1); ("ceil", 1);
   ("round", 1); ("sqrt", 1); ("pow", 2); ("sin", 1); ("cos", 1); ("tan", 1);
   ("keys", 1); ("values", 1); ("has", 2);
   ("assert", -1); ("error", -1); ("clock", 0); ("exit", -1)]%string.

(** [register_native], for the built-ins from position [fn] on. *)
Fixpoint register_natives (st : Interpreter) (fn : nat)
    (natives : list (string * Z)) : res Interpreter :=
  match natives with
  | [] => Ok st
  | (name, arity) :: rest =>
      let '(native, heap') :=
        allocate_object (heap st) (ObjNative fn arity name) in
      '(_, pool', envs') ←
         env_define (pool st) (envs st) (global st) name
           (OBJ_VAL (HeapRef native)) true;
      register_natives (set_envs (set_pool (set_heap st heap') pool') envs')
        (S fn) rest
  end.

(** [interp_init], in a process that has created no string and no object
    yet. *)
Definition interp_init : res Interpreter :=
  let '(global0, envs0) := env_create [] None in
  register_natives
    {| global := global0; current := global0;
       return_value := NIL_VAL; last_value := NIL_VAL;
       returning := false; breaking := false; continuing := false;
       had_error := false; error_message := ""; error_line := 0;
       defer_stack := []; pool := pool_init; envs := envs0; heap := [];
       defer_log := [] |}
    0 builtins.

(** [interpret], from the parsed program on: the final state of the
    interpreter. *)
Definition interpret_ast (W : World) (fuel : nat) (program : AstNode)
  : res Interpreter :=
  st ← interp_init;
  exec_program W fuel st program.

(** The value of the variable [name] as seen from the current scope. *)
Definition lookup (st : Interpreter) (name : string) : option Value :=
  match env_get (pool st) (envs st) (Some (current st)) name with
  | Ok (v, _) => v
  | _ => None
  end.

(** A world without files and headers, whose native and foreign calls
    return nil. *)
Definition bare_world : World :=
  {| native_call := fun _ _ pool heap => Ok (NIL_VAL, pool, heap);
     cffi_call := fun _ _ pool heap => Ok (NIL_VAL, pool, heap);
     import_module := fun _ => ModuleMissing;
     import_header := fun _ _ _ _ _ => HeaderMissing;
     fmod := fun x _ => x;
     format_g := fun _ => "0"%string |}.

Definition at1 : Pos := {| line := 1; column := 1 |}.

(** [x := 0; for i in 5..4 { x = x + 1 }] *)
Definition demo_descending : AstNode :=
  NODE_PROGRAM
    [NODE_VAR_DECL at1 "x" (NODE_LITERAL_INT at1 0) false;
     NODE_FOR at1 "i"
       (NODE_RANGE at1 (NODE_LITERAL_INT at1 5)
          (NODE_BINARY at1 TOKEN_MINUS (NODE_LITERAL_INT at1 5)
             (NODE_LITERAL_INT at1 1)))
       (NODE_BLOCK at1
          [NODE_ASSIGNMENT at1 (NODE_IDENTIFIER at1 "x")
             (NODE_BINARY at1 TOKEN_PLUS (NODE_IDENTIFIER at1 "x")
                (NODE_LITERAL_INT at1 1))])]%string.


(** * Facts about the interpreter *)

(** ** Truthiness *)

(** The values that count as false. *)
Definition falsy (v : Value) : Prop :=
  v = NIL_VAL \/ v = BOOL_VAL false \/ v = INT_VAL 0 \/
  v = FLOAT_VAL PrimFloat.zero \/ v = FLOAT_VAL PrimFloat.neg_zero.

(** No flag stops the next statement. *)
Definition running (st : Interpreter) : Prop :=
  had_error st = false /\ returning st = false /\
  breaking st = false /\ continuing st = false.

Lemma float_is_zero (f : float) :
  PrimFloat.eqb f 0 = true <-> f = PrimFloat.zero \/ f = PrimFloat.neg_zero.
Proof.
  split.
  - rewrite FloatAxioms.eqb_spec. intros H.
    rewrite <- (FloatAxioms.SF2Prim_Prim2SF f).
    destruct (Prim2SF f) as [s| s | |s m e]; simpl in H; try discriminate.
    + destruct s; [right | left]; reflexivity.
    + destruct s; discriminate.
    + destruct s; discriminate.
  - intros [-> | ->]; reflexivity.
Qed.

Lemma truthy_falsy (v : Value) : value_is_truthy v = false <-> falsy v.
Proof.
  unfold falsy. destruct v as [|b|n|f|o]; simpl.
  - split; [left; reflexivity | reflexivity].
  - destruct b; split; intros H; try discriminate; try reflexivity.
    + decompose [or] H; discriminate.
    + right; left; reflexivity.
  - destruct (Z.eqb_spec n 0) as [->|Hn]; simpl; split; intros H;
      try discriminate; try reflexivity.
    + right; right; left; reflexivity.
    + decompose [or] H; try discriminate. congruence.
  - rewrite negb_false_iff, float_is_zero. split.
    + intros [-> | ->]; [right; right; right; left | right; right; right; right];
        reflexivity.
    + intros H. decompose [or] H; try discriminate.
      * left; congruence.
      * right; congruence.
  - split; intros H; [discriminate | decompose [or] H; discriminate].
Qed.

Lemma truthy_not_falsy (v : Value) : value_is_truthy v = true <-> ~ falsy v.
Proof.
  rewrite <- truthy_falsy. destruct (value_is_truthy v); split; congruence.
Qed.

(** A state before any statement: one empty scope, nothing allocated. *)
Definition blank : Interpreter :=
  {| global := 0%nat; current := 0%nat;
     return_value := NIL_VAL; last_value := NIL_VAL;
     returning := false; breaking := false; continuing := false;
     had_error := false; error_message := ""; error_line := 0;
     defer_stack := []; pool := pool_init;
     envs := snd (env_create [] None); heap := []; defer_log := [] |}.

Lemma exec_running (W : World) (rec : Rec) (st : Interpreter) (node : AstNode) :
  running st ->
  exec W rec st node =
  match node with
  | NODE_IF _ c t e => exec_if rec st c t e
  | NODE_WHILE _ c b => exec_while rec st c b
  | _ => exec W rec st node
  end.
Proof.
  intros (He & Hr & Hb & Hc). destruct node; try reflexivity;
    unfold exec; rewrite He, Hr, Hb, Hc; reflexivity.
Qed.

(** X1.  In every condition position the values nil, false, integer 0
    and float zero, and no others, count as false; in particular every
    heap object -- a string, an array or a table, empty or not -- counts
    as true.  Let the expression [c] evaluate to [v] without error.  If
    [v] is one of the false values, then [if c] takes the else branch,
    [while c] leaves the loop without running its body, [c and r] is
    [v] without evaluating [r], [c or r] is the value of [r], and
    [not c] and [!c] are true.  If [v] is any other value, then [if c]
    takes the then branch, [while c] runs its body, [c and r] is the
    value of [r], [c or r] is [v] without evaluating [r], and [not c]
    and [!c] are false. *)
Theorem truthiness (W : World) (rec : Rec) (st st1 : Interpreter)
    (c : AstNode) (v : Value) :
  running st ->
  r_eval rec st c = Ok (v, st1) ->
  had_error st1 = false ->
  (forall o : ObjRef, value_is_truthy (OBJ_VAL o) = true /\ ~ falsy (OBJ_VAL o))
  /\ (value_is_truthy v = false <-> falsy v)
  /\ (falsy v ->
      forall (p : Pos) (t e b r : AstNode),
        exec W rec st (NODE_IF p c t e)
        = match e with NODE_NULL => Ok st1 | _ => r_exec rec st1 e end
        /\ exec W rec st (NODE_WHILE p c b) = Ok st1
        /\ eval W rec st (NODE_BINARY p TOKEN_AND c r) = Ok (v, st1)
        /\ eval W rec st (NODE_BINARY p TOKEN_OR c r) = r_eval rec st1 r
        /\ eval W rec st (NODE_UNARY p TOKEN_NOT c) = Ok (BOOL_VAL true, st1)
        /\ eval W rec st (NODE_UNARY p TOKEN_BANG c) = Ok (BOOL_VAL true, st1))
  /\ (~ falsy v ->
      forall (p : Pos) (t e b r : AstNode),
        exec W rec st (NODE_IF p c t e) = r_exec rec st1 t
        /\ exec W rec st (NODE_WHILE p c b)
           = (st2 ← r_exec rec st1 b;
              loop_next st2 (fun st3 => r_while rec st3 c b))
        /\ eval W rec st (NODE_BINARY p TOKEN_AND c r) = r_eval rec st1 r
        /\ eval W rec st (NODE_BINARY p TOKEN_OR c r) = Ok (v, st1)
        /\ eval W rec st (NODE_UNARY p TOKEN_NOT c) = Ok (BOOL_VAL false, st1)
        /\ eval W rec st (NODE_UNARY p TOKEN_BANG c) = Ok (BOOL_VAL false, st1)).
Proof.
  intros Hst Hc Herr.
  assert (He : had_error st = false) by apply Hst.
  split.
  { intros o. split; [reflexivity|].
    intros H; unfold falsy in H; decompose [or] H; discriminate. }
  split; [apply truthy_falsy|].
  split.
  - intros Hv%truthy_falsy p t e b r.
    rewrite !(exec_running W rec st _ Hst).
    unfold exec_if, exec_while, eval, eval_binary, eval_unary.
    rewrite He, Hc. cbn. rewrite Herr, Hv. cbn.
    repeat split; reflexivity.
  - intros Hv%truthy_not_falsy p t e b r.
    rewrite !(exec_running W rec st _ Hst).
    unfold exec_if, exec_while, eval, eval_binary, eval_unary.
    rewrite He, Hc. cbn. rewrite Herr, Hv. cbn.
    repeat split; reflexivity.
Qed.

Lemma truthiness_witness :
  running blank
  /\ r_eval (interp_rec bare_world 1) blank (NODE_LITERAL_FLOAT at1 0)
     = Ok (FLOAT_VAL 0, blank)
  /\ had_error blank = false
  /\ exec bare_world (interp_rec bare_world 1) blank
       (NODE_WHILE at1 (NODE_LITERAL_FLOAT at1 0) (NODE_BREAK at1))
     = Ok blank.
Proof.
  assert (H1 : running blank) by (repeat split; reflexivity).
  assert (H2 : r_eval (interp_rec bare_world 1) blank (NODE_LITERAL_FLOAT at1 0)
               = Ok (FLOAT_VAL 0, blank)) by reflexivity.
  split; [exact H1|]. split; [exact H2|]. split; [reflexivity|].
  refine (proj1 (proj2 (proj1 (proj2 (proj2
    (truthiness bare_world _ blank blank _ _ H1 H2 eq_refl)))
    _ at1 NODE_NULL NODE_NULL (NODE_BREAK at1) NODE_NULL))).
  right; right; right; left; reflexivity.
Defined.

(** ** Array indices *)

(** [xs := [1]; xs[5] = 2] *)
Definition demo_store : AstNode :=
  NODE_PROGRAM
    [NODE_VAR_DECL at1 "xs" (NODE_ARRAY at1 [NODE_LITERAL_INT at1 1]) false;
     NODE_ASSIGNMENT at1
       (NODE_INDEX at1 (NODE_IDENTIFIER at1 "xs") (NODE_LITERAL_INT at1 5))
       (NODE_LITERAL_INT at1 2)]%string.

(** [xs := [1]; y := xs[4294967296]] *)
Definition demo_load : AstNode :=
  NODE_PROGRAM
    [NODE_VAR_DECL at1 "xs" (NODE_ARRAY at1 [NODE_LITERAL_INT at1 1]) false;
     NODE_VAR_DECL at1 "y"
       (NODE_INDEX at1 (NODE_IDENTIFIER at1 "xs")
          (NODE_LITERAL_INT at1 4294967296)) false]%string.

(** X2.  Assignment through an index out of bounds.  Let [a[i] = v] be
    executed where [a] is an
    array and [i] an integer with [i < 0] or [i >= length(a)].  The
    statement ends without a runtime error: the error flag stays clear.
    When [i] fits a C [int], nothing at all is stored and the state is
    the one reached after the evaluation of [v], [a] and [i]. *)
Theorem index_assignment_unchecked (W : World) (rec : Rec)
    (st st0 st1 st2 : Interpreter) (p q : Pos) (object index value : AstNode)
    (v : Value) (a : nat) (i : Z) (elements : list Value) (capacity : Z) :
  running st ->
  r_eval rec st value = Ok (v, st0) -> had_error st0 = false ->
  r_eval rec st0 object = Ok (OBJ_VAL (HeapRef a), st1) ->
  had_error st1 = false ->
  r_eval rec st1 index = Ok (INT_VAL i, st2) -> had_error st2 = false ->
  heap st2 !! a = Some (ObjArray elements capacity) ->
  i < 0 \/ Z.of_nat (length elements) <= i ->
  exists st3,
    exec W rec st (NODE_ASSIGNMENT p (NODE_INDEX q object index) value) = Ok st3
    /\ had_error st3 = false
    /\ (- 2 ^ 31 <= i < 2 ^ 31 -> st3 = st2).
Proof.
  intros (He & Hr & Hb & Hc) Hv Hv0 Ho Ho1 Hi Hi2 Ha Hout.
  unfold exec. rewrite He, Hr, Hb, Hc. cbn. rewrite Hv. cbn. rewrite Hv0.
  unfold exec_assign. rewrite Ho. cbn. rewrite Ho1, Hi. cbn. rewrite Hi2, Ha.
  unfold array_set. rewrite Ha.
  destruct ((to_signed 32 i <? 0)
            || (Z.of_nat (length elements) <=? to_signed 32 i)) eqn:Hidx.
  - exists st2. cbn. split; [|split]; try assumption; [|reflexivity].
    destruct st2; reflexivity.
  - eexists. cbn. split; [reflexivity|]. split; [exact Hi2|].
    intros Hrange. rewrite Cffi.to_signed_small in Hidx by lia.
    apply orb_false_iff in Hidx as [H1 H2]. lia.
Qed.

(** The state after [xs := [1]]. *)
Definition demo_stored : Interpreter :=
  Eval vm_compute in
    match exec bare_world (interp_rec bare_world 3) blank
            (NODE_VAR_DECL at1 "xs" (NODE_ARRAY at1 [NODE_LITERAL_INT at1 1])
               false) with
    | Ok st => st
    | _ => blank
    end.

Lemma index_assignment_unchecked_witness :
  exists st3,
    exec bare_world (interp_rec bare_world 2) demo_stored
      (NODE_ASSIGNMENT at1
         (NODE_INDEX at1 (NODE_IDENTIFIER at1 "xs") (NODE_LITERAL_INT at1 5))
         (NODE_LITERAL_INT at1 2)) = Ok st3
    /\ had_error st3 = false
    /\ (- 2 ^ 31 <= 5 < 2 ^ 31 -> st3 = demo_stored).
Proof.
  refine (index_assignment_unchecked bare_world (interp_rec bare_world 2)
            demo_stored demo_stored demo_stored demo_stored at1 at1
            (NODE_IDENTIFIER at1 "xs") (NODE_LITERAL_INT at1 5)
            (NODE_LITERAL_INT at1 2) (INT_VAL 2) 0 5 [INT_VAL 1] 8
            _ _ _ _ _ _ _ _ _).
  - repeat split; reflexivity.
  - reflexivity.
  - reflexivity.
  - vm_compute. reflexivity.
  - reflexivity.
  - reflexivity.
  - reflexivity.
  - reflexivity.
  - right. simpl. lia.
Defined.

(** The whole program [xs := [1]; xs[5] = 2] ends without error, and
    [xs] still has its one element. *)
Example index_store_out_of_bounds :
  (st ← interpret_ast bare_world 4 demo_store;
   Ok (had_error st, deref (heap st) (default NIL_VAL (lookup st "xs"))))
  = Ok (false, Some (ObjArray [INT_VAL 1] 8)).
Proof. vm_compute. reflexivity. Qed.

(** The index of a read is converted to a C [int] before the bounds
    check: [xs[4294967296]] is [xs[0]]. *)
Example index_load_truncated :
  (st ← interpret_ast bare_world 4 demo_load;
   Ok (had_error st, lookup st "y"))
  = Ok (false, Some (INT_VAL 1)).
Proof. vm_compute. reflexivity. Qed.

(** X3.  Reading [a[i]] where [a] is an array and [i] an integer out of
    bounds ([i < 0] or [i >= length(a)]) that fits a C [int] raises the
    runtime error [Array index out of bounds] at the line of the index
    expression, and yields nil. *)
Theorem index_read_out_of_bounds (W : World) (rec : Rec)
    (st st1 st2 : Interpreter) (p : Pos) (object index : AstNode)
    (a : nat) (i : Z) (elements : list Value) (capacity : Z) :
  had_error st = false ->
  r_eval rec st object = Ok (OBJ_VAL (HeapRef a), st1) ->
  had_error st1 = false ->
  r_eval rec st1 index = Ok (INT_VAL i, st2) -> had_error st2 = false ->
  heap st2 !! a = Some (ObjArray elements capacity) ->
  i < 0 \/ Z.of_nat (length elements) <= i ->
  - 2 ^ 31 <= i < 2 ^ 31 ->
  eval W rec st (NODE_INDEX p object index)
  = Ok (NIL_VAL, runtime_error st2 (line p) "Array index out of bounds").
Proof.
  intros He Ho Ho1 Hi Hi2 Ha Hout Hrange.
  unfold eval. rewrite He, Ho. cbn. rewrite Ho1, Hi. cbn. rewrite Hi2, Ha.
  rewrite Cffi.to_signed_small by lia.
  destruct ((i <? 0) || (Z.of_nat (length elements) <=? i)) eqn:Hidx;
    [reflexivity|].
  apply orb_false_iff in Hidx as [H1 H2]. lia.
Qed.

Lemma index_read_out_of_bounds_witness :
  eval bare_world (interp_rec bare_world 2) demo_stored
    (NODE_INDEX at1 (NODE_IDENTIFIER at1 "xs") (NODE_LITERAL_INT at1 5))
  = Ok (NIL_VAL, runtime_error demo_stored 1 "Array index out of bounds").
Proof.
  refine (index_read_out_of_bounds bare_world (interp_rec bare_world 2)
            demo_stored demo_stored demo_stored at1
            (NODE_IDENTIFIER at1 "xs") (NODE_LITERAL_INT at1 5)
            0 5 [INT_VAL 1] 8 _ _ _ _ _ _ _ _).
  - reflexivity.
  - vm_compute. reflexivity.
  - reflexivity.
  - reflexivity.
  - reflexivity.
  - reflexivity.
  - right. simpl. lia.
  - lia.
Defined.

(** ** Implicit return *)

(** [fn g() { return 7 }  fn f() { 1; x := g() }  r := f()] *)
Definition demo_implicit : AstNode :=
  NODE_PROGRAM
    [NODE_FN_DECL at1 "g" []
       (NODE_BLOCK at1 [NODE_RETURN at1 (NODE_LITERAL_INT at1 7)]);
     NODE_FN_DECL at1 "f" []
       (NODE_BLOCK at1
          [NODE_EXPR_STMT at1 (NODE_LITERAL_INT at1 1);
           NODE_VAR_DECL at1 "x"
             (NODE_CALL at1 (NODE_IDENTIFIER at1 "g") []) false]);
     NODE_VAR_DECL at1 "r" (NODE_CALL at1 (NODE_IDENTIFIER at1 "f") []) false
    ]%string.

(** [fn g() { 5 }  fn f() { 1; x := g() }  r := f()] *)
Definition demo_implicit_inner : AstNode :=
  NODE_PROGRAM
    [NODE_FN_DECL at1 "g" []
       (NODE_BLOCK at1 [NODE_EXPR_STMT at1 (NODE_LITERAL_INT at1 5)]);
     NODE_FN_DECL at1 "f" []
       (NODE_BLOCK at1
          [NODE_EXPR_STMT at1 (NODE_LITERAL_INT at1 1);
           NODE_VAR_DECL at1 "x"
             (NODE_CALL at1 (NODE_IDENTIFIER at1 "g") []) false]);
     NODE_VAR_DECL at1 "r" (NODE_CALL at1 (NODE_IDENTIFIER at1 "f") []) false
    ]%string.

(** [fn f() { 1; x := 2 }  r := f()] *)
Definition demo_implicit_plain : AstNode :=
  NODE_PROGRAM
    [NODE_FN_DECL at1 "f" []
       (NODE_BLOCK at1
          [NODE_EXPR_STMT at1 (NODE_LITERAL_INT at1 1);
           NODE_VAR_DECL at1 "x" (NODE_LITERAL_INT at1 2) false]);
     NODE_VAR_DECL at1 "r" (NODE_CALL at1 (NODE_IDENTIFIER at1 "f") []) false
    ]%string.

(** C1, a call inside the body.  The body of [f] executes the expression
    statement [1] and then the declaration [x := g ()], where [g] returns
    7 by an explicit [return]; [f] executes no [return].  The call [f ()]
    yields nil, not 1: the call of [g] has reset the one slot in which the
    interpreter keeps the value of the last expression statement. *)
Theorem implicit_return_clobbered :
  (st ← interpret_ast bare_world 12 demo_implicit;
   Ok (had_error st, lookup st "r"))
  = Ok (false, Some NIL_VAL).
Proof. vm_compute. reflexivity. Qed.

(** With an expression statement as the body of [g], the call [f ()]
    yields the value left by [g]. *)
Example implicit_return_of_callee :
  (st ← interpret_ast bare_world 12 demo_implicit_inner;
   Ok (had_error st, lookup st "r"))
  = Ok (false, Some (INT_VAL 5)).
Proof. vm_compute. reflexivity. Qed.

(** Without a call in between, the value is that of the last expression
    statement. *)
Example implicit_return_plain :
  (st ← interpret_ast bare_world 12 demo_implicit_plain;
   Ok (had_error st, lookup st "r"))
  = Ok (false, Some (INT_VAL 1)).
Proof. vm_compute. reflexivity. Qed.

(** ** Scopes: definition and lookup return *)

Lemma string_create_next (p : StringPool) (cs : string) (s : ObjString)
    (p' : StringPool) :
  string_create p cs = Ok (s, p') ->
  (next_addr p <= next_addr p' <= S (next_addr p))%nat.
Proof.
  rewrite string_create_unfold.
  destruct (intern_lookup _ _ _ _).
  - intros [= _ <-]. lia.
  - destruct (table_set _ _ _ _) as [[t' b]| |]; cbn; try discriminate.
    intros [= _ <-]. cbn. lia.
Qed.

(** [env_define] returns; in a scope without the name it binds it. *)
Lemma env_define_returns (pool : StringPool) (envs : list Environment)
    (a : nat) (e : Environment) (name : string) (v : Value) (c : bool) :
  envs_ok pool envs -> small pool envs -> envs !! a = Some e ->
  exists k pool' b envs',
    string_create pool name = Ok (k, pool') /\ s_chars k = name
    /\ env_define pool envs a name v c = Ok (b, pool', envs')
    /\ ((forall x, ~ bound (variables e) k x) ->
        b = true
        /\ exists t',
             envs' = <[a := {| variables := t'; enclosing := enclosing e |}]> envs
             /\ bound t' k {| key := Some k; value := v; is_const := c |}
             /\ (forall x, bound t' k x ->
                   x = {| key := Some k; value := v; is_const := c |})
             /\ (capacity t' = capacity (variables e)
                 \/ capacity t'
                    = (if capacity (variables e) <? 8 then 8
                       else capacity (variables e) * 2))).
Proof.
  intros Hok [Hnext Hcap] Ha.
  destruct (string_create_returns pool name (eo_pool _ _ Hok) Hnext)
    as (k & pool' & Hk).
  destruct (string_create_inv _ _ _ _ (eo_pool _ _ Hok) Hk)
    as (Hpool' & Hchars & Hint & Hmono).
  assert (Hscope : scope_ok pool' a e)
    by (eapply scope_ok_mono; [exact Hmono | exact (eo_scope _ _ Hok a e Ha)]).
  assert (Hagree : agrees (variables e) k)
    by (eapply scope_agrees; eassumption).
  assert (Hwf : table_wf (variables e)) by apply Hscope.
  unfold env_define. rewrite Hk. cbn. rewrite Ha.
  destruct (bound_cases (variables e) k Hwf Hagree) as [[x Hx] | Hfree].
  - rewrite (table_get_bound _ _ _ Hwf Hagree Hx). cbn.
    exists k, pool', false, envs.
    split; [reflexivity|]. split; [exact Hchars|]. split; [reflexivity|].
    intros Hno. destruct (Hno x Hx).
  - rewrite (table_get_unbound _ _ Hwf Hfree). cbn.
    destruct (table_set_spec (variables e) k v c Hwf Hagree)
      as (t' & b & Hset & _ & Hb & _ & Hsame & _ & _ & Hcap').
    { intros _. exact (Hcap a e Ha). }
    rewrite Hset. cbn.
    exists k, pool', true, (<[a := {| variables := t'; enclosing := enclosing e |}]> envs).
    split; [reflexivity|]. split; [exact Hchars|]. split; [reflexivity|].
    intros _. split; [reflexivity|]. exists t'.
    split; [reflexivity|]. split; [exact Hb|]. split.
    + intros x (j & k' & Hh & Haddr). exact (proj2 (Hsame j k' x Hh Haddr)).
    + destruct Hcap' as [H | [_ H]]; [left | right]; exact H.
Qed.

(** [env_get] of a name bound in the scope it starts from. *)
Lemma env_get_here (pool : StringPool) (envs : list Environment)
    (a : nat) (e : Environment) (k : ObjString) (x : TableEntry) :
  envs_ok pool envs -> envs !! a = Some e -> interned pool k ->
  bound (variables e) k x ->
  env_get pool envs (Some a) (s_chars k) = Ok (Some (value x), pool).
Proof.
  intros Hok Ha Hint Hx.
  unfold env_get.
  rewrite (Cffi.string_create_interned pool k (eo_pool _ _ Hok) Hint). cbn.
  rewrite Ha.
  assert (Hscope : scope_ok pool a e) by exact (eo_scope _ _ Hok a e Ha).
  rewrite (table_get_bound _ _ _ (so_wf _ _ _ Hscope)
             (scope_agrees _ _ _ _ (eo_pool _ _ Hok) Hscope Hint) Hx).
  reflexivity.
Qed.

(** ** Loops over ranges *)

Lemma interp_rec_S (W : World) (n : nat) :
  interp_rec W (S n)
  = {| r_eval := eval W (interp_rec W n); r_exec := exec W (interp_rec W n);
       r_while := exec_while (interp_rec W n);
       r_for := exec_for_loop (interp_rec W n);
       r_pop := pop_defers (interp_rec W n) |}.
Proof. reflexivity. Qed.

Lemma range_values_empty (a : Z) : range_values a a = [].
Proof. unfold range_values. rewrite Z.leb_refl, Z.sub_diag. reflexivity. Qed.

Lemma range_values_down (a : Z) : range_values a (a - 1) = [INT_VAL a].
Proof.
  unfold range_values. destruct (Z.leb_spec a (a - 1)) as [H|_]; [lia|].
  replace (a - (a - 1)) with 1 by lia.
  change (seqZ 0 1) with [0]. cbn. rewrite Z.sub_0_r. reflexivity.
Qed.

Lemma array_push_fresh (heap : list Obj) (v : Value) :
  array_push (heap ++ [ObjArray [] 0]) (length heap) v
  = Ok (heap ++ [ObjArray [v] 8]).
Proof.
  unfold array_push. rewrite list_lookup_middle by reflexivity.
  change (0 <=? Z.of_nat (length (@nil Value))) with true. cbn.
  rewrite (insert_app_r_alt heap) by lia. rewrite Nat.sub_diag. reflexivity.
Qed.

Lemma unbound_table_create (k : ObjString) (x : TableEntry) :
  ~ bound table_create k x.
Proof. intros (j & k' & [Hj _] & _). cbn in Hj. destruct j; discriminate. Qed.

(** The scope of a [for] loop: the iterator is defined, set to the first
    element and read back. *)
Lemma range_loop_setup (pool0 : StringPool) (envs0 : list Environment)
    (up : nat) (name : string) (a : Z) :
  envs_ok pool0 envs0 -> small pool0 envs0 ->
  Z.of_nat (next_addr pool0) + 1 < 2 ^ 28 ->
  (up < length envs0)%nat ->
  let scope := length envs0 in
  let fresh := {| variables := table_create; enclosing := Some up |} in
  exists pool' envs1 envs2,
    env_define pool0 (envs0 ++ [fresh]) scope name NIL_VAL false
    = Ok (true, pool', envs1)
    /\ env_set pool' envs1 (Some scope) name (INT_VAL a)
       = Ok (true, pool', envs2)
    /\ env_get pool' envs2 (Some scope) name = Ok (Some (INT_VAL a), pool').
Proof.
  intros Hok Hsmall Hnext Hup scope fresh.
  assert (Hok0 : envs_ok pool0 (envs0 ++ [fresh])).
  { apply (env_create_ok pool0 envs0 (Some up) Hok). intros b [= <-]. exact Hup. }
  assert (Hfresh : (envs0 ++ [fresh]) !! scope = Some fresh)
    by (apply list_lookup_middle; reflexivity).
  assert (Hsmall0 : small pool0 (envs0 ++ [fresh])).
  { destruct Hsmall as [Hn Hc]. split; [exact Hn|]. intros b e Hb.
    apply lookup_snoc_Some in Hb as [[_ Hb] | [_ <-]]; [exact (Hc b e Hb)|].
    cbn. unfold INT_MAX. lia. }
  destruct (env_define_returns pool0 _ scope fresh name NIL_VAL false
              Hok0 Hsmall0 Hfresh)
    as (k & pool' & b & envs1 & Hk & Hchars & Hdef & Hnew).
  destruct Hnew as (-> & t' & -> & Hb & Hone & Hcap).
  { intros x. apply unbound_table_create. }
  destruct (env_define_ok _ _ _ _ _ _ _ _ _ Hok0 Hdef) as [Hok1 Hlen1].
  destruct (string_create_inv _ _ _ _ (eo_pool _ _ Hok0) Hk)
    as (Hpool' & _ & Hint & _).
  set (e1 := {| variables := t'; enclosing := enclosing fresh |}) in *.
  set (envs1 := <[scope := e1]> (envs0 ++ [fresh])) in *.
  assert (He1 : envs1 !! scope = Some e1).
  { apply list_lookup_insert_eq. rewrite length_app. cbn. unfold scope. lia. }
  assert (Hsmall1 : small pool' envs1).
  { split.
    - pose proof (string_create_next _ _ _ _ Hk). lia.
    - intros c e Hc. destruct (decide (c = scope)) as [->|Hne].
      + rewrite He1 in Hc. injection Hc as <-. cbn.
        destruct Hcap as [-> | ->]; cbn; unfold INT_MAX; lia.
      + unfold envs1 in Hc. rewrite list_lookup_insert_ne in Hc by congruence.
        exact (proj2 Hsmall0 c e Hc). }
  destruct (env_set_spec pool' envs1 (Some scope) name (INT_VAL a) Hok1 Hsmall1)
    as (k2 & pool2 & r & ok & envs2 & Hk2 & _ & Hres & Hset & Hr).
  { intros c [= <-]. rewrite Hlen1, length_app. cbn. unfold scope. lia. }
  assert (Hkk : string_create pool' name = Ok (k, pool')).
  { rewrite <- Hchars. apply Cffi.string_create_interned; assumption. }
  rewrite Hkk in Hk2. injection Hk2 as <- <-.
  destruct (env_set_ok _ _ _ _ _ _ _ _ Hok1 Hset) as [Hok2 Hlen2].
  inversion Hres as [ | c e x Hc Hx | c e r' Hc Hno Hup']; subst.
  - rewrite He1 in Hc. injection Hc as <-.
    rewrite (Hone x Hx) in Hr. cbn in Hr.
    destruct Hr as (-> & _ & ec' & Hec' & _ & Hbound & _).
    exists pool', envs1, envs2.
    split; [exact Hdef|]. split; [exact Hset|].
    exact (env_get_here pool' envs2 scope ec' k _ Hok2 Hec' Hint Hbound).
  - rewrite He1 in Hc. injection Hc as <-. destruct (Hno _ Hb).
Qed.

Lemma eval_literal_int (W : World) (rec : Rec) (st : Interpreter) (p : Pos)
    (n : Z) :
  had_error st = false -> eval W rec st (NODE_LITERAL_INT p n) = Ok (INT_VAL n, st).
Proof. intros He. unfold eval. rewrite He. reflexivity. Qed.

Lemma eval_minus_ints (W : World) (rec : Rec) (st : Interpreter) (p : Pos)
    (l r : AstNode) (x y : Z) :
  had_error st = false ->
  r_eval rec st l = Ok (INT_VAL x, st) -> r_eval rec st r = Ok (INT_VAL y, st) ->
  eval W rec st (NODE_BINARY p TOKEN_MINUS l r)
  = Ok (INT_VAL (wrap64 (x - y)), st).
Proof.
  intros He Hl Hr. unfold eval, eval_binary. rewrite He, Hl. cbn.
  rewrite He, Hr. cbn. rewrite He. reflexivity.
Qed.

Lemma eval_range_ints (W : World) (rec : Rec) (st : Interpreter) (p : Pos)
    (start end_ : AstNode) (s e : Z) :
  had_error st = false ->
  r_eval rec st start = Ok (INT_VAL s, st) ->
  r_eval rec st end_ = Ok (INT_VAL e, st) ->
  eval W rec st (NODE_RANGE p start end_)
  = (heap' ← array_push_all (heap st ++ [ObjArray [] 0]) (length (heap st))
               (range_values s e);
     Ok (OBJ_VAL (HeapRef (length (heap st))), set_heap st heap')).
Proof.
  intros He Hs Hend. unfold eval. rewrite He, Hs. cbn. rewrite He, Hend. cbn.
  rewrite He. reflexivity.
Qed.

Lemma exec_for_array (W : World) (rec : Rec) (st st1 : Interpreter) (p : Pos)
    (name : string) (iterable body : AstNode) (arr : nat)
    (elements : list Value) (capacity : Z) :
  running st ->
  r_eval rec st iterable = Ok (OBJ_VAL (HeapRef arr), st1) ->
  had_error st1 = false ->
  heap st1 !! arr = Some (ObjArray elements capacity) ->
  exec W rec st (NODE_FOR p name iterable body)
  = ('(_, pool', envs') ←
       env_define (pool st1)
         (envs st1 ++ [{| variables := table_create;
                          enclosing := Some (current st1) |}])
         (length (envs st1)) name NIL_VAL false;
     st2 ← exec_for_loop rec
             (set_envs
                (set_pool
                   (set_current
                      (set_envs st1
                         (envs st1 ++ [{| variables := table_create;
                                          enclosing := Some (current st1) |}]))
                      (length (envs st1)))
                   pool') envs')
             arr name body 0;
     Ok (set_current st2 (current st1))).
Proof.
  intros (He & Hr & Hb & Hc) Hit He1 Harr.
  unfold exec. rewrite He, Hr, Hb, Hc. cbn [orb].
  unfold exec_for. rewrite Hit. cbn. rewrite He1, Harr. reflexivity.
Qed.

Arguments interp_rec : simpl never.


Lemma res_bind_Ok {A B : Type} (a : A) (f : A -> res B) : (Ok a ≫= f) = f a.
Proof. reflexivity. Qed.

Lemma exec_for_loop_end (rec : Rec) (st : Interpreter) (arr : nat)
    (name : string) (body : AstNode) (i : Z) (elements : list Value)
    (capacity : Z) :
  heap st !! arr = Some (ObjArray elements capacity) ->
  Z.of_nat (length elements) <= i ->
  exec_for_loop rec st arr name body i = Ok st.
Proof.
  intros Harr Hi. unfold exec_for_loop. rewrite Harr.
  destruct (Z.ltb_spec i (Z.of_nat (length elements))) as [H|_]; [lia|].
  reflexivity.
Qed.

Lemma exec_for_loop_step (rec : Rec) (st : Interpreter) (arr : nat)
    (name : string) (body : AstNode) (i : Z) (elements : list Value)
    (capacity : Z) (v : Value) (b : bool) (pool' : StringPool)
    (envs' : list Environment) :
  heap st !! arr = Some (ObjArray elements capacity) ->
  had_error st = false ->
  0 <= i -> elements !! Z.to_nat i = Some v ->
  env_set (pool st) (envs st) (Some (current st)) name v = Ok (b, pool', envs') ->
  exec_for_loop rec st arr name body i
  = (st2 ← r_exec rec (set_envs (set_pool st pool') envs') body;
     loop_next st2 (fun st3 => r_for rec st3 arr name body (i + 1))).
Proof.
  intros Harr He Hi Hv Hset. unfold exec_for_loop. rewrite Harr, He, Hv, Hset.
  assert (Hlen : i < Z.of_nat (length elements)).
  { apply lookup_lt_Some in Hv. lia. }
  destruct (Z.ltb_spec i (Z.of_nat (length elements))) as [_|H]; [|lia].
  reflexivity.
Qed.

Lemma for_scope_exit (st : Interpreter) (envs0 envs' : list Environment)
    (scope : nat) (pool' : StringPool) :
  set_current
    (set_envs (set_pool (set_current (set_envs st envs0) scope) pool') envs')
    (current st)
  = set_envs (set_pool st pool') envs'.
Proof. destruct st; reflexivity. Qed.

Lemma for_scope_enter (st : Interpreter) (envs0 envs' : list Environment)
    (scope : nat) (pool' : StringPool) :
  set_envs (set_pool (set_current (set_envs st envs0) scope) pool') envs'
  = set_current (set_envs (set_pool st pool') envs') scope.
Proof. destruct st; reflexivity. Qed.

Lemma exec_for_none (W : World) (rec : Rec) (st st1 : Interpreter) (p : Pos)
    (name : string) (iterable body : AstNode) (arr : nat) (capacity : Z)
    (b : bool) (pool' : StringPool) (envs' : list Environment) :
  running st ->
  r_eval rec st iterable = Ok (OBJ_VAL (HeapRef arr), st1) ->
  had_error st1 = false ->
  heap st1 !! arr = Some (ObjArray [] capacity) ->
  env_define (pool st1)
    (envs st1 ++ [{| variables := table_create;
                     enclosing := Some (current st1) |}])
    (length (envs st1)) name NIL_VAL false = Ok (b, pool', envs') ->
  exec W rec st (NODE_FOR p name iterable body)
  = Ok (set_envs (set_pool st1 pool') envs').
Proof.
  intros Hrun Hit He1 Harr Hdef.
  rewrite (exec_for_array W rec st st1 p name iterable body arr [] capacity
             Hrun Hit He1 Harr).
  rewrite Hdef, res_bind_Ok.
  rewrite (exec_for_loop_end rec _ arr name body 0 [] capacity);
    [| exact Harr | cbn; lia].
  rewrite res_bind_Ok. rewrite for_scope_exit. reflexivity.
Qed.

Lemma exec_for_first (W : World) (rec : Rec) (st st1 : Interpreter) (p : Pos)
    (name : string) (iterable body : AstNode) (arr : nat) (capacity : Z)
    (v : Value) (rest : list Value)
    (b b' : bool) (pool' pool'' : StringPool) (envs' envs'' : list Environment) :
  running st ->
  r_eval rec st iterable = Ok (OBJ_VAL (HeapRef arr), st1) ->
  had_error st1 = false ->
  heap st1 !! arr = Some (ObjArray (v :: rest) capacity) ->
  env_define (pool st1)
    (envs st1 ++ [{| variables := table_create;
                     enclosing := Some (current st1) |}])
    (length (envs st1)) name NIL_VAL false = Ok (b, pool', envs') ->
  env_set pool' envs' (Some (length (envs st1))) name v
  = Ok (b', pool'', envs'') ->
  exec W rec st (NODE_FOR p name iterable body)
  = (st2 ← r_exec rec
             (set_current (set_envs (set_pool st1 pool'') envs'')
                (length (envs st1))) body;
     st3 ← loop_next st2 (fun st3 => r_for rec st3 arr name body 1);
     Ok (set_current st3 (current st1))).
Proof.
  intros Hrun Hit He1 Harr Hdef Hset.
  rewrite (exec_for_array W rec st st1 p name iterable body arr (v :: rest)
             capacity Hrun Hit He1 Harr).
  rewrite Hdef, res_bind_Ok.
  rewrite (exec_for_loop_step rec _ arr name body 0 (v :: rest) capacity v
             b' pool'' envs''); [| exact Harr | exact He1 | lia | reflexivity
                                 | exact Hset].
  rewrite for_scope_enter.
  assert (Hs : forall s pool0 envs0 pool1 envs1 scope,
             set_envs (set_pool (set_current (set_envs (set_pool s pool0) envs0) scope) pool1) envs1
             = set_current (set_envs (set_pool s pool1) envs1) scope)
    by (intros []; reflexivity).
  rewrite Hs.
  destruct (r_exec rec _ body) as [st2| |]; reflexivity.
Qed.

Lemma exec_at_S (W : World) (n : nat) (st : Interpreter) (node : AstNode) :
  exec_at W (S n) st node = exec W (interp_rec W n) st node.
Proof. reflexivity. Qed.

Lemma r_eval_S (W : World) (n : nat) (st : Interpreter) (node : AstNode) :
  r_eval (interp_rec W (S n)) st node = eval W (interp_rec W n) st node.
Proof. reflexivity. Qed.

Lemma r_exec_S (W : World) (n : nat) (st : Interpreter) (node : AstNode) :
  r_exec (interp_rec W (S n)) st node = exec W (interp_rec W n) st node.
Proof. reflexivity. Qed.

Lemma r_for_S (W : World) (n : nat) :
  r_for (interp_rec W (S n)) = exec_for_loop (interp_rec W n).
Proof. reflexivity. Qed.

Lemma eval_range_literals (W : World) (n : nat) (st : Interpreter)
    (pr pa pb : Pos) (a b : Z) :
  had_error st = false ->
  r_eval (interp_rec W (S (S n))) st
    (NODE_RANGE pr (NODE_LITERAL_INT pa a) (NODE_LITERAL_INT pb b))
  = (heap' ← array_push_all (heap st ++ [ObjArray [] 0]) (length (heap st))
               (range_values a b);
     Ok (OBJ_VAL (HeapRef (length (heap st))), set_heap st heap')).
Proof.
  intros He. rewrite r_eval_S.
  apply eval_range_ints; [exact He | |]; rewrite r_eval_S;
    apply eval_literal_int, He.
Qed.

Lemma eval_range_pred (W : World) (n : nat) (st : Interpreter)
    (pr pa pm pb p1 : Pos) (a : Z) :
  had_error st = false -> INT64_MIN < a <= INT64_MAX ->
  r_eval (interp_rec W (S (S (S n)))) st
    (NODE_RANGE pr (NODE_LITERAL_INT pa a)
       (NODE_BINARY pm TOKEN_MINUS (NODE_LITERAL_INT pb a)
          (NODE_LITERAL_INT p1 1)))
  = Ok (OBJ_VAL (HeapRef (length (heap st))),
        set_heap st (heap st ++ [ObjArray [INT_VAL a] 8])).
Proof.
  intros He Ha. rewrite r_eval_S.
  rewrite (eval_range_ints W _ st pr _ _ a (a - 1) He).
  - rewrite range_values_down. unfold array_push_all.
    rewrite array_push_fresh. reflexivity.
  - rewrite r_eval_S. apply eval_literal_int, He.
  - rewrite r_eval_S.
    rewrite (eval_minus_ints W _ st pm _ _ a 1 He).
    + unfold wrap64. rewrite Cffi.to_signed_small; [reflexivity | lia |].
      unfold INT64_MIN, INT64_MAX in Ha. lia.
    + rewrite r_eval_S. apply eval_literal_int, He.
    + rewrite r_eval_S. apply eval_literal_int, He.
Qed.

(** X4.  Loops over the ranges [a..a] and [a..a-1], in a state without
    error and with room for one more string.  The loop [for i in a..a]
    leaves a state that does not depend on its body: the body is not
    executed.  The loop [for i in a..a-1], for [a] above the least 64-bit
    integer, executes its body a first time with [i] bound to [a] in the
    scope of the loop; the range counts down from [a] and has the one
    element [a], so the loop ends after this iteration unless the body
    has changed the array of the range. *)
Theorem range_loop_iterations (W : World) (fuel : nat) (st : Interpreter)
    (name : string) (a : Z) (p pr pa pm p1 : Pos) :
  running st -> envs_ok (pool st) (envs st) -> small (pool st) (envs st) ->
  Z.of_nat (next_addr (pool st)) + 1 < 2 ^ 28 ->
  (current st < length (envs st))%nat ->
  INT64_MIN < a <= INT64_MAX ->
  let A := NODE_LITERAL_INT pa a in
  let B := NODE_BINARY pm TOKEN_MINUS A (NODE_LITERAL_INT p1 1) in
  let arr := length (heap st) in
  let scope := length (envs st) in
  exists pool' envs1 envs2,
    (forall body : AstNode,
       exec_at W (4 + fuel) st (NODE_FOR p name (NODE_RANGE pr A A) body)
       = Ok (set_envs (set_pool (set_heap st (heap st ++ [ObjArray [] 0]))
                         pool') envs1))
    /\ let st_i :=
         set_current
           (set_envs (set_pool (set_heap st (heap st ++ [ObjArray [INT_VAL a] 8]))
                        pool') envs2) scope in
       lookup st_i name = Some (INT_VAL a)
       /\ (forall body : AstNode,
             exec_at W (4 + fuel) st (NODE_FOR p name (NODE_RANGE pr A B) body)
             = (st2 ← exec_at W (3 + fuel) st_i body;
                st3 ← loop_next st2
                        (fun st3 => exec_for_loop (interp_rec W (2 + fuel))
                                      st3 arr name body 1);
                Ok (set_current st3 (current st))))
       /\ (forall (body : AstNode) (st2 : Interpreter) (x : Value) (c : Z),
             heap st2 !! arr = Some (ObjArray [x] c) ->
             exec_for_loop (interp_rec W (2 + fuel)) st2 arr name body 1
             = Ok st2).
Proof.
  intros Hrun Hok Hsmall Hnext Hcur Ha A B arr scope.
  assert (He : had_error st = false) by apply Hrun.
  destruct (range_loop_setup (pool st) (envs st) (current st) name a
              Hok Hsmall Hnext Hcur)
    as (pool' & envs1 & envs2 & Hdef & Hset & Hget).
  exists pool', envs1, envs2.
  split; [|intros st_i; split; [|split]].
  - intros body. change (4 + fuel)%nat with (S (S (S (S fuel)))).
    rewrite exec_at_S.
    apply (exec_for_none W _ st _ p name _ body arr 0 true pool' envs1 Hrun).
    + unfold A. rewrite (eval_range_literals W _ st pr pa pa a a He).
      rewrite range_values_empty. reflexivity.
    + exact He.
    + apply list_lookup_middle. reflexivity.
    + exact Hdef.
  - unfold lookup, st_i, scope.
    cbn [pool envs current set_current set_envs set_pool set_heap].
    rewrite Hget. reflexivity.
  - intros body. change (4 + fuel)%nat with (S (S (S (S fuel)))).
    change (3 + fuel)%nat with (S (S (S fuel))).
    change (2 + fuel)%nat with (S (S fuel)).
    rewrite exec_at_S.
    rewrite (exec_for_first W _ st
               (set_heap st (heap st ++ [ObjArray [INT_VAL a] 8]))
               p name _ body arr 8 (INT_VAL a) []
               true true pool' pool' envs1 envs2 Hrun).
    + rewrite r_for_S. reflexivity.
    + unfold A, B. apply (eval_range_pred W _ st pr pa pm pa p1 a He Ha).
    + exact He.
    + apply list_lookup_middle. reflexivity.
    + exact Hdef.
    + exact Hset.
  - intros body st2 x c Harr.
    apply (exec_for_loop_end _ st2 arr name body 1 [x] c Harr). cbn. lia.
Qed.

Lemma range_loop_iterations_witness :
  running blank
  /\ envs_ok (pool blank) (envs blank)
  /\ small (pool blank) (envs blank)
  /\ (current blank < length (envs blank))%nat
  /\ exists pool' envs1,
       forall body : AstNode,
         exec_at bare_world 4 blank
           (NODE_FOR at1 "i"
              (NODE_RANGE at1 (NODE_LITERAL_INT at1 5) (NODE_LITERAL_INT at1 5))
              body)
         = Ok (set_envs (set_pool (set_heap blank [ObjArray [] 0]) pool') envs1).
Proof.
  assert (H1 : running blank) by (repeat split; reflexivity).
  assert (H2 : envs_ok (pool blank) (envs blank)).
  { apply (env_create_ok pool_init [] None envs_ok_init). discriminate. }
  assert (H3 : small (pool blank) (envs blank))
    by (apply smallb_small; vm_compute; reflexivity).
  assert (H4 : Z.of_nat (next_addr (pool blank)) + 1 < 2 ^ 28)
    by (vm_compute; reflexivity).
  assert (H5 : (current blank < length (envs blank))%nat) by (cbn; lia).
  assert (H6 : INT64_MIN < 5 <= INT64_MAX) by (vm_compute; split; congruence).
  split; [exact H1|]. split; [exact H2|]. split; [exact H3|]. split; [exact H5|].
  destruct (range_loop_iterations bare_world 0 blank "i" 5 at1 at1 at1 at1 at1
              H1 H2 H3 H4 H5 H6) as (pool' & envs1 & envs2 & Hzero & _).
  exists pool', envs1. exact Hzero.
Defined.
End Interp.

(* ===================================================================== *)
(** * Tables: lookup after insertion and deletion, keys and values
      (src/value.c) *)
(* ===================================================================== *)

Module Tables.
Import Value Env Object.

(** ** Keys and values *)

(** The loop of [table_keys] and [table_values] over the slots [slots]:
    [pick] of every slot with a key is pushed. *)
Fixpoint table_collect (pick : ObjString -> TableEntry -> Value)
    (heap : list Obj) (arr : nat) (es : list TableEntry) (slots : list nat)
  : res (list Obj) :=
  match slots with
  | [] => Ok heap
  | i :: rest =>
      match es !! i with
      | None => Fault
      | Some entry =>
          match key entry with
          | Some k =>
              heap' ← array_push heap arr (pick k entry);
              table_collect pick heap' arr es rest
          | None => table_collect pick heap arr es rest
          end
      end
  end.

(** [table_keys] *)
Definition table_keys (heap : list Obj) (table : ObjTable)
  : res (nat * list Obj) :=
  let '(keys, heap') := array_create heap in
  heap'' ← table_collect (fun k _ => OBJ_VAL (StrRef k)) heap' keys
             (entries table) (seq 0 (Z.to_nat (capacity table)));
  Ok (keys, heap'').

(** [table_values] *)
Definition table_values (heap : list Obj) (table : ObjTable)
  : res (nat * list Obj) :=
  let '(values, heap') := array_create heap in
  heap'' ← table_collect (fun _ entry => value entry) heap' values
             (entries table) (seq 0 (Z.to_nat (capacity table)));
  Ok (values, heap'').

(** The entries with a key, in slot order. *)
Definition live_entries (es : list TableEntry) : list (ObjString * TableEntry) :=
  omap (fun e => match key e with Some k => Some (k, e) | None => None end) es.


(** The table after [t[k0] = 1] on an empty table, [k0] being a string
    object at address 0 with hash 5. *)
Definition demo_table : ObjTable :=
  Eval vm_compute in
    match table_set table_create (sample_key 0 5) (INT_VAL 1) false with
    | Ok (t, _) => t
    | _ => table_create
    end.


(** ** Facts *)

(** What [table_delete] does to the storage of a well-formed table. *)
Lemma table_delete_spec (t : ObjTable) (k : ObjString) :
  table_wf t -> agrees t k ->
  exists t' b,
    table_delete_entries t k = Ok (t', b)
    /\ table_wf t'
    /\ (b = true <-> exists e, bound t k e)
    /\ (forall e, ~ bound t' k e)
    /\ (forall k2 e, s_addr k2 <> s_addr k ->
          ((exists j, holds (entries t') j k2 e)
           <-> (exists j, holds (entries t) j k2 e)))
    /\ count t' = count t /\ capacity t' = capacity t.
Proof.
  intros Hwf Hag.
  destruct (table_delete_load_ok t k (wf_load _ Hwf))
    as (t' & b & Hdel & Hload' & Hcnt & Hcap).
  exists t', b. split; [exact Hdel|].
  destruct (bound_cases t k Hwf Hag) as [[x Hx] | Hfree].
  - (* the key is bound: its slot becomes a tombstone *)
    destruct (bound_capacity t k x Hwf Hx) as [Hc Hn].
    destruct Hx as (j & k' & Hj & Ha).
    pose proof Hdel as Hdel'.
    unfold table_delete_entries in Hdel'.
    destruct (count t =? 0) eqn:E; [lia|].
    rewrite (find_entry_found (entries t) (capacity t) k j k' x) in Hdel';
      [ | apply table_wf_storage; assumption
        | apply table_wf_has_empty; assumption
        | apply Hwf | apply Hwf | exact Hj | exact Ha
        | eapply Hag; eassumption ].
    cbn in Hdel'. destruct Hj as [Hje Hjk]. rewrite Hje, Hjk in Hdel'.
    injection Hdel' as <- <-.
    set (tomb := {| key := None; value := BOOL_VAL true;
                    is_const := is_const x |}).
    destruct (replace_slot_inv (entries t) (capacity t) j tomb
                (wf_uniq _ Hwf) (wf_probe _ Hwf) eq_refl) as [Hu' Hp'].
    { intros k0 H0. discriminate H0. }
    split; [split; assumption|].
    split; [split; [intros _; exists x, j, k'; repeat split; assumption
                   | reflexivity]|].
    split.
    + intros e (i & k2 & Hi & Ha2). cbn in Hi.
      apply holds_insert in Hi as [(_ & _ & _ & Hk) | [Hne Hi]];
        [discriminate Hk|].
      apply Hne. apply (wf_uniq _ Hwf i j k2 k' e x Hi (conj Hje Hjk)).
      congruence.
    + split; [|split; reflexivity].
      intros k2 e Hne. cbn. split.
      * intros [i Hi]. apply holds_insert in Hi as [(_ & _ & _ & Hk) | [_ Hi]];
          [discriminate Hk | exists i; exact Hi].
      * intros [i Hi]. exists i. apply holds_insert. right. split; [|exact Hi].
        intros ->. destruct Hi as [Hie Hik]. rewrite Hje in Hie.
        injection Hie as <-. rewrite Hjk in Hik. injection Hik as <-.
        apply Hne. exact Ha.
  - (* the key is not bound: nothing changes *)
    assert (Hsame : t' = t /\ b = false).
    { pose proof Hdel as Hdel'. unfold table_delete_entries in Hdel'.
      destruct (count t =? 0) eqn:E; [injection Hdel' as <- <-; tauto|].
      apply Z.eqb_neq in E.
      assert (Hc : 0 < capacity t).
      { destruct Hwf as [[Hl Hc Hu Hld] _ _].
        pose proof (used_slots_bounds (entries t)). lia. }
      destruct (find_entry_fresh (entries t) (capacity t) k)
        as (r & e & m & Hfind & He & Hk & _).
      - apply table_wf_storage; assumption.
      - apply table_wf_has_empty; assumption.
      - intros j k' e Hj Ha. apply (Hfree e). exists j, k'. split; assumption.
      - rewrite Hfind in Hdel'. cbn in Hdel'. rewrite He, Hk in Hdel'.
        injection Hdel' as <- <-. tauto. }
    destruct Hsame as [-> ->].
    split; [exact Hwf|].
    split; [split; [discriminate | intros [e He]; destruct (Hfree e He)]|].
    split; [exact Hfree|]. split; [tauto|]. split; reflexivity.
Qed.

Lemma agrees_create (k : ObjString) : agrees table_create k.
Proof. intros j k' e [H _]. destruct j; discriminate H. Qed.

(** Two well-formed tables that bind [q] alike answer [table_get] alike. *)
Lemma table_get_congr (t t' : ObjTable) (q : ObjString) :
  table_wf t -> table_wf t' -> agrees t q -> agrees t' q ->
  (forall e, bound t' q e <-> bound t q e) ->
  table_get t' q = table_get t q.
Proof.
  intros Hwf Hwf' Hag Hag' Hiff.
  destruct (bound_cases t q Hwf Hag) as [[x Hx] | Hfree].
  - rewrite (table_get_bound t q x Hwf Hag Hx).
    apply (table_get_bound t' q x Hwf' Hag'). apply Hiff, Hx.
  - rewrite (table_get_unbound t q Hwf Hfree).
    apply (table_get_unbound t' q Hwf'). intros e He. apply (Hfree e), Hiff, He.
Qed.

Lemma table_get_None (t : ObjTable) (q : ObjString) :
  table_wf t -> agrees t q ->
  (table_get t q = Ok None <-> forall e, ~ bound t q e).
Proof.
  intros Hwf Hag. split.
  - intros Hget e He. rewrite (table_get_bound t q e Hwf Hag He) in Hget.
    discriminate.
  - apply table_get_unbound, Hwf.
Qed.

(** The bindings of the other keys carry over when the slots that hold
    them do. *)
Lemma frame_bound (t t' : ObjTable) (k q : ObjString) :
  (forall k2 e, s_addr k2 <> s_addr k ->
     ((exists j, holds (entries t') j k2 e)
      <-> (exists j, holds (entries t) j k2 e))) ->
  s_addr q <> s_addr k ->
  (forall e, bound t' q e <-> bound t q e)
  /\ (agrees t q -> agrees t' q).
Proof.
  intros Hframe Hne. split.
  - intros e. split; intros (j & k' & Hj & Ha);
      (assert (Hk' : s_addr k' <> s_addr k) by congruence);
      [destruct (proj1 (Hframe k' e Hk') (ex_intro _ j Hj)) as [i Hi]
      |destruct (proj2 (Hframe k' e Hk') (ex_intro _ j Hj)) as [i Hi]];
      exists i, k'; split; assumption.
  - intros Hag j k' e Hj Ha.
    assert (Hk' : s_addr k' <> s_addr k) by congruence.
    destruct (proj1 (Hframe k' e Hk') (ex_intro _ j Hj)) as [i Hi].
    exact (Hag i k' e Hi Ha).
Qed.

(** X5.  Lookup after insertion.  On a well-formed table whose capacity
    can still be doubled, [table_set (t, k, v, c)] returns, and in the
    table it leaves [table_get] finds [v] under [k] and finds under every
    other key what it found before.  The result of [table_set] is true
    exactly when [k] was not in the table. *)
Theorem table_get_after_set (t : ObjTable) (k q : ObjString) (v : Value)
    (c : bool) :
  table_wf t -> agrees t k -> agrees t q ->
  (3 * capacity t < 4 * (count t + 1) -> capacity t * 2 <= INT_MAX) ->
  exists t' b,
    table_set t k v c = Ok (t', b)
    /\ table_wf t'
    /\ table_get t' k = Ok (Some v)
    /\ (s_addr q <> s_addr k -> table_get t' q = table_get t q)
    /\ (b = true <-> table_get t k = Ok None).
Proof.
  intros Hwf Hag Hagq Hcap.
  destruct (table_set_spec t k v c Hwf Hag Hcap)
    as (t' & b & Hset & Hwf' & Hb & Hframe & Hsame & Hnew & _).
  assert (Hag' : agrees t' k).
  { intros j k2 e Hj Ha. destruct (Hsame j k2 e Hj Ha) as [-> _]. reflexivity. }
  exists t', b. split; [exact Hset|]. split; [exact Hwf'|]. split.
  - exact (table_get_bound t' k _ Hwf' Hag' Hb).
  - split.
    + intros Hne. destruct (frame_bound t t' k q Hframe Hne) as [Hiff Hagree].
      apply table_get_congr; auto.
    + rewrite Hnew. symmetry. apply table_get_None; assumption.
Qed.

Lemma table_get_after_set_witness :
  exists t' b,
    table_set table_create (sample_key 0 5) (INT_VAL 1) false = Ok (t', b)
    /\ table_wf t'
    /\ table_get t' (sample_key 0 5) = Ok (Some (INT_VAL 1))
    /\ (s_addr (sample_key 1 13) <> s_addr (sample_key 0 5) ->
        table_get t' (sample_key 1 13)
        = table_get table_create (sample_key 1 13))
    /\ (b = true <-> table_get table_create (sample_key 0 5) = Ok None).
Proof.
  apply (table_get_after_set table_create (sample_key 0 5) (sample_key 1 13)
           (INT_VAL 1) false table_wf_create
           (agrees_create _) (agrees_create _)).
  simpl. unfold INT_MAX. lia.
Defined.

(** [table_set] keeps the keys consistent with another key [q]. *)
Lemma table_set_agrees (t t' : ObjTable) (k q : ObjString) (v : Value)
    (c b : bool) :
  table_wf t -> agrees t k -> agrees t q ->
  (s_addr q = s_addr k -> s_hash q = s_hash k) ->
  (3 * capacity t < 4 * (count t + 1) -> capacity t * 2 <= INT_MAX) ->
  table_set t k v c = Ok (t', b) ->
  table_wf t' /\ agrees t' q.
Proof.
  intros Hwf Hag Hagq Hkq Hcap Hset.
  destruct (table_set_spec t k v c Hwf Hag Hcap)
    as (t1 & b1 & Hset1 & Hwf' & _ & Hframe & Hsame & _).
  rewrite Hset in Hset1. injection Hset1 as <- <-.
  split; [exact Hwf'|].
  destruct (decide (s_addr q = s_addr k)) as [Heq|Hne].
  - intros j k2 e Hj Ha.
    destruct (Hsame j k2 e Hj ltac:(congruence)) as [-> _].
    symmetry. exact (Hkq Heq).
  - exact (proj2 (frame_bound t t' k q Hframe Hne) Hagq).
Qed.

Lemma demo_table_wf :
  table_wf demo_table
  /\ agrees demo_table (sample_key 0 5) /\ agrees demo_table (sample_key 1 13).
Proof.
  assert (Hset : table_set table_create (sample_key 0 5) (INT_VAL 1) false
                 = Ok (demo_table, true)) by (vm_compute; reflexivity).
  assert (Hcap : 3 * capacity table_create < 4 * (count table_create + 1) ->
                 capacity table_create * 2 <= INT_MAX)
    by (intros _; vm_compute; discriminate).
  split; [|split].
  - eapply (table_set_agrees table_create demo_table (sample_key 0 5)
              (sample_key 0 5)); eauto using table_wf_create, agrees_create.
  - eapply (table_set_agrees table_create demo_table (sample_key 0 5)
              (sample_key 0 5)); eauto using table_wf_create, agrees_create.
  - eapply (table_set_agrees table_create demo_table (sample_key 0 5)
              (sample_key 1 13)); eauto using table_wf_create, agrees_create.
    discriminate.
Qed.

Lemma array_push_grows (heap : list Obj) (a : nat) (els : list Value)
    (cap : Z) (v : Value) :
  heap !! a = Some (ObjArray els cap) ->
  Z.of_nat (length els) < 2 ^ 30 ->
  exists cap',
    array_push heap a v = Ok (<[a := ObjArray (els ++ [v]) cap']> heap)
    /\ (Z.of_nat (length els) <= cap -> Z.of_nat (length els) + 1 <= cap')
    /\ (cap' = cap \/ cap' = 8 \/ cap' = cap * 2).
Proof.
  intros Ha Hlen. unfold array_push. rewrite Ha.
  destruct (Z.leb_spec cap (Z.of_nat (length els))) as [Hfull|Hroom].
  - destruct (Z.ltb_spec cap 8) as [Hsmall|Hbig].
    + exists 8. split; [reflexivity|]. split; [lia | tauto].
    + destruct (Z.ltb_spec INT_MAX (cap * 2)) as [Hover|Hfit].
      * unfold INT_MAX in Hover. lia.
      * exists (cap * 2). split; [reflexivity|]. split; [lia | tauto].
  - exists cap. split; [reflexivity|]. split; [lia | tauto].
Qed.

Lemma array_push_all_spec (vs : list Value) :
  forall (heap : list Obj) (a : nat) (els : list Value) (cap : Z),
    heap !! a = Some (ObjArray els cap) ->
    Z.of_nat (length els + length vs) <= 2 ^ 30 ->
    exists cap',
      Interp.array_push_all heap a vs
      = Ok (<[a := ObjArray (els ++ vs) cap']> heap).
Proof.
  induction vs as [|v vs IH]; intros heap a els cap Ha Hlen.
  - exists cap. cbn. rewrite app_nil_r, list_insert_id by exact Ha. reflexivity.
  - cbn [Interp.array_push_all].
    destruct (array_push_grows heap a els cap v Ha) as (cap1 & Hpush & _).
    { cbn in Hlen. lia. }
    rewrite Hpush. cbn [mbind res_mbind res_bind].
    destruct (IH (<[a := ObjArray (els ++ [v]) cap1]> heap) a (els ++ [v]) cap1)
      as (cap' & Hall).
    + apply list_lookup_insert_eq. eapply lookup_lt_Some, Ha.
    + rewrite length_app. cbn in *. lia.
    + exists cap'. rewrite Hall, list_insert_insert_eq, <- app_assoc. reflexivity.
Qed.

Lemma table_collect_spec (pick : ObjString -> TableEntry -> Value)
    (arr : nat) (es : list TableEntry) (n : nat) :
  forall (i : nat) (heap : list Obj),
    (i + n = length es)%nat ->
    table_collect pick heap arr es (seq i n)
    = Interp.array_push_all heap arr
        ((fun x => pick (fst x) (snd x)) <$> live_entries (drop i es)).
Proof.
  induction n as [|n IH]; intros i heap Hlen.
  - rewrite drop_ge by lia. reflexivity.
  - cbn [seq table_collect].
    destruct (lookup_lt_is_Some_2 es i ltac:(lia)) as [e He].
    rewrite He, (drop_S es e i He). unfold live_entries. cbn [omap list_omap].
    fold (live_entries (drop (S i) es)).
    destruct (key e) as [k|]; cbn.
    + destruct (array_push heap arr (pick k e)) as [heap'| |]; cbn;
        [apply IH; lia | reflexivity | reflexivity].
    + apply IH. lia.
Qed.

Lemma live_entries_length (es : list TableEntry) :
  (length (live_entries es) <= length es)%nat.
Proof.
  induction es as [|e es IH]; [reflexivity|].
  unfold live_entries in *. cbn. destruct (key e); cbn; lia.
Qed.

(** Positions in [live_entries] come from slots, in increasing order. *)
Lemma live_entries_lookup (es : list TableEntry) :
  forall (i : nat) (k : ObjString) (e : TableEntry),
    live_entries es !! i = Some (k, e) ->
    exists p, holds es p k e
              /\ forall (j : nat) (k2 : ObjString) (e2 : TableEntry),
                   (i < j)%nat -> live_entries es !! j = Some (k2, e2) ->
                   exists q, (p < q)%nat /\ holds es q k2 e2.
Proof.
  induction es as [|x es IH]; intros i k e Hi; [discriminate Hi|].
  unfold live_entries in Hi. cbn in Hi. fold (live_entries es) in Hi.
  assert (Hshift : forall (j : nat) (k2 : ObjString) (e2 : TableEntry),
             live_entries es !! j = Some (k2, e2) ->
             exists q, holds (x :: es) (S q) k2 e2).
  { intros j k2 e2 Hj. destruct (IH j k2 e2 Hj) as (q & Hq & _).
    exists q. exact Hq. }
  destruct (key x) as [kx|] eqn:Hkx.
  - destruct i as [|i].
    + injection Hi as <- <-. exists 0%nat. split; [split; [reflexivity|exact Hkx]|].
      intros [|j] k2 e2 Hlt Hj; [lia|].
      unfold live_entries in Hj. cbn in Hj. rewrite Hkx in Hj. cbn in Hj.
      fold (live_entries es) in Hj.
      destruct (Hshift j k2 e2 Hj) as [q Hq]. exists (S q). split; [lia|exact Hq].
    + cbn in Hi. destruct (IH i k e Hi) as (p & Hp & Hafter).
      exists (S p). split; [exact Hp|].
      intros [|j] k2 e2 Hlt Hj; [lia|].
      unfold live_entries in Hj. cbn in Hj. rewrite Hkx in Hj. cbn in Hj.
      fold (live_entries es) in Hj.
      destruct (Hafter j k2 e2 ltac:(lia) Hj) as (q & Hq & Hh).
      exists (S q). split; [lia | exact Hh].
  - destruct (IH i k e Hi) as (p & Hp & Hafter).
    exists (S p). split; [exact Hp|].
    intros j k2 e2 Hlt Hj.
    unfold live_entries in Hj. cbn in Hj. rewrite Hkx in Hj.
    fold (live_entries es) in Hj.
    destruct (Hafter j k2 e2 Hlt Hj) as (q & Hq & Hh).
    exists (S q). split; [lia | exact Hh].
Qed.

Lemma holds_live_entries (es : list TableEntry) :
  forall (p : nat) (k : ObjString) (e : TableEntry),
    holds es p k e -> exists i, live_entries es !! i = Some (k, e).
Proof.
  induction es as [|x es IH]; intros p k e [Hp Hk]; [discriminate Hp|].
  unfold live_entries. cbn. fold (live_entries es).
  destruct p as [|p].
  - injection Hp as ->. rewrite Hk. exists 0%nat. reflexivity.
  - destruct (IH p k e (conj Hp Hk)) as [i Hi].
    destruct (key x); [exists (S i) | exists i]; exact Hi.
Qed.

Lemma held_key_agrees (t : ObjTable) (p : nat) (k : ObjString)
    (e : TableEntry) :
  table_wf t -> holds (entries t) p k e -> agrees t k.
Proof.
  intros Hwf Hp j k' e' Hj Ha.
  assert (j = p) as -> by exact (wf_uniq _ Hwf j p k' k e' e Hj Hp Ha).
  destruct Hj as [Hj Hk'], Hp as [Hp Hk]. rewrite Hp in Hj.
  injection Hj as <-. rewrite Hk in Hk'. injection Hk' as <-. reflexivity.
Qed.

(** X7.  Keys and values of a table.  On a well-formed table of capacity
    at most 2^30, [table_keys] and then [table_values] return two fresh
    arrays, allocated one after the other, that list the keys and the
    values of the same entries in the same order: [table_get] maps the
    key at each position to the value at that position, every key bound
    in the table occurs in the list, no string object occurs twice, and
    the objects that existed before are untouched. *)
Theorem table_keys_values (heap : list Obj) (t : ObjTable) :
  table_wf t -> capacity t <= 2 ^ 30 ->
  exists (kvs : list (ObjString * TableEntry)) (heap1 heap2 : list Obj)
         (ck cv : Z),
    table_keys heap t = Ok (length heap, heap1)
    /\ table_values heap1 t = Ok (S (length heap), heap2)
    /\ heap2 !! length heap
       = Some (ObjArray ((fun x => OBJ_VAL (StrRef (fst x))) <$> kvs) ck)
    /\ heap2 !! S (length heap)
       = Some (ObjArray ((fun x => value (snd x)) <$> kvs) cv)
    /\ (forall (i : nat) (k : ObjString) (e : TableEntry),
          kvs !! i = Some (k, e) -> table_get t k = Ok (Some (value e)))
    /\ (forall (k : ObjString) (e : TableEntry),
          bound t k e ->
          exists (i : nat) (k' : ObjString),
            kvs !! i = Some (k', e) /\ s_addr k' = s_addr k)
    /\ (forall (i j : nat) (k1 k2 : ObjString) (e1 e2 : TableEntry),
          kvs !! i = Some (k1, e1) -> kvs !! j = Some (k2, e2) ->
          s_addr k1 = s_addr k2 -> i = j)
    /\ (forall b : nat, (b < length heap)%nat -> heap2 !! b = heap !! b).
Proof.
  intros Hwf Hcap.
  pose proof (lo_len _ (wf_load _ Hwf)) as Hlen.
  set (kvs := live_entries (entries t)).
  assert (Hkvs : Z.of_nat (length kvs) <= 2 ^ 30).
  { pose proof (live_entries_length (entries t)). unfold kvs.
    pose proof (lo_cap _ (wf_load _ Hwf)). lia. }
  set (n := length heap).
  (* the keys *)
  destruct (array_push_all_spec ((fun x => OBJ_VAL (StrRef (fst x))) <$> kvs)
              (heap ++ [ObjArray [] 0]) n [] 0) as (ck & Hks).
  { apply list_lookup_middle. reflexivity. }
  { rewrite length_fmap. cbn. lia. }
  set (heap1 := <[n := ObjArray ([] ++ ((fun x => OBJ_VAL (StrRef (fst x))) <$> kvs)) ck]>
                  (heap ++ [ObjArray [] 0])) in *.
  assert (Hn1 : length heap1 = S n).
  { unfold heap1. rewrite length_insert, length_app. cbn. unfold n. lia. }
  (* the values *)
  destruct (array_push_all_spec ((fun x => value (snd x)) <$> kvs)
              (heap1 ++ [ObjArray [] 0]) (S n) [] 0) as (cv & Hvs).
  { apply list_lookup_middle. symmetry. exact Hn1. }
  { rewrite length_fmap. cbn. lia. }
  set (heap2 := <[S n := ObjArray ([] ++ ((fun x => value (snd x)) <$> kvs)) cv]>
                  (heap1 ++ [ObjArray [] 0])) in *.
  exists kvs, heap1, heap2, ck, cv.
  split; [|split; [|split; [|split; [|split; [|split; [|split]]]]]].
  - unfold table_keys, array_create, allocate_object. fold n.
    rewrite (table_collect_spec _ n (entries t) _ 0%nat) by lia.
    rewrite drop_0. fold kvs.
    change (fun x : ObjString * TableEntry => OBJ_VAL (StrRef x.1))
      with (fun x : ObjString * TableEntry => OBJ_VAL (StrRef (fst x))).
    rewrite Hks. reflexivity.
  - unfold table_values, array_create, allocate_object. rewrite Hn1.
    rewrite (table_collect_spec _ (S n) (entries t) _ 0%nat) by lia.
    rewrite drop_0. fold kvs.
    change (fun x : ObjString * TableEntry => value x.2)
      with (fun x : ObjString * TableEntry => value (snd x)).
    rewrite Hvs. reflexivity.
  - unfold heap2. rewrite list_lookup_insert_ne by lia.
    rewrite lookup_app_l by lia. unfold heap1.
    apply list_lookup_insert_eq. rewrite length_app. cbn. unfold n. lia.
  - unfold heap2. apply list_lookup_insert_eq. rewrite length_app. cbn. lia.
  - intros i k e Hi.
    destruct (live_entries_lookup (entries t) i k e Hi) as (p & Hp & _).
    apply table_get_bound; [exact Hwf | eapply held_key_agrees; eassumption|].
    exists p, k. split; [exact Hp | reflexivity].
  - intros k e (p & k' & Hp & Ha).
    destruct (holds_live_entries (entries t) p k' e Hp) as [i Hi].
    exists i, k'. split; assumption.
  - intros i j k1 k2 e1 e2 Hi Hj Ha.
    destruct (live_entries_lookup (entries t) i k1 e1 Hi) as (p & Hp & Hafter).
    destruct (live_entries_lookup (entries t) j k2 e2 Hj) as (q & Hq & Hafter').
    destruct (lt_eq_lt_dec i j) as [[Hlt|Heq]|Hgt]; [|exact Heq|].
    + destruct (Hafter j k2 e2 Hlt Hj) as (q' & Hpq & Hq').
      pose proof (wf_uniq _ Hwf p q' k1 k2 e1 e2 Hp Hq' Ha). lia.
    + destruct (Hafter' i k1 e1 Hgt Hi) as (p' & Hqp & Hp').
      pose proof (wf_uniq _ Hwf q p' k2 k1 e2 e1 Hq Hp' (eq_sym Ha)). lia.
  - intros b Hb. unfold heap2. rewrite list_lookup_insert_ne by lia.
    rewrite lookup_app_l by lia. unfold heap1.
    rewrite list_lookup_insert_ne by (unfold n; lia).
    apply lookup_app_l. exact Hb.
Qed.

Lemma table_keys_values_witness :
  exists (heap1 : list Obj) (ck : Z),
    table_keys [] demo_table = Ok (0%nat, heap1)
    /\ heap1 !! 0%nat = Some (ObjArray [OBJ_VAL (StrRef (sample_key 0 5))] ck).
Proof.
  destruct (table_keys_values [] demo_table (proj1 demo_table_wf))
    as (kvs & heap1 & heap2 & ck & cv & Hk & _).
  { vm_compute. discriminate. }
  exists heap1, 8. split; [exact Hk|].
  vm_compute in Hk. injection Hk as <-. reflexivity.
Defined.
End Tables.


(* ===================================================================== *)
(** * Reference counting: obj_incref, obj_decref, free_object (value.c) *)
(* ===================================================================== *)

(** The table operations and [string_create] of value.c once more, with
    the reference counts they keep written out.  The definitions of
    [Value] are these operations without the counts (the lemmas
    [table_set_erase], [table_delete_erase], [table_get_erase] and
    [string_create_erase]). *)
Module Memory.
Import Value Env Object Tables.

(** ** Reference counts *)

(** The [ref_count] of every object by its address, the strings and the
    objects of the heap apart.  [allocate_object] starts it at 1,
    [obj_decref] frees the object when it is no longer positive; so a
    count that is not positive stands for an object that has been freed,
    whose memory must not be touched. *)
Record Counts : Type := mkCounts {
  of_strings : nat -> Z;
  of_objects : nat -> Z
}.

(** No object yet. *)
Definition no_counts : Counts :=
  {| of_strings := fun _ => 0; of_objects := fun _ => 0 |}.

Definition ref_count (m : Counts) (o : ObjRef) : Z :=
  match o with
  | StrRef s => of_strings m (s_addr s)
  | HeapRef a => of_objects m a
  end.

Definition set_ref_count (m : Counts) (o : ObjRef) (n : Z) : Counts :=
  match o with
  | StrRef s =>
      {| of_strings := fun a => if Nat.eqb a (s_addr s) then n
                                else of_strings m a;
         of_objects := of_objects m |}
  | HeapRef b =>
      {| of_strings := of_strings m;
         of_objects := fun a => if Nat.eqb a b then n else of_objects m a |}
  end.

Definition live (m : Counts) (o : ObjRef) : bool := 0 <? ref_count m o.

(** [obj_incref]: [obj->ref_count++], on an object that is there. *)
Definition obj_incref (m : Counts) (o : ObjRef) : res Counts :=
  if live m o then
    if INT_MAX <=? ref_count m o then Fault
    else Ok (set_ref_count m o (ref_count m o + 1))
  else Fault.

(** The loops of [free_object] over the elements of an array and over the
    slots of a table, [decref] being [obj_decref]. *)
Fixpoint release_values (decref : Counts -> ObjRef -> res Counts)
    (m : Counts) (elements : list Value) : res Counts :=
  match elements with
  | [] => Ok m
  | OBJ_VAL o :: rest => m ← decref m o; release_values decref m rest
  | _ :: rest => release_values decref m rest
  end.

Fixpoint release_entries (decref : Counts -> ObjRef -> res Counts)
    (m : Counts) (es : list TableEntry) : res Counts :=
  match es with
  | [] => Ok m
  | entry :: rest =>
      match key entry with
      | Some k =>
          m ← decref m (StrRef k);
          m ← (match value entry with
               | OBJ_VAL o => decref m o
               | _ => Ok m
               end);
          release_entries decref m rest
      | None => release_entries decref m rest
      end
  end.

(** [free_object]: an array releases its elements and a table its keys
    and values before the memory of the object goes. *)
Definition free_object (decref : Counts -> ObjRef -> res Counts)
    (heap : list Obj) (m : Counts) (o : ObjRef) : res Counts :=
  match o with
  | StrRef _ => Ok m
  | HeapRef a =>
      match heap !! a with
      | Some (ObjArray elements _) => release_values decref m elements
      | Some (ObjTableO table) => release_entries decref m (entries table)
      | Some _ => Ok m
      | None => Fault
      end
  end.

(** [obj_decref]: [obj->ref_count--], and [free_object] when the count is
    no longer positive.  [fuel] bounds the depth of the recursion through
    [free_object]. *)
Fixpoint obj_decref (fuel : nat) (heap : list Obj) (m : Counts) (o : ObjRef)
  : res Counts :=
  match fuel with
  | O => Hang
  | S fuel =>
      if live m o then
        let m := set_ref_count m o (ref_count m o - 1) in
        if ref_count m o <=? 0 then free_object (obj_decref fuel heap) heap m o
        else Ok m
      else Fault
  end.

(** Every level of the recursion frees another object of the heap, and
    the last one may release a string: the depth is at most the number of
    objects plus one. *)
Definition release (heap : list Obj) (m : Counts) (o : ObjRef) : res Counts :=
  obj_decref (S (length heap)) heap m o.

(** ** The table operations with their reference counting *)

(** The keys of the old storage that [grow_table] files again: it reads
    the hash of each. *)
Definition keys_live (m : Counts) (es : list TableEntry) : bool :=
  forallb (fun entry => match key entry with
                        | Some k => live m (StrRef k)
                        | None => true
                        end) es.

(** [table_get]; [find_entry] reads [key->hash]. *)
Definition table_get (m : Counts) (table : ObjTable) (key0 : ObjString)
  : res (option Value) :=
  if count table =? 0 then Ok None
  else if live m (StrRef key0) then Value.table_get table key0
  else Fault.

(** [table_set] *)
Definition table_set (heap : list Obj) (m : Counts) (table : ObjTable)
    (key0 : ObjString) (value0 : Value) (is_const0 : bool)
  : res (ObjTable * bool * Counts) :=
  table1 ←
    (if 3 * capacity table <? 4 * (count table + 1) then
       capacity' ←
         (if capacity table <? 8 then Ok 8
          else if INT_MAX <? capacity table * 2 then Fault
          else Ok (capacity table * 2));
       if keys_live m (entries table) then grow_table table capacity'
       else Fault
     else Ok table);
  if live m (StrRef key0) then
    e ← find_entry (entries table1) (capacity table1) key0;
    match e with
    | None => Fault
    | Some i =>
        match entries table1 !! i with
        | None => Fault
        | Some entry =>
            let is_new :=
              match key entry with None => true | Some _ => false end in
            '(count', m) ←
              (if is_new && IS_NIL (value entry) then
                 m ← obj_incref m (StrRef key0); Ok (count table1 + 1, m)
               else Ok (count table1, m));
            (* Decref old value *)
            m ← (match value entry with
                 | OBJ_VAL old => if is_new then Ok m else release heap m old
                 | _ => Ok m
                 end);
            (* Incref new value *)
            m ← (match value0 with
                 | OBJ_VAL new => obj_incref m new
                 | _ => Ok m
                 end);
            Ok ({| entries :=
                     <[i := {| key := Some key0; value := value0;
                               is_const := is_const0 |}]> (entries table1);
                   count := count';
                   capacity := capacity table1 |},
                is_new, m)
        end
    end
  else Fault.

(** [table_delete] *)
Definition table_delete (heap : list Obj) (m : Counts) (table : ObjTable)
    (key0 : ObjString) : res (ObjTable * bool * Counts) :=
  if count table =? 0 then Ok (table, false, m)
  else if live m (StrRef key0) then
    e ← find_entry (entries table) (capacity table) key0;
    match e with
    | None => Fault
    | Some i =>
        match entries table !! i with
        | None => Fault
        | Some entry =>
            match key entry with
            | None => Ok (table, false, m)
            | Some k =>
                (* Decref key and value *)
                m ← release heap m (StrRef k);
                m ← (match value entry with
                     | OBJ_VAL o => release heap m o
                     | _ => Ok m
                     end);
                (* Place tombstone *)
                Ok ({| entries :=
                         <[i := {| key := None; value := BOOL_VAL true;
                                   is_const := is_const entry |}]>
                           (entries table);
                       count := count table;
                       capacity := capacity table |},
                    true, m)
            end
        end
    end
  else Fault.

(** The search of [string_create] through the interning table, which
    reads the fields of every key it passes. *)
Fixpoint intern_lookup (m : Counts) (entries : list TableEntry)
    (length0 hash0 : Z) (chars : string) : res (option ObjString) :=
  match entries with
  | [] => Ok None
  | entry :: rest =>
      match key entry with
      | Some k =>
          if live m (StrRef k) then
            if same_bytes k length0 hash0 chars then Ok (Some k)
            else intern_lookup m rest length0 hash0 chars
          else Fault
      | None => intern_lookup m rest length0 hash0 chars
      end
  end.

(** [string_create]: a string that is found gets one more reference; a
    new one starts with the reference of [allocate_object], gets the one
    the table holds, and [table_set] adds its own. *)
Definition string_create (heap : list Obj) (m : Counts) (pool : StringPool)
    (chars : string) : res (ObjString * StringPool * Counts) :=
  let length0 := str_len chars in
  let hash0 := string_hash chars in
  found ←
    (match string_table pool with
     | Some t => intern_lookup m (entries t) length0 hash0 chars
     | None => Ok None
     end);
  match found with
  | Some k => m ← obj_incref m (StrRef k); Ok (k, pool, m)
  | None =>
      let str := {| s_addr := next_addr pool; s_length := length0;
                    s_hash := hash0; s_chars := chars |} in
      let m := set_ref_count m (StrRef str) 1 in
      let t := match string_table pool with
               | Some t => t
               | None => table_create
               end in
      m ← obj_incref m (StrRef str);      (* Table holds a reference *)
      '(t', _, m) ← table_set heap m t str NIL_VAL false;
      Ok (str, {| string_table := Some t'; next_addr := S (next_addr pool) |},
          m)
  end.

(** ** Sequences of [table_set] and [table_delete] *)

Inductive TableOp : Type :=
  | OpSet (k : ObjString) (v : Value) (c : bool)
  | OpDelete (k : ObjString).

Definition apply_op (heap : list Obj) (m : Counts) (t : ObjTable)
    (op : TableOp) : res (ObjTable * Counts) :=
  match op with
  | OpSet k v c => '(t', _, m') ← table_set heap m t k v c; Ok (t', m')
  | OpDelete k => '(t', _, m') ← table_delete heap m t k; Ok (t', m')
  end.

Fixpoint run_ops (heap : list Obj) (m : Counts) (t : ObjTable)
    (ops : list TableOp) : res (ObjTable * Counts) :=
  match ops with
  | [] => Ok (t, m)
  | op :: ops' => '(t', m') ← apply_op heap m t op; run_ops heap m' t' ops'
  end.

(** ** Without the counts *)

(** Case analysis of the calls that returned, down to their results. *)
Ltac crack_step :=
  match goal with
  | H : Ok _ = Ok _ |- _ => injection H as ?; subst
  | H : Hang = Ok _ |- _ => discriminate H
  | H : Fault = Ok _ |- _ => discriminate H
  | H : (_, _) = (_, _) |- _ => injection H as ?; subst
  | H : mbind _ ?x = Ok _ |- _ =>
      destruct x eqn:?; cbn [mbind res_mbind res_bind] in H
  | H : (match ?x with _ => _ end) = Ok _ |- _ => destruct x eqn:?
  | H : (if ?x then _ else _) = Ok _ |- _ => destruct x eqn:?
  end.

Ltac crack := repeat crack_step.

(** The same case analysis, of the goal. *)
Ltac replay :=
  repeat (cbn [mbind res_mbind res_bind andb];
          match goal with
          | E : ?x = _ |- context [?x] => rewrite E
          end);
  cbn [mbind res_mbind res_bind andb].

(** The operations above do to the table what the operations of [Value]
    do, whenever they return. *)
Lemma table_set_erase (heap : list Obj) (m : Counts) (t : ObjTable)
    (k : ObjString) (v : Value) (c : bool) (t' : ObjTable) (b : bool)
    (m' : Counts) :
  table_set heap m t k v c = Ok (t', b, m') ->
  Value.table_set t k v c = Ok (t', b).
Proof.
  unfold table_set, Value.table_set. intros H.
  crack; replay; first [reflexivity | cbn in *; congruence].
Qed.

Lemma table_delete_erase (heap : list Obj) (m : Counts) (t : ObjTable)
    (k : ObjString) (t' : ObjTable) (b : bool) (m' : Counts) :
  table_delete heap m t k = Ok (t', b, m') ->
  table_delete_entries t k = Ok (t', b).
Proof.
  unfold table_delete, table_delete_entries. intros H.
  crack; replay; first [reflexivity | cbn in *; congruence].
Qed.

Lemma table_get_erase (m : Counts) (t : ObjTable) (k : ObjString)
    (r : option Value) :
  table_get m t k = Ok r -> Value.table_get t k = Ok r.
Proof.
  unfold table_get, Value.table_get. intros H.
  destruct (count t =? 0); [exact H|].
  destruct (live m (StrRef k)); [exact H | discriminate H].
Qed.

Lemma intern_lookup_erase (m : Counts) (es : list TableEntry)
    (length0 hash0 : Z) (chars : string) (r : option ObjString) :
  intern_lookup m es length0 hash0 chars = Ok r ->
  Value.intern_lookup es length0 hash0 chars = r.
Proof.
  induction es as [|entry es IH]; cbn [intern_lookup Value.intern_lookup];
    intros H; [injection H as <-; reflexivity|].
  destruct (key entry) as [k|]; [|exact (IH H)].
  destruct (live m (StrRef k)); [|discriminate H].
  destruct (same_bytes k length0 hash0 chars);
    [injection H as <-; reflexivity | exact (IH H)].
Qed.

(** [string_create] without the counts. *)
Lemma string_create_erase (heap : list Obj) (m : Counts) (pool : StringPool)
    (chars : string) (s : ObjString) (pool' : StringPool) (m' : Counts) :
  string_create heap m pool chars = Ok (s, pool', m') ->
  Value.string_create pool chars = Ok (s, pool').
Proof.
  unfold string_create, Value.string_create. intros H.
  destruct (string_table pool) as [t|].
  - destruct (intern_lookup m (entries t) (str_len chars) (string_hash chars)
                chars) as [found| |] eqn:E;
      cbn [mbind res_mbind res_bind] in H; try discriminate H.
    rewrite (intern_lookup_erase _ _ _ _ _ _ E).
    destruct found as [k|].
    + destruct (obj_incref m (StrRef k)) as [m1| |];
        cbn [mbind res_mbind res_bind] in H; try discriminate H.
      injection H as <- <- <-. reflexivity.
    + destruct (obj_incref _ _) as [m1| |];
        cbn [mbind res_mbind res_bind] in H; try discriminate H.
      destruct (table_set heap m1 t _ NIL_VAL false) as [[[t1 b] m2]| |] eqn:Es;
        cbn [mbind res_mbind res_bind] in H; try discriminate H.
      rewrite (table_set_erase _ _ _ _ _ _ _ _ _ Es).
      cbn [mbind res_mbind res_bind]. injection H as <- <- <-. reflexivity.
  - cbn [mbind res_mbind res_bind] in H.
    destruct (obj_incref _ _) as [m1| |];
      cbn [mbind res_mbind res_bind] in H; try discriminate H.
    destruct (table_set heap m1 table_create _ NIL_VAL false)
      as [[[t1 b] m2]| |] eqn:Es;
      cbn [mbind res_mbind res_bind] in H; try discriminate H.
    rewrite (table_set_erase _ _ _ _ _ _ _ _ _ Es).
    cbn [mbind res_mbind res_bind]. injection H as <- <- <-. reflexivity.
Qed.

(** ** The recursion of [obj_decref] ends *)

(** Counts only go down in [obj_decref]. *)
Definition below (m' m : Counts) : Prop :=
  (forall a, of_strings m' a <= of_strings m a)
  /\ (forall a, of_objects m' a <= of_objects m a).

Lemma below_refl (m : Counts) : below m m.
Proof. split; intros a; lia. Qed.

Lemma below_trans (a b c : Counts) : below a b -> below b c -> below a c.
Proof.
  intros [H1 H2] [H3 H4].
  split; intros x; [specialize (H1 x); specialize (H3 x)
                   | specialize (H2 x); specialize (H4 x)]; lia.
Qed.

Lemma below_set (m : Counts) (o : ObjRef) (n : Z) :
  n <= ref_count m o -> below (set_ref_count m o n) m.
Proof.
  intros H. destruct o as [s|b]; cbn [set_ref_count ref_count] in *;
    split; intros a; cbn; try lia.
  - destruct (Nat.eqb_spec a (s_addr s)) as [->|]; lia.
  - destruct (Nat.eqb_spec a b) as [->|]; lia.
Qed.

Section sinking.
Variable decref : Counts -> ObjRef -> res Counts.
Hypothesis decref_below : forall m o m', decref m o = Ok m' -> below m' m.

Lemma release_values_below (elements : list Value) :
  forall m m', release_values decref m elements = Ok m' -> below m' m.
Proof.
  induction elements as [|v rest IH]; intros m m' H; cbn [release_values] in H.
  - injection H as <-. apply below_refl.
  - destruct v as [| | | |o]; try (apply IH, H).
    destruct (decref m o) as [m1| |] eqn:E; cbn [mbind res_mbind res_bind] in H;
      try discriminate H.
    eapply below_trans; [apply IH, H | eapply decref_below, E].
Qed.

Lemma release_entries_below (es : list TableEntry) :
  forall m m', release_entries decref m es = Ok m' -> below m' m.
Proof.
  induction es as [|e rest IH]; intros m m' H; cbn [release_entries] in H.
  - injection H as <-. apply below_refl.
  - destruct (key e) as [k|]; [|apply IH, H].
    destruct (decref m (StrRef k)) as [m1| |] eqn:E1;
      cbn [mbind res_mbind res_bind] in H; try discriminate H.
    apply decref_below in E1.
    destruct (value e) as [| | | |o];
      cbn [mbind res_mbind res_bind] in H;
      try (eapply below_trans; [apply IH, H | exact E1]).
    destruct (decref m1 o) as [m2| |] eqn:E2;
      cbn [mbind res_mbind res_bind] in H; try discriminate H.
    apply decref_below in E2.
    eapply below_trans; [apply IH, H|]. eapply below_trans; eassumption.
Qed.

Lemma free_object_below (heap : list Obj) (m : Counts) (o : ObjRef)
    (m' : Counts) :
  free_object decref heap m o = Ok m' -> below m' m.
Proof.
  unfold free_object. destruct o as [s|a]; [intros [= <-]; apply below_refl|].
  destruct (heap !! a) as [[]|]; try discriminate;
    try (intros [= <-]; apply below_refl).
  - apply release_values_below.
  - apply release_entries_below.
Qed.
End sinking.

Lemma obj_decref_below (fuel : nat) (heap : list Obj) :
  forall m o m', obj_decref fuel heap m o = Ok m' -> below m' m.
Proof.
  induction fuel as [|fuel IH]; intros m o m' H; cbn [obj_decref] in H;
    [discriminate H|].
  destruct (live m o) eqn:El; [|discriminate H].
  assert (Hset : below (set_ref_count m o (ref_count m o - 1)) m)
    by (apply below_set; lia).
  destruct (_ <=? 0).
  - eapply below_trans; [|exact Hset].
    eapply free_object_below; [|exact H]. exact IH.
  - injection H as <-. exact Hset.
Qed.

(** The objects of the heap that have not been freed. *)
Definition alive (heap : list Obj) (m : Counts) : nat :=
  length (List.filter (fun a => 0 <? of_objects m a) (seq 0 (length heap))).

Lemma filter_le (f g : nat -> bool) (l : list nat) :
  (forall a, f a = true -> g a = true) ->
  (length (List.filter f l) <= length (List.filter g l))%nat.
Proof.
  intros H. induction l as [|x l IH]; cbn [List.filter]; [lia|].
  destruct (f x) eqn:Ef; [rewrite (H x Ef); cbn; lia|].
  destruct (g x); cbn; lia.
Qed.

Lemma filter_lt (f g : nat -> bool) (l : list nat) (x : nat) :
  (forall a, f a = true -> g a = true) ->
  In x l -> f x = false -> g x = true ->
  (length (List.filter f l) < length (List.filter g l))%nat.
Proof.
  intros H Hin Hf Hg. induction l as [|y l IH]; [destruct Hin|].
  cbn [List.filter]. destruct Hin as [->|Hin].
  - rewrite Hf, Hg. cbn. pose proof (filter_le f g l H). lia.
  - specialize (IH Hin). destruct (f y) eqn:Ef; [rewrite (H y Ef); cbn; lia|].
    destruct (g y); cbn; lia.
Qed.

Lemma filter_length_le (f : nat -> bool) (l : list nat) :
  (length (List.filter f l) <= length l)%nat.
Proof.
  induction l as [|x l IH]; cbn [List.filter]; [lia|].
  destruct (f x); cbn; lia.
Qed.

Lemma alive_below (heap : list Obj) (m' m : Counts) :
  below m' m -> (alive heap m' <= alive heap m)%nat.
Proof.
  intros [_ H]. apply filter_le. intros a Ha.
  apply Z.ltb_lt in Ha. apply Z.ltb_lt. specialize (H a). lia.
Qed.

(** Freeing an object of the heap leaves one object less. *)
Lemma alive_freed (heap : list Obj) (m : Counts) (a : nat) (x : Obj) :
  heap !! a = Some x -> 0 < of_objects m a ->
  (alive heap (set_ref_count m (HeapRef a) 0) < alive heap m)%nat.
Proof.
  intros Ha Hl. apply (filter_lt _ _ _ a).
  - intros b. cbn. destruct (Nat.eqb_spec b a) as [->|]; [discriminate|auto].
  - apply in_seq. apply lookup_lt_Some in Ha. lia.
  - cbn. rewrite Nat.eqb_refl. reflexivity.
  - apply Z.ltb_lt, Hl.
Qed.

Section ending.
Variable heap : list Obj.
Variable fuel : nat.
Variable decref : Counts -> ObjRef -> res Counts.
Hypothesis decref_below : forall m o m', decref m o = Ok m' -> below m' m.
Hypothesis decref_ends :
  forall m o, (alive heap m < fuel)%nat -> decref m o <> Hang.

Lemma release_values_ends (elements : list Value) :
  forall m, (alive heap m < fuel)%nat ->
            release_values decref m elements <> Hang.
Proof.
  induction elements as [|v rest IH]; intros m Hm; cbn [release_values];
    [discriminate|].
  destruct v as [| | | |o]; try (apply IH, Hm).
  destruct (decref m o) as [m1| |] eqn:E; cbn [mbind res_mbind res_bind];
    [|exact (fun _ => decref_ends m o Hm E) | discriminate].
  apply IH. pose proof (alive_below heap _ _ (decref_below _ _ _ E)). lia.
Qed.

Lemma release_entries_ends (es : list TableEntry) :
  forall m, (alive heap m < fuel)%nat ->
            release_entries decref m es <> Hang.
Proof.
  induction es as [|e rest IH]; intros m Hm; cbn [release_entries];
    [discriminate|].
  destruct (key e) as [k|]; [|apply IH, Hm].
  destruct (decref m (StrRef k)) as [m1| |] eqn:E1;
    cbn [mbind res_mbind res_bind];
    [|exact (fun _ => decref_ends _ _ Hm E1) | discriminate].
  assert (Hm1 : (alive heap m1 < fuel)%nat)
    by (pose proof (alive_below heap _ _ (decref_below _ _ _ E1)); lia).
  destruct (value e) as [| | | |o]; cbn [mbind res_mbind res_bind];
    try (apply IH, Hm1).
  destruct (decref m1 o) as [m2| |] eqn:E2; cbn [mbind res_mbind res_bind];
    [|exact (fun _ => decref_ends _ _ Hm1 E2) | discriminate].
  apply IH. pose proof (alive_below heap _ _ (decref_below _ _ _ E2)). lia.
Qed.
End ending.

Lemma obj_decref_ends (heap : list Obj) (fuel : nat) :
  forall m o, (alive heap m < fuel)%nat -> obj_decref fuel heap m o <> Hang.
Proof.
  induction fuel as [|fuel IH]; intros m o Hm; [lia|]. cbn [obj_decref].
  destruct (live m o) eqn:El; [|discriminate].
  destruct (_ <=? 0) eqn:Ez; [|discriminate].
  unfold free_object. destruct o as [s|a]; [discriminate|].
  destruct (heap !! a) as [x|] eqn:Ha; [|discriminate].
  unfold live in El. cbn [ref_count] in El, Ez. apply Z.ltb_lt in El.
  cbn [set_ref_count of_objects] in Ez. rewrite Nat.eqb_refl in Ez.
  apply Z.leb_le in Ez.
  assert (Hz : of_objects m a - 1 = 0) by lia.
  cbn [ref_count]. rewrite Hz.
  pose proof (alive_freed heap m a x Ha El) as Hless.
  destruct x; try discriminate.
  - apply (release_values_ends heap fuel); [apply obj_decref_below | exact IH | lia].
  - apply (release_entries_ends heap fuel); [apply obj_decref_below | exact IH | lia].
Qed.

(** [release] never runs out of depth: it returns, or it touches an
    object that has been freed. *)
Lemma release_ends (heap : list Obj) (m : Counts) (o : ObjRef) :
  release heap m o <> Hang.
Proof.
  apply obj_decref_ends. unfold alive.
  pose proof (filter_length_le (fun a => 0 <? of_objects m a)
                (seq 0 (length heap))) as H.
  rewrite length_seq in H. lia.
Qed.

(** ** The load factor *)

Lemma grow_table_capacity (t : ObjTable) (cap' : Z) (t1 : ObjTable) :
  grow_table t cap' = Ok t1 -> capacity t1 = cap'.
Proof.
  unfold grow_table. intros H.
  destruct (rehash _ _ _ _) as [[es cnt]| |]; cbn in H; try discriminate H.
  injection H as <-. reflexivity.
Qed.

(** The capacity [table_set] leaves. *)
Definition capacity_after_set (t : ObjTable) : Z :=
  if 3 * capacity t <? 4 * (count t + 1) then
    if capacity t <? 8 then 8 else capacity t * 2
  else capacity t.

Lemma table_set_capacity (t : ObjTable) (k : ObjString) (v : Value) (c : bool)
    (t' : ObjTable) (b : bool) :
  Value.table_set t k v c = Ok (t', b) -> capacity t' = capacity_after_set t.
Proof.
  unfold Value.table_set, capacity_after_set. intros H.
  destruct (3 * capacity t <? 4 * (count t + 1)).
  - destruct (capacity t <? 8); cbn [mbind res_mbind res_bind] in H.
    + destruct (grow_table t 8) as [t1| |] eqn:Eg;
        cbn [mbind res_mbind res_bind] in H; try discriminate H.
      apply grow_table_capacity in Eg. crack. cbn. exact Eg.
    + destruct (INT_MAX <? capacity t * 2);
        cbn [mbind res_mbind res_bind] in H; [discriminate H|].
      destruct (grow_table t (capacity t * 2)) as [t1| |] eqn:Eg;
        cbn [mbind res_mbind res_bind] in H; try discriminate H.
      apply grow_table_capacity in Eg. crack. cbn. exact Eg.
  - cbn [mbind res_mbind res_bind] in H. crack. reflexivity.
Qed.

(** One call that returns, on a table within the load factor. *)
Lemma table_set_step (heap : list Obj) (m : Counts) (t : ObjTable)
    (k : ObjString) (v : Value) (c : bool) (t' : ObjTable) (b : bool)
    (m' : Counts) :
  load_ok t ->
  (3 * capacity t < 4 * (count t + 1) -> capacity t * 2 <= INT_MAX) ->
  table_set heap m t k v c = Ok (t', b, m') ->
  load_ok t' /\ count t' <= count t + 1
  /\ capacity t' = capacity_after_set t.
Proof.
  intros Hok Hovf H. apply table_set_erase in H.
  destruct (table_set_load_ok t k v c Hok Hovf)
    as (t1 & b1 & Hset & Hok1 & Hcnt & _).
  rewrite H in Hset. injection Hset as <- <-.
  split; [exact Hok1|]. split; [exact Hcnt|].
  exact (table_set_capacity _ _ _ _ _ _ H).
Qed.

Lemma table_delete_step (heap : list Obj) (m : Counts) (t : ObjTable)
    (k : ObjString) (t' : ObjTable) (b : bool) (m' : Counts) :
  load_ok t ->
  table_delete heap m t k = Ok (t', b, m') ->
  load_ok t' /\ count t' = count t /\ capacity t' = capacity t.
Proof.
  intros Hok H. apply table_delete_erase in H.
  destruct (table_delete_load_ok t k Hok) as (t1 & b1 & Hdel & Hrest).
  rewrite H in Hdel. injection Hdel as <- <-. exact Hrest.
Qed.

(** The bounds that keep the doubling of the capacity inside [int], as
    long as fewer than 2^28 calls are made. *)
Record sized (t : ObjTable) (n : Z) : Prop := {
  sz_load : load_ok t;
  sz_count : count t <= n;
  sz_capacity : 3 * capacity t <= Z.max 24 (8 * n)
}.

Lemma sized_create : sized table_create 0.
Proof. split; [apply load_ok_create | cbn; lia | cbn; lia]. Qed.

Lemma sized_overflow (t : ObjTable) (n : Z) :
  sized t n -> n < 2 ^ 28 ->
  3 * capacity t < 4 * (count t + 1) -> capacity t * 2 <= INT_MAX.
Proof. intros [_ Hc Hcap] Hn _. unfold INT_MAX. lia. Qed.

Lemma apply_op_sized (heap : list Obj) (m : Counts) (t : ObjTable)
    (op : TableOp) (n : Z) (t' : ObjTable) (m' : Counts) :
  sized t n -> n < 2 ^ 28 ->
  apply_op heap m t op = Ok (t', m') -> sized t' (n + 1).
Proof.
  intros Hs Hn H. pose proof (sized_overflow t n Hs Hn) as Hovf.
  destruct Hs as [Hok Hc Hcap]. destruct op as [k v c|k]; cbn [apply_op] in H.
  - destruct (table_set heap m t k v c) as [[[t1 b] m1]| |] eqn:E;
      cbn [mbind res_mbind res_bind] in H; try discriminate H.
    injection H as <- <-.
    destruct (table_set_step _ _ _ _ _ _ _ _ _ Hok Hovf E)
      as (Hok1 & Hc1 & Hcap1).
    split; [exact Hok1 | lia |]. rewrite Hcap1. unfold capacity_after_set.
    destruct (3 * capacity t <? 4 * (count t + 1)) eqn:Ef; [|lia].
    apply Z.ltb_lt in Ef. destruct (capacity t <? 8) eqn:E8; lia.
  - destruct (table_delete heap m t k) as [[[t1 b] m1]| |] eqn:E;
      cbn [mbind res_mbind res_bind] in H; try discriminate H.
    injection H as <- <-.
    destruct (table_delete_step _ _ _ _ _ _ _ Hok E) as (Hok1 & Hc1 & Hcap1).
    split; [exact Hok1 | lia | lia].
Qed.

Lemma run_ops_sized (heap : list Obj) (ops : list TableOp) :
  forall (m : Counts) (t : ObjTable) (n : Z) (t' : ObjTable) (m' : Counts),
    sized t n -> n + Z.of_nat (length ops) <= 2 ^ 28 ->
    run_ops heap m t ops = Ok (t', m') ->
    sized t' (n + Z.of_nat (length ops)).
Proof.
  induction ops as [|op ops IH]; intros m t n t' m' Hs Hn H;
    cbn [run_ops length] in *.
  - injection H as <- <-. rewrite Z.add_0_r. exact Hs.
  - destruct (apply_op heap m t op) as [[t1 m1]| |] eqn:E;
      cbn [mbind res_mbind res_bind] in H; try discriminate H.
    apply (apply_op_sized _ _ _ _ n) in E; [|exact Hs | lia].
    replace (n + Z.of_nat (S (length ops)))
      with (n + 1 + Z.of_nat (length ops)) by lia.
    apply (IH m1 t1 (n + 1) t' m' E); [lia | exact H].
Qed.

(** *** The calls end *)

Lemma obj_incref_ends (m : Counts) (o : ObjRef) : obj_incref m o <> Hang.
Proof.
  unfold obj_incref. destruct (live m o); [|discriminate].
  destruct (_ <=? _); discriminate.
Qed.

Lemma bind_ends {A B : Type} (x : res A) (f : A -> res B) :
  x <> Hang -> (forall a, x = Ok a -> f a <> Hang) -> mbind f x <> Hang.
Proof.
  intros Hx Hf. destruct x as [a| |]; cbn [mbind res_mbind res_bind];
    [apply Hf; reflexivity | congruence | discriminate].
Qed.

Ltac ends :=
  repeat first
    [ discriminate
    | apply obj_incref_ends
    | apply release_ends
    | apply bind_ends; [|intros ? _]
    | match goal with
      | |- (if ?x then _ else _) <> Hang => destruct x eqn:?
      | |- (match ?x with _ => _ end) <> Hang => destruct x eqn:?
      end ].

Lemma table_set_ends (heap : list Obj) (m : Counts) (t : ObjTable)
    (k : ObjString) (v : Value) (c : bool) :
  load_ok t ->
  (3 * capacity t < 4 * (count t + 1) -> capacity t * 2 <= INT_MAX) ->
  table_set heap m t k v c <> Hang.
Proof.
  intros Hok Hovf.
  destruct (table_set_load_ok t k v c Hok Hovf) as (t' & b & Hset & _).
  unfold Value.table_set in Hset. unfold table_set.
  destruct (3 * capacity t <? 4 * (count t + 1)) eqn:Efull.
  - destruct (capacity t <? 8) eqn:E8; cbn [mbind res_mbind res_bind] in *.
    + destruct (keys_live m (entries t)); [|discriminate].
      destruct (grow_table t 8) as [t1| |];
        cbn [mbind res_mbind res_bind] in *; try discriminate Hset.
      destruct (live m (StrRef k)); [|discriminate].
      destruct (find_entry (entries t1) (capacity t1) k) as [[i|]| |];
        cbn [mbind res_mbind res_bind] in *; try discriminate Hset.
      destruct (entries t1 !! i) as [entry|]; [|discriminate].
      ends.
    + destruct (INT_MAX <? capacity t * 2);
        cbn [mbind res_mbind res_bind] in *; [discriminate Hset|].
      destruct (keys_live m (entries t)); [|discriminate].
      destruct (grow_table t (capacity t * 2)) as [t1| |];
        cbn [mbind res_mbind res_bind] in *; try discriminate Hset.
      destruct (live m (StrRef k)); [|discriminate].
      destruct (find_entry (entries t1) (capacity t1) k) as [[i|]| |];
        cbn [mbind res_mbind res_bind] in *; try discriminate Hset.
      destruct (entries t1 !! i) as [entry|]; [|discriminate].
      ends.
  - cbn [mbind res_mbind res_bind] in *.
    destruct (live m (StrRef k)); [|discriminate].
    destruct (find_entry (entries t) (capacity t) k) as [[i|]| |];
      cbn [mbind res_mbind res_bind] in *; try discriminate Hset.
    destruct (entries t !! i) as [entry|]; [|discriminate].
    ends.
Qed.

Lemma table_delete_ends (heap : list Obj) (m : Counts) (t : ObjTable)
    (k : ObjString) :
  load_ok t -> table_delete heap m t k <> Hang.
Proof.
  intros Hok.
  destruct (table_delete_load_ok t k Hok) as (t' & b & Hdel & _).
  unfold table_delete_entries in Hdel. unfold table_delete.
  destruct (count t =? 0); [discriminate|].
  destruct (live m (StrRef k)); [|discriminate].
  destruct (find_entry (entries t) (capacity t) k) as [[i|]| |];
    cbn [mbind res_mbind res_bind] in *; try discriminate Hdel.
  destruct (entries t !! i) as [entry|]; [|discriminate].
  ends.
Qed.

Lemma run_ops_ends (heap : list Obj) (ops : list TableOp) :
  forall (m : Counts) (t : ObjTable) (n : Z),
    sized t n -> n + Z.of_nat (length ops) <= 2 ^ 28 ->
    run_ops heap m t ops <> Hang.
Proof.
  induction ops as [|op ops IH]; intros m t n Hs Hn; cbn [run_ops length] in *;
    [discriminate|].
  destruct (apply_op heap m t op) as [[t1 m1]| |] eqn:E;
    cbn [mbind res_mbind res_bind]; [| |discriminate].
  - apply (IH m1 t1 (n + 1)); [|lia].
    apply (apply_op_sized _ _ _ _ n _ _ Hs) in E; [exact E | lia].
  - exfalso. destruct op as [k v c|k]; cbn [apply_op] in E.
    + destruct (table_set heap m t k v c) as [[[t1 b] m1]| |] eqn:E1;
        cbn [mbind res_mbind res_bind] in E; try discriminate E.
      apply (table_set_ends heap m t k v c (sz_load _ _ Hs)); [|exact E1].
      apply (sized_overflow t n Hs). lia.
    + destruct (table_delete heap m t k) as [[[t1 b] m1]| |] eqn:E1;
        cbn [mbind res_mbind res_bind] in E; try discriminate E.
      exact (table_delete_ends heap m t k (sz_load _ _ Hs) E1).
Qed.

(** *** The calls return *)

(** A string with more than [r] references, whose count is more than
    [r] below the largest [int]: [r] calls can neither free it nor make
    its count overflow. *)
Definition safe (m : Counts) (r : Z) (a : nat) : Prop :=
  r < of_strings m a /\ of_strings m a + r < INT_MAX.

Definition entry_ok (m : Counts) (r : Z) (e : TableEntry) : Prop :=
  IS_OBJ (value e) = false
  /\ forall k, key e = Some k -> safe m r (s_addr k).

Definition key_of (op : TableOp) : ObjString :=
  match op with OpSet k _ _ => k | OpDelete k => k end.

(** A call whose value, if it has one, is no object. *)
Definition plain_op (op : TableOp) : bool :=
  match op with OpSet _ v _ => negb (IS_OBJ v) | OpDelete _ => true end.

Lemma ref_count_set (m : Counts) (o : ObjRef) (n : Z) :
  ref_count (set_ref_count m o n) o = n.
Proof. destruct o; cbn; rewrite Nat.eqb_refl; reflexivity. Qed.

Lemma safe_live (m : Counts) (r : Z) (k : ObjString) :
  0 <= r -> safe m r (s_addr k) -> live m (StrRef k) = true.
Proof. intros Hr [H _]. apply Z.ltb_lt. cbn. lia. Qed.

Lemma safe_set (m : Counts) (r : Z) (k : ObjString) (d : Z) (a : nat) :
  -1 <= d <= 1 -> safe m (r + 1) a ->
  safe (set_ref_count m (StrRef k) (of_strings m (s_addr k) + d)) r a.
Proof.
  intros Hd [H1 H2]. unfold safe. cbn.
  destruct (Nat.eqb_spec a (s_addr k)) as [->|]; lia.
Qed.

Lemma safe_less (m : Counts) (r : Z) (a : nat) :
  safe m (r + 1) a -> safe m r a.
Proof. intros [H1 H2]. unfold safe. lia. Qed.

Lemma entry_ok_next (m m' : Counts) (r : Z) (e : TableEntry) :
  (forall a, safe m (r + 1) a -> safe m' r a) ->
  entry_ok m (r + 1) e -> entry_ok m' r e.
Proof. intros H [Hv Hk]. split; [exact Hv | intros k E; apply H, Hk, E]. Qed.

Lemma entry_ok_empty (m : Counts) (r : Z) : entry_ok m r empty_entry.
Proof. split; [reflexivity | discriminate]. Qed.

Lemma keys_live_ok (m : Counts) (r : Z) (es : list TableEntry) :
  0 <= r -> Forall (entry_ok m r) es -> keys_live m es = true.
Proof.
  intros Hr H. unfold keys_live. induction H as [|e es [_ He] _ IH];
    [reflexivity|].
  cbn [forallb]. rewrite IH, andb_true_r.
  destruct (key e) as [k|]; [|reflexivity].
  apply (safe_live m r k Hr), He. reflexivity.
Qed.

Lemma rehash_Forall (P : TableEntry -> Prop) :
  (forall e k, P e -> key e = Some k ->
     P {| key := Some k; value := value e; is_const := is_const e |}) ->
  forall old es cap cnt es' cnt',
    Forall P old -> Forall P es ->
    rehash old es cap cnt = Ok (es', cnt') -> Forall P es'.
Proof.
  intros HP. induction old as [|e old IH]; intros es cap cnt es' cnt' Hold Hes H;
    cbn [rehash] in H.
  - injection H as <- _. exact Hes.
  - apply Forall_cons in Hold as [He Hold].
    destruct (key e) as [k|] eqn:Ek; [|exact (IH _ _ _ _ _ Hold Hes H)].
    destruct (find_entry es cap k) as [[d|]| |];
      cbn [mbind res_mbind res_bind] in H; try discriminate H.
    apply (IH _ _ _ _ _ Hold) in H; [exact H|].
    apply Forall_insert; [exact Hes | apply HP; assumption].
Qed.

Lemma grow_table_Forall (P : TableEntry -> Prop) (t : ObjTable) (cap' : Z)
    (t1 : ObjTable) :
  (forall e k, P e -> key e = Some k ->
     P {| key := Some k; value := value e; is_const := is_const e |}) ->
  P empty_entry -> Forall P (entries t) ->
  grow_table t cap' = Ok t1 -> Forall P (entries t1).
Proof.
  intros HP He Hes. unfold grow_table. intros H.
  destruct (rehash _ _ _ _) as [[es cnt]| |] eqn:E; cbn in H;
    try discriminate H.
  injection H as <-. cbn [entries].
  eapply (rehash_Forall P HP); [exact Hes | | exact E].
  apply Forall_replicate, He.
Qed.

Lemma entry_ok_copy (m : Counts) (r : Z) (e : TableEntry) (k : ObjString) :
  entry_ok m r e -> key e = Some k ->
  entry_ok m r {| key := Some k; value := value e; is_const := is_const e |}.
Proof.
  intros [Hv Hk] E. split; [exact Hv|]. cbn. intros k0 [= <-]. apply Hk, E.
Qed.

Lemma obj_incref_safe (m : Counts) (r : Z) (k : ObjString) :
  0 <= r -> safe m (r + 1) (s_addr k) ->
  obj_incref m (StrRef k)
  = Ok (set_ref_count m (StrRef k) (of_strings m (s_addr k) + 1)).
Proof.
  intros Hr Hs. unfold obj_incref.
  rewrite (safe_live m (r + 1) k) by (lia || exact Hs).
  destruct Hs as [H1 H2]. cbn [ref_count].
  destruct (Z.leb_spec INT_MAX (of_strings m (s_addr k))); [lia | reflexivity].
Qed.

Lemma release_safe (heap : list Obj) (m : Counts) (r : Z) (k : ObjString) :
  0 <= r -> safe m (r + 1) (s_addr k) ->
  release heap m (StrRef k)
  = Ok (set_ref_count m (StrRef k) (of_strings m (s_addr k) + -1)).
Proof.
  intros Hr Hs. unfold release. cbn [obj_decref].
  rewrite (safe_live m (r + 1) k) by (lia || exact Hs).
  cbn zeta. rewrite ref_count_set. cbn [ref_count].
  destruct Hs as [H1 H2].
  destruct (Z.leb_spec (of_strings m (s_addr k) - 1) 0); [lia | reflexivity].
Qed.

Lemma table_set_returns (heap : list Obj) (m : Counts) (t : ObjTable)
    (k : ObjString) (v : Value) (c : bool) (r : Z) :
  load_ok t ->
  (3 * capacity t < 4 * (count t + 1) -> capacity t * 2 <= INT_MAX) ->
  0 <= r -> Forall (entry_ok m (r + 1)) (entries t) ->
  safe m (r + 1) (s_addr k) -> IS_OBJ v = false ->
  exists t' b m',
    table_set heap m t k v c = Ok (t', b, m')
    /\ Forall (entry_ok m' r) (entries t')
    /\ (forall a, safe m (r + 1) a -> safe m' r a).
Proof.
  intros Hok Hovf Hr Hes Hk Hv.
  destruct (table_set_load_ok t k v c Hok Hovf) as (t' & b & Hset & _).
  unfold Value.table_set in Hset. unfold table_set.
  rewrite (keys_live_ok m (r + 1) (entries t)) by (lia || exact Hes).
  rewrite (safe_live m (r + 1) k) by (lia || exact Hk). cbv iota.
  (* the growth step *)
  set (reserve :=
         if 3 * capacity t <? 4 * (count t + 1)
         then capacity' ←
                (if capacity t <? 8 then Ok 8
                 else if INT_MAX <? capacity t * 2 then Fault
                      else Ok (capacity t * 2));
              grow_table t capacity'
         else Ok t) in *.
  destruct reserve as [t1| |] eqn:Eres; cbn [mbind res_mbind res_bind] in Hset;
    try discriminate Hset.
  assert (Hes1 : Forall (entry_ok m (r + 1)) (entries t1)).
  { unfold reserve in Eres.
    destruct (3 * capacity t <? 4 * (count t + 1));
      [|injection Eres as <-; exact Hes].
    destruct (capacity t <? 8); cbn [mbind res_mbind res_bind] in Eres.
    - eapply grow_table_Forall;
        [apply entry_ok_copy | apply entry_ok_empty | exact Hes | exact Eres].
    - destruct (INT_MAX <? capacity t * 2);
        cbn [mbind res_mbind res_bind] in Eres; [discriminate Eres|].
      eapply grow_table_Forall;
        [apply entry_ok_copy | apply entry_ok_empty | exact Hes | exact Eres]. }
  cbn [mbind res_mbind res_bind].
  destruct (find_entry (entries t1) (capacity t1) k) as [[i|]| |];
    cbn [mbind res_mbind res_bind] in *; try discriminate Hset.
  destruct (entries t1 !! i) as [entry|] eqn:Ei; [|discriminate Hset].
  injection Hset as <- <-.
  pose proof (Forall_lookup_1 _ _ _ _ Hes1 Ei) as [Hvalue Hkey].
  assert (Hold : match value entry with
                 | OBJ_VAL old =>
                     if match key entry with None => true | Some _ => false end
                     then Ok (A := Counts) m else release heap m old
                 | _ => Ok m
                 end = Ok m)
    by (destruct (value entry); try reflexivity; discriminate Hvalue).
  assert (Hnew : forall m0 : Counts,
             match v with
             | OBJ_VAL new => obj_incref m0 new
             | _ => Ok m0
             end = Ok m0)
    by (intros m0; destruct v; try reflexivity; discriminate Hv).
  destruct (match key entry with None => true | Some _ => false end
            && IS_NIL (value entry)) eqn:Enew.
  - rewrite (obj_incref_safe m r k Hr Hk). cbn [mbind res_mbind res_bind].
    set (m1 := set_ref_count m (StrRef k) (of_strings m (s_addr k) + 1)).
    assert (Hold1 : match value entry with
                    | OBJ_VAL old =>
                        if match key entry with None => true | Some _ => false end
                        then Ok (A := Counts) m1 else release heap m1 old
                    | _ => Ok m1
                    end = Ok m1)
      by (destruct (value entry); try reflexivity; discriminate Hvalue).
    rewrite Hold1. cbn [mbind res_mbind res_bind]. rewrite Hnew.
    cbn [mbind res_mbind res_bind].
    eexists _, _, _. split; [reflexivity|].
    assert (Hnext : forall a, safe m (r + 1) a -> safe m1 r a)
      by (intros a; apply safe_set; lia).
    split; [|exact Hnext]. cbn [entries].
    apply Forall_insert.
    + eapply Forall_impl; [exact Hes1|]. intros e. apply entry_ok_next, Hnext.
    + split; [exact Hv|]. cbn. intros k0 [= <-]. apply Hnext, Hk.
  - cbn [mbind res_mbind res_bind]. rewrite Hold.
    cbn [mbind res_mbind res_bind]. rewrite Hnew.
    cbn [mbind res_mbind res_bind].
    eexists _, _, _. split; [reflexivity|].
    split; [|intros a; apply safe_less]. cbn [entries].
    apply Forall_insert.
    + eapply Forall_impl; [exact Hes1|]. intros e.
      apply entry_ok_next. intros a. apply safe_less.
    + split; [exact Hv|]. cbn. intros k0 [= <-]. apply safe_less, Hk.
Qed.

Lemma table_delete_returns (heap : list Obj) (m : Counts) (t : ObjTable)
    (k : ObjString) (r : Z) :
  load_ok t -> 0 <= r -> Forall (entry_ok m (r + 1)) (entries t) ->
  safe m (r + 1) (s_addr k) ->
  exists t' b m',
    table_delete heap m t k = Ok (t', b, m')
    /\ Forall (entry_ok m' r) (entries t')
    /\ (forall a, safe m (r + 1) a -> safe m' r a).
Proof.
  intros Hok Hr Hes Hk.
  destruct (table_delete_load_ok t k Hok) as (t' & b & Hdel & _).
  unfold table_delete_entries in Hdel. unfold table_delete.
  assert (Hkeep : Forall (entry_ok m r) (entries t)).
  { eapply Forall_impl; [exact Hes|]. intros e.
    apply entry_ok_next. intros a. apply safe_less. }
  destruct (count t =? 0).
  { exists t, false, m. split; [reflexivity|]. split; [exact Hkeep|].
    intros a. apply safe_less. }
  rewrite (safe_live m (r + 1) k) by (lia || exact Hk).
  destruct (find_entry (entries t) (capacity t) k) as [[i|]| |];
    cbn [mbind res_mbind res_bind] in *; try discriminate Hdel.
  destruct (entries t !! i) as [entry|] eqn:Ei; [|discriminate Hdel].
  pose proof (Forall_lookup_1 _ _ _ _ Hes Ei) as [Hvalue Hkey].
  destruct (key entry) as [k'|] eqn:Ek.
  - rewrite (release_safe heap m r k' Hr (Hkey k' eq_refl)).
    cbn [mbind res_mbind res_bind].
    set (m1 := set_ref_count m (StrRef k') (of_strings m (s_addr k') + -1)).
    assert (Hold : match value entry with
                   | OBJ_VAL o => release heap m1 o
                   | _ => Ok m1
                   end = Ok m1)
      by (destruct (value entry); try reflexivity; discriminate Hvalue).
    rewrite Hold. cbn [mbind res_mbind res_bind].
    eexists _, _, _. split; [reflexivity|].
    assert (Hnext : forall a, safe m (r + 1) a -> safe m1 r a)
      by (intros a; apply safe_set; lia).
    split; [|exact Hnext]. cbn [entries].
    apply Forall_insert.
    + eapply Forall_impl; [exact Hes|]. intros e. apply entry_ok_next, Hnext.
    + split; [reflexivity | discriminate].
  - exists t, false, m. split; [reflexivity|]. split; [exact Hkeep|].
    intros a. apply safe_less.
Qed.

Lemma run_ops_returns (heap : list Obj) (ops : list TableOp) :
  forall (m : Counts) (t : ObjTable) (n : Z),
    sized t n -> n + Z.of_nat (length ops) <= 2 ^ 28 ->
    Forall (entry_ok m (Z.of_nat (length ops))) (entries t) ->
    Forall (fun op => plain_op op = true
                      /\ safe m (Z.of_nat (length ops)) (s_addr (key_of op)))
      ops ->
    exists t' m', run_ops heap m t ops = Ok (t', m').
Proof.
  induction ops as [|op ops IH]; intros m t n Hs Hn Hes Hops;
    cbn [run_ops length] in *; [eexists _, _; reflexivity|].
  rewrite Nat2Z.inj_succ in *. unfold Z.succ in *.
  apply Forall_cons in Hops as [[Hplain Hsafe] Hops].
  assert (Hstep : exists t1 m1,
            apply_op heap m t op = Ok (t1, m1)
            /\ Forall (entry_ok m1 (Z.of_nat (length ops))) (entries t1)
            /\ (forall a, safe m (Z.of_nat (length ops) + 1) a ->
                          safe m1 (Z.of_nat (length ops)) a)).
  { destruct op as [k v c|k]; cbn [apply_op key_of plain_op] in *.
    - destruct (table_set_returns heap m t k v c (Z.of_nat (length ops))
                  (sz_load _ _ Hs))
        as (t1 & b & m1 & E & H1 & H2); try assumption; try lia.
      + apply (sized_overflow t n Hs). lia.
      + apply negb_true_iff, Hplain.
      + rewrite E. exists t1, m1. auto.
    - destruct (table_delete_returns heap m t k (Z.of_nat (length ops))
                  (sz_load _ _ Hs))
        as (t1 & b & m1 & E & H1 & H2); try assumption; try lia.
      rewrite E. exists t1, m1. auto. }
  destruct Hstep as (t1 & m1 & E & Hes1 & Hnext). rewrite E.
  cbn [mbind res_mbind res_bind].
  apply (IH m1 t1 (n + 1)).
  - apply (apply_op_sized _ _ _ _ n _ _ Hs) in E; [exact E | lia].
  - lia.
  - exact Hes1.
  - eapply Forall_impl; [exact Hops|]. intros op' [Hp Hsf].
    split; [exact Hp | apply Hnext, Hsf].
Qed.

Lemma safe_mono (m : Counts) (r r' : Z) (a : nat) :
  r' <= r -> safe m r a -> safe m r' a.
Proof. intros Hr [H1 H2]. unfold safe. lia. Qed.

(** X30. The load factor over calls of [table_set] and [table_delete],
    reference counts included.  From an empty table and any counts, a
    run of fewer than 2^28 calls does not hang: it returns, or it
    touches freed memory.  When it returns the table satisfies
    [count <= 0.75 * capacity]; from that table a [table_set] that
    returns leaves the capacity it found, unless [count + 1] exceeded
    three quarters of it, in which case it leaves 8 or twice the
    capacity, adds at most one to [count], and keeps the bound; a
    [table_delete] that returns changes neither [count] nor [capacity].
    The run returns whenever no call stores an object and every key has
    more references than the run has calls, its count being further
    than that from the largest [int]. *)
Theorem load_factor_kept (heap : list Obj) (m : Counts) (ops : list TableOp)
    (n : nat) :
  Z.of_nat (length ops) < 2 ^ 28 ->
  let run := run_ops heap m table_create (take n ops) in
  run <> Hang
  /\ (forall t m',
        run = Ok (t, m') ->
        4 * count t <= 3 * capacity t
        /\ (forall k v c t1 b m1,
              table_set heap m' t k v c = Ok (t1, b, m1) ->
              capacity t1 = capacity_after_set t
              /\ count t1 <= count t + 1
              /\ 4 * count t1 <= 3 * capacity t1)
        /\ (forall k t1 b m1,
              table_delete heap m' t k = Ok (t1, b, m1) ->
              capacity t1 = capacity t /\ count t1 = count t))
  /\ (Forall (fun op => plain_op op = true
                        /\ safe m (Z.of_nat (length ops)) (s_addr (key_of op)))
        ops ->
      exists t m', run = Ok (t, m')).
Proof.
  intros Hlen run.
  assert (Hn : 0 + Z.of_nat (length (take n ops)) <= 2 ^ 28)
    by (rewrite length_take; lia).
  split; [exact (run_ops_ends heap _ m table_create 0 sized_create Hn)|].
  split.
  - intros t m' Hrun.
    pose proof (run_ops_sized heap _ m table_create 0 t m' sized_create Hn Hrun)
      as Hs.
    split; [apply Hs|]. split.
    + intros k v c t1 b m1 Hset.
      destruct (table_set_step _ _ _ _ _ _ _ _ _ (sz_load _ _ Hs)
                  (sized_overflow _ _ Hs ltac:(rewrite length_take; lia)) Hset)
        as (Hok1 & Hcnt & Hcap).
      split; [exact Hcap|]. split; [exact Hcnt | apply Hok1].
    + intros k t1 b m1 Hdel.
      destruct (table_delete_step _ _ _ _ _ _ _ (sz_load _ _ Hs) Hdel)
        as (_ & Hcnt & Hcap).
      split; assumption.
  - intros Hops.
    apply (run_ops_returns heap _ m table_create 0 sized_create Hn);
      [constructor|].
    apply Forall_take. eapply Forall_impl; [exact Hops|].
    intros op [Hp Hs]. split; [exact Hp|].
    apply (safe_mono m (Z.of_nat (length ops))); [|exact Hs].
    rewrite length_take. lia.
Qed.

(** A key with five references, set, deleted and set again. *)
Definition demo_counts : Counts :=
  {| of_strings := fun a => if Nat.eqb a 0 then 5 else 0;
     of_objects := fun _ => 0 |}.

Definition demo_ops : list TableOp :=
  [OpSet (sample_key 0 5) (INT_VAL 1) false; OpDelete (sample_key 0 5);
   OpSet (sample_key 0 5) (INT_VAL 2) false].

Lemma load_factor_kept_witness :
  exists t m',
    run_ops [] demo_counts table_create (take 3 demo_ops) = Ok (t, m')
    /\ 4 * count t <= 3 * capacity t
    /\ capacity t = 8
    /\ ref_count m' (StrRef (sample_key 0 5)) = 5.
Proof.
  destruct (load_factor_kept [] demo_counts demo_ops 3)
    as (_ & Hinv & Hret); [vm_compute; reflexivity|].
  destruct Hret as (t & m' & Hrun).
  { repeat constructor; vm_compute; reflexivity. }
  exists t, m'. split; [exact Hrun|].
  split; [apply (Hinv t m' Hrun)|].
  vm_compute in Hrun. injection Hrun as <- <-. split; reflexivity.
Defined.

(** ** A key that is set and deleted again and again *)

(** The string ["k"], made in the empty pool, and the calls
    [table_set (t, k, 1, false); table_delete (t, k)], [n] times over,
    followed by the calls [extra]. *)
Definition demo_key : res (ObjString * StringPool * Counts) :=
  string_create [] no_counts pool_init "k".

Definition cycles (k : ObjString) (n : nat) : list TableOp :=
  concat (replicate n [OpSet k (INT_VAL 1) false; OpDelete k]).

Definition after_cycles (n : nat) (extra : ObjString -> list TableOp)
  : res (Z * Z * Z) :=
  '(k, _, m) ← demo_key;
  '(t, m) ← run_ops [] m table_create (cycles k n ++ extra k);
  Ok (ref_count m (StrRef k), count t, capacity t).

(** C7.  The load factor over [table_set] and [table_delete] of one key,
    four times over.  [string_create] leaves the key with three
    references; the first [table_set] takes one more, every
    [table_delete] gives one back, and a [table_set] that finds the
    tombstone of the key takes none.  The reference count of the key, the
    count and the capacity of the table are 3, 0, 0 at the start, 3, 1, 8
    after one round, 1, 1, 8 after three and 0, 1, 8 after four: the
    fourth [table_delete] frees the key, which its owner and the
    interning table still hold.  The next [table_set] or [table_delete]
    with it reads its hash from freed memory, so that no table is left
    for the bound [count <= 0.75 * capacity] to hold of; so does
    [table_get], and so does the next [string_create] of the same bytes,
    which searches the interning table. *)
Theorem table_key_released :
  after_cycles 0 (fun _ => []) = Ok (3, 0, 0)
  /\ after_cycles 1 (fun _ => []) = Ok (3, 1, 8)
  /\ after_cycles 3 (fun _ => []) = Ok (1, 1, 8)
  /\ after_cycles 4 (fun _ => []) = Ok (0, 1, 8)
  /\ after_cycles 4 (fun k => [OpSet k (INT_VAL 1) false]) = Fault
  /\ after_cycles 4 (fun k => [OpDelete k]) = Fault
  /\ ('(k, pool, m) ← demo_key;
      '(t, m) ← run_ops [] m table_create (cycles k 4);
      Ok (table_get m t k, string_create [] m pool "k"))
     = Ok (Fault, Fault).
Proof. vm_compute. repeat split; reflexivity. Qed.

(** ** Lookup after deletion *)

Lemma release_below (heap : list Obj) (m : Counts) (o : ObjRef) (m' : Counts) :
  release heap m o = Ok m' -> below m' m.
Proof. apply obj_decref_below. Qed.

(** Releasing a string that is there takes one from its count. *)
Lemma release_string (heap : list Obj) (m : Counts) (k : ObjString) :
  live m (StrRef k) = true ->
  release heap m (StrRef k)
  = Ok (set_ref_count m (StrRef k) (ref_count m (StrRef k) - 1)).
Proof.
  intros Hl. unfold release. cbn [obj_decref]. rewrite Hl. cbn zeta.
  destruct (_ <=? 0); reflexivity.
Qed.

(** X6.  Lookup after deletion, reference counts included.  On a
    well-formed table [table_delete (t, k)] does not hang, and it returns
    when [k] has not been freed and the value under [k], if there is
    one, is no object.  When it returns: the result is true exactly
    when [k] was in the table; [count] and [capacity] are unchanged (the
    slot becomes a tombstone); no reference count has grown, and that of
    [k] is at least one less if [k] was in the table; [table_get] finds
    under every other key what it found before; and it finds nothing
    under [k] provided [k] is still there: if the call released the last
    reference of [k], the key has been freed and [table_get (t, k)]
    reads its hash from freed memory (unless the table never held an
    entry, when the key is not read). *)
Theorem table_get_after_delete (heap : list Obj) (m : Counts) (t : ObjTable)
    (k q : ObjString) :
  table_wf t -> agrees t k -> agrees t q ->
  table_delete heap m t k <> Hang
  /\ (live m (StrRef k) = true ->
      (forall e, bound t k e -> IS_OBJ (value e) = false) ->
      exists t' b m', table_delete heap m t k = Ok (t', b, m'))
  /\ forall t' b m',
       table_delete heap m t k = Ok (t', b, m') ->
       table_wf t'
       /\ (b = true <-> exists v, Value.table_get t k = Ok (Some v))
       /\ count t' = count t /\ capacity t' = capacity t
       /\ below m' m
       /\ (b = true -> ref_count m' (StrRef k) <= ref_count m (StrRef k) - 1)
       /\ (s_addr q <> s_addr k -> table_get m' t' q = table_get m' t q)
       /\ table_get m' t' k
          = (if (count t =? 0) || live m' (StrRef k) then Ok None else Fault).
Proof.
  intros Hwf Hag Hagq.
  destruct (table_delete_spec t k Hwf Hag)
    as (t1 & b1 & Hdel & Hwf' & Hb & Hgone & Hframe & Hcnt & Hcap).
  split; [apply table_delete_ends, Hwf|]. split.
  - (* it returns *)
    intros Hlive Hscalar. unfold table_delete_entries in Hdel.
    unfold table_delete. destruct (count t =? 0) eqn:Ez;
      [eexists _, _, _; reflexivity|].
    rewrite Hlive. apply Z.eqb_neq in Ez.
    assert (Hc : 0 < capacity t).
    { destruct Hwf as [[Hl Hc Hu Hld] _ _].
      pose proof (used_slots_bounds (entries t)). lia. }
    destruct (find_entry_slot (entries t) (capacity t) k
                (table_wf_storage t Hwf Hc) (table_wf_has_empty t Hwf Hc))
      as (i & entry & Hfind & Hi & Hsame).
    rewrite Hfind. cbn [mbind res_mbind res_bind]. rewrite Hi.
    destruct (key entry) as [k'|] eqn:Ek; [|eexists _, _, _; reflexivity].
    apply same_obj_true in Hsame.
    assert (Hlive' : live m (StrRef k') = true)
      by (unfold live in *; cbn [ref_count] in *; rewrite Hsame; exact Hlive).
    rewrite (release_string heap m k' Hlive').
    cbn [mbind res_mbind res_bind].
    assert (Hv : IS_OBJ (value entry) = false).
    { apply Hscalar. exists i, k'. split; [split; assumption | exact Hsame]. }
    destruct (value entry); try discriminate Hv;
      eexists _, _, _; reflexivity.
  - (* what it leaves *)
    intros t' b m' H. pose proof (table_delete_erase _ _ _ _ _ _ _ H) as He.
    rewrite He in Hdel. injection Hdel as <- <-.
    split; [exact Hwf'|]. split.
    { rewrite Hb. split.
      - intros [e He']. exists (value e). apply table_get_bound; assumption.
      - intros [v Hv].
        destruct (bound_cases t k Hwf Hag) as [[x Hx] | Hfree];
          [exists x; exact Hx|].
        rewrite (table_get_unbound t k Hwf Hfree) in Hv. discriminate. }
    split; [exact Hcnt|]. split; [exact Hcap|].
    (* the counts *)
    assert (Hcounts : below m' m
              /\ (b = true ->
                  ref_count m' (StrRef k) <= ref_count m (StrRef k) - 1)).
    { unfold table_delete in H.
      destruct (count t =? 0);
        [injection H as <- <- <-; split; [apply below_refl | discriminate]|].
      destruct (live m (StrRef k)) eqn:Hlive; [|discriminate H].
      destruct (find_entry (entries t) (capacity t) k) as [[i|]| |] eqn:Hfind;
        cbn [mbind res_mbind res_bind] in H; try discriminate H.
      destruct (entries t !! i) as [entry|] eqn:Hi; [|discriminate H].
      destruct (key entry) as [k'|] eqn:Ek;
        [|injection H as <- <- <-; split; [apply below_refl | discriminate]].
      assert (Hc : 0 < capacity t).
      { destruct (Z.eq_dec (capacity t) 0) as [E0|]; [|destruct Hwf as [[]]; lia].
        unfold find_entry in Hfind. rewrite E0 in Hfind. discriminate Hfind. }
      destruct (find_entry_slot (entries t) (capacity t) k
                  (table_wf_storage t Hwf Hc) (table_wf_has_empty t Hwf Hc))
        as (i' & entry' & Hfind' & Hi' & Hsame).
      rewrite Hfind in Hfind'. injection Hfind' as <-.
      rewrite Hi in Hi'. injection Hi' as <-. rewrite Ek in Hsame.
      apply same_obj_true in Hsame.
      assert (Hlive' : live m (StrRef k') = true)
        by (unfold live in *; cbn [ref_count] in *; rewrite Hsame; exact Hlive).
      rewrite (release_string heap m k' Hlive') in H.
      cbn [mbind res_mbind res_bind] in H.
      set (m1 := set_ref_count m (StrRef k') (ref_count m (StrRef k') - 1)) in *.
      assert (H1 : below m1 m) by (apply below_set; lia).
      assert (H1k : ref_count m1 (StrRef k) = ref_count m (StrRef k) - 1).
      { unfold m1. cbn [ref_count set_ref_count of_strings].
        rewrite Hsame, Nat.eqb_refl. reflexivity. }
      assert (Hrest : exists m2,
                (match value entry with
                 | OBJ_VAL o => release heap m1 o
                 | _ => Ok m1
                 end) = Ok m2 /\ m2 = m').
      { destruct (match value entry with
                  | OBJ_VAL o => release heap m1 o
                  | _ => Ok m1
                  end) as [m2| |]; cbn [mbind res_mbind res_bind] in H;
          try discriminate H.
        injection H as _ _ <-. exists m2. split; reflexivity. }
      destruct Hrest as (m2 & Hrel & ->).
      assert (H2 : below m' m1).
      { destruct (value entry); try (injection Hrel as <-; apply below_refl).
        exact (release_below _ _ _ _ Hrel). }
      split; [exact (below_trans _ _ _ H2 H1)|].
      intros _. rewrite <- H1k. apply (proj1 H2). }
    split; [apply Hcounts|]. split; [apply Hcounts|]. split.
    + intros Hne. unfold table_get. rewrite Hcnt.
      destruct (count t =? 0); [reflexivity|].
      destruct (live m' (StrRef q)); [|reflexivity].
      destruct (frame_bound t t' k q Hframe Hne) as [Hiff Hagree].
      apply table_get_congr; auto.
    + unfold table_get. rewrite Hcnt.
      destruct (count t =? 0); [reflexivity|]. cbn [orb].
      destruct (live m' (StrRef k)); [|reflexivity].
      apply table_get_unbound; assumption.
Qed.

(** The key of [demo_table] with two references, and with one. *)
Definition demo_shared : Counts :=
  {| of_strings := fun a => if Nat.eqb a 0 then 2 else 0;
     of_objects := fun _ => 0 |}.

Definition demo_last : Counts :=
  {| of_strings := fun a => if Nat.eqb a 0 then 1 else 0;
     of_objects := fun _ => 0 |}.

Lemma table_get_after_delete_witness :
  (exists t' m',
     table_delete [] demo_shared demo_table (sample_key 0 5)
     = Ok (t', true, m')
     /\ ref_count m' (StrRef (sample_key 0 5)) = 1
     /\ table_get m' t' (sample_key 0 5) = Ok None)
  /\ (exists t' m',
        table_delete [] demo_last demo_table (sample_key 0 5)
        = Ok (t', true, m')
        /\ ref_count m' (StrRef (sample_key 0 5)) = 0
        /\ table_get m' t' (sample_key 0 5) = Fault).
Proof.
  destruct demo_table_wf as (Hwf & Hk & Hq).
  split.
  - destruct (table_get_after_delete [] demo_shared demo_table
                (sample_key 0 5) (sample_key 1 13) Hwf Hk Hq)
      as (_ & _ & Hleft).
    assert (Hrun : exists t' m',
              table_delete [] demo_shared demo_table (sample_key 0 5)
              = Ok (t', true, m')
              /\ ref_count m' (StrRef (sample_key 0 5)) = 1)
      by (eexists _, _; split; vm_compute; reflexivity).
    destruct Hrun as (t' & m' & Hdel & Hcount).
    exists t', m'. split; [exact Hdel|]. split; [exact Hcount|].
    destruct (Hleft t' true m' Hdel) as (_ & _ & _ & _ & _ & _ & _ & Hget).
    rewrite Hget. unfold live. rewrite Hcount. reflexivity.
  - destruct (table_get_after_delete [] demo_last demo_table
                (sample_key 0 5) (sample_key 1 13) Hwf Hk Hq)
      as (_ & _ & Hleft).
    assert (Hrun : exists t' m',
              table_delete [] demo_last demo_table (sample_key 0 5)
              = Ok (t', true, m')
              /\ ref_count m' (StrRef (sample_key 0 5)) = 0)
      by (eexists _, _; split; vm_compute; reflexivity).
    destruct Hrun as (t' & m' & Hdel & Hcount).
    exists t', m'. split; [exact Hdel|]. split; [exact Hcount|].
    destruct (Hleft t' true m' Hdel) as (_ & _ & _ & _ & _ & _ & _ & Hget).
    rewrite Hget. unfold live. rewrite Hcount. reflexivity.
Defined.

End Memory.

(* ===================================================================== *)
(** * Built-in functions on arrays (src/builtins.c, src/value.c) *)
(* ===================================================================== *)

Module Builtins.
Import Value Object.

(** [array_pop] *)
Definition array_pop (heap : list Obj) (a : nat) : res (Value * list Obj) :=
  match heap !! a with
  | Some (ObjArray elements capacity) =>
      if Z.of_nat (length elements) =? 0 then Ok (NIL_VAL, heap)
      else
        match elements !! (length elements - 1)%nat with
        | Some v =>
            Ok (v, <[a := ObjArray (take (length elements - 1) elements)
                             capacity]> heap)
        | None => Fault
        end
  | _ => Fault
  end.

(** [array_length] *)
Definition array_length (heap : list Obj) (a : nat) : res Z :=
  match heap !! a with
  | Some (ObjArray elements _) => Ok (Z.of_nat (length elements))
  | _ => Fault
  end.

(** A built-in function: the arguments and the object heap in, the
    result and the heap out. *)
Definition Native : Type := list Value -> list Obj -> res (Value * list Obj).

(** [native_len] *)
Definition native_len : Native := fun args heap =>
  match args with
  | [val] =>
      match val with
      | OBJ_VAL (StrRef s) => Ok (INT_VAL (s_length s), heap)
      | _ =>
          match deref heap val with
          | Some (ObjArray elements _) =>
              Ok (INT_VAL (Z.of_nat (length elements)), heap)
          | Some (ObjTableO t) => Ok (INT_VAL (count t), heap)
          | _ => Ok (NIL_VAL, heap)
          end
      end
  | _ => Ok (NIL_VAL, heap)
  end.

(** [native_push] *)
Definition native_push : Native := fun args heap =>
  match args with
  | [arr; v] =>
      match arr, deref heap arr with
      | OBJ_VAL (HeapRef a), Some (ObjArray _ _) =>
          heap' ← array_push heap a v; Ok (NIL_VAL, heap')
      | _, _ => Ok (NIL_VAL, heap)
      end
  | _ => Ok (NIL_VAL, heap)
  end.

(** [native_pop] *)
Definition native_pop : Native := fun args heap =>
  match args with
  | [arr] =>
      match arr, deref heap arr with
      | OBJ_VAL (HeapRef a), Some (ObjArray _ _) => array_pop heap a
      | _, _ => Ok (NIL_VAL, heap)
      end
  | _ => Ok (NIL_VAL, heap)
  end.

(** [native_first] *)
Definition native_first : Native := fun args heap =>
  match args with
  | [arr] =>
      match deref heap arr with
      | Some (ObjArray elements _) =>
          if Z.of_nat (length elements) =? 0 then Ok (NIL_VAL, heap)
          else match elements !! 0%nat with
               | Some v => Ok (v, heap)
               | None => Fault
               end
      | _ => Ok (NIL_VAL, heap)
      end
  | _ => Ok (NIL_VAL, heap)
  end.

(** [native_last] *)
Definition native_last : Native := fun args heap =>
  match args with
  | [arr] =>
      match deref heap arr with
      | Some (ObjArray elements _) =>
          if Z.of_nat (length elements) =? 0 then Ok (NIL_VAL, heap)
          else match elements !! (length elements - 1)%nat with
               | Some v => Ok (v, heap)
               | None => Fault
               end
      | _ => Ok (NIL_VAL, heap)
      end
  | _ => Ok (NIL_VAL, heap)
  end.

(** The loop of [native_insert] that makes room:
    [for (i = count - 1; i > index; i--) elements[i] = elements[i - 1]],
    from [i] on. *)
Fixpoint shift_up (fuel : nat) (elements : list Value) (i index : Z)
  : res (list Value) :=
  if index <? i then
    match fuel with
    | O => Hang
    | S fuel' =>
        if (i <? 0) || (Z.of_nat (length elements) <=? i) then Fault
        else
          match elements !! Z.to_nat (i - 1) with
          | Some x =>
              if i - 1 <? 0 then Fault
              else shift_up fuel' (<[Z.to_nat i := x]> elements) (i - 1) index
          | None => Fault
          end
    end
  else Ok elements.

(** [native_insert] *)
Definition native_insert : Native := fun args heap =>
  match args with
  | [arr; idx; v] =>
      match arr, deref heap arr, idx with
      | OBJ_VAL (HeapRef a), Some (ObjArray elements _), INT_VAL n =>
          let index := to_signed 32 n in
          if (index <? 0) || (Z.of_nat (length elements) <? index) then
            Ok (NIL_VAL, heap)
          else
            (* make room *)
            heap' ← array_push heap a NIL_VAL;
            match heap' !! a with
            | Some (ObjArray elements' capacity') =>
                let count' := Z.of_nat (length elements') in
                (* shift elements *)
                shifted ← shift_up (length elements') elements' (count' - 1)
                            index;
                Ok (NIL_VAL,
                    <[a := ObjArray (<[Z.to_nat index := v]> shifted)
                             capacity']> heap')
            | _ => Fault
            end
      | _, _, _ => Ok (NIL_VAL, heap)
      end
  | _ => Ok (NIL_VAL, heap)
  end.

(** The loop of [native_remove] that closes the gap:
    [for (i = index; i < count - 1; i++) elements[i] = elements[i + 1]],
    from [i] on. *)
Fixpoint shift_down (fuel : nat) (elements : list Value) (i : Z)
  : res (list Value) :=
  if i <? Z.of_nat (length elements) - 1 then
    match fuel with
    | O => Hang
    | S fuel' =>
        if i <? 0 then Fault
        else
          match elements !! Z.to_nat (i + 1) with
          | Some x => shift_down fuel' (<[Z.to_nat i := x]> elements) (i + 1)
          | None => Fault
          end
    end
  else Ok elements.

(** [native_remove] *)
Definition native_remove : Native := fun args heap =>
  match args with
  | [arr; idx] =>
      match arr, deref heap arr, idx with
      | OBJ_VAL (HeapRef a), Some (ObjArray elements capacity), INT_VAL n =>
          let index := to_signed 32 n in
          if (index <? 0) || (Z.of_nat (length elements) <=? index) then
            Ok (NIL_VAL, heap)
          else
            match elements !! Z.to_nat index with
            | Some removed =>
                (* shift elements *)
                shifted ← shift_down (length elements) elements index;
                Ok (removed,
                    <[a := ObjArray (take (length elements - 1) shifted)
                             capacity]> heap)
            | None => Fault
            end
      | _, _, _ => Ok (NIL_VAL, heap)
      end
  | _ => Ok (NIL_VAL, heap)
  end.

(** ** Facts *)

Lemma shift_up_spec (d : nat) :
  forall (fuel : nat) (els : list Value) (index : nat),
    (d <= fuel)%nat -> (index + d < length els)%nat ->
    exists r,
      shift_up fuel els (Z.of_nat (index + d)) (Z.of_nat index) = Ok r
      /\ length r = length els
      /\ forall j : nat,
           r !! j = if decide (index < j <= index + d)%nat
                    then els !! (j - 1)%nat else els !! j.
Proof.
  induction d as [|d IH]; intros fuel els index Hfuel Hlen.
  - exists els. split; [|split; [reflexivity|]].
    + destruct fuel; cbn; rewrite Nat.add_0_r, Z.ltb_irrefl; reflexivity.
    + intros j. destruct (decide _); [lia | reflexivity].
  - destruct fuel as [|fuel]; [lia|]. cbn [shift_up].
    destruct (Z.ltb_spec (Z.of_nat index) (Z.of_nat (index + S d))); [|lia].
    destruct (Z.ltb_spec (Z.of_nat (index + S d)) 0); [lia|].
    destruct (Z.leb_spec (Z.of_nat (length els)) (Z.of_nat (index + S d)));
      [lia|]. cbn [orb].
    replace (Z.to_nat (Z.of_nat (index + S d) - 1)) with (index + d)%nat by lia.
    destruct (lookup_lt_is_Some_2 els (index + d) ltac:(lia)) as [x Hx].
    rewrite Hx.
    destruct (Z.ltb_spec (Z.of_nat (index + S d) - 1) 0); [lia|].
    replace (Z.of_nat (index + S d) - 1) with (Z.of_nat (index + d)) by lia.
    replace (Z.to_nat (Z.of_nat (index + S d))) with (S (index + d)) by lia.
    destruct (IH fuel (<[S (index + d) := x]> els) index ltac:(lia))
      as (r & Hr & Hlr & Hj).
    { rewrite length_insert. lia. }
    exists r. split; [exact Hr|]. split; [rewrite Hlr; apply length_insert|].
    intros j. rewrite Hj.
    destruct (decide (index < j <= index + d)%nat) as [Hd1|Hd1];
      destruct (decide (index < j <= index + S d)%nat) as [Hd2|Hd2]; try lia.
    + apply list_lookup_insert_ne. lia.
    + assert (j = S (index + d)) as -> by lia.
      rewrite list_lookup_insert_eq by lia.
      replace (S (index + d) - 1)%nat with (index + d)%nat by lia. auto.
    + apply list_lookup_insert_ne. lia.
Qed.

Lemma shift_down_spec (d : nat) :
  forall (fuel : nat) (els : list Value) (i : nat),
    (d <= fuel)%nat -> (i + d + 1 = length els)%nat ->
    exists r,
      shift_down fuel els (Z.of_nat i) = Ok r
      /\ length r = length els
      /\ forall j : nat,
           (j < length els - 1)%nat ->
           r !! j = if decide (i <= j)%nat then els !! S j else els !! j.
Proof.
  induction d as [|d IH]; intros fuel els i Hfuel Hlen.
  - exists els. split; [|split; [reflexivity|]].
    + destruct fuel; cbn;
        (destruct (Z.ltb_spec (Z.of_nat i) (Z.of_nat (length els) - 1));
         [lia | reflexivity]).
    + intros j Hj. destruct (decide _); [lia | reflexivity].
  - destruct fuel as [|fuel]; [lia|]. cbn [shift_down].
    destruct (Z.ltb_spec (Z.of_nat i) (Z.of_nat (length els) - 1)); [|lia].
    destruct (Z.ltb_spec (Z.of_nat i) 0); [lia|].
    replace (Z.to_nat (Z.of_nat i + 1)) with (S i) by lia.
    destruct (lookup_lt_is_Some_2 els (S i) ltac:(lia)) as [x Hx].
    rewrite Hx. rewrite Nat2Z.id.
    replace (Z.of_nat i + 1) with (Z.of_nat (S i)) by lia.
    destruct (IH fuel (<[i := x]> els) (S i) ltac:(lia)) as (r & Hr & Hlr & Hj).
    { rewrite length_insert. lia. }
    exists r. split; [exact Hr|]. split; [rewrite Hlr; apply length_insert|].
    intros j Hjlen. rewrite Hj by (rewrite length_insert; exact Hjlen).
    destruct (decide (S i <= j)%nat) as [Hd1|Hd1];
      destruct (decide (i <= j)%nat) as [Hd2|Hd2]; try lia.
    + apply list_lookup_insert_ne. lia.
    + assert (j = i) as -> by lia.
      rewrite list_lookup_insert_eq by lia. auto.
    + apply list_lookup_insert_ne. lia.
Qed.

Lemma native_insert_elements (heap : list Obj) (a : nat) (els : list Value)
    (cap : Z) (i : nat) (v : Value) :
  heap !! a = Some (ObjArray els cap) ->
  (i <= length els)%nat -> Z.of_nat (length els) < 2 ^ 30 ->
  exists cap',
    native_insert [OBJ_VAL (HeapRef a); INT_VAL (Z.of_nat i); v] heap
    = Ok (NIL_VAL, <[a := ObjArray (take i els ++ v :: drop i els) cap']> heap)
    /\ (cap' = cap \/ cap' = 8 \/ cap' = cap * 2).
Proof.
  intros Ha Hi Hlen. unfold native_insert. cbn [deref]. rewrite Ha.
  rewrite Cffi.to_signed_small by lia.
  destruct (Z.ltb_spec (Z.of_nat i) 0); [lia|].
  destruct (Z.ltb_spec (Z.of_nat (length els)) (Z.of_nat i)); [lia|]. cbn [orb].
  destruct (Tables.array_push_grows heap a els cap NIL_VAL Ha Hlen)
    as (cap' & Hpush & _ & Hcap).
  rewrite Hpush. cbn [mbind res_mbind res_bind].
  rewrite list_lookup_insert_eq by (eapply lookup_lt_Some, Ha).
  exists cap'. split; [|exact Hcap].
  rewrite length_app. cbn [length].
  replace (Z.of_nat (length els + 1) - 1) with (Z.of_nat (i + (length els - i)))
    by lia.
  destruct (shift_up_spec (length els - i) (length els + 1) (els ++ [NIL_VAL]) i)
    as (r & Hr & Hlr & Hj); [lia | rewrite length_app; cbn; lia |].
  rewrite Hr. cbn [mbind res_mbind res_bind]. rewrite Nat2Z.id.
  rewrite list_insert_insert_eq.
  enough (Heq : <[i := v]> r = take i els ++ v :: drop i els)
    by (rewrite Heq; reflexivity).
  apply list_eq. intros j.
  destruct (decide (j = i)) as [->|Hne].
  - rewrite list_lookup_insert_eq by (rewrite Hlr, length_app; cbn; lia).
    rewrite lookup_app_r by (rewrite length_take; lia).
    rewrite length_take. replace (i - i `min` length els)%nat with 0%nat by lia.
    reflexivity.
  - rewrite list_lookup_insert_ne by congruence. rewrite Hj.
    destruct (decide (i < j <= i + (length els - i))%nat) as [Hin|Hout].
    + rewrite lookup_app_l by lia.
      rewrite lookup_app_r by (rewrite length_take; lia).
      rewrite length_take. replace (j - i `min` length els)%nat with (S (j - i - 1)) by lia.
      change ((v :: drop i els) !! S (j - i - 1))
        with (drop i els !! (j - i - 1)%nat).
      rewrite lookup_drop. f_equal. lia.
    + destruct (decide (j < i)%nat) as [Hlt|Hge].
      * rewrite lookup_app_l by lia.
        rewrite lookup_app_l by (rewrite length_take; lia).
        rewrite lookup_take_lt by lia. reflexivity.
      * rewrite !lookup_ge_None_2; [reflexivity | |].
        -- rewrite length_app, length_take. cbn. rewrite length_drop. lia.
        -- rewrite length_app. cbn. lia.
Qed.

Lemma native_remove_elements (heap : list Obj) (a : nat) (els : list Value)
    (cap : Z) (i : nat) (x : Value) :
  heap !! a = Some (ObjArray els cap) ->
  els !! i = Some x -> Z.of_nat (length els) < 2 ^ 31 ->
  native_remove [OBJ_VAL (HeapRef a); INT_VAL (Z.of_nat i)] heap
  = Ok (x, <[a := ObjArray (take i els ++ drop (S i) els) cap]> heap).
Proof.
  intros Ha Hx Hlen. pose proof (lookup_lt_Some _ _ _ Hx) as Hi.
  unfold native_remove. cbn [deref]. rewrite Ha.
  rewrite Cffi.to_signed_small by lia.
  destruct (Z.ltb_spec (Z.of_nat i) 0); [lia|].
  destruct (Z.leb_spec (Z.of_nat (length els)) (Z.of_nat i)); [lia|]. cbn [orb].
  rewrite Nat2Z.id, Hx.
  destruct (shift_down_spec (length els - i - 1) (length els) els i)
    as (r & Hr & Hlr & Hj); [lia | lia |].
  rewrite Hr. cbn [mbind res_mbind res_bind].
  enough (Heq : take (length els - 1) r = take i els ++ drop (S i) els)
    by (rewrite Heq; reflexivity).
  apply list_eq. intros j.
  destruct (decide (j < length els - 1)%nat) as [Hlt|Hge].
  - rewrite lookup_take_lt by lia. rewrite Hj by lia.
    destruct (decide (i <= j)%nat) as [Hin|Hout].
    + rewrite lookup_app_r by (rewrite length_take; lia).
      rewrite length_take, lookup_drop. f_equal. lia.
    + rewrite lookup_app_l by (rewrite length_take; lia).
      rewrite lookup_take_lt by lia. reflexivity.
  - rewrite !lookup_ge_None_2; [reflexivity | |].
    + rewrite length_app, length_take, length_drop. lia.
    + rewrite length_take. lia.
Qed.

(** [(int)] of an [int64_t] is a C [int]. *)
Lemma to_signed_idem (w n : Z) :
  0 < w -> to_signed w (to_signed w n) = to_signed w n.
Proof.
  intros Hw. apply Cffi.to_signed_small; [exact Hw | apply Cffi.to_signed_range, Hw].
Qed.

Lemma native_insert_cast (arr : Value) (n : Z) (v : Value) (heap : list Obj) :
  native_insert [arr; INT_VAL n; v] heap
  = native_insert [arr; INT_VAL (to_signed 32 n); v] heap.
Proof.
  unfold native_insert. rewrite to_signed_idem by lia. reflexivity.
Qed.

Lemma native_remove_cast (arr : Value) (n : Z) (heap : list Obj) :
  native_remove [arr; INT_VAL n] heap
  = native_remove [arr; INT_VAL (to_signed 32 n)] heap.
Proof.
  unfold native_remove. rewrite to_signed_idem by lia. reflexivity.
Qed.

(** X8.  The built-ins [insert] and [remove] on an array of fewer than
    2^30 elements.  Both cut their index to a C [int] first ([(int) n]:
    the index itself when it fits 32 bits, and for instance 0 for 2^32).
    [insert (a, n, v)] with the cut index [i] in [0 <= i <= length(a)]
    puts [v] at position [i] and moves the elements from [i] on one place
    up; [remove (a, n)] on the result returns [v] and leaves the elements
    the array had before; no other object changes.  With the cut index
    out of range ([i < 0]; [i > length(a)] for [insert],
    [i >= length(a)] for [remove]) both return nil and change nothing. *)
Theorem native_insert_remove (heap : list Obj) (a : nat) (els : list Value)
    (cap : Z) (n : Z) (v : Value) :
  heap !! a = Some (ObjArray els cap) ->
  Z.of_nat (length els) < 2 ^ 30 ->
  let i := to_signed 32 n in
  (0 <= i <= Z.of_nat (length els) ->
   exists (heap1 heap2 : list Obj) (cap' : Z),
     native_insert [OBJ_VAL (HeapRef a); INT_VAL n; v] heap
     = Ok (NIL_VAL, heap1)
     /\ heap1 !! a
        = Some (ObjArray (take (Z.to_nat i) els ++ v :: drop (Z.to_nat i) els)
                  cap')
     /\ native_remove [OBJ_VAL (HeapRef a); INT_VAL n] heap1
        = Ok (v, heap2)
     /\ heap2 !! a = Some (ObjArray els cap')
     /\ forall b : nat, b <> a -> heap2 !! b = heap !! b)
  /\ (i < 0 \/ Z.of_nat (length els) < i ->
      native_insert [OBJ_VAL (HeapRef a); INT_VAL n; v] heap
      = Ok (NIL_VAL, heap))
  /\ (i < 0 \/ Z.of_nat (length els) <= i ->
      native_remove [OBJ_VAL (HeapRef a); INT_VAL n] heap
      = Ok (NIL_VAL, heap)).
Proof.
  intros Ha Hlen i.
  pose proof (lookup_lt_Some _ _ _ Ha) as Halen.
  split; [|split].
  - intros Hi.
    destruct (native_insert_elements heap a els cap (Z.to_nat i) v Ha
                ltac:(lia) Hlen)
      as (cap' & Hins & _).
    set (k := Z.to_nat i) in *.
    set (els1 := take k els ++ v :: drop k els) in *.
    set (heap1 := <[a := ObjArray els1 cap']> heap) in *.
    assert (Hk : (k <= length els)%nat) by lia.
    assert (Ha1 : heap1 !! a = Some (ObjArray els1 cap'))
      by (apply list_lookup_insert_eq; exact Halen).
    assert (Hv : els1 !! k = Some v).
    { unfold els1. rewrite lookup_app_r by (rewrite length_take; lia).
      rewrite length_take. replace (k - k `min` length els)%nat with 0%nat by lia.
      reflexivity. }
    assert (Hlen1 : Z.of_nat (length els1) < 2 ^ 31).
    { unfold els1. rewrite length_app, length_take. cbn. rewrite length_drop.
      lia. }
    pose proof (native_remove_elements heap1 a els1 cap' k v Ha1 Hv Hlen1)
      as Hrem.
    assert (Hback : take k els1 ++ drop (S k) els1 = els).
    { unfold els1. rewrite take_app_le by (rewrite length_take; lia).
      rewrite take_take. replace (k `min` k)%nat with k by lia.
      rewrite drop_app_ge by (rewrite length_take; lia).
      rewrite length_take. replace (S k - k `min` length els)%nat with 1%nat by lia.
      cbn. rewrite drop_0. apply take_drop. }
    rewrite Hback in Hrem.
    exists heap1, (<[a := ObjArray els cap']> heap1), cap'.
    assert (Hik : INT_VAL i = INT_VAL (Z.of_nat k)) by (f_equal; lia).
    split; [rewrite native_insert_cast; fold i; rewrite Hik; exact Hins|].
    split; [exact Ha1|]. split;
      [rewrite native_remove_cast; fold i; rewrite Hik; exact Hrem|].
    split.
    + apply list_lookup_insert_eq. unfold heap1. rewrite length_insert.
      exact Halen.
    + intros b Hb. unfold heap1. rewrite !list_lookup_insert_ne by congruence.
      reflexivity.
  - intros Hout. unfold native_insert. cbn [deref]. rewrite Ha. fold i.
    destruct (Z.ltb_spec i 0); [reflexivity|].
    destruct (Z.ltb_spec (Z.of_nat (length els)) i); [reflexivity | lia].
  - intros Hout. unfold native_remove. cbn [deref]. rewrite Ha. fold i.
    destruct (Z.ltb_spec i 0); [reflexivity|].
    destruct (Z.leb_spec (Z.of_nat (length els)) i); [reflexivity | lia].
Qed.

Lemma native_insert_remove_witness :
  (exists (heap1 heap2 : list Obj) (cap' : Z),
     native_insert [OBJ_VAL (HeapRef 0); INT_VAL 1; INT_VAL 7]
       [ObjArray [INT_VAL 1; INT_VAL 2] 8] = Ok (NIL_VAL, heap1)
     /\ heap1 !! 0%nat
        = Some (ObjArray [INT_VAL 1; INT_VAL 7; INT_VAL 2] cap')
     /\ native_remove [OBJ_VAL (HeapRef 0); INT_VAL 1] heap1
        = Ok (INT_VAL 7, heap2)
     /\ heap2 !! 0%nat = Some (ObjArray [INT_VAL 1; INT_VAL 2] cap')
     /\ forall b : nat, b <> 0%nat ->
          heap2 !! b = [ObjArray [INT_VAL 1; INT_VAL 2] 8] !! b)
  /\ (exists heap1 : list Obj,
        native_insert [OBJ_VAL (HeapRef 0); INT_VAL 4294967296; INT_VAL 7]
          [ObjArray [INT_VAL 1; INT_VAL 2] 8] = Ok (NIL_VAL, heap1)
        /\ exists cap', heap1 !! 0%nat
           = Some (ObjArray [INT_VAL 7; INT_VAL 1; INT_VAL 2] cap'))
  /\ native_insert [OBJ_VAL (HeapRef 0); INT_VAL 3; INT_VAL 7]
       [ObjArray [INT_VAL 1; INT_VAL 2] 8]
     = Ok (NIL_VAL, [ObjArray [INT_VAL 1; INT_VAL 2] 8]).
Proof.
  split; [|split].
  - refine (proj1 (native_insert_remove [ObjArray [INT_VAL 1; INT_VAL 2] 8]
                     0 [INT_VAL 1; INT_VAL 2] 8 1 (INT_VAL 7) _ _) _).
    + reflexivity.
    + simpl. lia.
    + vm_compute. split; discriminate.
  - destruct (proj1 (native_insert_remove [ObjArray [INT_VAL 1; INT_VAL 2] 8]
                       0 [INT_VAL 1; INT_VAL 2] 8 4294967296 (INT_VAL 7)
                       eq_refl ltac:(simpl; lia)))
      as (heap1 & _ & cap' & H1 & H2 & _).
    + vm_compute. split; discriminate.
    + exists heap1. split; [exact H1|]. exists cap'. exact H2.
  - refine (proj1 (proj2 (native_insert_remove
                            [ObjArray [INT_VAL 1; INT_VAL 2] 8]
                            0 [INT_VAL 1; INT_VAL 2] 8 3 (INT_VAL 7) _ _)) _).
    + reflexivity.
    + simpl. lia.
    + right. vm_compute. reflexivity.
Defined.

(** X9.  The built-ins [push], [pop], [len] and [last] on an array of
    fewer than 2^30 elements.  [push (a, v)] appends [v] and keeps the
    element count within the capacity; afterwards [len (a)] is one more
    than before, [last (a)] is [v], and [pop (a)] returns [v] and leaves
    the elements the array had before the push.  On an empty array
    [pop], [first] and [last] return nil and change nothing. *)
Theorem native_push_pop (heap : list Obj) (a : nat) (els : list Value)
    (cap : Z) (v : Value) :
  heap !! a = Some (ObjArray els cap) ->
  Z.of_nat (length els) < 2 ^ 30 ->
  (exists (heap1 : list Obj) (cap' : Z),
     native_push [OBJ_VAL (HeapRef a); v] heap = Ok (NIL_VAL, heap1)
     /\ heap1 !! a = Some (ObjArray (els ++ [v]) cap')
     /\ (Z.of_nat (length els) <= cap -> Z.of_nat (length els) + 1 <= cap')
     /\ (forall b : nat, b <> a -> heap1 !! b = heap !! b)
     /\ native_len [OBJ_VAL (HeapRef a)] heap1
        = Ok (INT_VAL (Z.of_nat (length els) + 1), heap1)
     /\ native_last [OBJ_VAL (HeapRef a)] heap1 = Ok (v, heap1)
     /\ native_pop [OBJ_VAL (HeapRef a)] heap1
        = Ok (v, <[a := ObjArray els cap']> heap1))
  /\ (els = [] ->
      native_pop [OBJ_VAL (HeapRef a)] heap = Ok (NIL_VAL, heap)
      /\ native_first [OBJ_VAL (HeapRef a)] heap = Ok (NIL_VAL, heap)
      /\ native_last [OBJ_VAL (HeapRef a)] heap = Ok (NIL_VAL, heap)).
Proof.
  intros Ha Hlen. pose proof (lookup_lt_Some _ _ _ Ha) as Halen. split.
  - destruct (Tables.array_push_grows heap a els cap v Ha Hlen)
      as (cap' & Hpush & Hroom & _).
    set (heap1 := <[a := ObjArray (els ++ [v]) cap']> heap) in *.
    assert (Ha1 : heap1 !! a = Some (ObjArray (els ++ [v]) cap'))
      by (apply list_lookup_insert_eq; exact Halen).
    assert (Hl : length (els ++ [v]) = S (length els))
      by (rewrite length_app; cbn; lia).
    assert (Hlast : (els ++ [v]) !! (length (els ++ [v]) - 1)%nat = Some v).
    { rewrite Hl. replace (S (length els) - 1)%nat with (length els) by lia.
      apply list_lookup_middle. reflexivity. }
    exists heap1, cap'.
    split; [unfold native_push; cbn [deref]; rewrite Ha, Hpush; reflexivity|].
    split; [exact Ha1|]. split; [exact Hroom|].
    split; [intros b Hb; apply list_lookup_insert_ne; congruence|].
    split; [unfold native_len; cbn [deref]; rewrite Ha1; do 3 f_equal; lia|].
    split.
    + unfold native_last. cbn [deref]. rewrite Ha1, Hlast.
      destruct (Z.eqb_spec (Z.of_nat (length (els ++ [v]))) 0); [lia|reflexivity].
    + unfold native_pop, array_pop. cbn [deref]. rewrite Ha1, Hlast.
      destruct (Z.eqb_spec (Z.of_nat (length (els ++ [v]))) 0); [lia|].
      rewrite Hl. replace (S (length els) - 1)%nat with (length els) by lia.
      rewrite take_app_length. reflexivity.
  - intros ->. unfold native_pop, array_pop, native_first, native_last.
    cbn [deref]. rewrite Ha. repeat split; reflexivity.
Qed.

Lemma native_push_pop_witness :
  exists (heap1 : list Obj) (cap' : Z),
    native_push [OBJ_VAL (HeapRef 0); INT_VAL 3] [ObjArray [] 0]
    = Ok (NIL_VAL, heap1)
    /\ heap1 !! 0%nat = Some (ObjArray [INT_VAL 3] cap')
    /\ native_pop [OBJ_VAL (HeapRef 0)] heap1
       = Ok (INT_VAL 3, <[0%nat := ObjArray [] cap']> heap1).
Proof.
  destruct (proj1 (native_push_pop [ObjArray [] 0] 0 [] 0 (INT_VAL 3)
                     eq_refl ltac:(simpl; lia)))
    as (heap1 & cap' & Hpush & Ha1 & _ & _ & _ & _ & Hpop).
  exists heap1, cap'. split; [exact Hpush|]. split; [exact Ha1 | exact Hpop].
Defined.
End Builtins.

(* ===================================================================== *)
(** * Scopes: name resolution and definition (src/env.c) *)
(* ===================================================================== *)

Module Scopes.
Import Value Env.

(** [find_entry_const] for a name the scope does not bind. *)
Lemma find_entry_const_unbound (pool : StringPool) (a : nat)
    (e : Environment) (k : ObjString) :
  pool_ok pool -> scope_ok pool a e -> interned pool k ->
  (forall x, ~ bound (variables e) k x) ->
  find_entry_const e k = Ok None.
Proof.
  intros Hp Hs Hk Hfree. pose proof (so_wf _ _ _ Hs) as Hwf.
  unfold find_entry_const.
  destruct (count (variables e) =? 0) eqn:E1; [reflexivity|].
  apply Z.eqb_neq in E1.
  assert (Hc : 0 < capacity (variables e)).
  { destruct Hwf as [[Hl Hc Hu Hld] _ _].
    pose proof (used_slots_bounds (entries (variables e))). lia. }
  destruct (capacity (variables e) =? 0) eqn:E2; [lia|].
  pose proof (table_wf_storage _ Hwf Hc) as Hst.
  destruct (find_entry_spec (entries (variables e)) (capacity (variables e)) k
              Hst (table_wf_has_empty _ Hwf Hc))
    as (n0 & e0 & r & Hn0 & Hpass & He0 & Hstop & _ & _).
  rewrite (find_entry_const_loop_spec (entries (variables e))
             (capacity (variables e)) k Hc) with (n := n0) (e := e0);
    try assumption; try lia.
  - unfold stops in Hstop. destruct (key e0) as [k0|] eqn:Hk0; [|reflexivity].
    exfalso. apply (Hfree e0). exists (Z.to_nat (probe (capacity (variables e))
                                  (s_hash k mod capacity (variables e)) n0)), k0.
    split; [split; assumption|]. apply same_obj_true. exact Hstop.
  - intros i e1 k1 Hi Hk1. apply (same_bytes_same_obj pool); try assumption.
    eapply (so_keys _ _ _ Hs). split; eassumption.
  - apply Z.mod_pos_bound. assumption.
Qed.

(** The walks of [env_get] and [env_is_const] stop at the innermost scope
    that binds the name. *)
Lemma env_walks_spec (pool : StringPool) (envs : list Environment)
    (k : ObjString) :
  pool_ok pool -> interned pool k ->
  (forall a e, envs !! a = Some e -> scope_ok pool a e) ->
  forall (fuel : nat) (current : option nat),
    (forall a, current = Some a -> (a < fuel)%nat /\ (a < length envs)%nat) ->
    exists r,
      resolves envs k current r
      /\ env_get_walk fuel envs current k
         = Ok (match r with Some (_, _, x) => Some (value x) | None => None end)
      /\ env_is_const_walk fuel envs current k
         = Ok (match r with Some (_, _, x) => is_const x | None => false end).
Proof.
  intros Hp Hk Hscope. induction fuel as [|fuel IH]; intros current Hcur.
  - destruct current as [a|]; [destruct (Hcur a eq_refl); lia|].
    exists None. split; [constructor | split; reflexivity].
  - destruct current as [a|];
      [|exists None; split; [constructor | split; reflexivity]].
    destruct (Hcur a eq_refl) as [Hfuel Hlen]. cbn [env_get_walk env_is_const_walk].
    destruct (lookup_lt_is_Some_2 envs a Hlen) as [e He]. rewrite He.
    pose proof (Hscope a e He) as Hs. pose proof (so_wf _ _ _ Hs) as Hwf.
    pose proof (scope_agrees pool a e k Hp Hs Hk) as Hag.
    destruct (bound_cases (variables e) k Hwf Hag) as [[x Hb]|Hnb].
    + rewrite (table_get_bound _ k x Hwf Hag Hb).
      rewrite (find_entry_const_bound pool a e k x Hp Hs Hk Hb).
      exists (Some (a, e, x)). split; [constructor; assumption|].
      split; reflexivity.
    + rewrite (table_get_unbound _ k Hwf Hnb).
      rewrite (find_entry_const_unbound pool a e k Hp Hs Hk Hnb).
      destruct (IH (enclosing e)) as (r & Hr & Hget & Hconst).
      { intros b Hb. pose proof (so_up _ _ _ Hs b Hb). lia. }
      exists r. split; [eapply resolves_up; eassumption|].
      split; assumption.
Qed.

(** X10.  Name resolution.  In a well-formed store of scopes with room
    for one more string, let [r] be the innermost scope, on the chain of
    enclosing scopes from [env], that binds the interned name.  Then
    [env_get] returns the value bound there and [env_is_const] its const
    flag; when no scope of the chain binds the name, [env_get] fails and
    [env_is_const] returns false.  Both calls return. *)
Theorem env_lookup_spec (pool : StringPool) (envs : list Environment)
    (env : option nat) (name : string) :
  envs_ok pool envs -> Z.of_nat (next_addr pool) < 2 ^ 28 ->
  (forall a, env = Some a -> (a < length envs)%nat) ->
  exists (k : ObjString) (pool' : StringPool)
         (r : option (nat * Environment * TableEntry)),
    string_create pool name = Ok (k, pool') /\ s_chars k = name
    /\ resolves envs k env r
    /\ env_get pool envs env name
       = Ok (match r with Some (_, _, x) => Some (value x) | None => None end,
             pool')
    /\ env_is_const pool envs env name
       = Ok (match r with Some (_, _, x) => is_const x | None => false end,
             pool').
Proof.
  intros Hok Hnext Henv.
  destruct (string_create_returns pool name (eo_pool _ _ Hok) Hnext)
    as (k & pool' & Hk).
  destruct (string_create_inv _ _ _ _ (eo_pool _ _ Hok) Hk)
    as (Hpool' & Hchars & Hint & Hmono).
  destruct (env_walks_spec pool' envs k Hpool' Hint) with
    (fuel := S (length envs)) (current := env) as (r & Hr & Hget & Hconst).
  - intros a e He. eapply scope_ok_mono; [exact Hmono|].
    exact (eo_scope _ _ Hok a e He).
  - intros a Ha. pose proof (Henv a Ha). lia.
  - exists k, pool', r. split; [exact Hk|]. split; [exact Hchars|].
    split; [exact Hr|]. unfold env_get, env_is_const. rewrite Hk.
    cbn [mbind res_mbind res_bind]. rewrite Hget, Hconst. split; reflexivity.
Qed.

Lemma env_lookup_spec_witness :
  exists (k : ObjString) (pool' : StringPool)
         (r : option (nat * Environment * TableEntry)),
    string_create demo_pool "x" = Ok (k, pool') /\ s_chars k = "x"%string
    /\ resolves demo_envs k (Some 1%nat) r
    /\ env_get demo_pool demo_envs (Some 1%nat) "x"
       = Ok (match r with Some (_, _, x) => Some (value x) | None => None end,
             pool')
    /\ env_is_const demo_pool demo_envs (Some 1%nat) "x"
       = Ok (match r with Some (_, _, x) => is_const x | None => false end,
             pool').
Proof.
  apply (env_lookup_spec demo_pool demo_envs (Some 1%nat) "x" demo_envs_ok).
  - vm_compute. reflexivity.
  - intros a [= <-]. vm_compute. lia.
Defined.

(** X11.  Definition of a variable.  In a well-formed store with room,
    [env_define] returns.  It fails, leaving the store as it is, exactly
    when the scope itself already binds the name ([env_get_local] finds
    it), whatever the enclosing scopes bind.  Otherwise it binds the name
    in that scope alone: [env_get] from the scope then returns the new
    value, [env_is_const] the new const flag, and no other scope
    changes. *)
Theorem env_define_spec (pool : StringPool) (envs : list Environment)
    (a : nat) (e : Environment) (name : string) (v : Value) (c : bool) :
  envs_ok pool envs -> small pool envs -> envs !! a = Some e ->
  exists (b : bool) (pool' : StringPool) (envs' : list Environment),
    env_define pool envs a name v c = Ok (b, pool', envs')
    /\ envs_ok pool' envs'
    /\ (b = true <-> env_get_local pool envs a name = Ok (None, pool'))
    /\ (b = false -> envs' = envs)
    /\ (b = true ->
        env_get pool' envs' (Some a) name = Ok (Some v, pool')
        /\ env_is_const pool' envs' (Some a) name = Ok (c, pool')
        /\ forall d : nat, d <> a -> envs' !! d = envs !! d).
Proof.
  intros Hok Hsmall Ha.
  destruct (Interp.env_define_returns pool envs a e name v c Hok Hsmall Ha)
    as (k & pool' & b & envs' & Hk & Hchars & Hdef & Hnew).
  destruct (env_define_ok _ _ _ _ _ _ _ _ _ Hok Hdef) as [Hok' Hlen'].
  destruct (string_create_inv _ _ _ _ (eo_pool _ _ Hok) Hk)
    as (Hpool' & _ & Hint & Hmono).
  assert (Hscope : scope_ok pool' a e)
    by (eapply scope_ok_mono; [exact Hmono | exact (eo_scope _ _ Hok a e Ha)]).
  pose proof (so_wf _ _ _ Hscope) as Hwf.
  pose proof (scope_agrees pool' a e k Hpool' Hscope Hint) as Hag.
  assert (Hlocal : env_get_local pool envs a name
                   = (r ← table_get (variables e) k; Ok (r, pool'))).
  { unfold env_get_local. rewrite Hk. cbn [mbind res_mbind res_bind].
    rewrite Ha. reflexivity. }
  exists b, pool', envs'. split; [exact Hdef|]. split; [exact Hok'|].
  destruct (bound_cases (variables e) k Hwf Hag) as [[x Hx] | Hfree].
  - (* already defined in this scope *)
    assert (Hres : b = false /\ envs' = envs).
    { unfold env_define in Hdef. rewrite Hk in Hdef.
      cbn [mbind res_mbind res_bind] in Hdef. rewrite Ha in Hdef.
      rewrite (table_get_bound _ k x Hwf Hag Hx) in Hdef.
      cbn in Hdef. injection Hdef as <- <-. tauto. }
    destruct Hres as [-> ->].
    rewrite Hlocal, (table_get_bound _ k x Hwf Hag Hx).
    split; [split; discriminate|]. split; [reflexivity | discriminate].
  - destruct (Hnew Hfree) as (-> & t' & -> & Hb & _ & _).
    rewrite Hlocal, (table_get_unbound _ k Hwf Hfree).
    split; [split; reflexivity|]. split; [discriminate|]. intros _.
    set (e' := {| variables := t'; enclosing := enclosing e |}) in *.
    assert (He' : <[a := e']> envs !! a = Some e')
      by (apply list_lookup_insert_eq; eapply lookup_lt_Some, Ha).
    split; [|split].
    + rewrite <- Hchars.
      exact (Interp.env_get_here pool' _ a e' k _ Hok' He' Hint Hb).
    + unfold env_is_const. rewrite <- Hchars.
      rewrite (Cffi.string_create_interned pool' k Hpool' Hint).
      cbn [mbind res_mbind res_bind env_is_const_walk]. rewrite He'.
      rewrite (find_entry_const_bound pool' a e' k _ Hpool'
                 (eo_scope _ _ Hok' a e' He') Hint Hb).
      reflexivity.
    + intros d Hd. apply list_lookup_insert_ne. congruence.
Qed.

Lemma env_define_spec_witness :
  exists (b : bool) (pool' : StringPool) (envs' : list Environment),
    env_define pool_init (snd (env_create [] None)) 0 "x" (INT_VAL 1) true
    = Ok (b, pool', envs')
    /\ envs_ok pool' envs'
    /\ (b = true <->
        env_get_local pool_init (snd (env_create [] None)) 0 "x"
        = Ok (None, pool'))
    /\ (b = false -> envs' = snd (env_create [] None))
    /\ (b = true ->
        env_get pool' envs' (Some 0%nat) "x" = Ok (Some (INT_VAL 1), pool')
        /\ env_is_const pool' envs' (Some 0%nat) "x" = Ok (true, pool')
        /\ forall d : nat, d <> 0%nat ->
             envs' !! d = snd (env_create [] None) !! d).
Proof.
  apply (env_define_spec pool_init (snd (env_create [] None)) 0
           {| variables := table_create; enclosing := None |}
           "x" (INT_VAL 1) true).
  - apply (env_create_ok pool_init [] None envs_ok_init). discriminate.
  - apply smallb_small. vm_compute. reflexivity.
  - reflexivity.
Defined.
End Scopes.


(* ===================================================================== *)
(** * Deferred statements: src/src/interp.c                               *)
(* ===================================================================== *)

Module Defers.
Import Value Env Ast Object Interp.

(** ** The discipline of the defer stack *)

(** [replays w s s']: the events [w], read as pushes and pops, lead from
    the stack [s] to the stack [s']; every pop takes the statement that
    is on top. *)
Inductive replays : list DeferEvent -> list AstNode -> list AstNode -> Prop :=
  | replays_nil s : replays [] s s
  | replays_push x w s s' :
      replays w (x :: s) s' -> replays (Pushed x :: w) s s'
  | replays_ran x w s s' :
      replays w s s' -> replays (Ran x :: w) (x :: s) s'
  | replays_dropped x w s s' :
      replays w s s' -> replays (Dropped x :: w) (x :: s) s'.

Definition is_ran (ev : DeferEvent) : bool :=
  match ev with Ran _ => true | _ => false end.
Definition is_dropped (ev : DeferEvent) : bool :=
  match ev with Dropped _ => true | _ => false end.

(** No deferred statement runs once the error flag is set, and none is
    dropped while it is clear; the flag is never cleared. *)
Definition error_rule (st st' : Interpreter) (w : list DeferEvent) : Prop :=
  (had_error st = true ->
   had_error st' = true /\ Forall (fun ev => is_ran ev = false) w)
  /\ (had_error st' = false -> Forall (fun ev => is_dropped ev = false) w).

(** From [st] to [st'] the defer stack grows by [new]: the events logged
    in between replay from the empty stack to [new], without touching
    the entries that were there. *)
Definition grows (new : list AstNode) (st st' : Interpreter) : Prop :=
  exists w,
    defer_log st' = defer_log st ++ w
    /\ replays w [] new
    /\ defer_stack st' = new ++ defer_stack st
    /\ error_rule st st' w.

(** From [st] to [st'] the entries [top] above [base] are popped, and
    what is pushed in between is popped as well. *)
Definition unwinds (top base : list AstNode) (st st' : Interpreter) : Prop :=
  defer_stack st = top ++ base /\ defer_stack st' = base
  /\ exists w,
       defer_log st' = defer_log st ++ w
       /\ replays w top []
       /\ error_rule st st' w.

Definition quiet (st st' : Interpreter) : Prop := grows [] st st'.
Definition steps (st st' : Interpreter) : Prop := exists new, grows new st st'.

Lemma replays_app (w1 w2 : list DeferEvent) (a b c : list AstNode) :
  replays w1 a b -> replays w2 b c -> replays (w1 ++ w2) a c.
Proof.
  induction 1; intros H2; cbn; [exact H2 | | |]; constructor; auto.
Qed.

Lemma replays_frame (w : list DeferEvent) (a b x : list AstNode) :
  replays w a b -> replays w (a ++ x) (b ++ x).
Proof. induction 1; cbn; constructor; auto. Qed.

Lemma error_rule_nil (st st' : Interpreter) :
  (had_error st = true -> had_error st' = true) -> error_rule st st' [].
Proof. intros H. split; [intros He; split; auto | intros _]; constructor. Qed.

Lemma error_rule_app (st st1 st2 : Interpreter) (w1 w2 : list DeferEvent) :
  error_rule st st1 w1 -> error_rule st1 st2 w2 ->
  error_rule st st2 (w1 ++ w2).
Proof.
  intros [Ha1 Hb1] [Ha2 Hb2]. split.
  - intros He. destruct (Ha1 He) as [He1 Hr1]. destruct (Ha2 He1) as [He2 Hr2].
    split; [exact He2 | apply Forall_app; split; assumption].
  - intros He2. apply Forall_app. split; [|exact (Hb2 He2)].
    apply Hb1. destruct (had_error st1) eqn:E; [|reflexivity].
    destruct (Ha2 eq_refl) as [He2' _]. congruence.
Qed.

Lemma quiet_refl (st : Interpreter) : quiet st st.
Proof.
  exists []. rewrite app_nil_r.
  split; [reflexivity|]. split; [constructor|]. split; [reflexivity|].
  apply error_rule_nil. auto.
Qed.

(** A change of the other fields, the error flag not being cleared. *)
Lemma quiet_inert (st st' : Interpreter) :
  defer_stack st' = defer_stack st -> defer_log st' = defer_log st ->
  (had_error st = true -> had_error st' = true) ->
  quiet st st'.
Proof.
  intros Hs Hl He. exists []. rewrite app_nil_r.
  split; [exact Hl|]. split; [constructor|]. split; [exact Hs|].
  apply error_rule_nil, He.
Qed.

Lemma grows_trans (n1 n2 : list AstNode) (st st1 st2 : Interpreter) :
  grows n1 st st1 -> grows n2 st1 st2 -> grows (n2 ++ n1) st st2.
Proof.
  intros (w1 & Hl1 & Hr1 & Hs1 & He1) (w2 & Hl2 & Hr2 & Hs2 & He2).
  exists (w1 ++ w2). split; [rewrite Hl2, Hl1, app_assoc; reflexivity|].
  split.
  - eapply replays_app; [exact Hr1|].
    apply (replays_frame w2 [] n2 n1) in Hr2. exact Hr2.
  - split; [rewrite Hs2, Hs1, app_assoc; reflexivity|].
    eapply error_rule_app; eassumption.
Qed.

Lemma quiet_trans (st st1 st2 : Interpreter) :
  quiet st st1 -> quiet st1 st2 -> quiet st st2.
Proof. intros H1 H2. exact (grows_trans [] [] st st1 st2 H1 H2). Qed.

Lemma steps_trans (st st1 st2 : Interpreter) :
  steps st st1 -> steps st1 st2 -> steps st st2.
Proof.
  intros [n1 H1] [n2 H2]. exists (n2 ++ n1). eapply grows_trans; eassumption.
Qed.

Lemma quiet_steps (st st' : Interpreter) : quiet st st' -> steps st st'.
Proof. intros H. exists []. exact H. Qed.

Lemma steps_refl (st : Interpreter) : steps st st.
Proof. apply quiet_steps, quiet_refl. Qed.

(** What was pushed since [st] is popped again: the stack is back. *)
Lemma grows_unwinds (new : list AstNode) (st st1 st2 : Interpreter) :
  grows new st st1 -> unwinds new (defer_stack st) st1 st2 -> quiet st st2.
Proof.
  intros (w1 & Hl1 & Hr1 & Hs1 & He1) (_ & Hs2 & w2 & Hl2 & Hr2 & He2).
  exists (w1 ++ w2). split; [rewrite Hl2, Hl1, app_assoc; reflexivity|].
  split; [eapply replays_app; eassumption|].
  split; [exact Hs2|]. eapply error_rule_app; eassumption.
Qed.

Lemma unwinds_nil (base : list AstNode) (st : Interpreter) :
  defer_stack st = base -> unwinds [] base st st.
Proof.
  intros Hs. split; [exact Hs|]. split; [exact Hs|].
  exists []. rewrite app_nil_r. split; [reflexivity|].
  split; [constructor | apply error_rule_nil; auto].
Qed.

(** One round of [pop_defers]: the top entry is popped and logged, its
    statement handed to [exec], and the rest unwound. *)
Lemma unwinds_pop (stmt : AstNode) (rest base new : list AstNode)
    (st st1 st2 st2' st' : Interpreter) (ev : DeferEvent) :
  defer_stack st = stmt :: rest ++ base ->
  ev = (if had_error st then Dropped stmt else Ran stmt) ->
  defer_stack st1 = rest ++ base -> defer_log st1 = defer_log st ++ [ev] ->
  had_error st1 = had_error st ->
  grows new st1 st2 ->
  defer_stack st2' = defer_stack st2 -> defer_log st2' = defer_log st2 ->
  had_error st2' = had_error st2 ->
  unwinds (new ++ rest) base st2' st' ->
  unwinds (stmt :: rest) base st st'.
Proof.
  intros Hs Hev Hs1 Hl1 He1 (w2 & Hl2 & Hr2 & Hs2 & Herr2) Hs2' Hl2' He2'
    (_ & Hs' & w3 & Hl3 & Hr3 & Herr3).
  split; [exact Hs|]. split; [exact Hs'|].
  exists ([ev] ++ w2 ++ w3). split.
  - rewrite Hl3, Hl2', Hl2, Hl1, <- !app_assoc. reflexivity.
  - split.
    + apply (replays_app [ev] (w2 ++ w3) _ rest).
      * subst ev. destruct (had_error st); repeat constructor.
      * eapply replays_app; [|exact Hr3].
        apply (replays_frame w2 [] new rest) in Hr2. exact Hr2.
    + assert (Hpop : error_rule st st1 [ev]).
      { subst ev. split.
        - intros He. rewrite He1, He. split; [reflexivity|].
          repeat constructor.
        - intros He. rewrite He1 in He. rewrite He. repeat constructor. }
      assert (Hmid : error_rule st1 st2' w2).
      { destruct Herr2 as [Ha Hb]. split; rewrite He2'; assumption. }
      eapply error_rule_app; [exact Hpop|].
      eapply error_rule_app; eassumption.
Qed.

(** The callees of the evaluator keep the discipline. *)
Record rec_ok (rec : Rec) : Prop := {
  ok_eval : forall st node v st',
    r_eval rec st node = Ok (v, st') -> quiet st st';
  ok_exec : forall st node st',
    r_exec rec st node = Ok st' -> steps st st';
  ok_while : forall st c b st',
    r_while rec st c b = Ok st' -> steps st st';
  ok_for : forall st arr name body i st',
    r_for rec st arr name body i = Ok st' -> steps st st';
  ok_pop : forall st marker st' top base,
    defer_stack st = top ++ base -> length base = marker ->
    r_pop rec st marker = Ok st' -> unwinds top base st st'
}.

(** The state under the setters that leave the defer fields alone. *)
Ltac base_state s :=
  lazymatch s with
  | set_pool ?s' _ => base_state s'
  | set_envs ?s' _ => base_state s'
  | set_heap ?s' _ => base_state s'
  | set_current ?s' _ => base_state s'
  | set_last_value ?s' _ => base_state s'
  | set_return_value ?s' _ => base_state s'
  | set_flags ?s' _ _ _ => base_state s'
  | set_returning ?s' _ => base_state s'
  | set_breaking ?s' _ => base_state s'
  | set_continuing ?s' _ => base_state s'
  | runtime_error ?s' _ _ => base_state s'
  | (if _ then ?s1 else _) => base_state s1
  | _ => s
  end.

Ltac inert :=
  apply quiet_inert;
  [ reflexivity | reflexivity
  | first [ intros _; reflexivity | exact (fun h => h) ] ].

Ltac solve_quiet :=
  first
    [ apply quiet_refl
    | inert
    | lazymatch goal with
      | |- quiet ?a ?b =>
          let d := base_state b in
          lazymatch goal with
          | H : quiet ?c d |- _ =>
              apply (quiet_trans a d b);
              [ apply (quiet_trans a c d); [solve_quiet | exact H] | inert ]
          end
      end ].

Ltac solve_steps :=
  first
    [ apply quiet_steps; solve_quiet
    | lazymatch goal with
      | |- steps ?a ?b =>
          let d := base_state b in
          lazymatch goal with
          | H : steps ?c d |- _ =>
              apply (steps_trans a d b);
              [ apply (steps_trans a c d); [solve_steps | exact H]
              | apply quiet_steps; inert ]
          | H : quiet ?c d |- _ =>
              apply (steps_trans a d b);
              [ apply (steps_trans a c d);
                [solve_steps | apply quiet_steps; exact H]
              | apply quiet_steps; inert ]
          end
      end ].

(** Case analysis of a returning call, down to the calls of the callees. *)
Ltac dest_step :=
  match goal with
  | H : Ok _ = Ok _ |- _ => injection H as ?; subst
  | H : Hang = Ok _ |- _ => discriminate H
  | H : Fault = Ok _ |- _ => discriminate H
  | H : (_, _) = (_, _) |- _ => injection H as ?; subst
  | H : mbind _ ?m = Ok _ |- _ =>
      destruct m eqn:?; cbn [mbind res_mbind res_bind] in H
  | H : (match ?x with _ => _ end) = Ok _ |- _ => destruct x eqn:?
  | H : (if ?x then _ else _) = Ok _ |- _ => destruct x eqn:?
  end.

Ltac dest := repeat dest_step.

Section discipline.
Variable W : World.
Variable rec : Rec.
Hypothesis Hrec : rec_ok rec.

Ltac use_rec :=
  repeat match goal with
    | H : r_eval rec _ _ = Ok (_, _) |- _ => apply (ok_eval rec Hrec) in H
    | H : r_exec rec _ _ = Ok _ |- _ => apply (ok_exec rec Hrec) in H
    | H : r_while rec _ _ _ = Ok _ |- _ => apply (ok_while rec Hrec) in H
    | H : r_for rec _ _ _ _ _ = Ok _ |- _ => apply (ok_for rec Hrec) in H
    end.

Lemma binary_int_quiet (st : Interpreter) (l : Z) (op : TokenType) (x y : Z)
    (v : Value) (st' : Interpreter) :
  binary_int st l op x y = Ok (v, st') -> quiet st st'.
Proof. unfold binary_int. intros H. destruct op; dest; solve_quiet. Qed.

Lemma binary_float_quiet (st : Interpreter) (l : Z) (op : TokenType)
    (x y : float) (v : Value) (st' : Interpreter) :
  binary_float W st l op x y = (v, st') -> quiet st st'.
Proof.
  unfold binary_float. intros H.
  destruct op; repeat match goal with
    | H : (if ?b then _ else _) = _ |- _ => destruct b
    | H : (_, _) = (_, _) |- _ => injection H as ?; subst
    end; solve_quiet.
Qed.

Lemma eval_unary_quiet (st : Interpreter) (p : Pos) (op : TokenType)
    (operand : AstNode) (v : Value) (st' : Interpreter) :
  eval_unary rec st p op operand = Ok (v, st') -> quiet st st'.
Proof.
  unfold eval_unary. intros H. dest; use_rec; solve_quiet.
Qed.

Lemma eval_binary_quiet (st : Interpreter) (p : Pos) (op : TokenType)
    (l r : AstNode) (v : Value) (st' : Interpreter) :
  eval_binary W rec st p op l r = Ok (v, st') -> quiet st st'.
Proof.
  unfold eval_binary. intros H. dest; use_rec;
    repeat match goal with
      | H : binary_int _ _ _ _ _ = Ok _ |- _ => apply binary_int_quiet in H
      | H : binary_float _ _ _ _ _ _ = _ |- _ => apply binary_float_quiet in H
      end;
    solve_quiet.
Qed.

Lemma eval_args_quiet (args : list AstNode) :
  forall (st : Interpreter) (vs : option (list Value)) (st' : Interpreter),
    eval_args rec st args = Ok (vs, st') -> quiet st st'.
Proof.
  induction args as [|a args IH]; intros st vs st' H; cbn [eval_args] in H.
  - dest. solve_quiet.
  - dest; use_rec;
      repeat match goal with
        | H : eval_args rec _ _ = Ok _ |- _ => apply IH in H
        end;
      solve_quiet.
Qed.

Lemma bind_params_quiet (params : list string) :
  forall (st : Interpreter) (fn_env : nat) (args : list Value)
         (st' : Interpreter),
    bind_params st fn_env params args = Ok st' -> quiet st st'.
Proof.
  induction params as [|name params IH]; intros st fn_env args st' H;
    cbn [bind_params] in H.
  - dest. solve_quiet.
  - destruct args as [|v args]; [discriminate H|].
    dest.
    match goal with
    | H : bind_params _ _ _ _ = Ok _ |- _ => apply IH in H
    end.
    solve_quiet.
Qed.

Lemma pop_defers_unwinds (st : Interpreter) (marker : nat)
    (st' : Interpreter) (top base : list AstNode) :
  defer_stack st = top ++ base -> length base = marker ->
  pop_defers rec st marker = Ok st' -> unwinds top base st st'.
Proof.
  intros Hs Hm H. unfold pop_defers in H.
  destruct (Nat.eqb_spec (length (defer_stack st)) marker) as [Heq|Hne].
  - injection H as <-.
    assert (top = []) as ->.
    { rewrite Hs, length_app in Heq. destruct top; [reflexivity|].
      cbn in Heq. lia. }
    apply unwinds_nil. exact Hs.
  - destruct top as [|stmt rest].
    { rewrite Hs in Hne. cbn in Hne. congruence. }
    rewrite Hs in H. cbn [app] in H.
    dest.
    match goal with
    | H : r_exec rec _ _ = Ok ?a |- _ =>
        apply (ok_exec rec Hrec) in H; destruct H as [new Hg]
    end.
    assert (Hstack : defer_stack a = new ++ rest ++ base).
    { destruct Hg as (w & _ & _ & Hstack & _). exact Hstack. }
    match goal with
    | H : r_pop rec ?s _ = Ok _ |- _ =>
        pose proof (ok_pop rec Hrec s marker st' (new ++ rest) base) as Hpop
    end.
    cbn [defer_stack set_flags] in Hpop. rewrite <- app_assoc in Hpop.
    specialize (Hpop Hstack Hm H).
    eapply (unwinds_pop stmt rest base new st); try exact Hpop;
      try exact Hg; try reflexivity.
    exact Hs.
Qed.

Lemma eval_call_quiet (st : Interpreter) (p : Pos) (callee : AstNode)
    (arguments : list AstNode) (v : Value) (st' : Interpreter) :
  eval_call W rec st p callee arguments = Ok (v, st') -> quiet st st'.
Proof.
  unfold eval_call. intros H. dest; use_rec;
    repeat match goal with
      | H : eval_args rec _ _ = Ok _ |- _ => apply eval_args_quiet in H
      | H : bind_params _ _ _ _ = Ok _ |- _ => apply bind_params_quiet in H
      end;
    try solve_quiet.
  (* a script function: the body, then its defers *)
  all: match goal with
       | Hb : steps ?s0 ?s1, Hp : pop_defers rec ?s1 _ = Ok ?s2 |- _ =>
           let new := fresh "new" in
           let Hg := fresh "Hg" in
           let Hu := fresh "Hu" in
           destruct Hb as [new Hg];
           assert (Hu : unwinds new (defer_stack s0) s1 s2);
           [ apply (pop_defers_unwinds s1 (length (defer_stack s0)) s2 new
                      (defer_stack s0));
             [ destruct Hg as (? & _ & _ & Hstack & _); exact Hstack
             | reflexivity | exact Hp ]
           | pose proof (grows_unwinds new s0 s1 s2 Hg Hu) ]
       end.
  all: solve_quiet.
Qed.

Lemma eval_elements_quiet (elements : list AstNode) :
  forall (st : Interpreter) (arr : nat) (ok : bool) (st' : Interpreter),
    eval_elements rec st arr elements = Ok (ok, st') -> quiet st st'.
Proof.
  induction elements as [|e elements IH]; intros st arr ok st' H;
    cbn [eval_elements] in H.
  - dest. solve_quiet.
  - dest; use_rec;
      repeat match goal with
        | H : eval_elements rec _ _ _ = Ok _ |- _ => apply IH in H
        end;
      solve_quiet.
Qed.

Lemma eval_fields_quiet (fields : list (string * AstNode)) :
  forall (st : Interpreter) (table : nat) (ok : bool) (st' : Interpreter),
    eval_fields rec st table fields = Ok (ok, st') -> quiet st st'.
Proof.
  induction fields as [|[name e] fields IH]; intros st table ok st' H;
    cbn [eval_fields] in H.
  - dest. solve_quiet.
  - dest; use_rec;
      repeat match goal with
        | H : eval_fields rec _ _ _ = Ok _ |- _ => apply IH in H
        end;
      solve_quiet.
Qed.

Lemma eval_quiet (st : Interpreter) (node : AstNode) (v : Value)
    (st' : Interpreter) :
  eval W rec st node = Ok (v, st') -> quiet st st'.
Proof.
  unfold eval. intros H.
  destruct (had_error st); [dest; solve_quiet|].
  destruct node;
    try (apply eval_binary_quiet in H; exact H);
    try (apply eval_unary_quiet in H; exact H);
    try (apply eval_call_quiet in H; exact H);
    dest; use_rec;
    repeat match goal with
      | H : eval_elements rec _ _ _ = Ok _ |- _ => apply eval_elements_quiet in H
      | H : eval_fields rec _ _ _ = Ok _ |- _ => apply eval_fields_quiet in H
      end;
    solve_quiet.
Qed.

Lemma exec_statements_steps (stmts : list AstNode) :
  forall (st st' : Interpreter),
    exec_statements rec st stmts = Ok st' -> steps st st'.
Proof.
  induction stmts as [|s stmts IH]; intros st st' H;
    cbn [exec_statements] in H.
  - dest. solve_steps.
  - dest; use_rec;
      repeat match goal with
        | H : exec_statements rec _ _ = Ok _ |- _ => apply IH in H
        end;
      solve_steps.
Qed.

Lemma exec_program_statements_steps (stmts : list AstNode) :
  forall (st st' : Interpreter),
    exec_program_statements rec st stmts = Ok st' -> steps st st'.
Proof.
  induction stmts as [|s stmts IH]; intros st st' H;
    cbn [exec_program_statements] in H.
  - dest. solve_steps.
  - dest; use_rec;
      repeat match goal with
        | H : exec_program_statements rec _ _ = Ok _ |- _ => apply IH in H
        end;
      solve_steps.
Qed.

(** A block leaves the defer stack as it found it. *)
Lemma exec_block_quiet (st : Interpreter) (stmts : list AstNode)
    (st' : Interpreter) :
  exec_block rec st stmts = Ok st' -> quiet st st'.
Proof.
  unfold exec_block. intros H. dest.
  match goal with
  | H : exec_statements rec _ _ = Ok _ |- _ => apply exec_statements_steps in H
  end.
  match goal with
  | Hb : steps ?s0 ?s1, Hp : pop_defers rec ?s1 _ = Ok ?s2 |- _ =>
      let new := fresh "new" in
      let Hg := fresh "Hg" in
      let Hu := fresh "Hu" in
      destruct Hb as [new Hg];
      assert (Hu : unwinds new (defer_stack s0) s1 s2);
      [ apply (pop_defers_unwinds s1 (length (defer_stack s0)) s2 new
                 (defer_stack s0));
        [ destruct Hg as (? & _ & _ & Hstack & _); exact Hstack
        | reflexivity | exact Hp ]
      | pose proof (grows_unwinds new s0 s1 s2 Hg Hu) ]
  end.
  solve_quiet.
Qed.

Lemma exec_if_steps (st : Interpreter) (c t e : AstNode) (st' : Interpreter) :
  exec_if rec st c t e = Ok st' -> steps st st'.
Proof. unfold exec_if. intros H. dest; use_rec; solve_steps. Qed.

Lemma loop_next_steps (st : Interpreter)
    (again : Interpreter -> res Interpreter) (st' : Interpreter) :
  (forall s s', again s = Ok s' -> steps s s') ->
  loop_next st again = Ok st' -> steps st st'.
Proof.
  intros Hagain H. unfold loop_next in H.
  destruct (returning st), (breaking st), (continuing st); dest;
    try solve_steps.
  all: match goal with
       | H : ?f _ = Ok _ |- _ => is_var f; apply Hagain in H
       end.
  all: solve_steps.
Qed.

Lemma exec_while_steps (st : Interpreter) (c b : AstNode) (st' : Interpreter) :
  exec_while rec st c b = Ok st' -> steps st st'.
Proof.
  unfold exec_while. intros H. dest; use_rec; try solve_steps.
  all: match goal with
       | H : loop_next _ _ = Ok _ |- _ =>
           apply loop_next_steps in H;
             [| intros ? ? Hloop; exact (ok_while rec Hrec _ _ _ _ Hloop)]
       end.
  all: solve_steps.
Qed.

Lemma exec_for_loop_steps (st : Interpreter) (arr : nat) (name : string)
    (body : AstNode) (i : Z) (st' : Interpreter) :
  exec_for_loop rec st arr name body i = Ok st' -> steps st st'.
Proof.
  unfold exec_for_loop. intros H. dest; use_rec; try solve_steps.
  all: match goal with
       | H : loop_next _ _ = Ok _ |- _ =>
           apply loop_next_steps in H;
             [| intros ? ? Hloop; exact (ok_for rec Hrec _ _ _ _ _ _ Hloop)]
       end.
  all: solve_steps.
Qed.

Lemma exec_for_steps (st : Interpreter) (p : Pos) (name : string)
    (iterable body : AstNode) (st' : Interpreter) :
  exec_for rec st p name iterable body = Ok st' -> steps st st'.
Proof.
  unfold exec_for. intros H. dest; use_rec;
    repeat match goal with
      | H : exec_for_loop rec _ _ _ _ _ = Ok _ |- _ =>
          apply exec_for_loop_steps in H
      end;
    solve_steps.
Qed.

Lemma exec_match_arms_steps (arms : list (AstNode * AstNode)) :
  forall (st : Interpreter) (v : Value) (st' : Interpreter),
    exec_match_arms rec st v arms = Ok st' -> steps st st'.
Proof.
  induction arms as [|[pattern body] arms IH]; intros st v st' H;
    cbn [exec_match_arms] in H.
  - dest. solve_steps.
  - dest; use_rec;
      repeat match goal with
        | H : exec_match_arms rec _ _ _ = Ok _ |- _ => apply IH in H
        end;
      solve_steps.
Qed.

Lemma exec_assign_steps (st : Interpreter) (p : Pos) (target : AstNode)
    (v : Value) (st' : Interpreter) :
  exec_assign rec st p target v = Ok st' -> steps st st'.
Proof.
  unfold exec_assign. intros H.
  destruct target; dest; use_rec; solve_steps.
Qed.

Lemma push_defer_steps (st : Interpreter) (stmt : AstNode) :
  steps st (push_defer st stmt).
Proof.
  exists [stmt], [Pushed stmt]. split; [reflexivity|].
  split; [repeat constructor|]. split; [reflexivity|].
  split; [intros He; split; [exact He | repeat constructor]
         | intros _; repeat constructor].
Qed.

Lemma exec_steps (st : Interpreter) (node : AstNode) (st' : Interpreter) :
  exec W rec st node = Ok st' -> steps st st'.
Proof.
  unfold exec. intros H.
  destruct (had_error st); [dest; solve_steps|].
  destruct (returning st || breaking st || continuing st);
    [dest; solve_steps|].
  destruct node;
    try (apply exec_assign_steps in H; exact H);
    try (apply exec_block_quiet in H; apply quiet_steps; exact H);
    try (apply exec_program_statements_steps in H; exact H);
    try (apply exec_if_steps in H; exact H);
    try (apply exec_while_steps in H; exact H);
    try (apply exec_for_steps in H; exact H);
    try (injection H as <-; apply push_defer_steps);
    dest; use_rec;
    repeat match goal with
      | H : exec_assign rec _ _ _ _ = Ok _ |- _ => apply exec_assign_steps in H
      | H : exec_match_arms rec _ _ _ = Ok _ |- _ =>
          apply exec_match_arms_steps in H
      end;
    solve_steps.
Qed.

Lemma exec_block_node_quiet (st : Interpreter) (p : Pos)
    (stmts : list AstNode) (st' : Interpreter) :
  exec W rec st (NODE_BLOCK p stmts) = Ok st' -> quiet st st'.
Proof.
  unfold exec. intros H.
  destruct (had_error st); [injection H as <-; apply quiet_refl|].
  destruct (returning st || breaking st || continuing st);
    [injection H as <-; apply quiet_refl|].
  apply exec_block_quiet in H. exact H.
Qed.

End discipline.

(** The evaluator keeps the discipline at every recursion budget. *)
Lemma interp_rec_ok (W : World) (fuel : nat) : rec_ok (interp_rec W fuel).
Proof.
  induction fuel as [|fuel IH].
  - split; intros; discriminate.
  - rewrite interp_rec_S. split; cbn [r_eval r_exec r_while r_for r_pop].
    + intros st node v st'. apply (eval_quiet W _ IH).
    + intros st node st'. apply (exec_steps W _ IH).
    + intros st c b st'. apply (exec_while_steps _ IH).
    + intros st arr name body i st'. apply (exec_for_loop_steps _ IH).
    + intros st marker st' top base. apply (pop_defers_unwinds _ IH).
Qed.

(** A block that defers two statements, a call of a function whose body
    defers one before it returns, and a statement that is a [defer]. *)
Definition demo_defers : AstNode :=
  NODE_BLOCK at1
    [NODE_DEFER at1 (NODE_EXPR_STMT at1 (NODE_LITERAL_INT at1 1));
     NODE_DEFER at1 (NODE_EXPR_STMT at1 (NODE_LITERAL_INT at1 2))].

Definition demo_deferring_call : AstNode :=
  NODE_CALL at1
    (NODE_LAMBDA at1 []
       (NODE_BLOCK at1
          [NODE_DEFER at1 (NODE_EXPR_STMT at1 (NODE_LITERAL_INT at1 1));
           NODE_RETURN at1 (NODE_LITERAL_INT at1 7)]))
    [].

Definition demo_defer : AstNode :=
  NODE_DEFER at1 (NODE_EXPR_STMT at1 (NODE_LITERAL_INT at1 1)).

Definition demo_deferred : res Interpreter :=
  Eval vm_compute in exec_at bare_world 5 blank demo_defers.

Definition demo_called : res (Value * Interpreter) :=
  Eval vm_compute in eval_at bare_world 8 blank demo_deferring_call.

Definition demo_pushed : res Interpreter :=
  Eval vm_compute in exec_at bare_world 5 blank demo_defer.

Definition outcome {A : Type} (r : res A) (d : A) : A :=
  match r with Ok a => a | _ => d end.

Example demo_deferred_log :
  defer_log (outcome demo_deferred blank)
  = [Pushed (NODE_EXPR_STMT at1 (NODE_LITERAL_INT at1 1));
     Pushed (NODE_EXPR_STMT at1 (NODE_LITERAL_INT at1 2));
     Ran (NODE_EXPR_STMT at1 (NODE_LITERAL_INT at1 2));
     Ran (NODE_EXPR_STMT at1 (NODE_LITERAL_INT at1 1))].
Proof. reflexivity. Qed.

(** X12. When a block returns, the defer stack is what it was when the
    block was entered, and what happened to the stack in between replays
    from the empty stack to the empty stack: every statement deferred
    inside the block, or inside anything the block ran, was popped exactly
    once, last deferred first, and no entry that was already there was
    touched.  An error flag that was set is still set. *)
Theorem block_defers (W : World) (fuel : nat) (st : Interpreter) (p : Pos)
    (statements : list AstNode) (st' : Interpreter) :
  exec_at W fuel st (NODE_BLOCK p statements) = Ok st' ->
  defer_stack st' = defer_stack st
  /\ exists w, defer_log st' = defer_log st ++ w
       /\ replays w [] []
       /\ error_rule st st' w.
Proof.
  intros H. destruct fuel as [|fuel]; [discriminate|].
  rewrite exec_at_S in H.
  apply (exec_block_node_quiet W _ (interp_rec_ok W fuel)) in H.
  destruct H as (w & Hlog & Hw & Hstack & Hrule).
  split; [exact Hstack|]. exists w. auto.
Qed.

Lemma block_defers_witness :
  exec_at bare_world 5 blank demo_defers = demo_deferred
  /\ defer_stack (outcome demo_deferred blank) = defer_stack blank
  /\ exists w,
       defer_log (outcome demo_deferred blank) = defer_log blank ++ w
       /\ replays w [] []
       /\ error_rule blank (outcome demo_deferred blank) w.
Proof.
  split; [vm_compute; reflexivity|].
  apply (block_defers bare_world 5 blank at1
           [NODE_DEFER at1 (NODE_EXPR_STMT at1 (NODE_LITERAL_INT at1 1));
            NODE_DEFER at1 (NODE_EXPR_STMT at1 (NODE_LITERAL_INT at1 2))]).
  vm_compute; reflexivity.
Defined.

(** X13. Evaluating an expression leaves the defer stack as it found it:
    a call of a script function pops, before it returns, every statement
    its body deferred, exactly once and last deferred first, and touches
    no entry of its caller.  An error flag that was set is still set. *)
Theorem call_defers (W : World) (fuel : nat) (st : Interpreter)
    (node : AstNode) (v : Value) (st' : Interpreter) :
  eval_at W fuel st node = Ok (v, st') ->
  defer_stack st' = defer_stack st
  /\ exists w, defer_log st' = defer_log st ++ w
       /\ replays w [] []
       /\ error_rule st st' w.
Proof.
  intros H. apply (ok_eval _ (interp_rec_ok W fuel)) in H.
  destruct H as (w & Hlog & Hw & Hstack & Hrule).
  split; [exact Hstack|]. exists w. auto.
Qed.

Lemma call_defers_witness :
  eval_at bare_world 8 blank demo_deferring_call = demo_called
  /\ fst (outcome demo_called (NIL_VAL, blank)) = INT_VAL 7
  /\ defer_stack (snd (outcome demo_called (NIL_VAL, blank)))
     = defer_stack blank
  /\ exists w,
       defer_log (snd (outcome demo_called (NIL_VAL, blank)))
       = defer_log blank ++ w
       /\ replays w [] []
       /\ error_rule blank (snd (outcome demo_called (NIL_VAL, blank))) w.
Proof.
  split; [vm_compute; reflexivity|]. split; [vm_compute; reflexivity|].
  apply (call_defers bare_world 8 blank demo_deferring_call (INT_VAL 7)).
  vm_compute; reflexivity.
Defined.

(** X14. A statement never pops or runs a deferred statement that was on
    the stack before it: when it returns, the stack is the old one with
    the statements it deferred itself on top, and the events in between
    replay from the empty stack to exactly these.  Only [defer] outside a
    block leaves such entries. *)
Theorem statement_defers (W : World) (fuel : nat) (st : Interpreter)
    (node : AstNode) (st' : Interpreter) :
  exec_at W fuel st node = Ok st' ->
  exists new w,
    defer_stack st' = new ++ defer_stack st
    /\ defer_log st' = defer_log st ++ w
    /\ replays w [] new
    /\ error_rule st st' w.
Proof.
  intros H. apply (ok_exec _ (interp_rec_ok W fuel)) in H.
  destruct H as (new & w & Hlog & Hw & Hstack & Hrule).
  exists new, w. auto.
Qed.

Lemma statement_defers_witness :
  exec_at bare_world 5 blank demo_defer = demo_pushed
  /\ exists new w,
       defer_stack (outcome demo_pushed blank) = new ++ defer_stack blank
       /\ defer_log (outcome demo_pushed blank) = defer_log blank ++ w
       /\ replays w [] new
       /\ error_rule blank (outcome demo_pushed blank) w.
Proof.
  split; [vm_compute; reflexivity|].
  apply (statement_defers bare_world 5 blank demo_defer).
  vm_compute; reflexivity.
Defined.
End Defers.


(* ===================================================================== *)
(** * Lexical scopes of blocks, loops and calls: src/src/interp.c         *)
(* ===================================================================== *)

Module Lexical.
Import Value Env Ast Object Interp Defers.

(** ** The current scope is restored *)

(** From [st] to [st'] the current scope and the global scope are the
    same. *)
Definition kept (st st' : Interpreter) : Prop :=
  current st' = current st /\ global st' = global st.

(** The callees of the evaluator restore the scope. *)
Record rec_kept (rec : Rec) : Prop := {
  kept_eval : forall st node v st',
    r_eval rec st node = Ok (v, st') -> kept st st';
  kept_exec : forall st node st',
    r_exec rec st node = Ok st' -> kept st st';
  kept_while : forall st c b st',
    r_while rec st c b = Ok st' -> kept st st';
  kept_for : forall st arr name body i st',
    r_for rec st arr name body i = Ok st' -> kept st st';
  kept_pop : forall st marker st',
    r_pop rec st marker = Ok st' -> kept st st'
}.

Ltac solve_kept :=
  repeat match goal with
    | H : kept _ _ |- _ => destruct H as [? ?]
    end;
  repeat match goal with
    | H : current _ = current _ |- _ =>
        progress cbn [current global set_current set_return_value
                      set_last_value set_flags set_returning set_breaking
                      set_continuing set_defers set_pool set_envs set_heap
                      runtime_error push_defer] in H
    | H : global _ = global _ |- _ =>
        progress cbn [current global set_current set_return_value
                      set_last_value set_flags set_returning set_breaking
                      set_continuing set_defers set_pool set_envs set_heap
                      runtime_error push_defer] in H
    end;
  split;
  cbn [current global set_current set_return_value
       set_last_value set_flags set_returning set_breaking
       set_continuing set_defers set_pool set_envs set_heap
       runtime_error push_defer];
  congruence.

Section scoping.
Variable W : World.
Variable rec : Rec.
Hypothesis Hrec : rec_kept rec.

Ltac use_rec :=
  repeat match goal with
    | H : r_eval rec _ _ = Ok (_, _) |- _ => apply (kept_eval rec Hrec) in H
    | H : r_exec rec _ _ = Ok _ |- _ => apply (kept_exec rec Hrec) in H
    | H : r_while rec _ _ _ = Ok _ |- _ => apply (kept_while rec Hrec) in H
    | H : r_for rec _ _ _ _ _ = Ok _ |- _ => apply (kept_for rec Hrec) in H
    | H : r_pop rec _ _ = Ok _ |- _ => apply (kept_pop rec Hrec) in H
    end.

Lemma binary_int_kept (st : Interpreter) (l : Z) (op : TokenType) (x y : Z)
    (v : Value) (st' : Interpreter) :
  binary_int st l op x y = Ok (v, st') -> kept st st'.
Proof. unfold binary_int. intros H. destruct op; dest; solve_kept. Qed.

Lemma binary_float_kept (st : Interpreter) (l : Z) (op : TokenType)
    (x y : float) (v : Value) (st' : Interpreter) :
  binary_float W st l op x y = (v, st') -> kept st st'.
Proof.
  unfold binary_float. intros H.
  destruct op; repeat match goal with
    | H : (if ?b then _ else _) = _ |- _ => destruct b
    | H : (_, _) = (_, _) |- _ => injection H as ?; subst
    end; solve_kept.
Qed.

Lemma eval_unary_kept (st : Interpreter) (p : Pos) (op : TokenType)
    (operand : AstNode) (v : Value) (st' : Interpreter) :
  eval_unary rec st p op operand = Ok (v, st') -> kept st st'.
Proof. unfold eval_unary. intros H. dest; use_rec; solve_kept. Qed.

Lemma eval_binary_kept (st : Interpreter) (p : Pos) (op : TokenType)
    (l r : AstNode) (v : Value) (st' : Interpreter) :
  eval_binary W rec st p op l r = Ok (v, st') -> kept st st'.
Proof.
  unfold eval_binary. intros H. dest; use_rec;
    repeat match goal with
      | H : binary_int _ _ _ _ _ = Ok _ |- _ => apply binary_int_kept in H
      | H : binary_float _ _ _ _ _ _ = _ |- _ => apply binary_float_kept in H
      end;
    solve_kept.
Qed.

Lemma eval_args_kept (args : list AstNode) :
  forall (st : Interpreter) (vs : option (list Value)) (st' : Interpreter),
    eval_args rec st args = Ok (vs, st') -> kept st st'.
Proof.
  induction args as [|a args IH]; intros st vs st' H; cbn [eval_args] in H.
  - dest. solve_kept.
  - dest; use_rec;
      repeat match goal with
        | H : eval_args rec _ _ = Ok _ |- _ => apply IH in H
        end;
      solve_kept.
Qed.

Lemma bind_params_kept (params : list string) :
  forall (st : Interpreter) (fn_env : nat) (args : list Value)
         (st' : Interpreter),
    bind_params st fn_env params args = Ok st' -> kept st st'.
Proof.
  induction params as [|name params IH]; intros st fn_env args st' H;
    cbn [bind_params] in H.
  - dest. solve_kept.
  - destruct args as [|v args]; [discriminate H|].
    dest.
    match goal with
    | H : bind_params _ _ _ _ = Ok _ |- _ => apply IH in H
    end.
    solve_kept.
Qed.

Lemma pop_defers_kept (st : Interpreter) (marker : nat) (st' : Interpreter) :
  pop_defers rec st marker = Ok st' -> kept st st'.
Proof. unfold pop_defers. intros H. dest; use_rec; solve_kept. Qed.

(** A call runs the body in the scope of the function and comes back to
    the scope of the caller. *)
Lemma eval_call_kept (st : Interpreter) (p : Pos) (callee : AstNode)
    (arguments : list AstNode) (v : Value) (st' : Interpreter) :
  eval_call W rec st p callee arguments = Ok (v, st') -> kept st st'.
Proof.
  unfold eval_call. intros H. dest; use_rec;
    repeat match goal with
      | H : eval_args rec _ _ = Ok _ |- _ => apply eval_args_kept in H
      | H : bind_params _ _ _ _ = Ok _ |- _ => apply bind_params_kept in H
      | H : pop_defers rec _ _ = Ok _ |- _ => apply pop_defers_kept in H
      end;
    solve_kept.
Qed.

Lemma eval_elements_kept (elements : list AstNode) :
  forall (st : Interpreter) (arr : nat) (ok : bool) (st' : Interpreter),
    eval_elements rec st arr elements = Ok (ok, st') -> kept st st'.
Proof.
  induction elements as [|e elements IH]; intros st arr ok st' H;
    cbn [eval_elements] in H.
  - dest. solve_kept.
  - dest; use_rec;
      repeat match goal with
        | H : eval_elements rec _ _ _ = Ok _ |- _ => apply IH in H
        end;
      solve_kept.
Qed.

Lemma eval_fields_kept (fields : list (string * AstNode)) :
  forall (st : Interpreter) (table : nat) (ok : bool) (st' : Interpreter),
    eval_fields rec st table fields = Ok (ok, st') -> kept st st'.
Proof.
  induction fields as [|[name e] fields IH]; intros st table ok st' H;
    cbn [eval_fields] in H.
  - dest. solve_kept.
  - dest; use_rec;
      repeat match goal with
        | H : eval_fields rec _ _ _ = Ok _ |- _ => apply IH in H
        end;
      solve_kept.
Qed.

Lemma eval_kept (st : Interpreter) (node : AstNode) (v : Value)
    (st' : Interpreter) :
  eval W rec st node = Ok (v, st') -> kept st st'.
Proof.
  unfold eval. intros H.
  destruct (had_error st); [dest; solve_kept|].
  destruct node;
    try (apply eval_binary_kept in H; exact H);
    try (apply eval_unary_kept in H; exact H);
    try (apply eval_call_kept in H; exact H);
    dest; use_rec;
    repeat match goal with
      | H : eval_elements rec _ _ _ = Ok _ |- _ => apply eval_elements_kept in H
      | H : eval_fields rec _ _ _ = Ok _ |- _ => apply eval_fields_kept in H
      end;
    solve_kept.
Qed.

Lemma exec_statements_kept (stmts : list AstNode) :
  forall (st st' : Interpreter),
    exec_statements rec st stmts = Ok st' -> kept st st'.
Proof.
  induction stmts as [|s stmts IH]; intros st st' H;
    cbn [exec_statements] in H.
  - dest. solve_kept.
  - dest; use_rec;
      repeat match goal with
        | H : exec_statements rec _ _ = Ok _ |- _ => apply IH in H
        end;
      solve_kept.
Qed.

Lemma exec_program_statements_kept (stmts : list AstNode) :
  forall (st st' : Interpreter),
    exec_program_statements rec st stmts = Ok st' -> kept st st'.
Proof.
  induction stmts as [|s stmts IH]; intros st st' H;
    cbn [exec_program_statements] in H.
  - dest. solve_kept.
  - dest; use_rec;
      repeat match goal with
        | H : exec_program_statements rec _ _ = Ok _ |- _ => apply IH in H
        end;
      solve_kept.
Qed.

(** A block runs its statements in a scope of its own and comes back to
    the scope it was entered from. *)
Lemma exec_block_kept (st : Interpreter) (stmts : list AstNode)
    (st' : Interpreter) :
  exec_block rec st stmts = Ok st' -> kept st st'.
Proof.
  unfold exec_block. intros H. dest.
  repeat match goal with
    | H : exec_statements rec _ _ = Ok _ |- _ => apply exec_statements_kept in H
    | H : pop_defers rec _ _ = Ok _ |- _ => apply pop_defers_kept in H
    end.
  solve_kept.
Qed.

Lemma exec_if_kept (st : Interpreter) (c t e : AstNode) (st' : Interpreter) :
  exec_if rec st c t e = Ok st' -> kept st st'.
Proof. unfold exec_if. intros H. dest; use_rec; solve_kept. Qed.

Lemma loop_next_kept (st : Interpreter)
    (again : Interpreter -> res Interpreter) (st' : Interpreter) :
  (forall s s', again s = Ok s' -> kept s s') ->
  loop_next st again = Ok st' -> kept st st'.
Proof.
  intros Hagain H. unfold loop_next in H.
  destruct (returning st), (breaking st), (continuing st); dest;
    try solve_kept.
  all: match goal with
       | H : ?f _ = Ok _ |- _ => is_var f; apply Hagain in H
       end.
  all: solve_kept.
Qed.

Lemma exec_while_kept (st : Interpreter) (c b : AstNode) (st' : Interpreter) :
  exec_while rec st c b = Ok st' -> kept st st'.
Proof.
  unfold exec_while. intros H. dest; use_rec; try solve_kept.
  all: match goal with
       | H : loop_next _ _ = Ok _ |- _ =>
           apply loop_next_kept in H;
             [| intros ? ? Hloop; exact (kept_while rec Hrec _ _ _ _ Hloop)]
       end.
  all: solve_kept.
Qed.

Lemma exec_for_loop_kept (st : Interpreter) (arr : nat) (name : string)
    (body : AstNode) (i : Z) (st' : Interpreter) :
  exec_for_loop rec st arr name body i = Ok st' -> kept st st'.
Proof.
  unfold exec_for_loop. intros H. dest; use_rec; try solve_kept.
  all: match goal with
       | H : loop_next _ _ = Ok _ |- _ =>
           apply loop_next_kept in H;
             [| intros ? ? Hloop; exact (kept_for rec Hrec _ _ _ _ _ _ Hloop)]
       end.
  all: solve_kept.
Qed.

(** A [for] loop runs in a scope of its own, which holds the iterator,
    and comes back to the scope it was entered from. *)
Lemma exec_for_kept (st : Interpreter) (p : Pos) (name : string)
    (iterable body : AstNode) (st' : Interpreter) :
  exec_for rec st p name iterable body = Ok st' -> kept st st'.
Proof.
  unfold exec_for. intros H. dest; use_rec;
    repeat match goal with
      | H : exec_for_loop rec _ _ _ _ _ = Ok _ |- _ =>
          apply exec_for_loop_kept in H
      end;
    solve_kept.
Qed.

Lemma exec_match_arms_kept (arms : list (AstNode * AstNode)) :
  forall (st : Interpreter) (v : Value) (st' : Interpreter),
    exec_match_arms rec st v arms = Ok st' -> kept st st'.
Proof.
  induction arms as [|[pattern body] arms IH]; intros st v st' H;
    cbn [exec_match_arms] in H.
  - dest. solve_kept.
  - dest; use_rec;
      repeat match goal with
        | H : exec_match_arms rec _ _ _ = Ok _ |- _ => apply IH in H
        end;
      solve_kept.
Qed.

Lemma exec_assign_kept (st : Interpreter) (p : Pos) (target : AstNode)
    (v : Value) (st' : Interpreter) :
  exec_assign rec st p target v = Ok st' -> kept st st'.
Proof.
  unfold exec_assign. intros H.
  destruct target; dest; use_rec; solve_kept.
Qed.

Lemma exec_kept (st : Interpreter) (node : AstNode) (st' : Interpreter) :
  exec W rec st node = Ok st' -> kept st st'.
Proof.
  unfold exec. intros H.
  destruct (had_error st); [dest; solve_kept|].
  destruct (returning st || breaking st || continuing st);
    [dest; solve_kept|].
  destruct node;
    try (apply exec_assign_kept in H; exact H);
    try (apply exec_block_kept in H; exact H);
    try (apply exec_program_statements_kept in H; exact H);
    try (apply exec_if_kept in H; exact H);
    try (apply exec_while_kept in H; exact H);
    try (apply exec_for_kept in H; exact H);
    dest; use_rec;
    repeat match goal with
      | H : exec_assign rec _ _ _ _ = Ok _ |- _ => apply exec_assign_kept in H
      | H : exec_match_arms rec _ _ _ = Ok _ |- _ =>
          apply exec_match_arms_kept in H
      end;
    solve_kept.
Qed.

End scoping.

(** The evaluator restores the scope at every recursion budget. *)
Lemma interp_rec_kept (W : World) (fuel : nat) : rec_kept (interp_rec W fuel).
Proof.
  induction fuel as [|fuel IH].
  - split; intros; discriminate.
  - rewrite interp_rec_S. split; cbn [r_eval r_exec r_while r_for r_pop].
    + intros st node v st'. apply (eval_kept W _ IH).
    + intros st node st'. apply (exec_kept W _ IH).
    + intros st c b st'. apply (exec_while_kept _ IH).
    + intros st arr name body i st'. apply (exec_for_loop_kept _ IH).
    + intros st marker st'. apply (pop_defers_kept _ IH).
Qed.

(** A loop whose body is a block that declares a variable and breaks. *)
Definition demo_nested : AstNode :=
  NODE_FOR at1 "i" (NODE_ARRAY at1 [NODE_LITERAL_INT at1 1])
    (NODE_BLOCK at1
       [NODE_VAR_DECL at1 "x" (NODE_IDENTIFIER at1 "i") false;
        NODE_BREAK at1]).

Definition demo_looped : res Interpreter :=
  Eval vm_compute in exec_at bare_world 8 blank demo_nested.

(** X15. Whenever executing a statement returns, the current scope is the
    one it started in, and the global scope is unchanged: the scopes that
    blocks, [for] loops and calls enter are left again on every way out,
    be it the end of the body, [return], [break], [continue] or a runtime
    error. *)
Theorem statement_scope (W : World) (fuel : nat) (st : Interpreter)
    (node : AstNode) (st' : Interpreter) :
  exec_at W fuel st node = Ok st' ->
  current st' = current st /\ global st' = global st.
Proof. intros H. exact (kept_exec _ (interp_rec_kept W fuel) _ _ _ H). Qed.

Lemma statement_scope_witness :
  exec_at bare_world 8 blank demo_nested = demo_looped
  /\ length (envs (outcome demo_looped blank)) = 3%nat
  /\ current (outcome demo_looped blank) = current blank
  /\ global (outcome demo_looped blank) = global blank.
Proof.
  split; [vm_compute; reflexivity|]. split; [vm_compute; reflexivity|].
  apply (statement_scope bare_world 8 blank demo_nested).
  vm_compute; reflexivity.
Defined.

(** X16. Whenever evaluating an expression returns, the current scope is
    the one the evaluation started in, and the global scope is the one
    it started with, whatever the expression calls. *)
Theorem expression_scope (W : World) (fuel : nat) (st : Interpreter)
    (node : AstNode) (v : Value) (st' : Interpreter) :
  eval_at W fuel st node = Ok (v, st') ->
  current st' = current st /\ global st' = global st.
Proof. intros H. exact (kept_eval _ (interp_rec_kept W fuel) _ _ _ _ H). Qed.

Lemma expression_scope_witness :
  eval_at bare_world 8 blank demo_deferring_call = demo_called
  /\ current (snd (outcome demo_called (NIL_VAL, blank))) = current blank
  /\ global (snd (outcome demo_called (NIL_VAL, blank))) = global blank.
Proof.
  split; [vm_compute; reflexivity|].
  apply (expression_scope bare_world 8 blank demo_deferring_call (INT_VAL 7)).
  vm_compute; reflexivity.
Defined.
End Lexical.


(* ===================================================================== *)
(** * lexer.c *)
(* ===================================================================== *)

Module Lexer.
Import Ast.

(** ** Tokens (token.h) *)

(** [Token]: [t_start] holds the [length] bytes that [start] points to
    (for an error token, the message), so that [length] is its length. *)
Record Token : Type := mkToken {
  t_type : TokenType;
  t_start : string;
  t_line : Z;
  t_column : Z
}.

Definition t_length (t : Token) : Z := Value.str_len (t_start t).

(** ** The lexer state (lexer.h) *)

(** The pointers [start] and [current] into the source are offsets from
    [source]; [line], [column] and [start_column] are C [int]s, which a
    source of fewer than 2^31 bytes does not overflow. *)
Record Lexer : Type := mkLexer {
  source : string;
  start : nat;
  current : nat;
  line : Z;
  column : Z;
  start_column : Z
}.

Definition NUL : ascii := "000"%char.
Definition TAB : ascii := "009"%char.
Definition LF : ascii := "010"%char.
Definition CR : ascii := "013"%char.
Definition QUOTE : ascii := "034"%char.
Definition BACKSLASH : ascii := "092"%char.

(** The byte [s[i]] of a NUL-terminated buffer. *)
Definition char_at (s : string) (i : nat) : ascii :=
  match String.get i s with
  | Some c => c
  | None => NUL
  end.

(** [c >= lo && c <= hi] *)
Definition between (lo hi c : ascii) : bool :=
  (N_of_ascii lo <=? N_of_ascii c)%N && (N_of_ascii c <=? N_of_ascii hi)%N.

(** ** Helper functions *)

Definition peek (lexer : Lexer) : ascii :=
  char_at (source lexer) (current lexer).

Definition is_at_end (lexer : Lexer) : bool := Ascii.eqb (peek lexer) NUL.

Definition peek_next (lexer : Lexer) : ascii :=
  if is_at_end lexer then NUL
  else char_at (source lexer) (S (current lexer)).

(** [advance]: the lexer after [lexer->column++; lexer->current++]; the
    byte returned is [peek] of the lexer before. *)
Definition advance (lexer : Lexer) : Lexer :=
  {| source := source lexer; start := start lexer;
     current := S (current lexer); line := line lexer;
     column := column lexer + 1; start_column := start_column lexer |}.

Definition match_ (lexer : Lexer) (expected : ascii) : bool * Lexer :=
  if is_at_end lexer then (false, lexer)
  else if negb (Ascii.eqb (peek lexer) expected) then (false, lexer)
  else (true, advance lexer).

Definition make_token (lexer : Lexer) (type : TokenType) : Token :=
  {| t_type := type;
     t_start := String.substring (start lexer)
                  (current lexer - start lexer) (source lexer);
     t_line := line lexer;
     t_column := start_column lexer |}.

Definition error_token (lexer : Lexer) (message : string) : Token :=
  {| t_type := TOKEN_ERROR; t_start := message;
     t_line := line lexer; t_column := column lexer |}.

(** The bytes of the source that are left before the terminator: no loop
    of the lexer runs more often than that. *)
Definition remaining (lexer : Lexer) : nat :=
  (String.length (source lexer) - current lexer)%nat.

(** [while (test (lexer)) advance (lexer);] *)
Fixpoint advance_while (test : Lexer -> bool) (n : nat) (lexer : Lexer)
  : Lexer :=
  match n with
  | O => lexer
  | S n =>
      if test lexer then advance_while test n (advance lexer) else lexer
  end.

Definition in_comment (lexer : Lexer) : bool :=
  negb (Ascii.eqb (peek lexer) LF) && negb (is_at_end lexer).

Fixpoint skip_whitespace_loop (n : nat) (lexer : Lexer) : Lexer :=
  match n with
  | O => lexer
  | S n =>
      let c := peek lexer in
      if Ascii.eqb c " " || Ascii.eqb c TAB || Ascii.eqb c CR then
        skip_whitespace_loop n (advance lexer)
      else if Ascii.eqb c "#" then
        (* Comment - skip until end of line *)
        skip_whitespace_loop n
          (advance_while in_comment (remaining lexer) lexer)
      else lexer
  end.

Definition skip_whitespace (lexer : Lexer) : Lexer :=
  skip_whitespace_loop (S (remaining lexer)) lexer.

Definition is_digit (c : ascii) : bool := between "0" "9" c.

Definition is_alpha (c : ascii) : bool :=
  between "a" "z" c || between "A" "Z" c || Ascii.eqb c "_".

Definition is_alnum (c : ascii) : bool := is_alpha c || is_digit c.

Definition is_hex_digit (c : ascii) : bool :=
  is_digit c || between "a" "f" c || between "A" "F" c.

Definition in_hex (lexer : Lexer) : bool :=
  is_hex_digit (peek lexer) || Ascii.eqb (peek lexer) "_".

Definition in_digits (lexer : Lexer) : bool :=
  is_digit (peek lexer) || Ascii.eqb (peek lexer) "_".

Definition scan_number (lexer : Lexer) : Token * Lexer :=
  (* Check for hex number: 0x... *)
  if Nat.eqb (current lexer - start lexer) 1
     && Ascii.eqb (char_at (source lexer) (start lexer)) "0"
     && (Ascii.eqb (peek lexer) "x" || Ascii.eqb (peek lexer) "X")
  then
    let lexer := advance lexer in
    let lexer := advance_while in_hex (remaining lexer) lexer in
    (make_token lexer TOKEN_INT, lexer)
  else
    (* Consume leading digits *)
    let lexer := advance_while in_digits (remaining lexer) lexer in
    (* Check for float *)
    if Ascii.eqb (peek lexer) "." && is_digit (peek_next lexer) then
      let lexer := advance lexer in
      let lexer := advance_while in_digits (remaining lexer) lexer in
      (make_token lexer TOKEN_FLOAT, lexer)
    else (make_token lexer TOKEN_INT, lexer).

Definition set_line (lexer : Lexer) (line0 column0 : Z) : Lexer :=
  {| source := source lexer; start := start lexer;
     current := current lexer; line := line0;
     column := column0; start_column := start_column lexer |}.

Fixpoint scan_string_loop (n : nat) (lexer : Lexer) : Lexer :=
  match n with
  | O => lexer
  | S n =>
      if negb (Ascii.eqb (peek lexer) QUOTE) && negb (is_at_end lexer) then
        let lexer :=
          if Ascii.eqb (peek lexer) LF then set_line lexer (line lexer + 1) 0
          else lexer in
        if Ascii.eqb (peek lexer) BACKSLASH then
          let lexer := advance lexer in
          scan_string_loop n
            (if negb (is_at_end lexer) then advance lexer else lexer)
        else scan_string_loop n (advance lexer)
      else lexer
  end.

Definition scan_string (lexer : Lexer) : Token * Lexer :=
  let lexer := scan_string_loop (remaining lexer) lexer in
  if is_at_end lexer then (error_token lexer "Unterminated string", lexer)
  else
    let lexer := advance lexer in
    (make_token lexer TOKEN_STRING, lexer).

(** [check_keyword]; [start] is the source from the start of the token
    on. *)
Definition check_keyword (start0 : string) (length0 : Z) (offset : nat)
    (rest : string) (type : TokenType) : TokenType :=
  if (length0 =? Z.of_nat offset + Value.str_len rest)
     && String.eqb (String.substring offset (String.length rest) start0) rest
  then type
  else TOKEN_IDENTIFIER.

Definition identifier_type_of (start0 : string) (length0 : Z) : TokenType :=
  let c0 := char_at start0 0 in
  let c1 := char_at start0 1 in
  let c2 := char_at start0 2 in
  if Ascii.eqb c0 "a" then
    if (1 <? length0) && Ascii.eqb c1 "n" then
      check_keyword start0 length0 2 "d" TOKEN_AND
    else TOKEN_IDENTIFIER
  else if Ascii.eqb c0 "b" then
    if (1 <? length0) && Ascii.eqb c1 "r" then
      check_keyword start0 length0 2 "eak" TOKEN_BREAK
    else TOKEN_IDENTIFIER
  else if Ascii.eqb c0 "c" then
    if (1 <? length0) && Ascii.eqb c1 "o" then
      check_keyword start0 length0 2 "ntinue" TOKEN_CONTINUE
    else TOKEN_IDENTIFIER
  else if Ascii.eqb c0 "d" then
    if (1 <? length0) && Ascii.eqb c1 "e" then
      check_keyword start0 length0 2 "fer" TOKEN_DEFER
    else TOKEN_IDENTIFIER
  else if Ascii.eqb c0 "e" then
    if (1 <? length0) && Ascii.eqb c1 "l" then
      if (2 <? length0) && Ascii.eqb c2 "s" then
        check_keyword start0 length0 3 "e" TOKEN_ELSE
      else if (2 <? length0) && Ascii.eqb c2 "i" then
        check_keyword start0 length0 3 "f" TOKEN_ELIF
      else TOKEN_IDENTIFIER
    else TOKEN_IDENTIFIER
  else if Ascii.eqb c0 "f" then
    if 1 <? length0 then
      if Ascii.eqb c1 "n" && (length0 =? 2) then TOKEN_FN
      else if Ascii.eqb c1 "o" then
        check_keyword start0 length0 2 "r" TOKEN_FOR
      else if Ascii.eqb c1 "a" then
        check_keyword start0 length0 2 "lse" TOKEN_FALSE
      else TOKEN_IDENTIFIER
    else TOKEN_IDENTIFIER
  else if Ascii.eqb c0 "i" then
    if 1 <? length0 then
      if Ascii.eqb c1 "f" && (length0 =? 2) then TOKEN_IF
      else if Ascii.eqb c1 "n" && (length0 =? 2) then TOKEN_IN
      else TOKEN_IDENTIFIER
    else TOKEN_IDENTIFIER
  else if Ascii.eqb c0 "m" then
    if (1 <? length0) && Ascii.eqb c1 "a" then
      check_keyword start0 length0 2 "tch" TOKEN_MATCH
    else TOKEN_IDENTIFIER
  else if Ascii.eqb c0 "n" then
    if 1 <? length0 then
      if Ascii.eqb c1 "i" then check_keyword start0 length0 2 "l" TOKEN_NIL
      else if Ascii.eqb c1 "o" then
        check_keyword start0 length0 2 "t" TOKEN_NOT
      else TOKEN_IDENTIFIER
    else TOKEN_IDENTIFIER
  else if Ascii.eqb c0 "o" then
    if (1 <? length0) && Ascii.eqb c1 "r" && (length0 =? 2) then TOKEN_OR
    else TOKEN_IDENTIFIER
  else if Ascii.eqb c0 "r" then
    if (1 <? length0) && Ascii.eqb c1 "e" then
      check_keyword start0 length0 2 "turn" TOKEN_RETURN
    else TOKEN_IDENTIFIER
  else if Ascii.eqb c0 "t" then
    if (1 <? length0) && Ascii.eqb c1 "r" then
      check_keyword start0 length0 2 "ue" TOKEN_TRUE
    else TOKEN_IDENTIFIER
  else if Ascii.eqb c0 "w" then
    if (1 <? length0) && Ascii.eqb c1 "h" then
      check_keyword start0 length0 2 "ile" TOKEN_WHILE
    else TOKEN_IDENTIFIER
  else if Ascii.eqb c0 "_" then
    if length0 =? 1 then TOKEN_UNDERSCORE else TOKEN_IDENTIFIER
  else TOKEN_IDENTIFIER.

(** The source from offset [n] on: the C string a pointer into it
    denotes. *)
Fixpoint string_drop (n : nat) (s : string) : string :=
  match n, s with
  | O, _ => s
  | S n, String _ s => string_drop n s
  | S _, EmptyString => EmptyString
  end.

Definition identifier_type (lexer : Lexer) : TokenType :=
  identifier_type_of (string_drop (start lexer) (source lexer))
    (Z.of_nat (current lexer - start lexer)).

Definition in_identifier (lexer : Lexer) : bool := is_alnum (peek lexer).

Definition scan_identifier (lexer : Lexer) : Token * Lexer :=
  let lexer := advance_while in_identifier (remaining lexer) lexer in
  (make_token lexer (identifier_type lexer), lexer).

(** ** Public functions *)

Definition lexer_init (source0 : string) : Lexer :=
  {| source := source0; start := 0; current := 0;
     line := 1; column := 1; start_column := 1 |}.

Definition mark_start (lexer : Lexer) : Lexer :=
  {| source := source lexer; start := current lexer;
     current := current lexer; line := line lexer;
     column := column lexer; start_column := column lexer |}.

(** A token of one byte, or of two when the next byte is [second]. *)
Definition one_or_two (lexer : Lexer) (second : ascii)
    (two one : TokenType) : Token * Lexer :=
  let '(m, lexer') := match_ lexer second in
  if (m : bool) then (make_token lexer' two, lexer')
  else (make_token lexer one, lexer).

Definition lexer_next_token (lexer : Lexer) : Token * Lexer :=
  let lexer := skip_whitespace lexer in
  let lexer := mark_start lexer in
  if is_at_end lexer then (make_token lexer TOKEN_EOF, lexer)
  else
    let c := peek lexer in
    let lexer := advance lexer in
    (* Identifiers and keywords *)
    if is_alpha c then scan_identifier lexer
    (* Numbers *)
    else if is_digit c then scan_number lexer
    (* Other tokens *)
    else if Ascii.eqb c LF then
      let lexer := set_line lexer (line lexer + 1) 1 in
      (make_token lexer TOKEN_NEWLINE, lexer)
    else if Ascii.eqb c "(" then (make_token lexer TOKEN_LPAREN, lexer)
    else if Ascii.eqb c ")" then (make_token lexer TOKEN_RPAREN, lexer)
    else if Ascii.eqb c "{" then (make_token lexer TOKEN_LBRACE, lexer)
    else if Ascii.eqb c "}" then (make_token lexer TOKEN_RBRACE, lexer)
    else if Ascii.eqb c "[" then (make_token lexer TOKEN_LBRACKET, lexer)
    else if Ascii.eqb c "]" then (make_token lexer TOKEN_RBRACKET, lexer)
    else if Ascii.eqb c "," then (make_token lexer TOKEN_COMMA, lexer)
    else if Ascii.eqb c ";" then (make_token lexer TOKEN_SEMICOLON, lexer)
    else if Ascii.eqb c "+" then (make_token lexer TOKEN_PLUS, lexer)
    else if Ascii.eqb c "*" then (make_token lexer TOKEN_STAR, lexer)
    else if Ascii.eqb c "/" then (make_token lexer TOKEN_SLASH, lexer)
    else if Ascii.eqb c "%" then (make_token lexer TOKEN_PERCENT, lexer)
    else if Ascii.eqb c "&" then (make_token lexer TOKEN_AMPERSAND, lexer)
    else if Ascii.eqb c "@" then (make_token lexer TOKEN_AT, lexer)
    else if Ascii.eqb c "-" then
      one_or_two lexer ">" TOKEN_RARROW TOKEN_MINUS
    else if Ascii.eqb c "." then
      one_or_two lexer "." TOKEN_DOTDOT TOKEN_DOT
    else if Ascii.eqb c ":" then
      let '(m, lexer') := match_ lexer ":" in
      if (m : bool) then (make_token lexer' TOKEN_COLONCOLON, lexer')
      else one_or_two lexer "=" TOKEN_COLONEQ TOKEN_COLON
    else if Ascii.eqb c "=" then
      let '(m, lexer') := match_ lexer "=" in
      if (m : bool) then (make_token lexer' TOKEN_EQEQ, lexer')
      else one_or_two lexer ">" TOKEN_ARROW TOKEN_EQ
    else if Ascii.eqb c "!" then
      one_or_two lexer "=" TOKEN_NEQ TOKEN_BANG
    else if Ascii.eqb c "<" then
      one_or_two lexer "=" TOKEN_LTE TOKEN_LT
    else if Ascii.eqb c ">" then
      one_or_two lexer "=" TOKEN_GTE TOKEN_GT
    else if Ascii.eqb c QUOTE then scan_string lexer
    else (error_token lexer "Unexpected character", lexer).

(** [lexer_peek_token]: the token [lexer_next_token] returns; the lexer
    is restored. *)
Definition lexer_peek_token (lexer : Lexer) : Token :=
  fst (lexer_next_token lexer).

(** ** The keywords *)

(** The reserved words and their tokens. *)
Definition keywords : list (string * TokenType) :=
  [("and", TOKEN_AND); ("break", TOKEN_BREAK); ("continue", TOKEN_CONTINUE);
   ("defer", TOKEN_DEFER); ("else", TOKEN_ELSE); ("elif", TOKEN_ELIF);
   ("fn", TOKEN_FN); ("for", TOKEN_FOR); ("false", TOKEN_FALSE);
   ("if", TOKEN_IF); ("in", TOKEN_IN); ("match", TOKEN_MATCH);
   ("nil", TOKEN_NIL); ("not", TOKEN_NOT); ("or", TOKEN_OR);
   ("return", TOKEN_RETURN); ("true", TOKEN_TRUE); ("while", TOKEN_WHILE);
   ("_", TOKEN_UNDERSCORE)]%string.

Fixpoint keyword_lookup (table : list (string * TokenType)) (word : string)
  : TokenType :=
  match table with
  | [] => TOKEN_IDENTIFIER
  | (k, type) :: table =>
      if String.eqb word k then type else keyword_lookup table word
  end.

Lemma substring_0_S (n : nat) (c : ascii) (s : string) :
  String.substring 0 (S n) (String c s) = String c (String.substring 0 n s).
Proof. reflexivity. Qed.

Lemma substring_S (i n : nat) (c : ascii) (s : string) :
  String.substring (S i) n (String c s) = String.substring i n s.
Proof. reflexivity. Qed.

Lemma substring_drop (i n : nat) (s : string) :
  String.substring i n s = String.substring 0 n (string_drop i s).
Proof.
  revert s. induction i as [|i IH]; intros s; [reflexivity|].
  destruct s as [|c s]; [destruct n; reflexivity|]. cbn. apply IH.
Qed.

Lemma substring_whole (s : string) :
  String.substring 0 (String.length s) s = s.
Proof. induction s as [|c s IH]; cbn; [reflexivity | rewrite IH; reflexivity]. Qed.

(** Comparing the first bytes and the length is comparing the string. *)
Lemma prefix_eqb (s k : string) :
  Nat.eqb (String.length s) (String.length k)
  && String.eqb (String.substring 0 (String.length k) s) k
  = String.eqb s k.
Proof.
  destruct (Nat.eqb_spec (String.length s) (String.length k)) as [E|E]; cbn.
  - rewrite <- E, substring_whole. reflexivity.
  - symmetry. apply String.eqb_neq. intros ->. congruence.
Qed.

Lemma string_drop_length (i : nat) (s : string) :
  String.length (string_drop i s) = (String.length s - i)%nat.
Proof.
  revert s. induction i as [|i IH]; intros s; cbn; [lia|].
  destruct s as [|c s]; cbn; [reflexivity | apply IH].
Qed.

(** [check_keyword] on a token that is the whole of [word]. *)
Lemma check_keyword_word (word : string) (offset : nat) (rest : string)
    (type : TokenType) :
  (offset <= String.length word)%nat ->
  check_keyword word (Z.of_nat (String.length word)) offset rest type
  = if String.eqb (string_drop offset word) rest then type
    else TOKEN_IDENTIFIER.
Proof.
  intros Hoff. unfold check_keyword, Value.str_len.
  rewrite <- (prefix_eqb (string_drop offset word) rest).
  rewrite <- substring_drop, string_drop_length.
  replace (Z.of_nat (String.length word)
           =? Z.of_nat offset + Z.of_nat (String.length rest))
    with (Nat.eqb (String.length word - offset) (String.length rest));
    [reflexivity|].
  destruct (Nat.eqb_spec (String.length word - offset) (String.length rest));
    symmetry; [apply Z.eqb_eq | apply Z.eqb_neq]; lia.
Qed.

Lemma check_keyword_rest (word : string) (offset : nat) (rest : string)
    (type : TokenType) :
  rest <> EmptyString ->
  check_keyword word (Z.of_nat (String.length word)) offset rest type
  = if String.eqb (string_drop offset word) rest then type
    else TOKEN_IDENTIFIER.
Proof.
  intros Hrest.
  destruct (Nat.le_gt_cases offset (String.length word)) as [H|H];
    [apply check_keyword_word, H|].
  assert (Hdrop : String.length (string_drop offset word) = 0%nat)
    by (rewrite string_drop_length; lia).
  destruct (string_drop offset word); [|discriminate Hdrop].
  destruct rest as [|c rest]; [congruence|]. cbn [String.eqb].
  unfold check_keyword, Value.str_len.
  replace (Z.of_nat (String.length word) =? _) with false; [reflexivity|].
  symmetry. apply Z.eqb_neq. lia.
Qed.

Lemma length_ltb (k : nat) (w : string) :
  (Z.of_nat k <? Z.of_nat (String.length w)) = Nat.ltb k (String.length w).
Proof.
  destruct (Nat.ltb_spec k (String.length w));
    [apply Z.ltb_lt | apply Z.ltb_ge]; lia.
Qed.

Lemma length_eqb (k : nat) (w : string) :
  (Z.of_nat (String.length w) =? Z.of_nat k) = Nat.eqb (String.length w) k.
Proof.
  destruct (Nat.eqb_spec (String.length w) k);
    [apply Z.eqb_eq | apply Z.eqb_neq]; lia.
Qed.

#[local] Arguments Ascii.eqb !a !b : simpl nomatch.

Ltac split_char :=
  match goal with
  | E : Ascii.eqb ?c ?k = false |- context [Ascii.eqb ?c ?k] => rewrite E
  | |- context [Ascii.eqb ?c ?k] =>
      is_var c;
      let E := fresh "E" in
      destruct (Ascii.eqb c k) eqn:E;
      [apply Ascii.eqb_eq in E; subst c |]
  end.

(** The trie of [identifier_type] finds exactly the reserved words. *)
Lemma identifier_type_word (word : string) :
  identifier_type_of word (Z.of_nat (String.length word))
  = keyword_lookup keywords word.
Proof.
  unfold identifier_type_of.
  rewrite !check_keyword_rest by discriminate.
  change 1 with (Z.of_nat 1). change 2 with (Z.of_nat 2).
  rewrite !length_ltb, !length_eqb.
  destruct word as [|c0 [|c1 [|c2 w]]];
    cbn [char_at String.get string_drop String.length Nat.ltb Nat.leb Nat.eqb
         andb keywords keyword_lookup];
    repeat (split_char; cbn); reflexivity.
Qed.

Lemma substring_substring (i k n : nat) (s : string) :
  (i + k <= n)%nat ->
  String.substring i k (String.substring 0 n s) = String.substring i k s.
Proof.
  revert i k n. induction s as [|c s IH]; intros i k n H.
  - destruct n; reflexivity.
  - destruct n as [|n].
    + assert (i = 0%nat) as -> by lia. assert (k = 0%nat) as -> by lia.
      reflexivity.
    + rewrite substring_0_S. destruct i as [|i].
      * destruct k as [|k]; [reflexivity|]. rewrite !substring_0_S.
        f_equal. apply (IH 0%nat). lia.
      * rewrite !substring_S. apply IH. lia.
Qed.

Lemma substring_length_le (n : nat) (s : string) :
  (n <= String.length s)%nat ->
  String.length (String.substring 0 n s) = n.
Proof.
  revert n. induction s as [|c s IH]; intros n H; cbn in H.
  - assert (n = 0%nat) as -> by lia. reflexivity.
  - destruct n as [|n]; [reflexivity|]. rewrite substring_0_S. cbn.
    rewrite IH by lia. reflexivity.
Qed.

Lemma char_at_substring (i n : nat) (s : string) :
  (i < n)%nat -> char_at (String.substring 0 n s) i = char_at s i.
Proof.
  revert i n. induction s as [|c s IH]; intros i n H.
  - destruct n; reflexivity.
  - destruct n as [|n]; [lia|]. rewrite substring_0_S.
    destruct i as [|i]; [reflexivity|]. apply (IH i n). lia.
Qed.

Lemma check_keyword_prefix (start0 : string) (n offset : nat) (rest : string)
    (type : TokenType) :
  check_keyword (String.substring 0 n start0) (Z.of_nat n) offset rest type
  = check_keyword start0 (Z.of_nat n) offset rest type.
Proof.
  unfold check_keyword, Value.str_len.
  destruct (Z.eqb_spec (Z.of_nat n)
              (Z.of_nat offset + Z.of_nat (String.length rest))) as [E|E];
    [|reflexivity].
  rewrite substring_substring by lia. reflexivity.
Qed.

(** [identifier_type] reads the bytes of the token only. *)
Lemma identifier_type_prefix (start0 : string) (n : nat) :
  (1 <= n)%nat ->
  identifier_type_of (String.substring 0 n start0) (Z.of_nat n)
  = identifier_type_of start0 (Z.of_nat n).
Proof.
  intros Hn. unfold identifier_type_of.
  rewrite !check_keyword_prefix.
  rewrite (char_at_substring 0 n) by lia.
  destruct (Z.ltb_spec 1 (Z.of_nat n)) as [H1|H1].
  - rewrite (char_at_substring 1 n) by lia.
    destruct (Z.ltb_spec 2 (Z.of_nat n)) as [H2|H2].
    + rewrite (char_at_substring 2 n) by lia. reflexivity.
    + cbn [andb]. reflexivity.
  - cbn [andb]. reflexivity.
Qed.

(** The type of a word of [n] bytes at [start0] is the one the table of
    the reserved words gives. *)
Lemma identifier_type_lookup (start0 : string) (n : nat) :
  (1 <= n <= String.length start0)%nat ->
  identifier_type_of start0 (Z.of_nat n)
  = keyword_lookup keywords (String.substring 0 n start0).
Proof.
  intros [H1 H2]. rewrite <- identifier_type_prefix by exact H1.
  rewrite <- (substring_length_le n start0) at 2 by exact H2.
  apply identifier_type_word.
Qed.

(** ** The lexer stays inside the source *)

Definition lexer_ok (lexer : Lexer) : Prop :=
  (current lexer <= String.length (source lexer))%nat.

Lemma get_past_end (s : string) (i : nat) :
  (String.length s <= i)%nat -> String.get i s = None.
Proof.
  revert i. induction s as [|c s IH]; intros i H; [destruct i; reflexivity|].
  destruct i as [|i]; cbn in H; [lia|]. cbn. apply IH. lia.
Qed.

Lemma not_at_end (lexer : Lexer) :
  is_at_end lexer = false ->
  (current lexer < String.length (source lexer))%nat.
Proof.
  unfold is_at_end, peek, char_at. intros H.
  destruct (Nat.lt_ge_cases (current lexer) (String.length (source lexer)))
    as [Hlt|Hge]; [exact Hlt|].
  rewrite (get_past_end _ _ Hge) in H. discriminate H.
Qed.

(** [l'] is [l] further on in the same source. *)
Definition follows (l l' : Lexer) : Prop :=
  source l' = source l /\ (current l <= current l')%nat /\ lexer_ok l'.

Lemma follows_refl (l : Lexer) : lexer_ok l -> follows l l.
Proof. intros H. split; [reflexivity|]. split; [lia | exact H]. Qed.

Lemma follows_trans (a b c : Lexer) : follows a b -> follows b c -> follows a c.
Proof.
  intros (Hs1 & Hc1 & _) (Hs2 & Hc2 & Hok). split; [congruence|].
  split; [lia | exact Hok].
Qed.

Lemma follows_advance (l : Lexer) :
  is_at_end l = false -> follows l (advance l)
  /\ (current l < current (advance l))%nat.
Proof.
  intros H. apply not_at_end in H. unfold follows, lexer_ok.
  cbn [advance source current]. split; [split; [reflexivity|]|]; lia.
Qed.

Lemma advance_while_follows (test : Lexer -> bool) (n : nat) :
  (forall l, test l = true -> is_at_end l = false) ->
  forall l, lexer_ok l ->
    follows l (advance_while test n l)
    /\ start (advance_while test n l) = start l
    /\ line (advance_while test n l) = line l
    /\ ((remaining l <= n)%nat -> test (advance_while test n l) = false).
Proof.
  intros Htest. induction n as [|n IH]; intros l Hok; cbn [advance_while].
  - split; [apply follows_refl, Hok|]. split; [reflexivity|].
    split; [reflexivity|]. intros Hrem.
    destruct (test l) eqn:E; [|reflexivity].
    apply Htest, not_at_end in E. unfold remaining in Hrem. lia.
  - destruct (test l) eqn:E.
    + pose proof (Htest l E) as Hend.
      destruct (follows_advance l Hend) as [Hf Hlt].
      destruct (IH (advance l)) as (Hf' & Hs & Hl & Hexit);
        [apply Hf|].
      split; [exact (follows_trans _ _ _ Hf Hf')|].
      split; [exact Hs|]. split; [exact Hl|].
      intros Hrem. apply Hexit. unfold remaining in *. cbn. lia.
    + split; [apply follows_refl, Hok|]. split; [reflexivity|].
      split; [reflexivity|]. intros _. exact E.
Qed.

Lemma in_comment_inside (l : Lexer) :
  in_comment l = true -> is_at_end l = false.
Proof.
  unfold in_comment. intros H. apply andb_true_iff in H as [_ H].
  apply negb_true_iff in H. exact H.
Qed.

Lemma eqb_not_at_end (l : Lexer) (c : ascii) :
  Ascii.eqb (peek l) c = true -> c <> NUL -> is_at_end l = false.
Proof.
  intros H Hc. apply Ascii.eqb_eq in H. unfold is_at_end. rewrite H.
  apply Ascii.eqb_neq. exact Hc.
Qed.

Lemma skip_whitespace_loop_follows (n : nat) :
  forall l, lexer_ok l ->
    follows l (skip_whitespace_loop n l)
    /\ line (skip_whitespace_loop n l) = line l.
Proof.
  induction n as [|n IH]; intros l Hok; cbn [skip_whitespace_loop].
  - split; [apply follows_refl, Hok | reflexivity].
  - destruct (Ascii.eqb (peek l) " " || Ascii.eqb (peek l) TAB
              || Ascii.eqb (peek l) CR) eqn:Eblank.
    + assert (Hend : is_at_end l = false).
      { apply orb_true_iff in Eblank as [Eb|Eb];
          [apply orb_true_iff in Eb as [Eb|Eb]|];
          (eapply eqb_not_at_end; [exact Eb | discriminate]). }
      destruct (follows_advance l Hend) as [Hf _].
      destruct (IH (advance l)) as [Hf' Hl]; [apply Hf|].
      split; [exact (follows_trans _ _ _ Hf Hf') | exact Hl].
    + destruct (Ascii.eqb (peek l) "#") eqn:Ehash.
      * destruct (advance_while_follows in_comment (remaining l)
                    in_comment_inside l Hok) as (Hf & _ & Hl & _).
        destruct (IH (advance_while in_comment (remaining l) l))
          as [Hf' Hl']; [apply Hf|].
        split; [exact (follows_trans _ _ _ Hf Hf') | congruence].
      * split; [apply follows_refl, Hok | reflexivity].
Qed.

Lemma skip_whitespace_at_end (l : Lexer) :
  is_at_end l = true -> skip_whitespace l = l.
Proof.
  unfold skip_whitespace, is_at_end. intros H. apply Ascii.eqb_eq in H.
  cbn [skip_whitespace_loop]. rewrite H. reflexivity.
Qed.

Lemma scan_string_loop_follows (n : nat) :
  forall l, lexer_ok l -> follows l (scan_string_loop n l).
Proof.
  induction n as [|n IH]; intros l Hok; cbn [scan_string_loop].
  - apply follows_refl, Hok.
  - destruct (negb (Ascii.eqb (peek l) QUOTE) && negb (is_at_end l)) eqn:E;
      [|apply follows_refl, Hok].
    apply andb_true_iff in E as [_ Hend]. apply negb_true_iff in Hend.
    set (l1 := if Ascii.eqb (peek l) LF then set_line l (line l + 1) 0 else l).
    assert (Hl1 : follows l l1 /\ is_at_end l1 = false).
    { unfold l1. destruct (Ascii.eqb (peek l) LF);
        (split; [|exact Hend]); [|apply follows_refl, Hok].
      split; [reflexivity|]. split; [cbn; lia | exact Hok]. }
    destruct Hl1 as [Hf1 Hend1].
    destruct (follows_advance l1 Hend1) as [Hf2 _].
    pose proof (follows_trans _ _ _ Hf1 Hf2) as Hf12.
    destruct (Ascii.eqb (peek l1) BACKSLASH).
    + destruct (negb (is_at_end (advance l1))) eqn:E2.
      * apply negb_true_iff in E2.
        destruct (follows_advance (advance l1) E2) as [Hf3 _].
        pose proof (follows_trans _ _ _ Hf12 Hf3) as Hf.
        exact (follows_trans _ _ _ Hf (IH _ (proj2 (proj2 Hf)))).
      * exact (follows_trans _ _ _ Hf12 (IH _ (proj2 (proj2 Hf12)))).
    + exact (follows_trans _ _ _ Hf12 (IH _ (proj2 (proj2 Hf12)))).
Qed.

Lemma in_identifier_inside (l : Lexer) :
  in_identifier l = true -> is_at_end l = false.
Proof.
  unfold in_identifier, is_at_end. destruct (Ascii.eqb_spec (peek l) NUL) as [->|];
    [discriminate | reflexivity].
Qed.

Lemma in_digits_inside (l : Lexer) :
  in_digits l = true -> is_at_end l = false.
Proof.
  unfold in_digits, is_at_end. destruct (Ascii.eqb_spec (peek l) NUL) as [->|];
    [discriminate | reflexivity].
Qed.

Lemma in_hex_inside (l : Lexer) : in_hex l = true -> is_at_end l = false.
Proof.
  unfold in_hex, is_at_end. destruct (Ascii.eqb_spec (peek l) NUL) as [->|];
    [discriminate | reflexivity].
Qed.

Lemma check_keyword_type (s : string) (n : Z) (offset : nat) (rest : string)
    (type : TokenType) :
  check_keyword s n offset rest type = type
  \/ check_keyword s n offset rest type = TOKEN_IDENTIFIER.
Proof. unfold check_keyword. destruct (_ && _); auto. Qed.

(** The types that are not a word: the end of the source, an error, a
    newline. *)
Definition is_word_type (type : TokenType) : Prop :=
  type <> TOKEN_EOF /\ type <> TOKEN_ERROR /\ type <> TOKEN_NEWLINE.

Lemma is_word_type_if (b : bool) (x y : TokenType) :
  is_word_type x -> is_word_type y -> is_word_type (if b then x else y).
Proof. destruct b; auto. Qed.

Lemma is_word_type_check (s : string) (n : Z) (offset : nat) (rest : string)
    (type : TokenType) :
  is_word_type type -> is_word_type (check_keyword s n offset rest type).
Proof.
  intros H. destruct (check_keyword_type s n offset rest type) as [-> | ->];
    [exact H | repeat split; discriminate].
Qed.

(** A word is never taken for the end of the source, an error or a
    newline. *)
Lemma identifier_type_word_token (s : string) (n : Z) :
  is_word_type (identifier_type_of s n).
Proof.
  unfold identifier_type_of.
  repeat first [apply is_word_type_if | apply is_word_type_check];
    repeat split; discriminate.
Qed.

(** A result of the scanner that is further on in the source and is not
    the token of its end. *)
Definition scanned (l : Lexer) (r : Token * Lexer) : Prop :=
  follows l (snd r) /\ t_type (fst r) <> TOKEN_EOF.

Lemma scanned_if (l : Lexer) (b : bool) (x y : Token * Lexer) :
  scanned l x -> scanned l y -> scanned l (if b then x else y).
Proof. destruct b; auto. Qed.

Lemma scanned_token (l l' : Lexer) (type : TokenType) :
  follows l l' -> type <> TOKEN_EOF -> scanned l (make_token l' type, l').
Proof. intros Hf Ht. split; [exact Hf | exact Ht]. Qed.

Lemma match_follows (l : Lexer) (expected : ascii) :
  lexer_ok l -> follows l (snd (match_ l expected)).
Proof.
  intros Hok. unfold match_. destruct (is_at_end l) eqn:E;
    [apply follows_refl, Hok|].
  destruct (negb (Ascii.eqb (peek l) expected));
    [apply follows_refl, Hok | apply follows_advance, E].
Qed.

Lemma scanned_one_or_two (l : Lexer) (second : ascii) (two one : TokenType) :
  lexer_ok l -> two <> TOKEN_EOF -> one <> TOKEN_EOF ->
  scanned l (one_or_two l second two one).
Proof.
  intros Hok H2 H1. unfold one_or_two.
  pose proof (match_follows l second Hok) as Hf.
  destruct (match_ l second) as [[|] l'];
    [exact (scanned_token _ _ _ Hf H2)
    | exact (scanned_token _ _ _ (follows_refl l Hok) H1)].
Qed.

Lemma scanned_identifier (l : Lexer) :
  lexer_ok l -> scanned l (scan_identifier l).
Proof.
  intros Hok. unfold scan_identifier.
  destruct (advance_while_follows in_identifier (remaining l)
              in_identifier_inside l Hok) as (Hf & _).
  split; [exact Hf|]. apply identifier_type_word_token.
Qed.

Lemma scanned_number (l : Lexer) : lexer_ok l -> scanned l (scan_number l).
Proof.
  intros Hok. unfold scan_number.
  destruct (_ && _ && (Ascii.eqb (peek l) "x" || Ascii.eqb (peek l) "X"))
    eqn:Ehex.
  - apply andb_true_iff in Ehex as [_ Ex].
    assert (Hend : is_at_end l = false).
    { apply orb_true_iff in Ex as [Ex|Ex];
        (eapply eqb_not_at_end; [exact Ex | discriminate]). }
    destruct (follows_advance l Hend) as [Hf1 _].
    destruct (advance_while_follows in_hex (remaining (advance l))
                in_hex_inside (advance l) (proj2 (proj2 Hf1))) as (Hf2 & _).
    apply scanned_token; [exact (follows_trans _ _ _ Hf1 Hf2) | discriminate].
  - destruct (advance_while_follows in_digits (remaining l)
                in_digits_inside l Hok) as (Hf1 & _).
    set (l1 := advance_while in_digits (remaining l) l) in *.
    destruct (Ascii.eqb (peek l1) "." && is_digit (peek_next l1)) eqn:Edot.
    + apply andb_true_iff in Edot as [Edot _].
      assert (Hend : is_at_end l1 = false)
        by (eapply eqb_not_at_end; [exact Edot | discriminate]).
      destruct (follows_advance l1 Hend) as [Hf2 _].
      destruct (advance_while_follows in_digits (remaining (advance l1))
                  in_digits_inside (advance l1) (proj2 (proj2 Hf2)))
        as (Hf3 & _).
      apply scanned_token; [|discriminate].
      exact (follows_trans _ _ _ Hf1 (follows_trans _ _ _ Hf2 Hf3)).
    + apply scanned_token; [exact Hf1 | discriminate].
Qed.

Lemma scanned_string (l : Lexer) : lexer_ok l -> scanned l (scan_string l).
Proof.
  intros Hok. unfold scan_string.
  pose proof (scan_string_loop_follows (remaining l) l Hok) as Hf1.
  set (l1 := scan_string_loop (remaining l) l) in *.
  destruct (is_at_end l1) eqn:Hend.
  - split; [exact Hf1 | discriminate].
  - destruct (follows_advance l1 Hend) as [Hf2 _].
    apply scanned_token; [exact (follows_trans _ _ _ Hf1 Hf2) | discriminate].
Qed.

Lemma mark_start_idem (l : Lexer) : mark_start (mark_start l) = mark_start l.
Proof. reflexivity. Qed.

(** What one call of [lexer_next_token] does to the lexer. *)
Lemma lexer_next_token_follows (l : Lexer) (t : Token) (l' : Lexer) :
  lexer_ok l -> lexer_next_token l = (t, l') ->
  follows l l'
  /\ (t_type t = TOKEN_EOF /\ is_at_end l' = true
      /\ lexer_next_token l' = (t, l')
      \/ t_type t <> TOKEN_EOF /\ (current l < current l')%nat).
Proof.
  intros Hok. unfold lexer_next_token at 1.
  destruct (skip_whitespace_loop_follows (S (remaining l)) l Hok) as [Hf1 _].
  fold (skip_whitespace l) in Hf1.
  set (l1 := skip_whitespace l) in *.
  assert (Hf2 : follows l (mark_start l1)).
  { destruct Hf1 as (Hs & Hc & Hk). split; [exact Hs|]. split; exact Hc || exact Hk. }
  destruct (is_at_end (mark_start l1)) eqn:Hend.
  - intros [= <- <-]. split; [exact Hf2|]. left.
    split; [reflexivity|]. split; [exact Hend|].
    unfold lexer_next_token. rewrite (skip_whitespace_at_end _ Hend).
    rewrite mark_start_idem, Hend. reflexivity.
  - destruct (follows_advance _ Hend) as [Hf3 Hlt].
    set (l3 := advance (mark_start l1)) in *.
    pose proof (proj2 (proj2 Hf3)) as Hok3.
    intros Hres.
    assert (Hsc : scanned l3 (t, l')).
    { rewrite <- Hres.
      repeat first
        [ apply scanned_identifier, Hok3
        | apply scanned_number, Hok3
        | apply scanned_string, Hok3
        | apply scanned_one_or_two; [exact Hok3 | discriminate | discriminate]
        | apply scanned_token; [apply follows_refl, Hok3 | discriminate]
        | match goal with
          | |- scanned _ (if _ then _ else _) => apply scanned_if
          end ].
      - apply scanned_token; [|discriminate].
        split; [reflexivity|]. split; [cbn; lia | exact Hok3].
      - pose proof (match_follows l3 ":" Hok3) as Hm.
        destruct (match_ l3 ":") as [[|] l4];
          [apply scanned_token; [exact Hm | discriminate]|].
        apply scanned_one_or_two; [exact Hok3 | discriminate | discriminate].
      - pose proof (match_follows l3 "=" Hok3) as Hm.
        destruct (match_ l3 "=") as [[|] l4];
          [apply scanned_token; [exact Hm | discriminate]|].
        apply scanned_one_or_two; [exact Hok3 | discriminate | discriminate]. }
    destruct Hsc as [Hf4 Hty]. cbn [fst snd] in Hf4, Hty.
    pose proof (follows_trans _ _ _ Hf2 (follows_trans _ _ _ Hf3 Hf4)) as Hf.
    split; [exact Hf|]. right. split; [exact Hty|].
    destruct Hf2 as (_ & Hc2 & _). destruct Hf4 as (_ & Hc4 & _).
    cbn [mark_start current] in Hlt, Hc2. lia.
Qed.

Lemma lexer_ok_init (source0 : string) : lexer_ok (lexer_init source0).
Proof. unfold lexer_ok. cbn. lia. Qed.

(** X17. A word, that is the token that starts at a letter or an
    underscore, is a keyword token exactly when its text is one of the
    nineteen reserved words, and [TOKEN_IDENTIFIER] otherwise: the trie
    of [identifier_type] and the table of the reserved words agree on
    every word. *)
Theorem word_tokens (l : Lexer) (t : Token) (l' : Lexer) :
  lexer_ok l ->
  is_alpha (peek (skip_whitespace l)) = true ->
  lexer_next_token l = (t, l') ->
  t_type t = keyword_lookup keywords (t_start t).
Proof.
  intros Hok Halpha. unfold lexer_next_token.
  destruct (skip_whitespace_loop_follows (S (remaining l)) l Hok) as [Hf1 _].
  fold (skip_whitespace l) in Hf1.
  set (l1 := skip_whitespace l) in *.
  change (peek l1) with (peek (mark_start l1)) in Halpha.
  assert (Hend : is_at_end (mark_start l1) = false).
  { unfold is_at_end.
    destruct (Ascii.eqb_spec (peek (mark_start l1)) NUL) as [E|]; [|reflexivity].
    rewrite E in Halpha. discriminate Halpha. }
  rewrite Hend, Halpha.
  destruct (follows_advance _ Hend) as [(Hs3 & _ & Hok3) Hlt].
  set (l3 := advance (mark_start l1)) in *.
  unfold scan_identifier.
  destruct (advance_while_follows in_identifier (remaining l3)
              in_identifier_inside l3 Hok3) as ((Hs4 & Hc4 & Hok4) & Hst & _).
  set (l4 := advance_while in_identifier (remaining l3) l3) in *.
  intros [= <- _]. cbn [make_token t_type t_start].
  unfold identifier_type.
  assert (Hstart : start l4 = current (mark_start l1))
    by (rewrite Hst; reflexivity).
  unfold lexer_ok in Hok4.
  rewrite identifier_type_lookup.
  - rewrite <- substring_drop. reflexivity.
  - rewrite string_drop_length. lia.
Qed.

Lemma word_tokens_witness :
  t_type (fst (lexer_next_token (lexer_init "  while_ while")))
  = TOKEN_IDENTIFIER
  /\ t_type (fst (lexer_next_token
                    (snd (lexer_next_token (lexer_init "  while_ while")))))
     = TOKEN_WHILE.
Proof.
  split.
  - rewrite (word_tokens (lexer_init "  while_ while") _ _
               (lexer_ok_init _) eq_refl
               (surjective_pairing _)).
    reflexivity.
  - set (l := snd (lexer_next_token (lexer_init "  while_ while"))).
    assert (Hok : lexer_ok l) by (unfold lexer_ok; vm_compute; lia).
    rewrite (word_tokens l _ _ Hok eq_refl (surjective_pairing _)).
    reflexivity.
Defined.

(** X18. The lexer never reads past the terminator of the source and
    always moves on: a call of [lexer_next_token] either returns a token
    other than [TOKEN_EOF] and has taken at least one byte, or returns
    [TOKEN_EOF] at the end of the source, and then every later call
    returns the same token and leaves the lexer as it is. *)
Theorem lexer_progress (l : Lexer) (t : Token) (l' : Lexer) :
  (current l <= String.length (source l))%nat ->
  lexer_next_token l = (t, l') ->
  source l' = source l
  /\ (current l' <= String.length (source l'))%nat
  /\ (if token_eqb (t_type t) TOKEN_EOF
      then is_at_end l' = true /\ lexer_next_token l' = (t, l')
      else (current l < current l')%nat).
Proof.
  intros Hok H.
  destruct (lexer_next_token_follows l t l' Hok H) as ((Hs & _ & Hok') & Hcase).
  split; [exact Hs|]. split; [exact Hok'|].
  unfold token_eqb. destruct (TokenType_eq_dec (t_type t) TOKEN_EOF) as [E|E].
  - destruct Hcase as [(_ & Hend & Hnext)|[Hne _]]; [auto | contradiction].
  - destruct Hcase as [(Heof & _)|[_ Hlt]]; [contradiction | exact Hlt].
Qed.

Lemma lexer_progress_witness :
  (current (lexer_init "x # y") < current (snd (lexer_next_token (lexer_init "x # y"))))%nat
  /\ lexer_next_token (snd (lexer_next_token (snd (lexer_next_token (lexer_init "x # y")))))
     = lexer_next_token (snd (lexer_next_token (lexer_init "x # y"))).
Proof.
  split.
  - exact (proj2 (proj2 (lexer_progress (lexer_init "x # y") _ _
                           (lexer_ok_init _) (surjective_pairing _)))).
  - set (l1 := snd (lexer_next_token (lexer_init "x # y"))).
    assert (Hok : (current l1 <= String.length (source l1))%nat)
      by (vm_compute; lia).
    pose proof (proj2 (proj2 (lexer_progress l1 _ _ Hok (surjective_pairing _))))
      as H.
    change (token_eqb (t_type (fst (lexer_next_token l1))) TOKEN_EOF)
      with true in H.
    destruct H as [_ H]. rewrite H. symmetry. apply surjective_pairing.
Defined.
End Lexer.


(* ===================================================================== *)
(** * parser.c *)
(* ===================================================================== *)

Module Parser.
Import Ast Lexer.

(** ** Precedence levels *)

(** The enumeration [Precedence], by its values: the parser compares
    levels and adds one to them. *)
Definition Precedence : Type := Z.
Definition PREC_NONE : Precedence := 0.
Definition PREC_ASSIGNMENT : Precedence := 1.
Definition PREC_OR : Precedence := 2.
Definition PREC_AND : Precedence := 3.
Definition PREC_EQUALITY : Precedence := 4.
Definition PREC_COMPARISON : Precedence := 5.
Definition PREC_RANGE : Precedence := 6.
Definition PREC_TERM : Precedence := 7.
Definition PREC_FACTOR : Precedence := 8.
Definition PREC_UNARY : Precedence := 9.
Definition PREC_CALL : Precedence := 10.
Definition PREC_PRIMARY : Precedence := 11.

(** The functions a [ParseRule] points to. *)
Inductive ParsePrefixFn : Type :=
  | Fn_parse_number | Fn_parse_string | Fn_parse_literal
  | Fn_parse_identifier | Fn_parse_grouping | Fn_parse_unary
  | Fn_parse_array | Fn_parse_table | Fn_parse_fn_expr
  | Fn_parse_address_of.

Inductive ParseInfixFn : Type :=
  | Fn_parse_binary | Fn_parse_range | Fn_parse_call | Fn_parse_index
  | Fn_parse_field.

Record ParseRule : Type := mkRule {
  prefix : option ParsePrefixFn;
  infix : option ParseInfixFn;
  precedence : Precedence
}.

(** The table [rules] as [init_rules] fills it. *)
Definition get_rule (type : TokenType) : ParseRule :=
  match type with
  (* Literals *)
  | TOKEN_INT => mkRule (Some Fn_parse_number) None PREC_NONE
  | TOKEN_FLOAT => mkRule (Some Fn_parse_number) None PREC_NONE
  | TOKEN_STRING => mkRule (Some Fn_parse_string) None PREC_NONE
  | TOKEN_TRUE => mkRule (Some Fn_parse_literal) None PREC_NONE
  | TOKEN_FALSE => mkRule (Some Fn_parse_literal) None PREC_NONE
  | TOKEN_NIL => mkRule (Some Fn_parse_literal) None PREC_NONE
  (* Identifier *)
  | TOKEN_IDENTIFIER => mkRule (Some Fn_parse_identifier) None PREC_NONE
  (* Grouping and collections *)
  | TOKEN_LPAREN =>
      mkRule (Some Fn_parse_grouping) (Some Fn_parse_call) PREC_CALL
  | TOKEN_LBRACKET =>
      mkRule (Some Fn_parse_array) (Some Fn_parse_index) PREC_CALL
  | TOKEN_LBRACE => mkRule (Some Fn_parse_table) None PREC_NONE
  (* Unary *)
  | TOKEN_MINUS =>
      mkRule (Some Fn_parse_unary) (Some Fn_parse_binary) PREC_TERM
  | TOKEN_NOT => mkRule (Some Fn_parse_unary) None PREC_NONE
  | TOKEN_BANG => mkRule (Some Fn_parse_unary) None PREC_NONE
  | TOKEN_AMPERSAND => mkRule (Some Fn_parse_address_of) None PREC_NONE
  (* Binary operators *)
  | TOKEN_PLUS => mkRule None (Some Fn_parse_binary) PREC_TERM
  | TOKEN_STAR => mkRule None (Some Fn_parse_binary) PREC_FACTOR
  | TOKEN_SLASH => mkRule None (Some Fn_parse_binary) PREC_FACTOR
  | TOKEN_PERCENT => mkRule None (Some Fn_parse_binary) PREC_FACTOR
  (* Comparison *)
  | TOKEN_EQEQ => mkRule None (Some Fn_parse_binary) PREC_EQUALITY
  | TOKEN_NEQ => mkRule None (Some Fn_parse_binary) PREC_EQUALITY
  | TOKEN_LT => mkRule None (Some Fn_parse_binary) PREC_COMPARISON
  | TOKEN_GT => mkRule None (Some Fn_parse_binary) PREC_COMPARISON
  | TOKEN_LTE => mkRule None (Some Fn_parse_binary) PREC_COMPARISON
  | TOKEN_GTE => mkRule None (Some Fn_parse_binary) PREC_COMPARISON
  (* Logical *)
  | TOKEN_AND => mkRule None (Some Fn_parse_binary) PREC_AND
  | TOKEN_OR => mkRule None (Some Fn_parse_binary) PREC_OR
  (* Range *)
  | TOKEN_DOTDOT => mkRule None (Some Fn_parse_range) PREC_RANGE
  (* Field access *)
  | TOKEN_DOT => mkRule None (Some Fn_parse_field) PREC_CALL
  (* Function expression *)
  | TOKEN_FN => mkRule (Some Fn_parse_fn_expr) None PREC_NONE
  | _ => mkRule None None PREC_NONE
  end.

(** ** The parser state (parser.h) *)

(** The fields of the C struct [Parser], the lexer being held by value,
    followed by the diagnostics written to [stderr] so far: the token
    each one is reported at and its message. *)
Record Parser : Type := mkParser {
  lexer : Lexer;
  current : Token;
  previous : Token;
  had_error : bool;
  panic_mode : bool;
  reported : list (Token * string)
}.

Definition set_lexer (parser : Parser) (l : Lexer) : Parser :=
  {| lexer := l; current := current parser; previous := previous parser;
     had_error := had_error parser; panic_mode := panic_mode parser;
     reported := reported parser |}.

Definition set_current (parser : Parser) (t : Token) : Parser :=
  {| lexer := lexer parser; current := t; previous := previous parser;
     had_error := had_error parser; panic_mode := panic_mode parser;
     reported := reported parser |}.

Definition set_previous (parser : Parser) (t : Token) : Parser :=
  {| lexer := lexer parser; current := current parser; previous := t;
     had_error := had_error parser; panic_mode := panic_mode parser;
     reported := reported parser |}.

Definition set_panic_mode (parser : Parser) (b : bool) : Parser :=
  {| lexer := lexer parser; current := current parser;
     previous := previous parser; had_error := had_error parser;
     panic_mode := b; reported := reported parser |}.

(** ** Error handling *)

Definition error_at (parser : Parser) (token : Token) (message : string)
  : Parser :=
  if panic_mode parser then parser
  else
    {| lexer := lexer parser; current := current parser;
       previous := previous parser; had_error := true; panic_mode := true;
       reported := reported parser ++ [(token, message)] |}.

Definition error (parser : Parser) (message : string) : Parser :=
  error_at parser (previous parser) message.

Definition error_at_current (parser : Parser) (message : string) : Parser :=
  error_at parser (current parser) message.

(** ** Token handling *)

(** The loop of [advance]; every token it skips takes at least one byte
    of the source, so [n] bounds its turns when it is the number of bytes
    left. *)
Fixpoint advance_loop (n : nat) (parser : Parser) : Parser :=
  let '(t, l) := lexer_next_token (lexer parser) in
  let parser := set_current (set_lexer parser l) t in
  (* Skip newlines in most contexts *)
  if token_eqb (t_type t) TOKEN_NEWLINE then
    match n with
    | O => parser
    | S n => advance_loop n parser
    end
  else if negb (token_eqb (t_type t) TOKEN_ERROR) then parser
  else
    let parser := error_at_current parser (t_start t) in
    match n with
    | O => parser
    | S n => advance_loop n parser
    end.

Definition advance (parser : Parser) : Parser :=
  let parser := set_previous parser (current parser) in
  advance_loop (remaining (lexer parser)) parser.

Definition check (parser : Parser) (type : TokenType) : bool :=
  token_eqb (t_type (current parser)) type.

Definition match_ (parser : Parser) (type : TokenType) : bool * Parser :=
  if negb (check parser type) then (false, parser)
  else (true, advance parser).

Definition consume (parser : Parser) (type : TokenType) (message : string)
  : Parser :=
  if token_eqb (t_type (current parser)) type then advance parser
  else error_at_current parser message.

(** ** Literals *)

Definition pos_of (t : Token) : Pos := mkPos (t_line t) (t_column t).

(** The bytes of a numeric token without the digit separators. *)
Fixpoint without_separators (s : string) : string :=
  match s with
  | EmptyString => EmptyString
  | String c s =>
      if Ascii.eqb c "_" then without_separators s
      else String c (without_separators s)
  end.

(** The value of a digit in [strtoll], for digits and letters. *)
Definition digit_value (c : ascii) : option Z :=
  let n := Z.of_N (N_of_ascii c) in
  if between "0" "9" c then Some (n - 48)
  else if between "a" "z" c then Some (n - 97 + 10)
  else if between "A" "Z" c then Some (n - 65 + 10)
  else None.

(** The number the longest prefix of digits below [base] denotes. *)
Fixpoint digits_value (base : Z) (acc : Z) (s : string) : Z :=
  match s with
  | EmptyString => acc
  | String c s =>
      match digit_value c with
      | Some d =>
          if d <? base then digits_value base (acc * base + d) s else acc
      | None => acc
      end
  end.

(** [strtoll (buf, NULL, 0)] on a buffer that starts with a digit (no
    white space, no sign): the base is 16 after [0x] or [0X], 8 after a
    leading [0] and 10 otherwise; a value above [LLONG_MAX] is
    [LLONG_MAX]. *)
Definition strtoll_auto (buf : string) : Z :=
  let v :=
    match buf with
    | String c0 (String c1 rest) =>
        if Ascii.eqb c0 "0" && (Ascii.eqb c1 "x" || Ascii.eqb c1 "X") then
          digits_value 16 0 rest
        else if Ascii.eqb c0 "0" then digits_value 8 0 buf
        else digits_value 10 0 buf
    | _ => digits_value 10 0 buf
    end in
  Z.min v INT64_MAX.

(** The escape sequences of a string literal, over the bytes between the
    quotes; a backslash that is the last of them stands for itself. *)
Fixpoint unescape (s : string) : string :=
  match s with
  | EmptyString => EmptyString
  | String c rest =>
      if Ascii.eqb c BACKSLASH then
        match rest with
        | String e rest' =>
            let b :=
              if Ascii.eqb e "n" then LF
              else if Ascii.eqb e "t" then TAB
              else if Ascii.eqb e "r" then CR
              else if Ascii.eqb e BACKSLASH then BACKSLASH
              else if Ascii.eqb e QUOTE then QUOTE
              else if Ascii.eqb e "0" then NUL
              else e in
            String b (unescape rest')
        | EmptyString => String c EmptyString
        end
      else String c (unescape rest)
  end.

(** The bytes [start + 1 .. start + length - 1) of a token. *)
Definition inner (t : Token) : string :=
  String.substring 1 (Z.to_nat (t_length t - 2)) (t_start t).

Section parser.

(** [strtod] of the C library. *)
Variable strtod : string -> float.

Definition parse_number (parser : Parser) : AstNode :=
  let token := previous parser in
  if token_eqb (t_type token) TOKEN_INT then
    NODE_LITERAL_INT (pos_of token)
      (strtoll_auto (without_separators (t_start token)))
  else
    NODE_LITERAL_FLOAT (pos_of token)
      (strtod (without_separators (t_start token))).

Definition parse_string (parser : Parser) : AstNode :=
  let token := previous parser in
  NODE_LITERAL_STRING (pos_of token) (unescape (inner token)).

Definition parse_literal (parser : Parser) : AstNode :=
  let token := previous parser in
  match t_type token with
  | TOKEN_TRUE => NODE_LITERAL_BOOL (pos_of token) true
  | TOKEN_FALSE => NODE_LITERAL_BOOL (pos_of token) false
  | TOKEN_NIL => NODE_LITERAL_NIL (pos_of token)
  | _ => NODE_NULL
  end.

Definition parse_identifier (parser : Parser) : AstNode :=
  let token := previous parser in
  NODE_IDENTIFIER (pos_of token) (t_start token).

(** ** The recursive functions *)

(** The functions and loops of the parser that call themselves or each
    other, as the callees of one step of the recursion. *)
Record Rec : Type := mkRec {
  r_precedence : Parser -> Precedence -> res (AstNode * Parser);
  r_infix : Parser -> Precedence -> AstNode -> res (AstNode * Parser);
  r_arguments : Parser -> list AstNode -> res (list AstNode * Parser);
  r_elements : Parser -> list AstNode -> res (list AstNode * Parser);
  r_entries : Parser -> list (string * AstNode)
              -> res (list (string * AstNode) * Parser);
  r_parameters : Parser -> list string -> res (list string * Parser);
  r_statement : Parser -> res (AstNode * Parser);
  r_statements : Parser -> list AstNode -> res (list AstNode * Parser);
  r_if : Parser -> res (AstNode * Parser);
  r_arms : Parser -> list (AstNode * AstNode)
           -> res (list (AstNode * AstNode) * Parser);
  r_program : Parser -> list AstNode -> res (list AstNode * Parser);
  r_synchronize : Parser -> res Parser
}.

Variable rec : Rec.

Definition parse_expression (parser : Parser) : res (AstNode * Parser) :=
  r_precedence rec parser PREC_ASSIGNMENT.

(** Error recovery: the loop of [synchronize]. *)
Definition synchronize_loop (parser : Parser) : res Parser :=
  if negb (token_eqb (t_type (current parser)) TOKEN_EOF) then
    if token_eqb (t_type (previous parser)) TOKEN_NEWLINE then Ok parser
    else
      match t_type (current parser) with
      | TOKEN_FN | TOKEN_IF | TOKEN_WHILE | TOKEN_FOR | TOKEN_RETURN
      | TOKEN_MATCH | TOKEN_DEFER => Ok parser
      | _ => r_synchronize rec (advance parser)
      end
  else Ok parser.

Definition synchronize (parser : Parser) : res Parser :=
  synchronize_loop (set_panic_mode parser false).

Definition parse_grouping (parser : Parser) : res (AstNode * Parser) :=
  '(expr, parser) ← parse_expression parser;
  let parser := consume parser TOKEN_RPAREN "Expected ')' after expression" in
  Ok (expr, parser).

Definition parse_unary (parser : Parser) : res (AstNode * Parser) :=
  let op := previous parser in
  '(operand, parser) ← r_precedence rec parser PREC_UNARY;
  Ok (NODE_UNARY (pos_of op) (t_type op) operand, parser).

Definition parse_address_of (parser : Parser) : res (AstNode * Parser) :=
  let op := previous parser in
  '(operand, parser) ← r_precedence rec parser PREC_UNARY;
  Ok (NODE_ADDRESS_OF (pos_of op) operand, parser).

Definition parse_binary (parser : Parser) (left0 : AstNode)
  : res (AstNode * Parser) :=
  let op := previous parser in
  let rule := get_rule (t_type op) in
  '(right0, parser) ← r_precedence rec parser (precedence rule + 1);
  Ok (NODE_BINARY (pos_of op) (t_type op) left0 right0, parser).

Definition parse_range (parser : Parser) (left0 : AstNode)
  : res (AstNode * Parser) :=
  let op := previous parser in
  '(right0, parser) ← r_precedence rec parser (PREC_RANGE + 1);
  Ok (NODE_RANGE (pos_of op) left0 right0, parser).

(** The [do ... while (match (parser, TOKEN_COMMA))] loop of
    [parse_call]. *)
Definition parse_arguments (parser : Parser) (args : list AstNode)
  : res (list AstNode * Parser) :=
  '(arg, parser) ← parse_expression parser;
  let args := args ++ [arg] in
  let '(more, parser) := match_ parser TOKEN_COMMA in
  if (more : bool) then r_arguments rec parser args else Ok (args, parser).

Definition parse_call (parser : Parser) (left0 : AstNode)
  : res (AstNode * Parser) :=
  let token := previous parser in
  '(args, parser) ←
     (if negb (check parser TOKEN_RPAREN) then parse_arguments parser []
      else Ok ([], parser));
  let parser := consume parser TOKEN_RPAREN "Expected ')' after arguments" in
  Ok (NODE_CALL (pos_of token) left0 args, parser).

Definition parse_index (parser : Parser) (left0 : AstNode)
  : res (AstNode * Parser) :=
  let token := previous parser in
  '(index, parser) ← parse_expression parser;
  let parser := consume parser TOKEN_RBRACKET "Expected ']' after index" in
  Ok (NODE_INDEX (pos_of token) left0 index, parser).

Definition parse_field (parser : Parser) (left0 : AstNode)
  : res (AstNode * Parser) :=
  let token := previous parser in
  let parser :=
    consume parser TOKEN_IDENTIFIER "Expected field name after '.'" in
  let field := previous parser in
  Ok (NODE_FIELD (pos_of token) left0 (t_start field), parser).

(** The loop of [parse_array]. *)
Definition parse_elements (parser : Parser) (elements : list AstNode)
  : res (list AstNode * Parser) :=
  (* Allow trailing comma *)
  if check parser TOKEN_RBRACKET then Ok (elements, parser)
  else
    '(element, parser) ← parse_expression parser;
    let elements := elements ++ [element] in
    let '(more, parser) := match_ parser TOKEN_COMMA in
    if (more : bool) then r_elements rec parser elements
    else Ok (elements, parser).

Definition parse_array (parser : Parser) : res (AstNode * Parser) :=
  let token := previous parser in
  '(elements, parser) ←
     (if negb (check parser TOKEN_RBRACKET) then parse_elements parser []
      else Ok ([], parser));
  let parser :=
    consume parser TOKEN_RBRACKET "Expected ']' after array elements" in
  Ok (NODE_ARRAY (pos_of token) elements, parser).

(** The loop of [parse_table]. *)
Definition parse_entries (parser : Parser)
    (entries : list (string * AstNode))
  : res (list (string * AstNode) * Parser) :=
  (* Allow trailing comma *)
  if check parser TOKEN_RBRACE then Ok (entries, parser)
  else
    (* Parse key *)
    let parser := consume parser TOKEN_IDENTIFIER "Expected key name" in
    let key := previous parser in
    let parser := consume parser TOKEN_COLON "Expected ':' after key" in
    (* Parse value *)
    '(value, parser) ← parse_expression parser;
    let entries := entries ++ [(t_start key, value)] in
    let '(more, parser) := match_ parser TOKEN_COMMA in
    if (more : bool) then r_entries rec parser entries
    else Ok (entries, parser).

Definition parse_table (parser : Parser) : res (AstNode * Parser) :=
  let token := previous parser in
  '(entries, parser) ←
     (if negb (check parser TOKEN_RBRACE) then parse_entries parser []
      else Ok ([], parser));
  let parser :=
    consume parser TOKEN_RBRACE "Expected '}' after table entries" in
  Ok (NODE_TABLE (pos_of token) entries, parser).

(** [parse_block] *)
Definition parse_statements (parser : Parser) (stmts : list AstNode)
  : res (list AstNode * Parser) :=
  if negb (check parser TOKEN_RBRACE) && negb (check parser TOKEN_EOF) then
    '(stmt, parser) ← r_statement rec parser;
    let stmts :=
      match stmt with
      | NODE_NULL => stmts
      | _ => stmts ++ [stmt]
      end in
    parser ← (if panic_mode parser then synchronize parser else Ok parser);
    r_statements rec parser stmts
  else Ok (stmts, parser).

Definition parse_block (parser : Parser) : res (AstNode * Parser) :=
  let token := previous parser in
  '(stmts, parser) ← parse_statements parser [];
  let parser := consume parser TOKEN_RBRACE "Expected '}' after block" in
  Ok (NODE_BLOCK (pos_of token) stmts, parser).

(** The loop over the parameters of [parse_fn_expr]. *)
Definition parse_parameters (parser : Parser) (params : list string)
  : res (list string * Parser) :=
  let parser := consume parser TOKEN_IDENTIFIER "Expected parameter name" in
  let param := previous parser in
  let params := params ++ [t_start param] in
  let '(more, parser) := match_ parser TOKEN_COMMA in
  if (more : bool) then r_parameters rec parser params
  else Ok (params, parser).

(** Parse function expression (lambda or named) *)
Definition parse_fn_expr (parser : Parser) : res (AstNode * Parser) :=
  let token := previous parser in
  (* Check for function name *)
  let '(name, parser) :=
    if check parser TOKEN_IDENTIFIER then
      let parser := advance parser in
      (Some (t_start (previous parser)), parser)
    else (None, parser) in
  let parser := consume parser TOKEN_LPAREN "Expected '(' after 'fn'" in
  (* Parse parameters *)
  '(params, parser) ←
     (if negb (check parser TOKEN_RPAREN) then parse_parameters parser []
      else Ok ([], parser));
  let parser :=
    consume parser TOKEN_RPAREN "Expected ')' after parameters" in
  (* Optional return type annotation (skip for now) *)
  let '(arrow, parser) := match_ parser TOKEN_RARROW in
  let parser := if (arrow : bool) then advance parser else parser in
  (* Parse body *)
  let parser :=
    consume parser TOKEN_LBRACE "Expected '{' before function body" in
  '(body, parser) ← parse_block parser;
  match name with
  | Some name => Ok (NODE_FN_DECL (pos_of token) name params body, parser)
  | None => Ok (NODE_LAMBDA (pos_of token) params body, parser)
  end.

Definition call_prefix (f : ParsePrefixFn) (parser : Parser)
  : res (AstNode * Parser) :=
  match f with
  | Fn_parse_number => Ok (parse_number parser, parser)
  | Fn_parse_string => Ok (parse_string parser, parser)
  | Fn_parse_literal => Ok (parse_literal parser, parser)
  | Fn_parse_identifier => Ok (parse_identifier parser, parser)
  | Fn_parse_grouping => parse_grouping parser
  | Fn_parse_unary => parse_unary parser
  | Fn_parse_array => parse_array parser
  | Fn_parse_table => parse_table parser
  | Fn_parse_fn_expr => parse_fn_expr parser
  | Fn_parse_address_of => parse_address_of parser
  end.

Definition call_infix (f : ParseInfixFn) (parser : Parser) (left0 : AstNode)
  : res (AstNode * Parser) :=
  match f with
  | Fn_parse_binary => parse_binary parser left0
  | Fn_parse_range => parse_range parser left0
  | Fn_parse_call => parse_call parser left0
  | Fn_parse_index => parse_index parser left0
  | Fn_parse_field => parse_field parser left0
  end.

(** The loop of [parse_precedence] over the infix operators. *)
Definition parse_infix (parser : Parser) (precedence0 : Precedence)
    (left0 : AstNode) : res (AstNode * Parser) :=
  if precedence0 <=? precedence (get_rule (t_type (current parser))) then
    let parser := advance parser in
    match infix (get_rule (t_type (previous parser))) with
    | None => Fault                        (* the call of a null pointer *)
    | Some infix_rule =>
        '(left0, parser) ← call_infix infix_rule parser left0;
        r_infix rec parser precedence0 left0
    end
  else Ok (left0, parser).

(** Parse with precedence *)
Definition parse_precedence (parser : Parser) (precedence0 : Precedence)
  : res (AstNode * Parser) :=
  let parser := advance parser in
  match prefix (get_rule (t_type (previous parser))) with
  | None => Ok (NODE_NULL, error parser "Expected expression")
  | Some prefix_rule =>
      '(left0, parser) ← call_prefix prefix_rule parser;
      parse_infix parser precedence0 left0
  end.

(** ** Statements *)

Definition parse_if (parser : Parser) : res (AstNode * Parser) :=
  let token := previous parser in
  '(condition, parser) ← parse_expression parser;
  let parser := consume parser TOKEN_LBRACE "Expected '{' after if condition" in
  '(then_branch, parser) ← parse_block parser;
  '(else_branch, parser) ←
     (let '(m, parser1) := match_ parser TOKEN_ELIF in
      if (m : bool) then
        (* elif is just nested if *)
        r_if rec parser1
      else
        let '(m, parser2) := match_ parser TOKEN_ELSE in
        if (m : bool) then
          let parser2 :=
            consume parser2 TOKEN_LBRACE "Expected '{' after else" in
          parse_block parser2
        else Ok (NODE_NULL, parser));
  Ok (NODE_IF (pos_of token) condition then_branch else_branch, parser).

Definition parse_while (parser : Parser) : res (AstNode * Parser) :=
  let token := previous parser in
  '(condition, parser) ← parse_expression parser;
  let parser :=
    consume parser TOKEN_LBRACE "Expected '{' after while condition" in
  '(body, parser) ← parse_block parser;
  Ok (NODE_WHILE (pos_of token) condition body, parser).

Definition parse_for (parser : Parser) : res (AstNode * Parser) :=
  let token := previous parser in
  let parser := consume parser TOKEN_IDENTIFIER "Expected iterator name" in
  let iter := previous parser in
  let parser := consume parser TOKEN_IN "Expected 'in' after iterator" in
  '(iterable, parser) ← parse_expression parser;
  let parser :=
    consume parser TOKEN_LBRACE "Expected '{' after for iterable" in
  '(body, parser) ← parse_block parser;
  Ok (NODE_FOR (pos_of token) (t_start iter) iterable body, parser).

Definition parse_return (parser : Parser) : res (AstNode * Parser) :=
  let token := previous parser in
  '(value, parser) ←
     (if negb (check parser TOKEN_RBRACE) && negb (check parser TOKEN_NEWLINE)
         && negb (check parser TOKEN_EOF)
      then parse_expression parser
      else Ok (NODE_NULL, parser));
  Ok (NODE_RETURN (pos_of token) value, parser).

(** The loop of [parse_match] over the arms. *)
Definition parse_arms (parser : Parser) (arms : list (AstNode * AstNode))
  : res (list (AstNode * AstNode) * Parser) :=
  if negb (check parser TOKEN_RBRACE) && negb (check parser TOKEN_EOF) then
    (* Parse pattern *)
    '(pattern, parser) ←
       (let '(m, parser1) := match_ parser TOKEN_UNDERSCORE in
        if (m : bool) then
          Ok (NODE_IDENTIFIER (pos_of (previous parser1)) "_", parser1)
        else parse_expression parser);
    let parser := consume parser TOKEN_ARROW "Expected '=>' after pattern" in
    (* Parse body *)
    '(body, parser) ←
       (if check parser TOKEN_LBRACE then parse_block (advance parser)
        else parse_expression parser);
    (* Optional comma *)
    let '(_, parser) := match_ parser TOKEN_COMMA in
    r_arms rec parser (arms ++ [(pattern, body)])
  else Ok (arms, parser).

Definition parse_match (parser : Parser) : res (AstNode * Parser) :=
  let token := previous parser in
  '(value, parser) ← parse_expression parser;
  let parser :=
    consume parser TOKEN_LBRACE "Expected '{' after match value" in
  '(arms, parser) ← parse_arms parser [];
  let parser := consume parser TOKEN_RBRACE "Expected '}' after match arms" in
  Ok (NODE_MATCH (pos_of token) value arms, parser).

Definition parse_defer (parser : Parser) : res (AstNode * Parser) :=
  let token := previous parser in
  '(stmt, parser) ← r_statement rec parser;
  Ok (NODE_DEFER (pos_of token) stmt, parser).

Definition parse_import (parser : Parser) : AstNode * Parser :=
  let token := previous parser in
  let parser := consume parser TOKEN_STRING "Expected import path string" in
  let path := previous parser in
  (* Skip quotes *)
  (NODE_IMPORT (pos_of token) (inner path), parser).

(** The loop of [parse_c_block] over the bytes of the source, which moves
    [lexer->current] itself: [n] bounds the bytes before the terminator.
    Past the terminator the loop reads outside the source. *)
Fixpoint c_block_loop (n : nat) (l : Lexer) (brace_count : Z) (length0 : nat)
  : res (Lexer * nat) :=
  let c := peek l in
  let brace_count := if Ascii.eqb c "{" then brace_count + 1 else brace_count in
  let brace_count := if Ascii.eqb c "}" then brace_count - 1 else brace_count in
  if 0 <? brace_count then
    if Ascii.eqb c NUL then Fault
    else
      match n with
      | O => Fault
      | S n =>
          c_block_loop n
            {| source := source l; start := start l;
               Lexer.current := S (Lexer.current l); line := line l;
               column := column l; start_column := start_column l |}
            brace_count (S length0)
      end
  else Ok (l, length0).

Definition parse_c_block (parser : Parser) : res (AstNode * Parser) :=
  let token := previous parser in
  let parser := consume parser TOKEN_LBRACE "Expected '{' after @c" in
  (* Capture everything until matching brace *)
  let start0 := Lexer.current (lexer parser) in
  '(l, length0) ←
     (if negb (check parser TOKEN_EOF) then
        c_block_loop (remaining (lexer parser)) (lexer parser) 1 0
      else Ok (lexer parser, 0%nat));
  (* Advance past closing brace *)
  let parser := advance (set_lexer parser l) in
  Ok (NODE_C_BLOCK (pos_of token)
        (String.substring start0 length0 (source l)), parser).

(** The loop at the head of [parse_statement], which takes tokens from
    the lexer until one is not a newline. *)
Fixpoint skip_newlines (n : nat) (parser : Parser) : Parser :=
  if token_eqb (t_type (current parser)) TOKEN_NEWLINE then
    let '(t, l) := lexer_next_token (lexer parser) in
    let parser := set_current (set_lexer parser l) t in
    match n with
    | O => parser
    | S n => skip_newlines n parser
    end
  else parser.

Definition is_lambda (node : AstNode) : bool :=
  match node with
  | NODE_LAMBDA _ _ _ => true
  | _ => false
  end.

Definition node_pos (node : AstNode) : Pos :=
  match node with
  | NODE_LAMBDA p _ _ => p
  | _ => mkPos 0 0
  end.

(** The statement that starts with an expression (could be assignment) *)
Definition parse_expression_statement (parser : Parser)
  : res (AstNode * Parser) :=
  let start0 := current parser in
  '(expr, parser) ← parse_expression parser;
  (* Check for assignment *)
  let '(m, parser) := match_ parser TOKEN_EQ in
  if (m : bool) then
    '(value, parser) ← parse_expression parser;
    Ok (NODE_ASSIGNMENT (pos_of start0) expr value, parser)
  else Ok (NODE_EXPR_STMT (pos_of start0) expr, parser).

(** The directives, after [@] *)
Definition parse_directive (parser : Parser) : res (AstNode * Parser) :=
  let unknown := Ok (NODE_NULL, error parser "Unknown directive") in
  if check parser TOKEN_IDENTIFIER then
    let directive := current parser in
    if String.eqb (String.substring 0 6 (t_start directive)) "import"
       && (t_length directive =? 6)
    then Ok (parse_import (advance parser))
    else if String.eqb (String.substring 0 1 (t_start directive)) "c"
            && (t_length directive =? 1)
    then parse_c_block (advance parser)
    else unknown
  else unknown.

(** The statements that start with a keyword *)
Definition parse_keyword_statement (parser : Parser)
  : res (AstNode * Parser) :=
  let type := t_type (current parser) in
  if token_eqb type TOKEN_IF then parse_if (advance parser)
  else if token_eqb type TOKEN_WHILE then parse_while (advance parser)
  else if token_eqb type TOKEN_FOR then parse_for (advance parser)
  else if token_eqb type TOKEN_RETURN then parse_return (advance parser)
  else if token_eqb type TOKEN_BREAK then
    let parser := advance parser in
    Ok (NODE_BREAK (pos_of (previous parser)), parser)
  else if token_eqb type TOKEN_CONTINUE then
    let parser := advance parser in
    Ok (NODE_CONTINUE (pos_of (previous parser)), parser)
  else if token_eqb type TOKEN_MATCH then parse_match (advance parser)
  else if token_eqb type TOKEN_DEFER then parse_defer (advance parser)
  (* Function declaration or anonymous function *)
  else if token_eqb type TOKEN_FN then
    '(fn, parser) ← parse_fn_expr (advance parser);
    if is_lambda fn then Ok (NODE_EXPR_STMT (node_pos fn) fn, parser)
    else Ok (fn, parser)
  (* Directives *)
  else if token_eqb type TOKEN_AT then parse_directive (advance parser)
  else parse_expression_statement parser.

Definition parse_statement (parser : Parser) : res (AstNode * Parser) :=
  (* Skip any leading newlines *)
  let parser := skip_newlines (remaining (lexer parser)) parser in
  if check parser TOKEN_EOF then Ok (NODE_NULL, parser)
  else
    let declaration :=
      (* Variable/constant declaration - peek ahead to check *)
      if check parser TOKEN_IDENTIFIER then
        let peeked := lexer_peek_token (lexer parser) in
        if token_eqb (t_type peeked) TOKEN_COLONEQ then Some false
        else if token_eqb (t_type peeked) TOKEN_COLONCOLON then Some true
        else None
      else None in
    match declaration with
    | Some is_const =>
        let name := current parser in
        let parser := advance parser in        (* consume identifier *)
        let parser := advance parser in        (* consume := or :: *)
        '(init, parser) ← parse_expression parser;
        Ok (NODE_VAR_DECL (pos_of name) (t_start name) init is_const, parser)
    | None => parse_keyword_statement parser
    end.

(** The loop of [parse_program]. *)
Definition parse_program_loop (parser : Parser) (stmts : list AstNode)
  : res (list AstNode * Parser) :=
  if negb (check parser TOKEN_EOF) then
    '(stmt, parser) ← r_statement rec parser;
    let stmts :=
      match stmt with
      | NODE_NULL => stmts
      | _ => stmts ++ [stmt]
      end in
    parser ← (if panic_mode parser then synchronize parser else Ok parser);
    r_program rec parser stmts
  else Ok (stmts, parser).

End parser.

(** The recursion, cut off at depth [fuel]. *)
Fixpoint parser_rec (strtod : string -> float) (fuel : nat) : Rec :=
  match fuel with
  | O =>
      {| r_precedence := fun _ _ => Hang; r_infix := fun _ _ _ => Hang;
         r_arguments := fun _ _ => Hang; r_elements := fun _ _ => Hang;
         r_entries := fun _ _ => Hang; r_parameters := fun _ _ => Hang;
         r_statement := fun _ => Hang; r_statements := fun _ _ => Hang;
         r_if := fun _ => Hang; r_arms := fun _ _ => Hang;
         r_program := fun _ _ => Hang; r_synchronize := fun _ => Hang |}
  | S fuel =>
      let rec := parser_rec strtod fuel in
      {| r_precedence := parse_precedence strtod rec;
         r_infix := parse_infix rec;
         r_arguments := parse_arguments rec;
         r_elements := parse_elements rec;
         r_entries := parse_entries rec;
         r_parameters := parse_parameters rec;
         r_statement := parse_statement rec;
         r_statements := parse_statements rec;
         r_if := parse_if rec;
         r_arms := parse_arms rec;
         r_program := parse_program_loop rec;
         r_synchronize := synchronize_loop rec |}
  end.

(** [parser_init]: the token [previous] is copied from is indeterminate;
    it is read only after the next [advance] has replaced it. *)
Definition parser_init (l : Lexer) : Parser :=
  let blank := {| t_type := TOKEN_EOF; t_start := ""; t_line := 0;
                  t_column := 0 |} in
  advance {| lexer := l; current := blank; previous := blank;
             had_error := false; panic_mode := false; reported := [] |}.

Definition parse_program (strtod : string -> float) (fuel : nat)
    (parser : Parser) : res (AstNode * Parser) :=
  '(stmts, parser) ← r_program (parser_rec strtod fuel) parser [];
  Ok (NODE_PROGRAM stmts, parser).

(** [parse]: the tree, or [NODE_NULL] for the null pointer after an
    error. *)
Definition parse (strtod : string -> float) (fuel : nat) (source0 : string)
  : res AstNode :=
  let parser := parser_init (lexer_init source0) in
  '(ast, parser) ← parse_program strtod fuel parser;
  if had_error parser then Ok NODE_NULL else Ok ast.

(** ** Tokens the parser sees *)

(** The parser after [advance] has taken the token [t] and left the
    lexer [l]. *)
Definition advanced (parser : Parser) (t : Token) (l : Lexer) : Parser :=
  {| lexer := l; current := t; previous := current parser;
     had_error := had_error parser; panic_mode := panic_mode parser;
     reported := reported parser |}.

(** A token that [advance] does not skip. *)
Definition plain (t : Token) : Prop :=
  t_type t <> TOKEN_NEWLINE /\ t_type t <> TOKEN_ERROR.

Lemma token_eqb_refl (a : TokenType) : token_eqb a a = true.
Proof. unfold token_eqb. destruct (TokenType_eq_dec a a); congruence. Qed.

Lemma token_eqb_neq (a b : TokenType) : a <> b -> token_eqb a b = false.
Proof. unfold token_eqb. destruct (TokenType_eq_dec a b); congruence. Qed.

Lemma token_eqb_eq (a b : TokenType) : token_eqb a b = true -> a = b.
Proof. unfold token_eqb. destruct (TokenType_eq_dec a b); congruence. Qed.

Lemma advance_plain (parser : Parser) (t : Token) (l : Lexer) :
  lexer_next_token (lexer parser) = (t, l) -> plain t ->
  advance parser = advanced parser t l.
Proof.
  intros H [Hn He]. unfold advance.
  destruct (remaining _); cbn [advance_loop set_previous lexer];
    rewrite H, (token_eqb_neq _ _ Hn), (token_eqb_neq _ _ He); reflexivity.
Qed.

Lemma error_at_lexer (parser : Parser) (t : Token) (m : string) :
  lexer (error_at parser t m) = lexer parser
  /\ current (error_at parser t m) = current parser
  /\ previous (error_at parser t m) = previous parser
  /\ (had_error parser = true -> had_error (error_at parser t m) = true).
Proof. unfold error_at. destruct (panic_mode parser); cbn; auto. Qed.

Lemma advance_loop_spec (n : nat) :
  forall parser,
    lexer_ok (lexer parser) -> (remaining (lexer parser) <= n)%nat ->
    let parser' := advance_loop n parser in
    plain (current parser')
    /\ follows (lexer parser) (lexer parser')
    /\ previous parser' = previous parser
    /\ (had_error parser = true -> had_error parser' = true).
Proof.
  induction n as [|n IH]; intros parser Hok Hn; cbn zeta;
    cbn [advance_loop];
    destruct (lexer_next_token (lexer parser)) as [t l] eqn:Hnext;
    destruct (lexer_next_token_follows _ _ _ Hok Hnext) as [Hf Hcase];
    assert (Hskip : t_type t = TOKEN_NEWLINE \/ t_type t = TOKEN_ERROR ->
                    (Lexer.current (lexer parser) < Lexer.current l)%nat)
      by (intros Ht; destruct Hcase as [(Heof & _)|[_ Hlt]];
          [destruct Ht; congruence | exact Hlt]);
    pose proof (proj2 (proj2 Hf)) as Hokl; unfold lexer_ok in Hokl;
    rewrite (proj1 Hf) in Hokl; unfold remaining in Hn.
  - destruct (token_eqb (t_type t) TOKEN_NEWLINE) eqn:En;
      [apply token_eqb_eq in En; specialize (Hskip (or_introl En)); lia|].
    destruct (token_eqb (t_type t) TOKEN_ERROR) eqn:Ee;
      [apply token_eqb_eq in Ee; specialize (Hskip (or_intror Ee)); lia|].
    cbn [negb set_current set_lexer current lexer previous had_error].
    unfold token_eqb in En, Ee.
    destruct (TokenType_eq_dec _ _), (TokenType_eq_dec _ _); try discriminate.
    repeat split; auto.
    all: apply Hf.
  - destruct (token_eqb (t_type t) TOKEN_NEWLINE) eqn:En.
    { apply token_eqb_eq in En. specialize (Hskip (or_introl En)).
      destruct (IH (set_current (set_lexer parser l) t)) as (Hp & Hf' & Hpr & Hh);
        [apply Hf | cbn [set_current set_lexer lexer]; unfold remaining;
                    rewrite (proj1 Hf); lia|].
      split; [exact Hp|]. split; [exact (follows_trans _ _ _ Hf Hf')|].
      split; [exact Hpr | exact Hh]. }
    destruct (token_eqb (t_type t) TOKEN_ERROR) eqn:Ee.
    { apply token_eqb_eq in Ee. specialize (Hskip (or_intror Ee)).
      cbn [negb].
      set (p1 := error_at_current (set_current (set_lexer parser l) t) (t_start t)).
      destruct (error_at_lexer (set_current (set_lexer parser l) t)
                  (current (set_current (set_lexer parser l) t)) (t_start t))
        as (Hl1 & _ & Hpr1 & Hh1).
      fold (error_at_current (set_current (set_lexer parser l) t) (t_start t))
        in Hl1, Hpr1, Hh1. fold p1 in Hl1, Hpr1, Hh1.
      cbn [set_current set_lexer lexer previous had_error] in Hl1, Hpr1, Hh1.
      destruct (IH p1) as (Hp & Hf' & Hpr & Hh);
        [rewrite Hl1; apply Hf
        | rewrite Hl1; unfold remaining; rewrite (proj1 Hf); lia|].
      rewrite Hl1 in Hf'.
      split; [exact Hp|]. split; [exact (follows_trans _ _ _ Hf Hf')|].
      split; [congruence | auto]. }
    cbn [negb set_current set_lexer current lexer previous had_error].
    unfold token_eqb in En, Ee.
    destruct (TokenType_eq_dec _ _), (TokenType_eq_dec _ _); try discriminate.
    repeat split; auto.
    all: apply Hf.
Qed.

(** The tokens [ts] that the lexer gives from [l] on before it gives the
    token [t] and is left as [l']. *)
Fixpoint scans (l : Lexer) (ts : list Token) (t : Token) (l' : Lexer) : Prop :=
  match ts with
  | [] => lexer_next_token l = (t, l')
  | t1 :: ts => exists l1, lexer_next_token l = (t1, l1) /\ scans l1 ts t l'
  end.

Definition is_error_token (t : Token) : bool :=
  token_eqb (t_type t) TOKEN_ERROR.

(** What [advance] reports for the tokens it skips: the first error
    token, with its text as the message, unless the parser is in panic
    mode already. *)
Definition report (panic : bool) (ts : list Token) : list (Token * string) :=
  if panic then []
  else
    match List.find is_error_token ts with
    | None => []
    | Some t => [(t, t_start t)]
    end.

Definition any_error (ts : list Token) : bool :=
  existsb is_error_token ts.

Lemma advance_loop_scans (n : nat) :
  forall parser,
    lexer_ok (lexer parser) -> (remaining (lexer parser) <= n)%nat ->
    let parser' := advance_loop n parser in
    exists ts,
      scans (lexer parser) ts (current parser') (lexer parser')
      /\ Forall (fun t => ~ plain t) ts
      /\ (length ts + Lexer.current (lexer parser)
          <= Lexer.current (lexer parser'))%nat
      /\ reported parser' = reported parser ++ report (panic_mode parser) ts
      /\ panic_mode parser' = panic_mode parser || any_error ts
      /\ had_error parser'
         = (if panic_mode parser then had_error parser
            else had_error parser || any_error ts).
Proof.
  induction n as [|n IH]; intros parser Hok Hn; cbn zeta;
    cbn [advance_loop];
    destruct (lexer_next_token (lexer parser)) as [t l] eqn:Hnext;
    destruct (lexer_next_token_follows _ _ _ Hok Hnext) as [Hf Hcase];
    assert (Hskip : t_type t = TOKEN_NEWLINE \/ t_type t = TOKEN_ERROR ->
                    (Lexer.current (lexer parser) < Lexer.current l)%nat)
      by (intros Ht; destruct Hcase as [(Heof & _)|[_ Hlt]];
          [destruct Ht; congruence | exact Hlt]);
    pose proof (proj2 (proj2 Hf)) as Hokl; unfold lexer_ok in Hokl;
    rewrite (proj1 Hf) in Hokl; unfold remaining in Hn.
  - destruct (token_eqb (t_type t) TOKEN_NEWLINE) eqn:En;
      [apply token_eqb_eq in En; specialize (Hskip (or_introl En)); lia|].
    destruct (token_eqb (t_type t) TOKEN_ERROR) eqn:Ee;
      [apply token_eqb_eq in Ee; specialize (Hskip (or_intror Ee)); lia|].
    cbn [negb set_current set_lexer current lexer previous had_error
         panic_mode reported].
    exists []. cbn [scans length Nat.add]. split; [exact Hnext|].
    split; [constructor|]. split; [apply Hf|].
    unfold report, any_error. cbn [List.find existsb].
    destruct (panic_mode parser); rewrite app_nil_r, ?orb_false_r; auto.
  - destruct (token_eqb (t_type t) TOKEN_NEWLINE) eqn:En.
    { apply token_eqb_eq in En. specialize (Hskip (or_introl En)).
      destruct (IH (set_current (set_lexer parser l) t))
        as (ts & Hs & Hall & Hlen & Hrep & Hpanic & Herr).
      - apply Hf.
      - cbn [set_current set_lexer lexer]. unfold remaining.
        rewrite (proj1 Hf). lia.
      - cbn [set_current set_lexer lexer reported panic_mode had_error] in *.
        exists (t :: ts). cbn [scans length].
        split; [exists l; split; [exact Hnext | exact Hs]|].
        split; [constructor; [intros [Hp _]; congruence | exact Hall]|].
        split; [lia|].
        assert (Hne : is_error_token t = false)
          by (unfold is_error_token; rewrite En; reflexivity).
        unfold report, any_error in *. cbn [List.find existsb].
        rewrite Hne. cbn [orb]. auto. }
    destruct (token_eqb (t_type t) TOKEN_ERROR) eqn:Ee; cbn [negb].
    2:{ cbn [set_current set_lexer current lexer previous had_error
             panic_mode reported].
        exists []. cbn [scans length Nat.add]. split; [exact Hnext|].
        split; [constructor|]. split; [apply Hf|].
        unfold report, any_error. cbn [List.find existsb].
        destruct (panic_mode parser); rewrite app_nil_r, ?orb_false_r; auto. }
    pose proof (token_eqb_eq _ _ Ee) as Ee'. specialize (Hskip (or_intror Ee')).
    set (p1 := error_at_current (set_current (set_lexer parser l) t) (t_start t)).
    assert (Hl1 : lexer p1 = l)
      by (unfold p1, error_at_current, error_at; cbn;
          destruct (panic_mode parser); reflexivity).
    destruct (IH p1) as (ts & Hs & Hall & Hlen & Hrep & Hpanic & Herr).
    + rewrite Hl1. apply Hf.
    + rewrite Hl1. unfold remaining. rewrite (proj1 Hf). lia.
    + rewrite Hl1 in *.
      exists (t :: ts). cbn [scans length].
      split; [exists l; split; [exact Hnext | exact Hs]|].
      split; [constructor; [intros [_ Hp]; congruence | exact Hall]|].
      split; [lia|].
      assert (Hie : is_error_token t = true) by exact Ee.
      unfold report, any_error in *. cbn [List.find existsb].
      rewrite Hie. cbn [orb].
      rewrite Hrep, Hpanic, Herr. unfold p1, error_at_current, error_at.
      cbn [set_current set_lexer current lexer previous had_error
           panic_mode reported].
      destruct (panic_mode parser) eqn:Ep;
        cbn [set_current set_lexer current lexer previous had_error
             panic_mode reported orb].
      * rewrite Ep, app_nil_r. auto.
      * rewrite <- app_assoc. cbn [app orb]. rewrite orb_true_r. auto.
Qed.

(** X19. [advance], with the lexer inside its source, always ends.  It
    takes tokens from the lexer one after the other, skips those that
    are newlines or error tokens, each of which takes at least one byte
    of the source, and stops at the
    first token that is neither, which becomes the current token; the
    token that was current becomes the previous one, and the lexer stays
    inside the same source.  Outside panic mode the first error token
    skipped is reported with its text as the message and sets
    [had_error] and [panic_mode]; the later ones, and every one when the
    parser is in panic mode already, are skipped without a report.
    Nothing else is reported and no flag is cleared. *)
Theorem advance_skips (parser : Parser) :
  (Lexer.current (lexer parser) <= String.length (source (lexer parser)))%nat ->
  let parser' := advance parser in
  exists skipped : list Token,
    scans (lexer parser) skipped (current parser') (lexer parser')
    /\ Forall (fun t => t_type t = TOKEN_NEWLINE \/ t_type t = TOKEN_ERROR)
         skipped
    /\ t_type (current parser') <> TOKEN_NEWLINE
    /\ t_type (current parser') <> TOKEN_ERROR
    /\ previous parser' = current parser
    /\ source (lexer parser') = source (lexer parser)
    /\ (length skipped + Lexer.current (lexer parser)
        <= Lexer.current (lexer parser')
        <= String.length (source (lexer parser)))%nat
    /\ reported parser'
       = reported parser ++ report (panic_mode parser) skipped
    /\ panic_mode parser' = panic_mode parser || any_error skipped
    /\ had_error parser'
       = (if panic_mode parser then had_error parser
          else had_error parser || any_error skipped).
Proof.
  intros Hok. cbn zeta. unfold advance.
  destruct (advance_loop_spec (remaining (lexer parser))
              (set_previous parser (current parser)) Hok (Nat.le_refl _))
    as ([Hn He] & (Hs & _ & Hok') & Hpr & _).
  destruct (advance_loop_scans (remaining (lexer parser))
              (set_previous parser (current parser)) Hok (Nat.le_refl _))
    as (ts & Hscan & Hall & Hlen & Hrep & Hpanic & Herr).
  cbn [set_previous lexer previous had_error panic_mode reported] in *.
  unfold lexer_ok in Hok'. rewrite Hs in Hok'.
  exists ts. split; [exact Hscan|]. split.
  { eapply Forall_impl; [exact Hall|]. intros t Ht. unfold plain in Ht.
    destruct (TokenType_eq_dec (t_type t) TOKEN_NEWLINE); [auto|].
    destruct (TokenType_eq_dec (t_type t) TOKEN_ERROR); [auto|].
    exfalso. apply Ht. split; assumption. }
  auto 12.
Qed.

(** A line break, two stray characters and a comment between two
    names. *)
Definition demo_stray_pair : Parser :=
  parser_init (lexer_init "x
  $ $ # note

  y").

Lemma advance_skips_witness :
  (exists skipped : list Token,
     scans (lexer demo_stray_pair) skipped
       (current (advance demo_stray_pair)) (lexer (advance demo_stray_pair))
     /\ reported (advance demo_stray_pair)
        = reported demo_stray_pair
          ++ report (panic_mode demo_stray_pair) skipped
     /\ had_error (advance demo_stray_pair)
        = (if panic_mode demo_stray_pair then had_error demo_stray_pair
           else had_error demo_stray_pair || any_error skipped))
  /\ t_start (current demo_stray_pair) = "x"%string
  /\ t_start (current (advance demo_stray_pair)) = "y"%string
  /\ length (reported (advance demo_stray_pair)) = 1%nat
  /\ had_error (advance demo_stray_pair) = true.
Proof.
  split; [|vm_compute; auto].
  destruct (advance_skips demo_stray_pair)
    as (skipped & Hs & _ & _ & _ & _ & _ & _ & Hrep & _ & Herr);
    [vm_compute; lia|].
  exists skipped. split; [exact Hs|]. split; [exact Hrep | exact Herr].
Defined.

(** ** Operands and operators *)

Lemma advance_loop_previous (n : nat) :
  forall parser, previous (advance_loop n parser) = previous parser.
Proof.
  induction n as [|n IH]; intros parser; cbn [advance_loop];
    destruct (lexer_next_token (lexer parser)) as [t l];
    destruct (token_eqb (t_type t) TOKEN_NEWLINE);
    destruct (token_eqb (t_type t) TOKEN_ERROR); cbn [negb];
    rewrite ?IH; try reflexivity;
    apply (error_at_lexer (set_current (set_lexer parser l) t)).
Qed.

Lemma advance_previous (parser : Parser) :
  previous (advance parser) = current parser.
Proof. unfold advance. rewrite advance_loop_previous. reflexivity. Qed.

(** The tokens that are an expression by themselves: literals and
    identifiers. *)
Definition is_operand (type : TokenType) : bool :=
  match prefix (get_rule type) with
  | Some Fn_parse_number | Some Fn_parse_string | Some Fn_parse_literal
  | Some Fn_parse_identifier => true
  | _ => false
  end.

(** The binary operators, [..] included. *)
Definition is_operator (type : TokenType) : bool :=
  match infix (get_rule type) with
  | Some Fn_parse_binary | Some Fn_parse_range => true
  | _ => false
  end.

(** The prefix operators [-], [not] and [!]. *)
Definition is_unary (type : TokenType) : bool :=
  match prefix (get_rule type) with
  | Some Fn_parse_unary => true
  | _ => false
  end.

(** The level of a token as an infix operator. *)
Definition binds (t : Token) : Precedence := precedence (get_rule (t_type t)).

(** A parser of which only the previous token matters. *)
Definition after (t : Token) : Parser :=
  {| lexer := lexer_init ""; current := t; previous := t;
     had_error := false; panic_mode := false; reported := [] |}.

(** The node of an operand token. *)
Definition operand_node (strtod : string -> float) (t : Token) : AstNode :=
  match prefix (get_rule (t_type t)) with
  | Some Fn_parse_number => parse_number strtod (after t)
  | Some Fn_parse_string => parse_string (after t)
  | Some Fn_parse_literal => parse_literal (after t)
  | _ => parse_identifier (after t)
  end.

(** The node of a binary operator token over two operands. *)
Definition operator_node (op : Token) (left0 right0 : AstNode) : AstNode :=
  match infix (get_rule (t_type op)) with
  | Some Fn_parse_range => NODE_RANGE (pos_of op) left0 right0
  | _ => NODE_BINARY (pos_of op) (t_type op) left0 right0
  end.

Section steps.
Variable strtod : string -> float.
Variable rec : Rec.

Lemma parse_precedence_operand (parser : Parser) (level : Precedence) :
  is_operand (t_type (current parser)) = true ->
  parse_precedence strtod rec parser level
  = parse_infix rec (advance parser) level
      (operand_node strtod (current parser)).
Proof.
  intros H. unfold parse_precedence, operand_node, is_operand in *.
  rewrite advance_previous.
  destruct (prefix (get_rule (t_type (current parser)))) as [[]|];
    try discriminate H; cbn [call_prefix mbind res_mbind res_bind];
    unfold parse_number, parse_string, parse_literal, parse_identifier;
    rewrite advance_previous; reflexivity.
Qed.

Lemma parse_precedence_unary (parser : Parser) (level : Precedence) :
  is_unary (t_type (current parser)) = true ->
  parse_precedence strtod rec parser level
  = '(operand, parser') ← r_precedence rec (advance parser) PREC_UNARY;
    parse_infix rec parser' level
      (NODE_UNARY (pos_of (current parser)) (t_type (current parser))
         operand).
Proof.
  intros H. unfold parse_precedence, is_unary in *.
  rewrite advance_previous.
  destruct (prefix (get_rule (t_type (current parser)))) as [[]|];
    try discriminate H. cbn [call_prefix]. unfold parse_unary.
  rewrite advance_previous.
  destruct (r_precedence rec (advance parser) PREC_UNARY) as [[o p']| |];
    reflexivity.
Qed.

Lemma parse_infix_stop (parser : Parser) (level : Precedence)
    (left0 : AstNode) :
  binds (current parser) < level ->
  parse_infix rec parser level left0 = Ok (left0, parser).
Proof.
  intros H. unfold parse_infix. fold (binds (current parser)).
  destruct (Z.leb_spec level (binds (current parser))); [lia | reflexivity].
Qed.

Lemma parse_infix_operator (parser : Parser) (level : Precedence)
    (left0 : AstNode) :
  is_operator (t_type (current parser)) = true ->
  level <= binds (current parser) ->
  parse_infix rec parser level left0
  = '(right0, parser') ←
       r_precedence rec (advance parser) (binds (current parser) + 1);
    r_infix rec parser' level (operator_node (current parser) left0 right0).
Proof.
  intros Hop Hlevel. unfold parse_infix, is_operator, operator_node in *.
  fold (binds (current parser)).
  destruct (Z.leb_spec level (binds (current parser))); [|lia].
  rewrite advance_previous.
  destruct (infix (get_rule (t_type (current parser)))) as [[]|] eqn:Ei;
    try discriminate Hop; cbn [call_infix]; unfold parse_binary, parse_range;
    rewrite advance_previous.
  - unfold binds.
    destruct (r_precedence rec (advance parser) _) as [[r p']| |];
      reflexivity.
  - assert (Hb : binds (current parser) = PREC_RANGE).
    { unfold binds. destruct (t_type (current parser)); try discriminate Ei;
        reflexivity. }
    rewrite Hb.
    destruct (r_precedence rec (advance parser) _) as [[r p']| |];
      reflexivity.
Qed.

End steps.

Lemma operand_binds (t : Token) :
  is_operand (t_type t) = true -> binds t = PREC_NONE.
Proof. unfold is_operand, binds. destruct (t_type t); cbn; congruence. Qed.

Lemma operator_binds (t : Token) :
  is_operator (t_type t) = true -> PREC_OR <= binds t <= PREC_FACTOR.
Proof.
  unfold is_operator, binds.
  destruct (t_type t); intros H; try discriminate H;
    vm_compute; split; discriminate.
Qed.

Lemma parser_rec_S (strtod : string -> float) (n : nat) :
  parser_rec strtod (S n)
  = let rec := parser_rec strtod n in
    {| r_precedence := parse_precedence strtod rec;
       r_infix := parse_infix rec;
       r_arguments := parse_arguments rec;
       r_elements := parse_elements rec;
       r_entries := parse_entries rec;
       r_parameters := parse_parameters rec;
       r_statement := parse_statement rec;
       r_statements := parse_statements rec;
       r_if := parse_if rec;
       r_arms := parse_arms rec;
       r_program := parse_program_loop rec;
       r_synchronize := synchronize_loop rec |}.
Proof. reflexivity. Qed.

Lemma r_precedence_S (strtod : string -> float) (n : nat) :
  r_precedence (parser_rec strtod (S n))
  = parse_precedence strtod (parser_rec strtod n).
Proof. reflexivity. Qed.

Lemma r_infix_S (strtod : string -> float) (n : nat) :
  r_infix (parser_rec strtod (S n)) = parse_infix (parser_rec strtod n).
Proof. reflexivity. Qed.

Arguments parser_rec : simpl never.

(** An operand followed by a token that does not bind at [level]. *)
Lemma operand_alone (strtod : string -> float) (n : nat) (parser : Parser)
    (level : Precedence) :
  is_operand (t_type (current parser)) = true ->
  binds (current (advance parser)) < level ->
  r_precedence (parser_rec strtod (S n)) parser level
  = Ok (operand_node strtod (current parser), advance parser).
Proof.
  intros Ha Hb. rewrite r_precedence_S, parse_precedence_operand by exact Ha.
  apply parse_infix_stop, Hb.
Qed.

(** X20. The grouping of two binary operators.  When the parser sees an
    operand, an operator, an operand, an operator, an operand and then a
    token that is no infix operator, the expression groups to the left,
    [(a op1 b) op2 c], unless the second operator binds tighter than the
    first, in which case it is [a op1 (b op2 c)]: operators of one level
    associate to the left, and the levels are, from loose to tight,
    [or], [and], [== !=], [< > <= >=], [..], [+ -], [* / %]. *)
Theorem operator_grouping (strtod : string -> float) (fuel : nat)
    (parser : Parser) :
  let a := current parser in
  let p1 := advance parser in let op1 := current p1 in
  let p2 := advance p1 in let b := current p2 in
  let p3 := advance p2 in let op2 := current p3 in
  let p4 := advance p3 in let c := current p4 in
  let p5 := advance p4 in
  is_operand (t_type a) = true -> is_operator (t_type op1) = true ->
  is_operand (t_type b) = true -> is_operator (t_type op2) = true ->
  is_operand (t_type c) = true -> binds (current p5) = PREC_NONE ->
  (3 <= fuel)%nat ->
  r_precedence (parser_rec strtod fuel) parser PREC_ASSIGNMENT
  = Ok (if binds op2 <=? binds op1
        then operator_node op2
               (operator_node op1 (operand_node strtod a)
                  (operand_node strtod b))
               (operand_node strtod c)
        else operator_node op1 (operand_node strtod a)
               (operator_node op2 (operand_node strtod b)
                  (operand_node strtod c)),
        p5).
Proof.
  intros a p1 op1 p2 b p3 op2 p4 c p5 Ha Hop1 Hb Hop2 Hc He Hfuel.
  destruct fuel as [|[|[|n]]]; try lia.
  pose proof (operator_binds op1 Hop1) as H1.
  pose proof (operator_binds op2 Hop2) as H2.
  unfold PREC_OR, PREC_FACTOR, PREC_NONE, PREC_ASSIGNMENT in *.
  rewrite r_precedence_S, parse_precedence_operand by exact Ha.
  fold a p1.
  rewrite parse_infix_operator by (fold op1; unfold PREC_ASSIGNMENT; assumption || lia).
  fold op1 p2.
  rewrite r_precedence_S, parse_precedence_operand by exact Hb.
  fold b p3.
  destruct (Z.leb_spec (binds op2) (binds op1)) as [Hle|Hgt].
  - (* the second operator does not bind tighter *)
    rewrite parse_infix_stop by (fold op2; lia).
    cbn [mbind res_mbind res_bind].
    rewrite r_infix_S, parse_infix_operator by (fold op2; assumption || lia).
    fold op2 p4.
    rewrite (operand_alone strtod n p4) by (fold p5; assumption || lia).
    cbn [mbind res_mbind res_bind]. fold c p5.
    rewrite r_infix_S. apply parse_infix_stop. lia.
  - (* the second operator binds tighter *)
    rewrite parse_infix_operator by (fold op2; assumption || lia).
    fold op2 p4.
    rewrite (operand_alone strtod n p4) by (fold p5; assumption || lia).
    cbn [mbind res_mbind res_bind]. fold c p5.
    rewrite (r_infix_S strtod n), parse_infix_stop by lia.
    cbn [mbind res_mbind res_bind].
    rewrite r_infix_S. apply parse_infix_stop. lia.
Qed.

Definition no_floats (s : string) : float := 0%float.

(** Parsers at the start of three expressions. *)
Definition demo_minus_star : Parser :=
  parser_init (lexer_init "a - b * 2
").

Definition demo_star_minus : Parser :=
  parser_init (lexer_init "a * b - 2").

Definition demo_not_eq : Parser :=
  parser_init (lexer_init "not a == b").

Lemma operator_grouping_witness :
  r_precedence (parser_rec no_floats 3) demo_minus_star PREC_ASSIGNMENT
  = Ok (NODE_BINARY (mkPos 1 3) TOKEN_MINUS (NODE_IDENTIFIER (mkPos 1 1) "a")
          (NODE_BINARY (mkPos 1 7) TOKEN_STAR
             (NODE_IDENTIFIER (mkPos 1 5) "b")
             (NODE_LITERAL_INT (mkPos 1 9) 2)),
        Nat.iter 5 advance demo_minus_star)
  /\ r_precedence (parser_rec no_floats 3) demo_star_minus PREC_ASSIGNMENT
     = Ok (NODE_BINARY (mkPos 1 7) TOKEN_MINUS
             (NODE_BINARY (mkPos 1 3) TOKEN_STAR
                (NODE_IDENTIFIER (mkPos 1 1) "a")
                (NODE_IDENTIFIER (mkPos 1 5) "b"))
             (NODE_LITERAL_INT (mkPos 1 9) 2),
           Nat.iter 5 advance demo_star_minus).
Proof.
  split.
  - apply (operator_grouping no_floats 3 demo_minus_star);
      first [reflexivity | lia].
  - apply (operator_grouping no_floats 3 demo_star_minus);
      first [reflexivity | lia].
Defined.

(** X21. A prefix operator binds tighter than every binary operator:
    when the parser sees [-], [not] or [!], an operand, a binary
    operator, an operand and then a token that is no infix operator, the
    prefix operator applies to the first operand alone, [(not a) == b]. *)
Theorem unary_grouping (strtod : string -> float) (fuel : nat)
    (parser : Parser) :
  let u := current parser in
  let p1 := advance parser in let a := current p1 in
  let p2 := advance p1 in let op := current p2 in
  let p3 := advance p2 in let b := current p3 in
  let p4 := advance p3 in
  is_unary (t_type u) = true -> is_operand (t_type a) = true ->
  is_operator (t_type op) = true -> is_operand (t_type b) = true ->
  binds (current p4) = PREC_NONE ->
  (2 <= fuel)%nat ->
  r_precedence (parser_rec strtod fuel) parser PREC_ASSIGNMENT
  = Ok (operator_node op
          (NODE_UNARY (pos_of u) (t_type u) (operand_node strtod a))
          (operand_node strtod b),
        p4).
Proof.
  intros u p1 a p2 op p3 b p4 Hu Ha Hop Hb He Hfuel.
  destruct fuel as [|[|n]]; try lia.
  pose proof (operator_binds op Hop) as H1.
  unfold PREC_OR, PREC_FACTOR, PREC_NONE, PREC_ASSIGNMENT in *.
  rewrite r_precedence_S, parse_precedence_unary by exact Hu.
  fold u p1.
  rewrite (operand_alone strtod n p1)
    by (fold p2 op; unfold PREC_UNARY; assumption || lia).
  cbn [mbind res_mbind res_bind]. fold a p2.
  rewrite parse_infix_operator by (fold op; assumption || lia).
  fold op p3.
  rewrite (operand_alone strtod n p3) by (fold p4; assumption || lia).
  cbn [mbind res_mbind res_bind]. fold b p4.
  rewrite r_infix_S. apply parse_infix_stop. lia.
Qed.

Lemma unary_grouping_witness :
  r_precedence (parser_rec no_floats 2) demo_not_eq PREC_ASSIGNMENT
  = Ok (NODE_BINARY (mkPos 1 7) TOKEN_EQEQ
          (NODE_UNARY (mkPos 1 1) TOKEN_NOT (NODE_IDENTIFIER (mkPos 1 5) "a"))
          (NODE_IDENTIFIER (mkPos 1 10) "b"),
        Nat.iter 4 advance demo_not_eq).
Proof.
  apply (unary_grouping no_floats 2 demo_not_eq); first [reflexivity | lia].
Defined.

(** ** Diagnostics and the error flags *)

(** The error flags agree with the diagnostics: [had_error] is set
    exactly when something has been reported, and [panic_mode] only
    then. *)
Definition tidy (parser : Parser) : Prop :=
  (had_error parser = true <-> reported parser <> [])
  /\ (panic_mode parser = true -> had_error parser = true).

Lemma tidy_error_at (parser : Parser) (t : Token) (m : string) :
  tidy parser -> tidy (error_at parser t m).
Proof.
  intros H. unfold error_at. destruct (panic_mode parser) eqn:E;
    [exact H|].
  split; cbn; [|reflexivity].
  split; [intros _ En; apply app_eq_nil in En as [_ En]; discriminate En
         | reflexivity].
Qed.

Lemma tidy_set_lexer (parser : Parser) (l : Lexer) :
  tidy parser -> tidy (set_lexer parser l).
Proof. exact (fun H => H). Qed.

Lemma tidy_set_current (parser : Parser) (t : Token) :
  tidy parser -> tidy (set_current parser t).
Proof. exact (fun H => H). Qed.

Lemma tidy_set_previous (parser : Parser) (t : Token) :
  tidy parser -> tidy (set_previous parser t).
Proof. exact (fun H => H). Qed.

Lemma tidy_set_panic_mode (parser : Parser) :
  tidy parser -> tidy (set_panic_mode parser false).
Proof. intros [H1 H2]. split; [exact H1 | discriminate]. Qed.

Lemma tidy_advance_loop (n : nat) :
  forall parser, tidy parser -> tidy (advance_loop n parser).
Proof.
  induction n as [|n IH]; intros parser H; cbn [advance_loop];
    destruct (lexer_next_token (lexer parser)) as [t l];
    destruct (token_eqb (t_type t) TOKEN_NEWLINE);
    destruct (token_eqb (t_type t) TOKEN_ERROR); cbn [negb];
    try apply IH; try apply tidy_error_at; exact H.
Qed.

Lemma tidy_advance (parser : Parser) : tidy parser -> tidy (advance parser).
Proof. intros H. apply tidy_advance_loop, H. Qed.

Lemma tidy_consume (parser : Parser) (type : TokenType) (m : string) :
  tidy parser -> tidy (consume parser type m).
Proof.
  intros H. unfold consume. destruct (token_eqb _ _);
    [apply tidy_advance | apply tidy_error_at]; exact H.
Qed.

Lemma tidy_error (parser : Parser) (m : string) :
  tidy parser -> tidy (error parser m).
Proof. apply tidy_error_at. Qed.

Lemma tidy_match_ (parser : Parser) (type : TokenType) (b : bool)
    (parser' : Parser) :
  match_ parser type = (b, parser') -> tidy parser -> tidy parser'.
Proof.
  unfold match_. destruct (negb _); intros [= <- <-] H;
    [exact H | apply tidy_advance, H].
Qed.

Lemma tidy_skip_newlines (n : nat) :
  forall parser, tidy parser -> tidy (skip_newlines n parser).
Proof.
  induction n as [|n IH]; intros parser H; cbn [skip_newlines];
    destruct (token_eqb _ _); try exact H;
    destruct (lexer_next_token (lexer parser)) as [t l];
    try apply IH; exact H.
Qed.

Lemma tidy_parser_init (l : Lexer) : tidy (parser_init l).
Proof.
  apply tidy_advance. split; cbn; [|discriminate].
  split; [discriminate | congruence].
Qed.

(** The callees keep the flags tidy. *)
Record rec_tidy (rec : Rec) : Prop := {
  tidy_precedence : forall p level x p',
    r_precedence rec p level = Ok (x, p') -> tidy p -> tidy p';
  tidy_infix : forall p level left0 x p',
    r_infix rec p level left0 = Ok (x, p') -> tidy p -> tidy p';
  tidy_arguments : forall p acc x p',
    r_arguments rec p acc = Ok (x, p') -> tidy p -> tidy p';
  tidy_elements : forall p acc x p',
    r_elements rec p acc = Ok (x, p') -> tidy p -> tidy p';
  tidy_entries : forall p acc x p',
    r_entries rec p acc = Ok (x, p') -> tidy p -> tidy p';
  tidy_parameters : forall p acc x p',
    r_parameters rec p acc = Ok (x, p') -> tidy p -> tidy p';
  tidy_statement : forall p x p',
    r_statement rec p = Ok (x, p') -> tidy p -> tidy p';
  tidy_statements : forall p acc x p',
    r_statements rec p acc = Ok (x, p') -> tidy p -> tidy p';
  tidy_if : forall p x p', r_if rec p = Ok (x, p') -> tidy p -> tidy p';
  tidy_arms : forall p acc x p',
    r_arms rec p acc = Ok (x, p') -> tidy p -> tidy p';
  tidy_program : forall p acc x p',
    r_program rec p acc = Ok (x, p') -> tidy p -> tidy p';
  tidy_synchronize : forall p p',
    r_synchronize rec p = Ok p' -> tidy p -> tidy p'
}.

Lemma tidy_error_at_current (parser : Parser) (m : string) :
  tidy parser -> tidy (error_at_current parser m).
Proof. apply tidy_error_at. Qed.

Import Defers.

Create HintDb tidy.

#[local] Hint Resolve tidy_consume tidy_advance tidy_error
  tidy_error_at_current tidy_error_at tidy_set_lexer tidy_set_panic_mode
  tidy_skip_newlines tidy_match_ : tidy.
#[local] Hint Extern 2 (tidy (if ?b then _ else _)) => destruct b : tidy.

Section flags.
Variable strtod : string -> float.
Variable rec : Rec.
Hypothesis Hrec : rec_tidy rec.

#[local] Hint Extern 1 (tidy _) =>
  eapply (tidy_precedence rec Hrec); [eassumption|] : tidy.
#[local] Hint Extern 1 (tidy _) =>
  eapply (tidy_infix rec Hrec); [eassumption|] : tidy.
#[local] Hint Extern 1 (tidy _) =>
  eapply (tidy_arguments rec Hrec); [eassumption|] : tidy.
#[local] Hint Extern 1 (tidy _) =>
  eapply (tidy_elements rec Hrec); [eassumption|] : tidy.
#[local] Hint Extern 1 (tidy _) =>
  eapply (tidy_entries rec Hrec); [eassumption|] : tidy.
#[local] Hint Extern 1 (tidy _) =>
  eapply (tidy_parameters rec Hrec); [eassumption|] : tidy.
#[local] Hint Extern 1 (tidy _) =>
  eapply (tidy_statement rec Hrec); [eassumption|] : tidy.
#[local] Hint Extern 1 (tidy _) =>
  eapply (tidy_statements rec Hrec); [eassumption|] : tidy.
#[local] Hint Extern 1 (tidy _) =>
  eapply (tidy_if rec Hrec); [eassumption|] : tidy.
#[local] Hint Extern 1 (tidy _) =>
  eapply (tidy_arms rec Hrec); [eassumption|] : tidy.
#[local] Hint Extern 1 (tidy _) =>
  eapply (tidy_program rec Hrec); [eassumption|] : tidy.
#[local] Hint Extern 1 (tidy _) =>
  eapply (tidy_synchronize rec Hrec); [eassumption|] : tidy.

(** A returning call, taken apart, keeps the flags tidy. *)
Ltac tidy_tac :=
  dest;
  repeat match goal with
    | H : (if ?b then _ else _) = (_, _) |- _ =>
        destruct b; try discriminate H; inversion H; subst; clear H
    end;
  eauto 30 with tidy.

Lemma tidy_synchronize_loop (p p' : Parser) :
  synchronize_loop rec p = Ok p' -> tidy p -> tidy p'.
Proof. unfold synchronize_loop. intros H Ht. tidy_tac. Qed.

Lemma tidy_synchronize_fn (p p' : Parser) :
  synchronize rec p = Ok p' -> tidy p -> tidy p'.
Proof.
  unfold synchronize. intros H Ht.
  apply (tidy_synchronize_loop _ _ H). eauto with tidy.
Qed.
#[local] Hint Resolve tidy_synchronize_fn : tidy.

Lemma tidy_parse_expression (p : Parser) (x : AstNode) (p' : Parser) :
  parse_expression rec p = Ok (x, p') -> tidy p -> tidy p'.
Proof. apply (tidy_precedence rec Hrec). Qed.
#[local] Hint Resolve tidy_parse_expression : tidy.

Lemma tidy_parse_grouping (p : Parser) (x : AstNode) (p' : Parser) :
  parse_grouping rec p = Ok (x, p') -> tidy p -> tidy p'.
Proof. unfold parse_grouping. intros H Ht. tidy_tac. Qed.

Lemma tidy_parse_unary (p : Parser) (x : AstNode) (p' : Parser) :
  parse_unary rec p = Ok (x, p') -> tidy p -> tidy p'.
Proof. unfold parse_unary. intros H Ht. tidy_tac. Qed.

Lemma tidy_parse_address_of (p : Parser) (x : AstNode) (p' : Parser) :
  parse_address_of rec p = Ok (x, p') -> tidy p -> tidy p'.
Proof. unfold parse_address_of. intros H Ht. tidy_tac. Qed.

Lemma tidy_parse_binary (p : Parser) (l x : AstNode) (p' : Parser) :
  parse_binary rec p l = Ok (x, p') -> tidy p -> tidy p'.
Proof. unfold parse_binary. intros H Ht. tidy_tac. Qed.

Lemma tidy_parse_range (p : Parser) (l x : AstNode) (p' : Parser) :
  parse_range rec p l = Ok (x, p') -> tidy p -> tidy p'.
Proof. unfold parse_range. intros H Ht. tidy_tac. Qed.

Lemma tidy_parse_arguments (p : Parser) (acc x : list AstNode)
    (p' : Parser) :
  parse_arguments rec p acc = Ok (x, p') -> tidy p -> tidy p'.
Proof. unfold parse_arguments. intros H Ht. tidy_tac. Qed.
#[local] Hint Resolve tidy_parse_arguments : tidy.

Lemma tidy_parse_call (p : Parser) (l x : AstNode) (p' : Parser) :
  parse_call rec p l = Ok (x, p') -> tidy p -> tidy p'.
Proof. unfold parse_call. intros H Ht. tidy_tac. Qed.

Lemma tidy_parse_index (p : Parser) (l x : AstNode) (p' : Parser) :
  parse_index rec p l = Ok (x, p') -> tidy p -> tidy p'.
Proof. unfold parse_index. intros H Ht. tidy_tac. Qed.

Lemma tidy_parse_field (p : Parser) (l x : AstNode) (p' : Parser) :
  parse_field p l = Ok (x, p') -> tidy p -> tidy p'.
Proof. unfold parse_field. intros H Ht. tidy_tac. Qed.

Lemma tidy_parse_elements (p : Parser) (acc x : list AstNode) (p' : Parser) :
  parse_elements rec p acc = Ok (x, p') -> tidy p -> tidy p'.
Proof. unfold parse_elements. intros H Ht. tidy_tac. Qed.
#[local] Hint Resolve tidy_parse_elements : tidy.

Lemma tidy_parse_array (p : Parser) (x : AstNode) (p' : Parser) :
  parse_array rec p = Ok (x, p') -> tidy p -> tidy p'.
Proof. unfold parse_array. intros H Ht. tidy_tac. Qed.

Lemma tidy_parse_entries (p : Parser) (acc x : list (string * AstNode))
    (p' : Parser) :
  parse_entries rec p acc = Ok (x, p') -> tidy p -> tidy p'.
Proof. unfold parse_entries. intros H Ht. tidy_tac. Qed.
#[local] Hint Resolve tidy_parse_entries : tidy.

Lemma tidy_parse_table (p : Parser) (x : AstNode) (p' : Parser) :
  parse_table rec p = Ok (x, p') -> tidy p -> tidy p'.
Proof. unfold parse_table. intros H Ht. tidy_tac. Qed.

Lemma tidy_parse_statements (p : Parser) (acc x : list AstNode)
    (p' : Parser) :
  parse_statements rec p acc = Ok (x, p') -> tidy p -> tidy p'.
Proof. unfold parse_statements. intros H Ht. tidy_tac. Qed.
#[local] Hint Resolve tidy_parse_statements : tidy.

Lemma tidy_parse_block (p : Parser) (x : AstNode) (p' : Parser) :
  parse_block rec p = Ok (x, p') -> tidy p -> tidy p'.
Proof. unfold parse_block. intros H Ht. tidy_tac. Qed.
#[local] Hint Resolve tidy_parse_block : tidy.

Lemma tidy_parse_parameters (p : Parser) (acc x : list string)
    (p' : Parser) :
  parse_parameters rec p acc = Ok (x, p') -> tidy p -> tidy p'.
Proof. unfold parse_parameters. intros H Ht. tidy_tac. Qed.
#[local] Hint Resolve tidy_parse_parameters : tidy.

Lemma tidy_parse_fn_expr (p : Parser) (x : AstNode) (p' : Parser) :
  parse_fn_expr rec p = Ok (x, p') -> tidy p -> tidy p'.
Proof. unfold parse_fn_expr. intros H Ht. tidy_tac. Qed.
#[local] Hint Resolve tidy_parse_fn_expr : tidy.

Lemma tidy_call_prefix (f : ParsePrefixFn) (p : Parser) (x : AstNode)
    (p' : Parser) :
  call_prefix strtod rec f p = Ok (x, p') -> tidy p -> tidy p'.
Proof.
  intros H Ht. destruct f; cbn [call_prefix] in H;
    try (injection H as _ <-; exact Ht);
    eauto using tidy_parse_grouping, tidy_parse_unary, tidy_parse_array,
      tidy_parse_table, tidy_parse_fn_expr, tidy_parse_address_of.
Qed.

Lemma tidy_call_infix (f : ParseInfixFn) (p : Parser) (l x : AstNode)
    (p' : Parser) :
  call_infix rec f p l = Ok (x, p') -> tidy p -> tidy p'.
Proof.
  intros H Ht. destruct f; cbn [call_infix] in H;
    eauto using tidy_parse_binary, tidy_parse_range, tidy_parse_call,
      tidy_parse_index, tidy_parse_field.
Qed.
#[local] Hint Resolve tidy_call_prefix tidy_call_infix : tidy.

Lemma tidy_parse_infix (p : Parser) (level : Precedence) (l x : AstNode)
    (p' : Parser) :
  parse_infix rec p level l = Ok (x, p') -> tidy p -> tidy p'.
Proof. unfold parse_infix. intros H Ht. tidy_tac. Qed.
#[local] Hint Resolve tidy_parse_infix : tidy.

Lemma tidy_parse_precedence (p : Parser) (level : Precedence) (x : AstNode)
    (p' : Parser) :
  parse_precedence strtod rec p level = Ok (x, p') -> tidy p -> tidy p'.
Proof. unfold parse_precedence. intros H Ht. tidy_tac. Qed.

Lemma tidy_parse_if (p : Parser) (x : AstNode) (p' : Parser) :
  parse_if rec p = Ok (x, p') -> tidy p -> tidy p'.
Proof. unfold parse_if. intros H Ht. tidy_tac. Qed.

Lemma tidy_parse_while (p : Parser) (x : AstNode) (p' : Parser) :
  parse_while rec p = Ok (x, p') -> tidy p -> tidy p'.
Proof. unfold parse_while. intros H Ht. tidy_tac. Qed.

Lemma tidy_parse_for (p : Parser) (x : AstNode) (p' : Parser) :
  parse_for rec p = Ok (x, p') -> tidy p -> tidy p'.
Proof. unfold parse_for. intros H Ht. tidy_tac. Qed.

Lemma tidy_parse_return (p : Parser) (x : AstNode) (p' : Parser) :
  parse_return rec p = Ok (x, p') -> tidy p -> tidy p'.
Proof. unfold parse_return. intros H Ht. tidy_tac. Qed.

Lemma tidy_parse_arms (p : Parser) (acc x : list (AstNode * AstNode))
    (p' : Parser) :
  parse_arms rec p acc = Ok (x, p') -> tidy p -> tidy p'.
Proof. unfold parse_arms. intros H Ht. tidy_tac. Qed.
#[local] Hint Resolve tidy_parse_arms : tidy.

Lemma tidy_parse_match (p : Parser) (x : AstNode) (p' : Parser) :
  parse_match rec p = Ok (x, p') -> tidy p -> tidy p'.
Proof. unfold parse_match. intros H Ht. tidy_tac. Qed.

Lemma tidy_parse_defer (p : Parser) (x : AstNode) (p' : Parser) :
  parse_defer rec p = Ok (x, p') -> tidy p -> tidy p'.
Proof. unfold parse_defer. intros H Ht. tidy_tac. Qed.

Lemma tidy_parse_c_block (p : Parser) (x : AstNode) (p' : Parser) :
  parse_c_block p = Ok (x, p') -> tidy p -> tidy p'.
Proof. unfold parse_c_block. intros H Ht. tidy_tac. Qed.

Lemma tidy_parse_expression_statement (p : Parser) (x : AstNode)
    (p' : Parser) :
  parse_expression_statement rec p = Ok (x, p') -> tidy p -> tidy p'.
Proof. unfold parse_expression_statement. intros H Ht. tidy_tac. Qed.

Lemma tidy_parse_directive (p : Parser) (x : AstNode) (p' : Parser) :
  parse_directive p = Ok (x, p') -> tidy p -> tidy p'.
Proof.
  unfold parse_directive, parse_import. intros H Ht. dest;
    eauto 30 using tidy_parse_c_block with tidy.
Qed.
#[local] Hint Resolve tidy_parse_if tidy_parse_while tidy_parse_for
  tidy_parse_return tidy_parse_match tidy_parse_defer
  tidy_parse_expression_statement tidy_parse_directive : tidy.

Lemma tidy_parse_keyword_statement (p : Parser) (x : AstNode) (p' : Parser) :
  parse_keyword_statement rec p = Ok (x, p') -> tidy p -> tidy p'.
Proof. unfold parse_keyword_statement. intros H Ht. tidy_tac. Qed.
#[local] Hint Resolve tidy_parse_keyword_statement : tidy.

Lemma tidy_parse_statement (p : Parser) (x : AstNode) (p' : Parser) :
  parse_statement rec p = Ok (x, p') -> tidy p -> tidy p'.
Proof. unfold parse_statement. intros H Ht. tidy_tac. Qed.

Lemma tidy_parse_program_loop (p : Parser) (acc x : list AstNode)
    (p' : Parser) :
  parse_program_loop rec p acc = Ok (x, p') -> tidy p -> tidy p'.
Proof. unfold parse_program_loop. intros H Ht. tidy_tac. Qed.

End flags.

(** The parser keeps the flags tidy at every recursion budget. *)
Lemma parser_rec_tidy (strtod : string -> float) (fuel : nat) :
  rec_tidy (parser_rec strtod fuel).
Proof.
  induction fuel as [|fuel IH].
  - split; intros; discriminate.
  - rewrite parser_rec_S. split; cbn zeta;
      cbn [r_precedence r_infix r_arguments r_elements r_entries
           r_parameters r_statement r_statements r_if r_arms r_program
           r_synchronize];
      intros;
      eauto using tidy_parse_precedence, tidy_parse_infix,
        tidy_parse_arguments, tidy_parse_elements, tidy_parse_entries,
        tidy_parse_parameters, tidy_parse_statement, tidy_parse_statements,
        tidy_parse_if, tidy_parse_arms, tidy_parse_program_loop,
        tidy_synchronize_loop.
Qed.

(** A statement with a stray parenthesis. *)
Definition demo_stray : string := "x = )".

(** X22. The parser fails exactly when it has written a diagnostic:
    [parse] returns the null pointer if [parse_program] has reported
    something to [stderr] and the program node otherwise, and the parser
    is in panic mode only after a report.  No function of the parser
    sets one of the error flags without reporting, or reports without
    setting [had_error]. *)
Theorem parse_reports (strtod : string -> float) (fuel : nat)
    (source0 : string) (ast : AstNode) (parser' : Parser) :
  parse_program strtod fuel (parser_init (lexer_init source0))
  = Ok (ast, parser') ->
  (exists stmts, ast = NODE_PROGRAM stmts)
  /\ parse strtod fuel source0
     = Ok (match reported parser' with
           | [] => ast
           | _ :: _ => NODE_NULL
           end)
  /\ (panic_mode parser' = true -> reported parser' <> []).
Proof.
  intros H. unfold parse. rewrite H. cbn [mbind res_mbind res_bind].
  unfold parse_program in H.
  destruct (r_program _ _ _) as [[stmts p]| |] eqn:E; try discriminate H.
  injection H as <- <-.
  destruct (tidy_program _ (parser_rec_tidy strtod fuel) _ _ _ _ E
              (tidy_parser_init _)) as [[H1 H2] H3].
  split; [eexists; reflexivity|]. split.
  - destruct (reported p) as [|d ds].
    + destruct (had_error p); [|reflexivity].
      exfalso. apply (H1 eq_refl). reflexivity.
    + rewrite H2 by discriminate. reflexivity.
  - intros Hp. apply H1, H3, Hp.
Qed.

Lemma parse_reports_witness :
  parse no_floats 10 demo_stray = Ok NODE_NULL
  /\ exists stmts, parse no_floats 10 "x = (1)" = Ok (NODE_PROGRAM stmts).
Proof.
  split.
  - pose (r := parse_program no_floats 10 (parser_init (lexer_init demo_stray))).
    assert (E : r = Ok (outcome r (NODE_NULL, parser_init (lexer_init ""))))
      by (vm_compute; reflexivity).
    destruct (outcome r (NODE_NULL, parser_init (lexer_init "")))
      as [ast p] eqn:Eo.
    destruct (parse_reports no_floats 10 demo_stray ast p E) as (_ & H & _).
    rewrite H. vm_compute in Eo. injection Eo as <- <-. reflexivity.
  - pose (r := parse_program no_floats 10 (parser_init (lexer_init "x = (1)"))).
    assert (E : r = Ok (outcome r (NODE_NULL, parser_init (lexer_init ""))))
      by (vm_compute; reflexivity).
    destruct (outcome r (NODE_NULL, parser_init (lexer_init "")))
      as [ast p] eqn:Eo.
    destruct (parse_reports no_floats 10 "x = (1)" ast p E) as (_ & H & _).
    rewrite H. vm_compute in Eo. injection Eo as <- <-.
    eexists. reflexivity.
Defined.
End Parser.


(* ===================================================================== *)
(** * Equality of values: value_equals (value.c) *)
(* ===================================================================== *)

Module Equality.
Import Value Object Cffi Interp.

Lemma SFeqb_sym (x y : spec_float) : SFeqb x y = SFeqb y x.
Proof.
  unfold SFeqb, SFcompare.
  destruct x as [sx|sx| |sx mx ex], y as [sy|sy| |sy my ey];
    try reflexivity; try (destruct sx, sy; reflexivity).
  change (PosDef.Pos.compare_cont Eq mx my) with (mx ?= my)%positive.
  change (PosDef.Pos.compare_cont Eq my mx) with (my ?= mx)%positive.
  rewrite (Z.compare_antisym ey ex), (Pos.compare_antisym my mx).
  destruct sx, sy; try reflexivity;
    destruct (ey ?= ex); cbn [CompOpp]; try reflexivity;
    destruct (my ?= mx)%positive; reflexivity.
Qed.

Lemma float_eqb_sym (x y : float) : PrimFloat.eqb x y = PrimFloat.eqb y x.
Proof. rewrite !FloatAxioms.eqb_spec. apply SFeqb_sym. Qed.

Lemma same_bytes_sym (a b : ObjString) :
  same_bytes b (s_length a) (s_hash a) (bytes_of a)
  = same_bytes a (s_length b) (s_hash b) (bytes_of b).
Proof.
  unfold same_bytes.
  rewrite (Z.eqb_sym (s_length b)), (Z.eqb_sym (s_hash b)).
  rewrite (String.eqb_sym (bytes_of b)). reflexivity.
Qed.

(** The values that do not equal themselves: the floats that are not
    numbers, and references to no object. *)
Definition equals_itself (heap : list Obj) (v : Value) : bool :=
  match v with
  | FLOAT_VAL f => PrimFloat.eqb f f
  | OBJ_VAL (HeapRef a) =>
      match heap !! a with
      | Some _ => true
      | None => false
      end
  | _ => true
  end.

(** X23. [value_equals] is symmetric, and every value equals itself
    except a float that is not a number (and a reference to no object of
    the heap, which no program can make). *)
Theorem value_equals_laws (heap : list Obj) (a b : Value) :
  value_equals heap a b = value_equals heap b a
  /\ value_equals heap a a = equals_itself heap a.
Proof.
  split.
  - destruct a as [|x|x|x|[sa|x]], b as [|y|y|y|[sb|y]]; cbn [value_equals];
      try reflexivity.
    + destruct x, y; reflexivity.
    + apply Z.eqb_sym.
    + apply float_eqb_sym.
    + apply float_eqb_sym.
    + apply float_eqb_sym.
    + apply same_bytes_sym.
    + destruct (ObjectType_of heap (HeapRef x)),
        (ObjectType_of heap (HeapRef y)); try reflexivity.
      rewrite (Nat.eqb_sym n0 n), (Nat.eqb_sym y x). reflexivity.
  - destruct a as [|x|x|x|[sa|x]]; cbn [value_equals equals_itself];
      try reflexivity.
    + destruct x; reflexivity.
    + apply Z.eqb_refl.
    + unfold same_bytes. rewrite !Z.eqb_refl, String.eqb_refl. reflexivity.
    + cbn [ObjectType_of]. destruct (heap !! x) as [[]|];
        rewrite ?Nat.eqb_refl; reflexivity.
Qed.

(** Equality is not transitive across integers and floats: 2^53 + 1 and
    2^53 both equal the float 2^53. *)
Example value_equals_not_transitive :
  let a := INT_VAL 9007199254740993 in
  let b := FLOAT_VAL 9007199254740992 in
  let c := INT_VAL 9007199254740992 in
  value_equals [] a b = true /\ value_equals [] b c = true
  /\ value_equals [] a c = false.
Proof. vm_compute. auto. Qed.
End Equality.


(* ===================================================================== *)
(** * The string built-ins of builtins.c *)
(* ===================================================================== *)

Module Strings.
Import Value Object Cffi.

(** A built-in function that makes strings: the arguments, the string
    pool and the object heap in, the result and both stores out. *)
Definition Native : Type :=
  list Value -> StringPool -> list Obj ->
  res (Value * StringPool * list Obj).

(** ** The C library on NUL-terminated strings *)

(** [strstr (haystack, needle)]: the offset of the first occurrence, both
    arguments being the bytes before the terminator. *)
Fixpoint find_first (haystack needle : string) : option nat :=
  if String.prefix needle haystack then Some 0%nat
  else
    match haystack with
    | EmptyString => None
    | String _ rest => option_map S (find_first rest needle)
    end.

(** [strstr] on buffers, which end at their first NUL. *)
Definition strstr (haystack needle : string) : option nat :=
  find_first (until_nul haystack) (until_nul needle).

(** The buffer [p + n] for a buffer [p], with the terminator as its last
    byte: moving past the terminator leaves the buffer. *)
Definition buffer_from (p : string) (n : nat) : res string :=
  if (n <=? String.length p)%nat then Ok (Lexer.string_drop n p) else Fault.

(** A C [int], or the undefined behaviour of an overflow. *)
Definition checked_int (n : Z) : res Z :=
  if (- INT_MAX - 1 <=? n) && (n <=? INT_MAX) then Ok n else Fault.

Definition nil_result (pool : StringPool) (heap : list Obj)
  : res (Value * StringPool * list Obj) :=
  Ok (NIL_VAL, pool, heap).

Definition string_result (pool : StringPool) (heap : list Obj)
    (chars : string) : res (Value * StringPool * list Obj) :=
  '(s, pool) ← string_create pool chars;
  Ok (OBJ_VAL (StrRef s), pool, heap).

(** ** substr, find *)

Definition native_substr : Native := fun args pool heap =>
  let arg_count := Z.of_nat (length args) in
  if (arg_count <? 2) || (3 <? arg_count) then nil_result pool heap
  else
    match args with
    | OBJ_VAL (StrRef str) :: INT_VAL start64 :: rest =>
        let start := to_signed 32 start64 in
        length0 ←
          match rest with
          | [INT_VAL n] => Ok (to_signed 32 n)
          | _ => checked_int (s_length str - start)
          end;
        let start := if start <? 0 then 0 else start in
        if s_length str <=? start then string_result pool heap ""
        else
          sum ← checked_int (start + length0);
          let length0 :=
            if s_length str <? sum then s_length str - start else length0 in
          if length0 <? 0 then Fault        (* a copy of a negative size *)
          else
            string_result pool heap
              (String.substring (Z.to_nat start) (Z.to_nat length0)
                 (s_chars str))
    | _ => nil_result pool heap
    end.

Definition native_find : Native := fun args pool heap =>
  match args with
  | [OBJ_VAL (StrRef haystack); OBJ_VAL (StrRef needle)] =>
      match strstr (s_chars haystack) (s_chars needle) with
      | None => Ok (INT_VAL (-1), pool, heap)
      | Some found => Ok (INT_VAL (Z.of_nat found), pool, heap)
      end
  | _ => nil_result pool heap
  end.

(** ** replace *)

(** The loop that counts the occurrences, from the buffer [pos]. *)
Fixpoint count_occurrences (fuel : nat) (pos : string) (old : ObjString)
    (count0 : Z) : res Z :=
  match strstr pos (s_chars old) with
  | None => Ok count0
  | Some found =>
      count0 ← checked_int (count0 + 1);
      pos ← buffer_from pos (found + Z.to_nat (s_length old));
      match fuel with
      | O => Hang
      | S fuel => count_occurrences fuel pos old count0
      end
  end.

(** The loop that builds the new string: the bytes written so far and
    the buffer [src]. *)
Fixpoint replace_loop (fuel : nat) (src : string) (old new : ObjString)
    (written : string) : res string :=
  match strstr src (s_chars old) with
  | None => Ok (written ++ until_nul src)%string
  | Some before =>
      let written :=
        (written ++ String.substring 0 before src ++ bytes_of new)%string in
      src ← buffer_from src (before + Z.to_nat (s_length old));
      match fuel with
      | O => Hang
      | S fuel => replace_loop fuel src old new written
      end
  end.

Definition native_replace (fuel : nat) : Native := fun args pool heap =>
  match args with
  | [OBJ_VAL (StrRef str); OBJ_VAL (StrRef old); OBJ_VAL (StrRef new)] =>
      (* Count occurrences *)
      count0 ← count_occurrences fuel (s_chars str) old 0;
      if count0 =? 0 then Ok (OBJ_VAL (StrRef str), pool, heap)
      else
        (* Build new string *)
        new_len ←
          checked_int (s_length str + count0 * (s_length new - s_length old));
        result ← replace_loop fuel (s_chars str) old new "";
        (* the bytes of the result past those written are indeterminate *)
        if str_len result =? new_len then string_result pool heap result
        else Fault
  | _ => nil_result pool heap
  end.

(** ** split, join *)

(** Split into characters *)
Fixpoint split_characters (chars : string) (pool : StringPool)
    (heap : list Obj) (result : nat) : res (StringPool * list Obj) :=
  match chars with
  | EmptyString => Ok (pool, heap)
  | String c rest =>
      '(piece, pool) ← string_create pool (String c EmptyString);
      heap ← array_push heap result (OBJ_VAL (StrRef piece));
      split_characters rest pool heap result
  end.

(** The loop of [native_split] over the occurrences of the delimiter,
    from the buffer [start]. *)
Fixpoint split_loop (fuel : nat) (start : string) (delim : ObjString)
    (pool : StringPool) (heap : list Obj) (result : nat)
  : res (StringPool * list Obj) :=
  match strstr start (s_chars delim) with
  | Some pos =>
      '(piece, pool) ← string_create pool (String.substring 0 pos start);
      heap ← array_push heap result (OBJ_VAL (StrRef piece));
      start ← buffer_from start (pos + Z.to_nat (s_length delim));
      match fuel with
      | O => Hang
      | S fuel => split_loop fuel start delim pool heap result
      end
  | None =>
      '(piece, pool) ← string_create pool (until_nul start);
      heap ← array_push heap result (OBJ_VAL (StrRef piece));
      Ok (pool, heap)
  end.

Definition native_split (fuel : nat) : Native := fun args pool heap =>
  match args with
  | [OBJ_VAL (StrRef str); OBJ_VAL (StrRef delim)] =>
      let '(result, heap) := array_create heap in
      '(pool, heap) ←
        (if s_length delim =? 0 then
           split_characters (bytes_of str) pool heap result
         else split_loop fuel (s_chars str) delim pool heap result);
      Ok (OBJ_VAL (HeapRef result), pool, heap)
  | _ => nil_result pool heap
  end.

(** The length of the result of [native_join], element by element. *)
Fixpoint join_length (elements : list Value) (delim : ObjString) (first : bool)
  : Z :=
  match elements with
  | [] => 0
  | v :: rest =>
      (match v with
       | OBJ_VAL (StrRef s) => s_length s
       | _ => 0
       end)
      + (if first then 0 else s_length delim)
      + join_length rest delim false
  end.

(** The bytes of the result of [native_join]. *)
Fixpoint join_bytes (elements : list Value) (delim : ObjString) (first : bool)
  : string :=
  match elements with
  | [] => EmptyString
  | v :: rest =>
      ((if first then EmptyString else bytes_of delim)
       ++ (match v with
           | OBJ_VAL (StrRef s) => bytes_of s
           | _ => EmptyString
           end)
       ++ join_bytes rest delim false)%string
  end.

Definition native_join : Native := fun args pool heap =>
  match args with
  | [arr; OBJ_VAL (StrRef delim)] =>
      match deref heap arr with
      | Some (ObjArray elements _) =>
          if Z.of_nat (length elements) =? 0 then string_result pool heap ""
          else
            (* Calculate total length *)
            total_len ← checked_int (join_length elements delim true);
            string_result pool heap (join_bytes elements delim true)
      | _ => nil_result pool heap
      end
  | _ => nil_result pool heap
  end.

(** ** upper, lower, trim *)

Definition to_upper (c : ascii) : ascii :=
  if Lexer.between "a" "z" c then ascii_of_N (N_of_ascii c - 32) else c.

Definition to_lower (c : ascii) : ascii :=
  if Lexer.between "A" "Z" c then ascii_of_N (N_of_ascii c + 32) else c.

Fixpoint map_bytes (f : ascii -> ascii) (s : string) : string :=
  match s with
  | EmptyString => EmptyString
  | String c rest => String (f c) (map_bytes f rest)
  end.

Definition native_upper : Native := fun args pool heap =>
  match args with
  | [OBJ_VAL (StrRef str)] =>
      string_result pool heap (map_bytes to_upper (bytes_of str))
  | _ => nil_result pool heap
  end.

Definition native_lower : Native := fun args pool heap =>
  match args with
  | [OBJ_VAL (StrRef str)] =>
      string_result pool heap (map_bytes to_lower (bytes_of str))
  | _ => nil_result pool heap
  end.

Definition is_space (c : ascii) : bool :=
  Ascii.eqb c " " || Ascii.eqb c Lexer.TAB || Ascii.eqb c Lexer.LF
  || Ascii.eqb c Lexer.CR.

(** [while (start < length && is_space (chars[start])) start++] *)
Fixpoint trim_start (n : nat) (chars : string) (length0 start : Z) : Z :=
  match n with
  | O => start
  | S n =>
      if (start <? length0)
         && is_space (Lexer.char_at chars (Z.to_nat start))
      then trim_start n chars length0 (start + 1)
      else start
  end.

(** [while (end > start && is_space (chars[end - 1])) end--] *)
Fixpoint trim_end (n : nat) (chars : string) (start end_ : Z) : Z :=
  match n with
  | O => end_
  | S n =>
      if (start <? end_)
         && is_space (Lexer.char_at chars (Z.to_nat (end_ - 1)))
      then trim_end n chars start (end_ - 1)
      else end_
  end.

Definition native_trim : Native := fun args pool heap =>
  match args with
  | [OBJ_VAL (StrRef str)] =>
      let n := Z.to_nat (s_length str) in
      let start := trim_start n (s_chars str) (s_length str) 0 in
      let end_ := trim_end n (s_chars str) start (s_length str) in
      string_result pool heap
        (String.substring (Z.to_nat start) (Z.to_nat (end_ - start))
           (s_chars str))
  | _ => nil_result pool heap
  end.

(** ** Facts about the C library functions *)

Lemma length_append (a b : string) :
  String.length (a ++ b) = (String.length a + String.length b)%nat.
Proof. induction a as [|c a IH]; cbn; [reflexivity | rewrite IH; reflexivity]. Qed.

Lemma append_assoc (a b c : string) :
  ((a ++ b) ++ c)%string = (a ++ b ++ c)%string.
Proof. induction a as [|x a IH]; cbn; [reflexivity | rewrite IH; reflexivity]. Qed.

Lemma append_nil (s : string) : (s ++ "")%string = s.
Proof. induction s as [|c s IH]; cbn; [reflexivity | rewrite IH; reflexivity]. Qed.

Lemma prefix_split (n h : string) :
  String.prefix n h = true ->
  h = (n ++ Lexer.string_drop (String.length n) h)%string.
Proof.
  revert h. induction n as [|c n IH]; intros h H; [reflexivity|].
  destruct h as [|c' h]; [discriminate H|]. cbn in H.
  destruct (Ascii.ascii_dec c c') as [->|]; [|discriminate H].
  cbn. f_equal. apply IH, H.
Qed.

Lemma find_first_spec (h n : string) (pos : nat) :
  find_first h n = Some pos ->
  h = (String.substring 0 pos h ++ n
       ++ Lexer.string_drop (pos + String.length n) h)%string
  /\ (pos + String.length n <= String.length h)%nat.
Proof.
  revert pos. induction h as [|c h IH]; intros pos; cbn [find_first].
  - destruct (String.prefix n "") eqn:E; [|discriminate].
    intros [= <-]. destruct n; [|discriminate E]. split; [reflexivity | cbn; lia].
  - destruct (String.prefix n (String c h)) eqn:E.
    + intros [= <-]. cbn [String.substring Nat.add String.append].
      split; [apply prefix_split, E|].
      apply prefix_split in E. rewrite E, length_append. lia.
    + destruct (find_first h n) as [p|] eqn:Ef; [|discriminate].
      intros [= <-]. destruct (IH p eq_refl) as [Hh Hlen].
      split; [|cbn; lia].
      cbn [Nat.add Lexer.string_drop]. rewrite Lexer.substring_0_S.
      cbn [String.append]. f_equal. exact Hh.
Qed.

Lemma has_nul_drop (n : nat) (s : string) :
  has_nul s = false -> has_nul (Lexer.string_drop n s) = false.
Proof.
  revert s. induction n as [|n IH]; intros s H; [exact H|].
  destruct s as [|c s]; [reflexivity|]. cbn in *.
  apply orb_false_iff in H as [_ H]. apply IH, H.
Qed.

Lemma has_nul_app (a b : string) :
  has_nul (a ++ b) = has_nul a || has_nul b.
Proof.
  induction a as [|c a IH]; [reflexivity|]. cbn. rewrite IH.
  apply orb_assoc.
Qed.

(** ** Strings made in a pool with room *)

Lemma string_create_ok (pool : StringPool) (cs : string) :
  pool_ok pool -> Z.of_nat (next_addr pool) < 2 ^ 28 ->
  exists s pool',
    string_create pool cs = Ok (s, pool')
    /\ pool_ok pool' /\ s_chars s = cs /\ interned pool' s /\ string_wf s
    /\ (forall s0, interned pool s0 -> interned pool' s0)
    /\ (next_addr pool' <= S (next_addr pool))%nat.
Proof.
  intros Hok Hroom.
  destruct (string_create_returns pool cs Hok Hroom) as (s & pool' & Hc).
  destruct (string_create_inv pool cs s pool' Hok Hc) as (Hok' & Hcs & Hin & Hmono).
  exists s, pool'. split; [exact Hc|]. split; [exact Hok'|].
  split; [exact Hcs|]. split; [exact Hin|].
  split; [apply (po_keys pool' Hok' s Hin)|]. split; [exact Hmono|].
  apply (Interp.string_create_next _ _ _ _ Hc).
Qed.

(** The elements of an array that are string objects whose fields agree
    with their bytes. *)
Definition is_piece (v : Value) : Prop :=
  exists s, v = OBJ_VAL (StrRef s) /\ string_wf s.

Lemma join_bytes_false (v : Value) (rest : list Value) (delim : ObjString) :
  join_bytes (v :: rest) delim false
  = (bytes_of delim ++ join_bytes (v :: rest) delim true)%string.
Proof. reflexivity. Qed.

Lemma join_length_bytes (elements : list Value) (delim : ObjString) :
  string_wf delim -> Forall is_piece elements ->
  forall first,
    join_length elements delim first
    = str_len (join_bytes elements delim first).
Proof.
  intros Hd Hall. induction Hall as [|v rest (s & -> & Hs) _ IH]; intros first;
    [reflexivity|].
  cbn [join_length join_bytes]. rewrite IH. unfold str_len.
  rewrite !length_append, !Nat2Z.inj_add.
  rewrite (bytes_of_wf s Hs), (proj1 Hs).
  destruct first; cbn [String.length]; unfold str_len.
  - lia.
  - rewrite (bytes_of_wf delim Hd), (proj1 Hd). unfold str_len. lia.
Qed.

Lemma array_push_piece (heap : list Obj) (a : nat) (els : list Value)
    (cap : Z) (v : Value) :
  heap !! a = Some (ObjArray els cap) ->
  Z.of_nat (length els) < 2 ^ 30 ->
  exists cap',
    array_push heap a v = Ok (<[a := ObjArray (els ++ [v]) cap']> heap).
Proof.
  intros Ha Hlen.
  destruct (Tables.array_push_grows heap a els cap v Ha Hlen) as (cap' & H & _).
  exists cap'. exact H.
Qed.

(** The bytes of an element that is a string. *)
Definition piece_bytes (v : Value) : string :=
  match v with
  | OBJ_VAL (StrRef s) => s_chars s
  | _ => EmptyString
  end.

Lemma prefix_app (n a b : string) :
  String.prefix n a = true -> String.prefix n (a ++ b) = true.
Proof.
  revert a. induction n as [|c n IH]; intros a H;
    [destruct (a ++ b)%string; reflexivity|].
  destruct a as [|c' a]; [discriminate H|]. cbn in *.
  destruct (Ascii.ascii_dec c c'); [apply IH, H | discriminate H].
Qed.

Lemma substring_before (pos : nat) (h : string) :
  h = (String.substring 0 pos h ++ Lexer.string_drop pos h)%string.
Proof.
  revert h. induction pos as [|pos IH]; intros h.
  - destruct h; reflexivity.
  - destruct h as [|c h]; [reflexivity|].
    rewrite Lexer.substring_0_S. cbn [Lexer.string_drop String.append].
    f_equal. apply IH.
Qed.

(** No occurrence ends before the first one does. *)
Lemma find_first_before (h n : string) (pos : nat) :
  n <> EmptyString -> find_first h n = Some pos ->
  find_first (String.substring 0 pos h) n = None.
Proof.
  intros Hn. revert pos. induction h as [|c h IH]; intros pos; cbn [find_first].
  - destruct (String.prefix n "") eqn:E; [|discriminate].
    destruct n; [congruence | discriminate E].
  - destruct (String.prefix n (String c h)) eqn:E.
    + intros [= <-]. cbn [String.substring find_first].
      destruct n; [congruence | reflexivity].
    + destruct (find_first h n) as [p|] eqn:Ef; [|discriminate].
      intros [= <-]. rewrite Lexer.substring_0_S. cbn [find_first].
      destruct (String.prefix n (String c (String.substring 0 p h))) eqn:E'.
      * apply (prefix_app _ _ (Lexer.string_drop p h)) in E'.
        cbn [String.append] in E'. rewrite <- substring_before in E'.
        congruence.
      * rewrite (IH p eq_refl). reflexivity.
Qed.

Lemma find_first_nil (n : string) :
  n <> EmptyString -> find_first EmptyString n = None.
Proof. intros Hn. destruct n; [congruence | reflexivity]. Qed.

(** The loop of [native_split]: the pieces pushed, glued with the
    delimiter, are the buffer. *)
Lemma split_loop_spec (delim : ObjString) (result : nat) :
  string_wf delim -> 0 < s_length delim -> has_nul (s_chars delim) = false ->
  forall (fuel : nat) (start : string) (pool : StringPool) (heap : list Obj)
         (els : list Value) (cap : Z),
    (String.length start <= fuel)%nat ->
    has_nul start = false ->
    pool_ok pool ->
    Z.of_nat (next_addr pool) + Z.of_nat (String.length start) + 1 < 2 ^ 28 ->
    heap !! result = Some (ObjArray els cap) ->
    Z.of_nat (length els) + Z.of_nat (String.length start) + 1 <= 2 ^ 30 ->
    exists pool' pieces cap',
      split_loop fuel start delim pool heap result
      = Ok (pool', <[result := ObjArray (els ++ pieces) cap']> heap)
      /\ pool_ok pool'
      /\ (forall s0, interned pool s0 -> interned pool' s0)
      /\ (next_addr pool'
          <= next_addr pool + String.length start + 1)%nat
      /\ pieces <> [] /\ Forall is_piece pieces
      /\ join_bytes pieces delim true = start
      /\ Forall (fun v => find_first (piece_bytes v) (s_chars delim) = None)
           pieces.
Proof.
  intros Hd Hdpos Hdnul.
  assert (Hdne : s_chars delim <> EmptyString).
  { intros E. rewrite (proj1 Hd), E in Hdpos. unfold str_len in Hdpos.
    cbn in Hdpos. lia. }
  assert (Hdlen : Z.to_nat (s_length delim) = String.length (s_chars delim)).
  { rewrite (proj1 Hd). unfold str_len. lia. }
  assert (Hdlen1 : (1 <= String.length (s_chars delim))%nat)
    by (rewrite (proj1 Hd) in Hdpos; unfold str_len in Hdpos; lia).
  induction fuel as [|fuel IH];
    intros start pool heap els cap Hfuel Hnul Hok Hroom Harr Hels;
    cbn [split_loop]; unfold strstr;
    rewrite (until_nul_id _ Hnul), (until_nul_id _ Hdnul).
  - (* an empty buffer holds no delimiter *)
    assert (start = EmptyString) as -> by (destruct start; [reflexivity | cbn in Hfuel; lia]).
    cbn [find_first]. destruct (String.prefix (s_chars delim) "") eqn:E.
    { destruct (s_chars delim); [cbn in Hdlen1; lia | discriminate E]. }
    destruct (string_create_ok pool "" Hok) as (s & pool' & Hc & Hok' & Hcs & Hin & Hwf & Hmono & Hnext);
      [lia|].
    rewrite Hc. cbn [mbind res_mbind res_bind].
    destruct (array_push_piece heap result els cap (OBJ_VAL (StrRef s)) Harr)
      as (cap' & Hpush); [lia|].
    rewrite Hpush. cbn [mbind res_mbind res_bind].
    exists pool', [OBJ_VAL (StrRef s)], cap'. split; [reflexivity|].
    split; [exact Hok'|]. split; [exact Hmono|]. split; [cbn; lia|].
    split; [discriminate|]. split; [repeat constructor; exists s; auto|].
    split.
    { cbn [join_bytes String.append]. rewrite (bytes_of_wf s Hwf), Hcs.
      reflexivity. }
    repeat constructor. cbn [piece_bytes]. rewrite Hcs.
    apply find_first_nil, Hdne.
  - destruct (find_first start (s_chars delim)) as [pos|] eqn:Ef.
    + destruct (find_first_spec _ _ _ Ef) as [Hsplit Hlen].
      destruct (string_create_ok pool (String.substring 0 pos start) Hok)
        as (s & pool1 & Hc & Hok1 & Hcs & Hin & Hwf & Hmono & Hnext); [lia|].
      rewrite Hc. cbn [mbind res_mbind res_bind].
      destruct (array_push_piece heap result els cap (OBJ_VAL (StrRef s)) Harr)
        as (cap1 & Hpush); [lia|].
      rewrite Hpush. cbn [mbind res_mbind res_bind].
      unfold buffer_from. rewrite Hdlen.
      destruct (Nat.leb_spec (pos + String.length (s_chars delim))
                  (String.length start)) as [_|Hbad]; [|lia].
      cbn [mbind res_mbind res_bind].
      set (start' := Lexer.string_drop (pos + String.length (s_chars delim)) start).
      assert (Hlen' : (String.length start' < String.length start)%nat).
      { unfold start'. rewrite Lexer.string_drop_length. lia. }
      destruct (IH start' pool1 (<[result := ObjArray (els ++ [OBJ_VAL (StrRef s)]) cap1]> heap)
                  (els ++ [OBJ_VAL (StrRef s)]) cap1)
        as (pool' & pieces & cap' & Hloop & Hok' & Hmono' & Hnext' & Hne & Hall & Hjoin & Hfree).
      * lia.
      * apply has_nul_drop, Hnul.
      * exact Hok1.
      * lia.
      * apply list_lookup_insert_eq. eapply lookup_lt_Some, Harr.
      * rewrite length_app. cbn [length]. lia.
      * rewrite Hloop. exists pool', (OBJ_VAL (StrRef s) :: pieces), cap'.
        split.
        { rewrite list_insert_insert_eq, <- app_assoc. reflexivity. }
        split; [exact Hok'|]. split; [auto|]. split; [lia|].
        split; [discriminate|].
        split; [constructor; [exists s; auto | exact Hall]|].
        split.
        { destruct pieces as [|r rs]; [congruence|].
          cbn [join_bytes String.append] in *.
          rewrite (bytes_of_wf s Hwf), Hcs.
          rewrite (bytes_of_wf delim Hd).
          rewrite Hsplit at 2. f_equal. f_equal. exact Hjoin. }
        constructor; [|exact Hfree]. cbn [piece_bytes]. rewrite Hcs.
        apply (find_first_before _ _ _ Hdne Ef).
    + destruct (string_create_ok pool start Hok)
        as (s & pool' & Hc & Hok' & Hcs & Hin & Hwf & Hmono & Hnext); [lia|].
      rewrite Hc. cbn [mbind res_mbind res_bind].
      destruct (array_push_piece heap result els cap (OBJ_VAL (StrRef s)) Harr)
        as (cap' & Hpush); [lia|].
      rewrite Hpush. cbn [mbind res_mbind res_bind].
      exists pool', [OBJ_VAL (StrRef s)], cap'. split; [reflexivity|].
      split; [exact Hok'|]. split; [exact Hmono|]. split; [lia|].
      split; [discriminate|]. split; [repeat constructor; exists s; auto|].
      split.
      { cbn [join_bytes]. rewrite (bytes_of_wf s Hwf), Hcs.
        rewrite ?append_nil.
        reflexivity. }
      repeat constructor. cbn [piece_bytes]. rewrite Hcs. exact Ef.
Qed.

(** The loop of [native_split] for the empty delimiter: one piece for
    every byte. *)
Lemma split_characters_spec (delim : ObjString) (result : nat) :
  bytes_of delim = EmptyString ->
  forall (chars : string) (pool : StringPool) (heap : list Obj)
         (els : list Value) (cap : Z),
    pool_ok pool ->
    Z.of_nat (next_addr pool) + Z.of_nat (String.length chars) < 2 ^ 28 ->
    heap !! result = Some (ObjArray els cap) ->
    Z.of_nat (length els) + Z.of_nat (String.length chars) <= 2 ^ 30 ->
    exists pool' pieces cap',
      split_characters chars pool heap result
      = Ok (pool', <[result := ObjArray (els ++ pieces) cap']> heap)
      /\ pool_ok pool'
      /\ (forall s0, interned pool s0 -> interned pool' s0)
      /\ Forall is_piece pieces
      /\ (pieces = [] -> chars = EmptyString)
      /\ (forall first, join_bytes pieces delim first = chars)
      /\ map piece_bytes pieces
         = map (fun c => String c EmptyString) (list_ascii_of_string chars).
Proof.
  intros Hd. induction chars as [|c chars IH];
    intros pool heap els cap Hok Hroom Harr Hels; cbn [split_characters].
  - exists pool, [], cap. rewrite app_nil_r, list_insert_id by exact Harr.
    split; [reflexivity|]. split; [exact Hok|]. split; [auto|].
    split; [constructor|]. split; [reflexivity|]. split; reflexivity.
  - cbn [String.length] in Hroom, Hels.
    destruct (string_create_ok pool (String c "") Hok)
      as (s & pool1 & Hc & Hok1 & Hcs & Hin & Hwf & Hmono & Hnext); [lia|].
    rewrite Hc. cbn [mbind res_mbind res_bind].
    destruct (array_push_piece heap result els cap (OBJ_VAL (StrRef s)) Harr)
      as (cap1 & Hpush); [lia|].
    rewrite Hpush. cbn [mbind res_mbind res_bind].
    destruct (IH pool1 (<[result := ObjArray (els ++ [OBJ_VAL (StrRef s)]) cap1]> heap)
                (els ++ [OBJ_VAL (StrRef s)]) cap1)
      as (pool' & pieces & cap' & Hloop & Hok' & Hmono' & Hall & _ & Hjoin & Hbytes).
    + exact Hok1.
    + lia.
    + apply list_lookup_insert_eq. eapply lookup_lt_Some, Harr.
    + rewrite length_app. cbn [length]. lia.
    + rewrite Hloop. exists pool', (OBJ_VAL (StrRef s) :: pieces), cap'.
      split; [rewrite list_insert_insert_eq, <- app_assoc; reflexivity|].
      split; [exact Hok'|]. split; [auto|].
      split; [constructor; [exists s; auto | exact Hall]|].
      split; [discriminate|]. split.
      { intros first.
        cbn [join_bytes]. rewrite Hjoin, Hd, (bytes_of_wf s Hwf), Hcs.
        destruct first; reflexivity. }
      cbn [map list_ascii_of_string piece_bytes]. rewrite Hcs, Hbytes.
      reflexivity.
Qed.

Lemma checked_int_small (n : Z) :
  - INT_MAX - 1 <= n <= INT_MAX -> checked_int n = Ok n.
Proof.
  intros H. unfold checked_int.
  destruct (Z.leb_spec (- INT_MAX - 1) n); [|lia].
  destruct (Z.leb_spec n INT_MAX); [reflexivity | lia].
Qed.

Lemma insert_last (heap : list Obj) (o o' : Obj) :
  <[length heap := o']> (heap ++ [o]) = heap ++ [o'].
Proof.
  rewrite insert_app_r_alt by lia. rewrite Nat.sub_diag. reflexivity.
Qed.

(** X24. Splitting, and joining again.  For a string [s] and a
    delimiter [d] without NUL bytes, interned in a pool with room for
    the pieces, [split (s, d)] returns a new array and changes no other object.  The
    elements of the array are strings; glued with [d] between them their
    bytes are the bytes of [s]; when [d] is not empty there is at least
    one of them and none contains [d]; when [d] is empty they are the
    bytes of [s], one string for each.  [join] of that array with [d]
    then returns [s], the very same string object. *)
Theorem split_join (fuel : nat) (pool : StringPool) (heap : list Obj)
    (str delim : ObjString) :
  pool_ok pool -> interned pool str -> interned pool delim ->
  has_nul (s_chars str) = false -> has_nul (s_chars delim) = false ->
  Z.of_nat (next_addr pool) + s_length str + 2 < 2 ^ 28 ->
  (Z.to_nat (s_length str) <= fuel)%nat ->
  exists pool' pieces cap,
    native_split fuel [OBJ_VAL (StrRef str); OBJ_VAL (StrRef delim)] pool heap
    = Ok (OBJ_VAL (HeapRef (length heap)), pool',
          heap ++ [ObjArray pieces cap])
    /\ Forall is_piece pieces
    /\ join_bytes pieces delim true = s_chars str
    /\ (if s_length delim =? 0
        then map piece_bytes pieces
             = map (fun c => String c EmptyString)
                 (list_ascii_of_string (s_chars str))
        else pieces <> []
             /\ Forall (fun v => find_first (piece_bytes v) (s_chars delim)
                                 = None) pieces)
    /\ native_join [OBJ_VAL (HeapRef (length heap)); OBJ_VAL (StrRef delim)]
         pool' (heap ++ [ObjArray pieces cap])
       = Ok (OBJ_VAL (StrRef str), pool', heap ++ [ObjArray pieces cap]).
Proof.
  intros Hok Hstr Hdelim Hnul Hdnul Hroom Hfuel.
  destruct (po_keys pool Hok str Hstr) as [_ Hwf].
  destruct (po_keys pool Hok delim Hdelim) as [_ Hdwf].
  pose proof (proj1 Hwf) as Hlen. unfold str_len in Hlen.
  assert (Hlook : (heap ++ [ObjArray [] 0]) !! length heap
                  = Some (ObjArray [] 0)) by apply list_lookup_middle, eq_refl.
  assert (Hspec : exists pool' pieces cap',
    (if s_length delim =? 0
     then split_characters (bytes_of str) pool (heap ++ [ObjArray [] 0])
            (length heap)
     else split_loop fuel (s_chars str) delim pool (heap ++ [ObjArray [] 0])
            (length heap))
    = Ok (pool', heap ++ [ObjArray pieces cap'])
    /\ pool_ok pool'
    /\ (forall s0, interned pool s0 -> interned pool' s0)
    /\ Forall is_piece pieces
    /\ (pieces = [] -> s_chars str = EmptyString)
    /\ join_bytes pieces delim true = s_chars str
    /\ (if s_length delim =? 0
        then map piece_bytes pieces
             = map (fun c => String c EmptyString)
                 (list_ascii_of_string (s_chars str))
        else pieces <> []
             /\ Forall (fun v => find_first (piece_bytes v) (s_chars delim)
                                 = None) pieces)).
  { destruct (Z.eqb_spec (s_length delim) 0) as [Hz|Hnz].
    - assert (Hdb : bytes_of delim = EmptyString).
      { rewrite (bytes_of_wf delim Hdwf). rewrite (proj1 Hdwf) in Hz.
        unfold str_len in Hz. destruct (s_chars delim); [reflexivity|].
        cbn in Hz. lia. }
      rewrite (bytes_of_wf str Hwf).
      destruct (split_characters_spec delim (length heap) Hdb (s_chars str)
                  pool (heap ++ [ObjArray [] 0]) [] 0 Hok)
        as (pool' & pieces & cap' & Hs & Hok' & Hmono & Hall & Hnil & Hjoin
            & Hbytes);
        [lia | exact Hlook | cbn [length]; lia|].
      exists pool', pieces, cap'. rewrite Hs, insert_last.
      split; [reflexivity|]. split; [exact Hok'|]. split; [exact Hmono|].
      split; [exact Hall|]. split; [exact Hnil|].
      split; [apply Hjoin | exact Hbytes].
    - assert (Hdpos : 0 < s_length delim).
      { rewrite (proj1 Hdwf) in *. unfold str_len in *. lia. }
      destruct (split_loop_spec delim (length heap) Hdwf Hdpos Hdnul fuel
                  (s_chars str) pool (heap ++ [ObjArray [] 0]) [] 0)
        as (pool' & pieces & cap' & Hs & Hok' & Hmono & _ & Hne & Hall & Hjoin
            & Hfree);
        [lia | exact Hnul | exact Hok | lia | exact Hlook | cbn [length]; lia|].
      exists pool', pieces, cap'. rewrite Hs, insert_last.
      split; [reflexivity|]. split; [exact Hok'|]. split; [exact Hmono|].
      split; [exact Hall|]. split; [intros ->; congruence|].
      split; [exact Hjoin|]. split; [exact Hne | exact Hfree]. }
  destruct Hspec
    as (pool' & pieces & cap' & Hs & Hok' & Hmono & Hall & Hnil & Hjoin & Hcut).
  exists pool', pieces, cap'. split.
  { cbn [native_split array_create allocate_object]. rewrite Hs. reflexivity. }
  split; [exact Hall|]. split; [exact Hjoin|]. split; [exact Hcut|].
  cbn [native_join deref].
  rewrite (list_lookup_middle heap [] (ObjArray pieces cap') (length heap) eq_refl).
  unfold string_result.
  destruct (Z.eqb_spec (Z.of_nat (length pieces)) 0) as [Hz|Hnz].
  - destruct pieces; [|cbn in Hz; lia].
    rewrite <- (Hnil eq_refl).
    rewrite (string_create_interned pool' str Hok' (Hmono _ Hstr)).
    reflexivity.
  - rewrite (join_length_bytes pieces delim Hdwf Hall), Hjoin.
    rewrite checked_int_small by (unfold str_len, INT_MAX; lia).
    cbn [mbind res_mbind res_bind].
    rewrite (string_create_interned pool' str Hok' (Hmono _ Hstr)).
    reflexivity.
Qed.

(** A string with an empty field, and the delimiter. *)
Definition demo_text : ObjString * StringPool :=
  Eval vm_compute in demo_create pool_init "a,b,,c".
Definition demo_comma : ObjString * StringPool :=
  Eval vm_compute in demo_create (snd demo_text) ",".

Lemma demo_comma_pool :
  pool_ok (snd demo_comma) /\ interned (snd demo_comma) (fst demo_text)
  /\ interned (snd demo_comma) (fst demo_comma).
Proof.
  assert (H1 : string_create pool_init "a,b,,c" = Ok demo_text)
    by (vm_compute; reflexivity).
  assert (H2 : string_create (snd demo_text) "," = Ok demo_comma)
    by (vm_compute; reflexivity).
  destruct (string_create_inv _ _ (fst demo_text) (snd demo_text)
              pool_ok_init H1) as (Hok1 & _ & Hin1 & _).
  destruct (string_create_inv _ _ (fst demo_comma) (snd demo_comma) Hok1 H2)
    as (Hok2 & _ & Hin2 & Hmono).
  split; [exact Hok2|]. split; [apply Hmono, Hin1 | exact Hin2].
Qed.

Lemma split_join_witness :
  exists pool' pieces cap,
    native_split 6 [OBJ_VAL (StrRef (fst demo_text));
                    OBJ_VAL (StrRef (fst demo_comma))] (snd demo_comma) []
    = Ok (OBJ_VAL (HeapRef 0), pool', [ObjArray pieces cap])
    /\ map piece_bytes pieces = ["a"; "b"; ""; "c"]%string
    /\ native_join [OBJ_VAL (HeapRef 0); OBJ_VAL (StrRef (fst demo_comma))]
         pool' [ObjArray pieces cap]
       = Ok (OBJ_VAL (StrRef (fst demo_text)), pool', [ObjArray pieces cap]).
Proof.
  destruct demo_comma_pool as (Hok & Htext & Hcomma).
  destruct (split_join 6 (snd demo_comma) [] (fst demo_text) (fst demo_comma)
              Hok Htext Hcomma)
    as (pool' & pieces & cap & Hs & _ & _ & _ & Hj);
    [reflexivity | reflexivity | vm_compute; reflexivity | vm_compute; lia |].
  exists pool', pieces, cap. split; [exact Hs|]. split; [|exact Hj].
  vm_compute in Hs. injection Hs as _ <- _. reflexivity.
Defined.

(** ** replace *)

Lemma find_first_empty (h : string) : find_first h "" = Some 0%nat.
Proof. destruct h; reflexivity. Qed.

Lemma count_occurrences_empty (fuel : nat) (pos : string) (old : ObjString)
    (count0 : Z) :
  until_nul (s_chars old) = EmptyString -> s_length old = 0 ->
  forall n, count_occurrences fuel pos old count0 <> Ok n.
Proof.
  intros Hc Hl. revert count0.
  assert (Hstay : buffer_from pos (0 + Z.to_nat 0) = Ok pos) by reflexivity.
  induction fuel as [|fuel IH]; intros count0 n; cbn [count_occurrences];
    unfold strstr; rewrite Hc, find_first_empty, Hl, Hstay;
    destruct (checked_int (count0 + 1)); cbn [mbind res_mbind res_bind];
    try discriminate.
  apply IH.
Qed.

(** X25. [replace] with the empty string as the pattern never returns:
    [strstr] finds the empty pattern where the search stands, the search
    does not move, and the loop that counts the occurrences goes on until
    the counter overflows. *)
Theorem replace_empty_pattern (fuel : nat) (str old new : ObjString)
    (pool : StringPool) (heap : list Obj) :
  s_chars old = EmptyString -> s_length old = 0 ->
  forall r,
    native_replace fuel
      [OBJ_VAL (StrRef str); OBJ_VAL (StrRef old); OBJ_VAL (StrRef new)]
      pool heap
    <> Ok r.
Proof.
  intros Hc Hl r. cbn [native_replace].
  destruct (count_occurrences fuel (s_chars str) old 0) as [n| |] eqn:E;
    cbn [mbind res_mbind res_bind]; try discriminate.
  exfalso. apply (count_occurrences_empty fuel (s_chars str) old 0) with n;
    [rewrite Hc; reflexivity | exact Hl | exact E].
Qed.

Definition demo_empty : ObjString * StringPool :=
  Eval vm_compute in demo_create (snd demo_comma) "".

Lemma replace_empty_pattern_witness :
  native_replace 100
    [OBJ_VAL (StrRef (fst demo_text)); OBJ_VAL (StrRef (fst demo_empty));
     OBJ_VAL (StrRef (fst demo_comma))] (snd demo_empty) []
  = Hang.
Proof.
  pose proof (replace_empty_pattern 100 (fst demo_text) (fst demo_empty)
                (fst demo_comma) (snd demo_empty) [] eq_refl eq_refl) as H.
  destruct (native_replace 100 _ _ _) as [r| |] eqn:E.
  - destruct (H r eq_refl).
  - reflexivity.
  - vm_compute in E. discriminate E.
Defined.

(** The two loops of [native_replace] see the same occurrences: the
    bytes the second writes are as many as the first has counted for. *)
Lemma replace_loops_agree (old new : ObjString) :
  string_wf old -> string_wf new -> 0 < s_length old ->
  has_nul (s_chars old) = false ->
  forall (fuel : nat) (src : string) (count0 : Z) (written : string),
    (String.length src <= fuel)%nat ->
    has_nul src = false ->
    0 <= count0 -> count0 + Z.of_nat (String.length src) <= INT_MAX ->
    exists (n : Z) (bytes : string),
      count_occurrences fuel src old count0 = Ok (count0 + n)
      /\ replace_loop fuel src old new written = Ok (written ++ bytes)%string
      /\ 0 <= n <= Z.of_nat (String.length src)
      /\ str_len bytes
         = str_len src + n * (s_length new - s_length old)
      /\ (n = 0 -> bytes = src)
      /\ (s_chars new = s_chars old -> bytes = src).
Proof.
  intros Ho Hn Hpos Honul.
  assert (Holen : Z.to_nat (s_length old) = String.length (s_chars old))
    by (rewrite (proj1 Ho); unfold str_len; lia).
  assert (Hol : s_length old = Z.of_nat (String.length (s_chars old)))
    by (rewrite (proj1 Ho); reflexivity).
  assert (Hnl : s_length new = Z.of_nat (String.length (s_chars new)))
    by (rewrite (proj1 Hn); reflexivity).
  induction fuel as [|fuel IH]; intros src count0 written Hfuel Hnul Hc0 Hmax;
    cbn [count_occurrences replace_loop]; unfold strstr;
    rewrite (until_nul_id _ Hnul), (until_nul_id _ Honul).
  - assert (src = EmptyString) as ->
      by (destruct src; [reflexivity | cbn in Hfuel; lia]).
    cbn [find_first]. destruct (String.prefix (s_chars old) "") eqn:E.
    { destruct (s_chars old); [cbn in Hol; lia | discriminate E]. }
    exists 0, EmptyString. rewrite Z.add_0_r. cbn [until_nul].
    repeat split; try reflexivity; cbn; lia.
  - destruct (find_first src (s_chars old)) as [pos|] eqn:Ef.
    + destruct (find_first_spec _ _ _ Ef) as [Hsplit Hlen].
      rewrite checked_int_small by (unfold INT_MAX in *; lia).
      cbn [mbind res_mbind res_bind]. unfold buffer_from. rewrite Holen.
      destruct (Nat.leb_spec (pos + String.length (s_chars old))
                  (String.length src)) as [_|Hbad]; [|lia].
      cbn [mbind res_mbind res_bind].
      set (src' := Lexer.string_drop (pos + String.length (s_chars old)) src)
        in *.
      assert (Hlen' : String.length src'
                      = (String.length src - (pos + String.length (s_chars old)))%nat)
        by apply Lexer.string_drop_length.
      destruct (IH src' (count0 + 1)
                  (written ++ String.substring 0 pos src ++ bytes_of new)%string)
        as (n & bytes & Hcount & Hloop & Hn0 & Hbytes & _ & Hsame).
      * lia.
      * apply has_nul_drop, Hnul.
      * lia.
      * lia.
      * exists (n + 1), (String.substring 0 pos src ++ bytes_of new ++ bytes)%string.
        split; [rewrite Hcount; f_equal; lia|].
        split; [rewrite Hloop; f_equal; rewrite !append_assoc;
                reflexivity|].
        split; [lia|].
        assert (Hpre : String.length (String.substring 0 pos src) = pos)
          by (apply Lexer.substring_length_le; lia).
        split.
        { unfold str_len in *. rewrite !length_append, !Nat2Z.inj_add.
          rewrite Hpre, (bytes_of_wf new Hn). lia. }
        split; [lia|].
        intros Heq. rewrite (bytes_of_wf new Hn), Heq, (Hsame Heq).
        symmetry. exact Hsplit.
    + exists 0, src. rewrite Z.add_0_r.
      repeat split; try reflexivity; try lia.
Qed.

(** X26. [replace] with a pattern that is not empty returns, for strings
    without NUL bytes in a pool with room: the length computed from the
    count of the occurrences is the number of bytes the second loop
    writes, so that the buffer is filled exactly.  The result is the
    string itself, the same object, when the pattern does not occur or
    is replaced by itself. *)
Theorem replace_returns (fuel : nat) (pool : StringPool) (heap : list Obj)
    (str old new : ObjString) :
  pool_ok pool -> interned pool str -> interned pool old ->
  interned pool new ->
  has_nul (s_chars str) = false -> has_nul (s_chars old) = false ->
  0 < s_length old ->
  Z.of_nat (next_addr pool) < 2 ^ 28 ->
  s_length str * (1 + s_length new) <= INT_MAX ->
  (Z.to_nat (s_length str) <= fuel)%nat ->
  exists r pool',
    native_replace fuel
      [OBJ_VAL (StrRef str); OBJ_VAL (StrRef old); OBJ_VAL (StrRef new)]
      pool heap
    = Ok (OBJ_VAL (StrRef r), pool', heap)
    /\ pool_ok pool'
    /\ (strstr (s_chars str) (s_chars old) = None \/ new = old ->
        r = str /\ pool' = pool).
Proof.
  intros Hok Hstr Hold Hnew Hnul Honul Hpos Hroom Hsize Hfuel.
  destruct (po_keys pool Hok str Hstr) as [_ Hwf].
  destruct (po_keys pool Hok old Hold) as [_ Howf].
  destruct (po_keys pool Hok new Hnew) as [_ Hnwf].
  pose proof (proj1 Hwf) as Hlen. pose proof (proj1 Hnwf) as Hnlen.
  unfold str_len in Hlen, Hnlen.
  destruct (replace_loops_agree old new Howf Hnwf Hpos Honul fuel
              (s_chars str) 0 EmptyString)
    as (n & bytes & Hcount & Hloop & Hn & Hbytes & Hzero & Hsame);
    [lia | exact Hnul | lia | unfold INT_MAX in *; nia |].
  cbn [native_replace]. rewrite Hcount. cbn [mbind res_mbind res_bind].
  rewrite Z.add_0_l.
  destruct (Z.eqb_spec n 0) as [Hn0|Hn0].
  - exists str, pool. split; [reflexivity|]. split; [exact Hok|]. auto.
  - assert (Hnew_len : s_length str + n * (s_length new - s_length old)
                       = str_len bytes)
      by (rewrite Hbytes, (proj1 Hwf); reflexivity).
    rewrite Hnew_len.
    rewrite checked_int_small.
    2:{ rewrite <- Hnew_len. unfold INT_MAX in *. unfold str_len in *. nia. }
    cbn [mbind res_mbind res_bind]. rewrite Hloop.
    cbn [mbind res_mbind res_bind String.append]. rewrite Z.eqb_refl.
    unfold string_result.
    destruct (string_create_ok pool bytes Hok Hroom)
      as (r & pool' & Hc & Hok' & Hcs & Hin & _ & _ & _).
    rewrite Hc. cbn [mbind res_mbind res_bind].
    exists r, pool'. split; [reflexivity|]. split; [exact Hok'|].
    intros [Habsent | ->].
    + exfalso. apply Hn0.
      destruct fuel; cbn [count_occurrences] in Hcount;
        rewrite Habsent in Hcount; injection Hcount as Hcount; lia.
    + rewrite (Hsame eq_refl) in Hc.
      rewrite (string_create_interned pool str Hok Hstr) in Hc.
      injection Hc as <- <-. auto.
Qed.

Lemma replace_returns_witness :
  exists r pool',
    native_replace 6
      [OBJ_VAL (StrRef (fst demo_text)); OBJ_VAL (StrRef (fst demo_comma));
       OBJ_VAL (StrRef (fst demo_text))] (snd demo_comma) []
    = Ok (OBJ_VAL (StrRef r), pool', [])
    /\ pool_ok pool'.
Proof.
  destruct demo_comma_pool as (Hok & Htext & Hcomma).
  destruct (replace_returns 6 (snd demo_comma) [] (fst demo_text)
              (fst demo_comma) (fst demo_text) Hok Htext Hcomma Htext)
    as (r & pool' & H & Hok' & _);
    try first [reflexivity | vm_compute; lia | vm_compute; discriminate].
  exists r, pool'. auto.
Defined.

(** ** upper, lower *)

Lemma to_upper_idem (c : ascii) : to_upper (to_upper c) = to_upper c.
Proof. destruct c as [[] [] [] [] [] [] [] []]; reflexivity. Qed.

Lemma to_lower_idem (c : ascii) : to_lower (to_lower c) = to_lower c.
Proof. destruct c as [[] [] [] [] [] [] [] []]; reflexivity. Qed.

Lemma to_lower_upper (c : ascii) : to_lower (to_upper c) = to_lower c.
Proof. destruct c as [[] [] [] [] [] [] [] []]; reflexivity. Qed.

Lemma to_upper_lower (c : ascii) : to_upper (to_lower c) = to_upper c.
Proof. destruct c as [[] [] [] [] [] [] [] []]; reflexivity. Qed.

Lemma map_bytes_length (f : ascii -> ascii) (s : string) :
  String.length (map_bytes f s) = String.length s.
Proof. induction s as [|c s IH]; cbn; [reflexivity | rewrite IH; reflexivity]. Qed.

Lemma map_bytes_map (f g h : ascii -> ascii) (s : string) :
  (forall c, f (g c) = h c) ->
  map_bytes f (map_bytes g s) = map_bytes h s.
Proof.
  intros H. induction s as [|c s IH]; cbn; [reflexivity|].
  rewrite H, IH. reflexivity.
Qed.

(** A conversion of the bytes that changes nothing when applied twice. *)
Lemma convert_result (f : ascii -> ascii) (pool : StringPool)
    (heap : list Obj) (str : ObjString) :
  (forall c, f (f c) = f c) ->
  pool_ok pool -> interned pool str ->
  Z.of_nat (next_addr pool) < 2 ^ 28 ->
  exists r pool1,
    string_result pool heap (map_bytes f (bytes_of str))
    = Ok (OBJ_VAL (StrRef r), pool1, heap)
    /\ s_chars r = map_bytes f (s_chars str)
    /\ s_length r = s_length str
    /\ string_result pool1 heap (map_bytes f (bytes_of r))
       = Ok (OBJ_VAL (StrRef r), pool1, heap)
    /\ pool_ok pool1 /\ interned pool1 r
    /\ (next_addr pool1 <= S (next_addr pool))%nat.
Proof.
  intros Hf Hok Hstr Hroom.
  destruct (po_keys pool Hok str Hstr) as [_ Hwf].
  unfold string_result. rewrite (bytes_of_wf str Hwf).
  destruct (string_create_ok pool (map_bytes f (s_chars str)) Hok Hroom)
    as (r & pool1 & Hc & Hok1 & Hcs & Hin & Hwfr & _ & Hn).
  exists r, pool1. rewrite Hc, (bytes_of_wf r Hwfr).
  cbn [mbind res_mbind res_bind].
  split; [reflexivity|]. split; [exact Hcs|]. split.
  { rewrite (proj1 Hwfr), (proj1 Hwf), Hcs. unfold str_len.
    rewrite map_bytes_length. reflexivity. }
  split; [|auto].
  rewrite Hcs at 1. rewrite (map_bytes_map _ _ _ _ Hf), <- Hcs.
  rewrite (string_create_interned pool1 r Hok1 Hin). reflexivity.
Qed.

Lemma case_codes (c : ascii) :
  N_of_ascii (to_upper c)
  = (if (97 <=? N_of_ascii c) && (N_of_ascii c <=? 122)
     then N_of_ascii c - 32 else N_of_ascii c)%N
  /\ N_of_ascii (to_lower c)
     = (if (65 <=? N_of_ascii c) && (N_of_ascii c <=? 90)
        then N_of_ascii c + 32 else N_of_ascii c)%N.
Proof. destruct c as [[] [] [] [] [] [] [] []]; split; reflexivity. Qed.

(** X27. [upper] and [lower], each on every string [s] (interned, in a
    pool with room for one more string): the result has the length of
    [s] and its bytes, with the letters a-z (codes 97 to 122) moved down
    by 32 by [upper] and the letters A-Z (65 to 90) moved up by 32 by
    [lower], every other byte kept.  Applied to its own result each
    returns that result, the same object, and creates nothing.  [lower] of the result of [upper] has the bytes of
    [lower (s)], and [upper] of the result of [lower] those of
    [upper (s)]. *)
Theorem case_conversion (pool : StringPool) (heap : list Obj)
    (str : ObjString) :
  pool_ok pool -> interned pool str ->
  Z.of_nat (next_addr pool) + 1 < 2 ^ 28 ->
  (forall c : ascii,
     N_of_ascii (to_upper c)
     = (if (97 <=? N_of_ascii c) && (N_of_ascii c <=? 122)
        then N_of_ascii c - 32 else N_of_ascii c)%N
     /\ N_of_ascii (to_lower c)
        = (if (65 <=? N_of_ascii c) && (N_of_ascii c <=? 90)
           then N_of_ascii c + 32 else N_of_ascii c)%N)
  /\ (exists u pool1 l pool2,
        native_upper [OBJ_VAL (StrRef str)] pool heap
        = Ok (OBJ_VAL (StrRef u), pool1, heap)
        /\ s_chars u = map_bytes to_upper (s_chars str)
        /\ s_length u = s_length str
        /\ native_upper [OBJ_VAL (StrRef u)] pool1 heap
           = Ok (OBJ_VAL (StrRef u), pool1, heap)
        /\ native_lower [OBJ_VAL (StrRef u)] pool1 heap
           = Ok (OBJ_VAL (StrRef l), pool2, heap)
        /\ s_chars l = map_bytes to_lower (s_chars str)
        /\ pool_ok pool2)
  /\ (exists l pool1 u pool2,
        native_lower [OBJ_VAL (StrRef str)] pool heap
        = Ok (OBJ_VAL (StrRef l), pool1, heap)
        /\ s_chars l = map_bytes to_lower (s_chars str)
        /\ s_length l = s_length str
        /\ native_lower [OBJ_VAL (StrRef l)] pool1 heap
           = Ok (OBJ_VAL (StrRef l), pool1, heap)
        /\ native_upper [OBJ_VAL (StrRef l)] pool1 heap
           = Ok (OBJ_VAL (StrRef u), pool2, heap)
        /\ s_chars u = map_bytes to_upper (s_chars str)
        /\ pool_ok pool2).
Proof.
  intros Hok Hstr Hroom. split; [apply case_codes|].
  cbn [native_upper native_lower]. split.
  - destruct (convert_result to_upper pool heap str to_upper_idem Hok Hstr)
      as (u & pool1 & Hu & Hcs & Hlen & Hagain & Hok1 & Hin1 & Hn1); [lia|].
    destruct (convert_result to_lower pool1 heap u to_lower_idem Hok1 Hin1)
      as (l & pool2 & Hl & Hcsl & _ & _ & Hok2 & _); [lia|].
    exists u, pool1, l, pool2.
    split; [exact Hu|]. split; [exact Hcs|]. split; [exact Hlen|].
    split; [exact Hagain|]. split; [exact Hl|]. split; [|exact Hok2].
    rewrite Hcsl, Hcs. apply map_bytes_map, to_lower_upper.
  - destruct (convert_result to_lower pool heap str to_lower_idem Hok Hstr)
      as (l & pool1 & Hl & Hcs & Hlen & Hagain & Hok1 & Hin1 & Hn1); [lia|].
    destruct (convert_result to_upper pool1 heap l to_upper_idem Hok1 Hin1)
      as (u & pool2 & Hu & Hcsu & _ & _ & Hok2 & _); [lia|].
    exists l, pool1, u, pool2.
    split; [exact Hl|]. split; [exact Hcs|]. split; [exact Hlen|].
    split; [exact Hagain|]. split; [exact Hu|]. split; [|exact Hok2].
    rewrite Hcsu, Hcs. apply map_bytes_map, to_upper_lower.
Qed.

Definition demo_mixed : ObjString * StringPool :=
  Eval vm_compute in demo_create pool_init "Ab-z".

Lemma demo_mixed_pool :
  pool_ok (snd demo_mixed) /\ interned (snd demo_mixed) (fst demo_mixed).
Proof.
  assert (H : string_create pool_init "Ab-z" = Ok demo_mixed)
    by (vm_compute; reflexivity).
  destruct (string_create_inv _ _ (fst demo_mixed) (snd demo_mixed)
              pool_ok_init H) as (Hok & _ & Hin & _).
  split; [exact Hok | exact Hin].
Qed.

Lemma case_conversion_witness :
  (exists u pool1,
     native_upper [OBJ_VAL (StrRef (fst demo_mixed))] (snd demo_mixed) []
     = Ok (OBJ_VAL (StrRef u), pool1, [])
     /\ s_chars u = "AB-Z"%string)
  /\ (exists l pool1,
        native_lower [OBJ_VAL (StrRef (fst demo_mixed))] (snd demo_mixed) []
        = Ok (OBJ_VAL (StrRef l), pool1, [])
        /\ s_chars l = "ab-z"%string).
Proof.
  destruct demo_mixed_pool as (Hok & Hin).
  destruct (case_conversion (snd demo_mixed) [] (fst demo_mixed) Hok Hin)
    as (_ & (u & pool1 & _ & _ & Hu & Hcs & _) & (l & pool2 & _ & _ & Hl & Hcsl & _));
    [vm_compute; reflexivity|].
  split.
  - exists u, pool1. split; [exact Hu | exact Hcs].
  - exists l, pool2. split; [exact Hl | exact Hcsl].
Defined.

(** ** substr *)

Lemma substring_clip (a m : nat) (s : string) :
  (String.length s - a <= m)%nat ->
  String.substring a m s = String.substring a (String.length s - a) s.
Proof.
  revert a m. induction s as [|c s IH]; intros a m H.
  - destruct a, m; reflexivity.
  - destruct a as [|a].
    + cbn [String.length Nat.sub] in *. destruct m as [|m]; [lia|].
      rewrite !Lexer.substring_0_S. f_equal.
      rewrite (IH 0%nat m) by lia. rewrite Nat.sub_0_r. reflexivity.
    + rewrite !Lexer.substring_S. cbn [String.length Nat.sub]. apply IH.
      cbn in H. lia.
Qed.

Lemma substring_past (a m : nat) (s : string) :
  (String.length s <= a)%nat -> String.substring a m s = EmptyString.
Proof.
  revert a m. induction s as [|c s IH]; intros a m H.
  - destruct a, m; reflexivity.
  - destruct a as [|a]; [cbn in H; lia|]. rewrite Lexer.substring_S.
    apply IH. cbn in H. lia.
Qed.

(** X28. [substr (s, start, length)] with integers that fit a C [int]
    and whose sum does not overflow: a negative [start] counts as 0 (the
    length is not shortened for it), and the bytes taken end with the
    string.  So the result holds the bytes from [max (0, start)] on, at
    most [length] of them, and is empty when the start is at or past the
    end.  A negative length with a start inside the string is a copy of
    a negative size. *)
Theorem substr_bounds (pool : StringPool) (heap : list Obj)
    (str : ObjString) (start length0 : Z) :
  pool_ok pool -> interned pool str ->
  Z.of_nat (next_addr pool) < 2 ^ 28 ->
  - 2 ^ 31 <= start < 2 ^ 31 -> - 2 ^ 31 <= length0 < 2 ^ 31 ->
  Z.max 0 start + length0 <= INT_MAX ->
  let call :=
    native_substr [OBJ_VAL (StrRef str); INT_VAL start; INT_VAL length0]
      pool heap in
  (0 <= length0 \/ s_length str <= Z.max 0 start ->
   exists r pool',
     call = Ok (OBJ_VAL (StrRef r), pool', heap)
     /\ s_chars r
        = String.substring (Z.to_nat (Z.max 0 start)) (Z.to_nat length0)
            (s_chars str)
     /\ pool_ok pool')
  /\ (length0 < 0 -> Z.max 0 start < s_length str -> call = Fault).
Proof.
  intros Hok Hstr Hroom Hs Hl Hsum call.
  destruct (po_keys pool Hok str Hstr) as [_ Hwf].
  pose proof (proj1 Hwf) as Hlen. unfold str_len in Hlen.
  assert (Hcall : call =
    if s_length str <=? Z.max 0 start then string_result pool heap ""
    else
      let n := if s_length str <? Z.max 0 start + length0
               then s_length str - Z.max 0 start else length0 in
      if n <? 0 then Fault
      else string_result pool heap
             (String.substring (Z.to_nat (Z.max 0 start)) (Z.to_nat n)
                (s_chars str))).
  { unfold call, native_substr. cbn [length]. cbn [Z.of_nat Pos.of_succ_nat Pos.succ Z.ltb Z.compare Pos.compare Pos.compare_cont orb].
    rewrite !(to_signed_small 32) by lia.
    cbn [mbind res_mbind res_bind].
    replace (if start <? 0 then 0 else start) with (Z.max 0 start)
      by (destruct (Z.ltb_spec start 0); lia).
    destruct (s_length str <=? Z.max 0 start); [reflexivity|].
    rewrite checked_int_small by (unfold INT_MAX in *; lia).
    reflexivity. }
  rewrite Hcall. clear Hcall. split.
  - intros Hcase.
    destruct (Z.leb_spec (s_length str) (Z.max 0 start)) as [Hpast|Hin].
    + unfold string_result.
      destruct (string_create_ok pool "" Hok Hroom)
        as (r & pool' & Hc & Hok' & Hcs & _).
      rewrite Hc. exists r, pool'. split; [reflexivity|].
      split; [|exact Hok']. rewrite Hcs. symmetry. apply substring_past. lia.
    + destruct Hcase as [Hpos|]; [|lia]. cbn zeta.
      destruct (Z.ltb_spec (s_length str) (Z.max 0 start + length0)) as [Hclip|Hfit].
      * destruct (Z.ltb_spec (s_length str - Z.max 0 start) 0); [lia|].
        unfold string_result.
        destruct (string_create_ok pool
                    (String.substring (Z.to_nat (Z.max 0 start))
                       (Z.to_nat (s_length str - Z.max 0 start)) (s_chars str))
                    Hok Hroom)
          as (r & pool' & Hc & Hok' & Hcs & _).
        rewrite Hc. exists r, pool'. split; [reflexivity|].
        split; [|exact Hok']. rewrite Hcs.
        rewrite (substring_clip _ (Z.to_nat length0)) by lia.
        f_equal. lia.
      * destruct (Z.ltb_spec length0 0); [lia|].
        unfold string_result.
        destruct (string_create_ok pool
                    (String.substring (Z.to_nat (Z.max 0 start))
                       (Z.to_nat length0) (s_chars str)) Hok Hroom)
          as (r & pool' & Hc & Hok' & Hcs & _).
        rewrite Hc. exists r, pool'. split; [reflexivity|].
        split; [exact Hcs | exact Hok'].
  - intros Hneg Hin.
    destruct (Z.leb_spec (s_length str) (Z.max 0 start)); [lia|]. cbn zeta.
    destruct (Z.ltb_spec (s_length str) (Z.max 0 start + length0)); [lia|].
    destruct (Z.ltb_spec length0 0); [reflexivity | lia].
Qed.

Lemma substr_bounds_witness :
  (exists r pool',
     native_substr [OBJ_VAL (StrRef (fst demo_text)); INT_VAL (-3); INT_VAL 4]
       (snd demo_comma) []
     = Ok (OBJ_VAL (StrRef r), pool', [])
     /\ s_chars r = "a,b,"%string)
  /\ native_substr [OBJ_VAL (StrRef (fst demo_text)); INT_VAL 2; INT_VAL (-1)]
       (snd demo_comma) []
     = Fault.
Proof.
  destruct demo_comma_pool as (Hok & Htext & Hcomma).
  split.
  - destruct (proj1 (substr_bounds (snd demo_comma) [] (fst demo_text) (-3) 4
                       Hok Htext eq_refl ltac:(lia) ltac:(lia)
                       ltac:(vm_compute; discriminate)))
      as (r & pool' & H & Hcs & _); [left; lia|].
    exists r, pool'. split; [exact H | exact Hcs].
  - apply (proj2 (substr_bounds (snd demo_comma) [] (fst demo_text) 2 (-1)
                    Hok Htext eq_refl ltac:(lia) ltac:(lia)
                    ltac:(vm_compute; discriminate)));
      [lia | vm_compute; reflexivity].
Defined.

(** ** trim *)

Fixpoint all_space (s : string) : bool :=
  match s with
  | EmptyString => true
  | String c s => is_space c && all_space s
  end.

Lemma trim_start_spec (n : nat) (chars : string) (length0 start : Z) :
  0 <= start <= length0 -> length0 - start <= Z.of_nat n ->
  let p := trim_start n chars length0 start in
  start <= p <= length0
  /\ (forall i, start <= i < p ->
                is_space (Lexer.char_at chars (Z.to_nat i)) = true)
  /\ (p < length0 -> is_space (Lexer.char_at chars (Z.to_nat p)) = false).
Proof.
  revert start. induction n as [|n IH]; intros start Hs Hn; cbn [trim_start].
  - cbn zeta. repeat split; lia.
  - destruct (Z.ltb_spec start length0) as [Hlt|Hge]; cbn [andb].
    + destruct (is_space (Lexer.char_at chars (Z.to_nat start))) eqn:E.
      * destruct (IH (start + 1)) as (Hp & Hsp & Hstop); [lia | lia |].
        cbn zeta. split; [lia|]. split; [|exact Hstop].
        intros i Hi. destruct (Z.eq_dec i start) as [->|]; [exact E|].
        apply Hsp. lia.
      * cbn zeta. split; [lia|]. split; [intros i Hi; lia | intros _; exact E].
    + cbn zeta. split; [lia|]. split; intros; lia.
Qed.

Lemma trim_end_spec (n : nat) (chars : string) (start end_ : Z) :
  0 <= start <= end_ -> end_ - start <= Z.of_nat n ->
  let e := trim_end n chars start end_ in
  start <= e <= end_
  /\ (forall i, e <= i < end_ ->
                is_space (Lexer.char_at chars (Z.to_nat i)) = true)
  /\ (start < e -> is_space (Lexer.char_at chars (Z.to_nat (e - 1))) = false).
Proof.
  revert end_. induction n as [|n IH]; intros end_ Hs Hn; cbn [trim_end].
  - cbn zeta. repeat split; lia.
  - destruct (Z.ltb_spec start end_) as [Hlt|Hge]; cbn [andb].
    + destruct (is_space (Lexer.char_at chars (Z.to_nat (end_ - 1)))) eqn:E.
      * destruct (IH (end_ - 1)) as (Hp & Hsp & Hstop); [lia | lia |].
        cbn zeta. split; [lia|]. split; [|exact Hstop].
        intros i Hi. destruct (Z.eq_dec i (end_ - 1)) as [->|]; [exact E|].
        apply Hsp. lia.
      * cbn zeta. split; [lia|]. split; [intros i Hi; lia | intros _; exact E].
    + cbn zeta. split; [lia|]. split; intros; lia.
Qed.

Lemma substring_app (i j k : nat) (s : string) :
  String.substring i (j + k) s
  = (String.substring i j s ++ String.substring (i + j) k s)%string.
Proof.
  revert i j. induction s as [|c s IH]; intros i j.
  - destruct i, j, k; reflexivity.
  - destruct i as [|i].
    + destruct j as [|j]; [reflexivity|].
      cbn [Nat.add]. rewrite !Lexer.substring_0_S, Lexer.substring_S.
      cbn [String.append]. f_equal. apply (IH 0%nat j).
    + cbn [Nat.add]. rewrite !Lexer.substring_S. apply IH.
Qed.

Lemma char_at_drop (a i : nat) (s : string) :
  Lexer.char_at (Lexer.string_drop a s) i = Lexer.char_at s (a + i).
Proof.
  revert s. induction a as [|a IH]; intros s; [reflexivity|].
  destruct s as [|c s]; [destruct i; reflexivity|]. cbn [Lexer.string_drop].
  rewrite IH. reflexivity.
Qed.

Lemma char_at_substring_from (a k i : nat) (s : string) :
  (i < k)%nat ->
  Lexer.char_at (String.substring a k s) i = Lexer.char_at s (a + i).
Proof.
  intros H. rewrite Lexer.substring_drop, Lexer.char_at_substring by exact H.
  apply char_at_drop.
Qed.

Lemma all_space_chars (s : string) :
  (forall i, (i < String.length s)%nat -> is_space (Lexer.char_at s i) = true) ->
  all_space s = true.
Proof.
  induction s as [|c s IH]; intros H; [reflexivity|]. cbn [all_space].
  pose proof (H 0%nat ltac:(cbn; lia)) as H0. cbn in H0. rewrite H0.
  cbn [andb]. apply IH.
  intros i Hi. apply (H (S i)). cbn. lia.
Qed.

Lemma substring_length (a k : nat) (s : string) :
  (a + k <= String.length s)%nat -> String.length (String.substring a k s) = k.
Proof.
  intros H. rewrite Lexer.substring_drop. apply Lexer.substring_length_le.
  rewrite Lexer.string_drop_length. lia.
Qed.

Lemma substring_zero (a : nat) (s : string) :
  String.substring a 0 s = EmptyString.
Proof.
  revert a. induction s as [|c s IH]; intros [|a]; try reflexivity.
  rewrite Lexer.substring_S. apply IH.
Qed.

Lemma char_at_last (x : string) (c : ascii) :
  Lexer.char_at (x ++ String c "") (String.length x) = c.
Proof. induction x as [|d x IH]; [reflexivity | exact IH]. Qed.

(** X29. [trim] of a string returns the string without the run of
    blanks (space, tab, line feed, carriage return) at its start and the
    run at its end: the argument is blanks, then the result, then
    blanks, and the result neither starts nor ends with a blank.  Blanks
    inside are kept. *)
Theorem trim_spec (pool : StringPool) (heap : list Obj) (str : ObjString) :
  pool_ok pool -> interned pool str ->
  Z.of_nat (next_addr pool) < 2 ^ 28 ->
  exists r pool' before after,
    native_trim [OBJ_VAL (StrRef str)] pool heap
    = Ok (OBJ_VAL (StrRef r), pool', heap)
    /\ s_chars str = (before ++ s_chars r ++ after)%string
    /\ all_space before = true /\ all_space after = true
    /\ (forall c rest, s_chars r = String c rest -> is_space c = false)
    /\ (forall init c, s_chars r = (init ++ String c "")%string ->
                       is_space c = false)
    /\ pool_ok pool'.
Proof.
  intros Hok Hstr Hroom.
  destruct (po_keys pool Hok str Hstr) as [_ Hwf].
  pose proof (proj1 Hwf) as Hlen. unfold str_len in Hlen.
  unfold native_trim. cbn zeta.
  set (chars := s_chars str) in *. set (len := s_length str) in *.
  destruct (trim_start_spec (Z.to_nat len) chars len 0) as (Hp & Hbefore & Hfirst);
    [lia | lia |].
  set (p := trim_start (Z.to_nat len) chars len 0) in *.
  destruct (trim_end_spec (Z.to_nat len) chars p len) as (He & Hafter & Hlast);
    [lia | lia |].
  set (e := trim_end (Z.to_nat len) chars p len) in *.
  unfold string_result.
  destruct (string_create_ok pool
              (String.substring (Z.to_nat p) (Z.to_nat (e - p)) chars)
              Hok Hroom)
    as (r & pool' & Hc & Hok' & Hcs & _).
  rewrite Hc. cbn [mbind res_mbind res_bind].
  exists r, pool', (String.substring 0 (Z.to_nat p) chars),
    (String.substring (Z.to_nat e) (Z.to_nat (len - e)) chars).
  split; [reflexivity|]. rewrite Hcs.
  split; [|split; [|split; [|split; [|split; [|exact Hok']]]]].
  - rewrite <- (Lexer.substring_whole chars) at 1.
    replace (String.length chars)
      with (Z.to_nat p + (Z.to_nat (e - p) + Z.to_nat (len - e)))%nat by lia.
    rewrite substring_app, substring_app. cbn [Nat.add].
    do 3 f_equal. lia.
  - apply all_space_chars. intros i Hi.
    rewrite substring_length in Hi by lia.
    rewrite char_at_substring_from by exact Hi. cbn [Nat.add].
    rewrite <- (Nat2Z.id i). apply Hbefore. lia.
  - apply all_space_chars. intros i Hi.
    rewrite substring_length in Hi by lia.
    rewrite char_at_substring_from by exact Hi.
    rewrite <- (Nat2Z.id (Z.to_nat e + i)). apply Hafter. lia.
  - intros c rest Heq.
    assert (Hk : (0 < Z.to_nat (e - p))%nat).
    { destruct (Z.to_nat (e - p)) eqn:E; [|lia].
      rewrite substring_zero in Heq. discriminate Heq. }
    pose proof (char_at_substring_from (Z.to_nat p) _ 0 chars Hk) as Hat.
    rewrite Heq, Nat.add_0_r in Hat. cbn in Hat. subst c.
    apply Hfirst. lia.
  - intros init c Heq.
    assert (Hk : String.length
                   (String.substring (Z.to_nat p) (Z.to_nat (e - p)) chars)
                 = Z.to_nat (e - p)) by (apply substring_length; lia).
    rewrite Heq, length_append in Hk. cbn [String.length] in Hk.
    assert (Hi : (String.length init < Z.to_nat (e - p))%nat) by lia.
    pose proof (char_at_substring_from (Z.to_nat p) _ _ chars Hi) as Hat.
    rewrite Heq, char_at_last in Hat. subst c.
    replace (Z.to_nat p + String.length init)%nat with (Z.to_nat (e - 1)) by lia.
    apply Hlast. lia.
Qed.

Definition demo_padded : ObjString * StringPool :=
  Eval vm_compute in demo_create pool_init "  a b ".

Lemma demo_padded_pool :
  pool_ok (snd demo_padded) /\ interned (snd demo_padded) (fst demo_padded).
Proof.
  assert (H : string_create pool_init "  a b " = Ok demo_padded)
    by (vm_compute; reflexivity).
  destruct (string_create_inv _ _ (fst demo_padded) (snd demo_padded)
              pool_ok_init H) as (Hok & _ & Hin & _).
  split; [exact Hok | exact Hin].
Qed.

Lemma trim_spec_witness :
  exists r pool' before after,
    native_trim [OBJ_VAL (StrRef (fst demo_padded))] (snd demo_padded) []
    = Ok (OBJ_VAL (StrRef r), pool', [])
    /\ "  a b "%string = (before ++ s_chars r ++ after)%string
    /\ all_space before = true /\ all_space after = true
    /\ (forall c rest, s_chars r = String c rest -> is_space c = false)
    /\ (forall init c, s_chars r = (init ++ String c "")%string ->
                       is_space c = false)
    /\ pool_ok pool'.
Proof.
  destruct demo_padded_pool as (Hok & Hin).
  apply (trim_spec (snd demo_padded) [] (fst demo_padded) Hok Hin).
  vm_compute. reflexivity.
Defined.

End Strings.


(* ===================================================================== *)
(** * cffi.c: a value through a C slot and back *)
(* ===================================================================== *)

Module Marshal.
Import Value Object Cffi Interp.

(** The values a script holds: an integer is an [int64_t], a string is
    interned. *)
Definition scripting_value (pool : StringPool) (v : Value) : Prop :=
  match v with
  | INT_VAL n => INT64_MIN <= n <= INT64_MAX
  | OBJ_VAL (StrRef s) => interned pool s
  | _ => True
  end.

(** The integers that come back unchanged through an integer tag: those
    of its range for the tags of 8, 16 and 32 bits, and every [int64_t]
    for the tags of 64 bits, signed or not. *)
Definition kept_range (T : CType) : option (Z * Z) :=
  match T with
  | CTYPE_ULONG | CTYPE_UINT64 | CTYPE_SIZE_T | CTYPE_ULONGLONG =>
      Some (INT64_MIN, INT64_MAX)
  | _ => int_range T
  end.

(** The accepted pairs of a tag and a value that a round trip gives back
    as an equal value. *)
Definition keeps (T : CType) (v : Value) : bool :=
  match v with
  | NIL_VAL =>
      match T with
      | CTYPE_VOID | CTYPE_STRING | CTYPE_POINTER => true
      | _ => false
      end
  | BOOL_VAL _ =>
      match T with CTYPE_BOOL => true | _ => false end
  | INT_VAL n =>
      match T with
      | CTYPE_DOUBLE =>
          PrimFloat.eqb (double_of_int64 n) (double_of_int64 n)
      | CTYPE_FLOAT =>
          PrimFloat.eqb (float_of_int64 n) (double_of_int64 n)
      | _ =>
          match kept_range T with
          | Some (lo, hi) => (lo <=? n) && (n <=? hi)
          | None => false
          end
      end
  | FLOAT_VAL f =>
      match T with
      | CTYPE_DOUBLE => PrimFloat.eqb f f
      | CTYPE_FLOAT => PrimFloat.eqb (float_of_double f) f
      | _ => false
      end
  | OBJ_VAL (StrRef s) =>
      match T with
      | CTYPE_STRING => negb (has_nul (s_chars s))
      | _ => false
      end
  | OBJ_VAL (HeapRef _) => false
  end.

Lemma signed_kept (w n : Z) :
  0 < w ->
  (to_signed w n =? n) = (- 2 ^ (w - 1) <=? n) && (n <=? 2 ^ (w - 1) - 1).
Proof.
  intros Hw. pose proof (to_signed_range w n Hw) as Hb.
  destruct (Z.leb_spec (- 2 ^ (w - 1)) n) as [Hlo|Hlo];
    destruct (Z.leb_spec n (2 ^ (w - 1) - 1)) as [Hhi|Hhi]; cbn [andb];
    first [ rewrite to_signed_small by lia; apply Z.eqb_refl
          | apply Z.eqb_neq; lia ].
Qed.

Lemma unsigned_kept (w n : Z) :
  0 <= w -> (to_unsigned w n =? n) = (0 <=? n) && (n <=? 2 ^ w - 1).
Proof.
  intros Hw. unfold to_unsigned.
  assert (Hpos : 0 < 2 ^ w) by (apply Z.pow_pos_nonneg; lia).
  pose proof (Z.mod_pos_bound n (2 ^ w) Hpos) as Hm.
  destruct (Z.leb_spec 0 n) as [Hlo|Hlo];
    destruct (Z.leb_spec n (2 ^ w - 1)) as [Hhi|Hhi]; cbn [andb];
    first [ rewrite Z.mod_small by lia; apply Z.eqb_refl
          | apply Z.eqb_neq; lia ].
Qed.

Lemma until_nul_kept (s : string) :
  String.eqb (until_nul s) s = negb (has_nul s).
Proof.
  induction s as [|c s IH]; [reflexivity|]. cbn [until_nul has_nul].
  destruct (Ascii.eqb c Ascii.zero); [reflexivity|].
  cbn [String.eqb orb]. rewrite Ascii.eqb_refl. exact IH.
Qed.

(** What comes back for a string is the string made of its bytes up to
    the first NUL. *)
Lemma string_back (pool : StringPool) (heap : list Obj) (s : ObjString) :
  pool_ok pool -> Z.of_nat (next_addr pool) < 2 ^ 28 -> interned pool s ->
  exists r pool',
    string_create pool (until_nul (bytes_of s)) = Ok (r, pool')
    /\ value_equals heap (OBJ_VAL (StrRef r)) (OBJ_VAL (StrRef s))
       = negb (has_nul (s_chars s)).
Proof.
  intros Hok Hroom Hs.
  destruct (po_keys pool Hok s Hs) as [_ Hwf].
  destruct (string_create_returns pool (until_nul (bytes_of s)) Hok Hroom)
    as (r & pool' & Hc).
  destruct (string_create_inv pool _ r pool' Hok Hc) as (Hok' & Hcs & Hin & _).
  destruct (po_keys pool' Hok' r Hin) as [_ Hwfr].
  exists r, pool'. split; [exact Hc|].
  cbn [value_equals]. unfold same_bytes.
  rewrite (bytes_of_wf s Hwf) in *. rewrite (bytes_of_wf r Hwfr), Hcs.
  rewrite String.eqb_sym, until_nul_kept.
  destruct (has_nul (s_chars s)) eqn:E; cbn [negb];
    [apply andb_false_r|].
  rewrite andb_true_r.
  assert (Heq : s_chars r = s_chars s).
  { rewrite Hcs. apply String.eqb_eq. rewrite until_nul_kept, E. reflexivity. }
  destruct Hwf as [-> ->], Hwfr as [-> ->]. rewrite Heq, !Z.eqb_refl.
  reflexivity.
Qed.

(** A new pointer object is no value the script had. *)
Lemma pointer_back (heap : list Obj) (p : CAddr) (name : option string)
    (v : Value) (o : Obj) :
  deref heap v = Some o ->
  value_equals (heap ++ [ObjPointer p name]) (OBJ_VAL (HeapRef (length heap))) v
  = false.
Proof.
  destruct v as [| | | |[s|a]]; cbn [deref]; try discriminate.
  intros Ha. apply lookup_lt_Some in Ha. cbn [value_equals].
  destruct (ObjectType_of (heap ++ [ObjPointer p name])
              (HeapRef (length heap))),
    (ObjectType_of (heap ++ [ObjPointer p name]) (HeapRef a));
    try reflexivity.
  replace (Nat.eqb (length heap) a) with false
    by (symmetry; apply Nat.eqb_neq; lia).
  apply andb_false_r.
Qed.

Ltac settle :=
  eexists _, _, _; split; [reflexivity|]; cbn [value_equals keeps];
  try reflexivity.

(** C5 (as amended).  Whatever [marshal_to_c] accepts for a tag, an int
    being an [int64_t] and a string interned, comes back from
    [marshal_from_c] as a value, and that value equals the one sent
    ([value_equals]) exactly in the cases of [keeps]: nil through
    void, string or pointer; a bool through bool; an int through an
    integer tag of 8, 16 or 32 bits whose range holds it, or through any
    integer tag of 64 bits; an int through float whose conversions to
    float and to double are equal, or through double; a float through
    double, or through float when single precision holds it, unless it
    is not a number; a string without a NUL byte through string. *)
Theorem marshal_roundtrip (c_string_at : Z -> string) (pool : StringPool)
    (heap : list Obj) (T : CType) (v : Value) (slot : CSlot) :
  pool_ok pool -> Z.of_nat (next_addr pool) < 2 ^ 28 ->
  scripting_value pool v ->
  marshal_to_c heap v T = Some slot ->
  exists r pool' heap',
    marshal_from_c c_string_at pool heap slot T = Ok (r, pool', heap')
    /\ value_equals heap' r v = keeps T v.
Proof.
  intros Hok Hroom Hv Hin.
  destruct v as [|b|n|f|[s|a]].
  - (* nil *)
    destruct T; cbn in Hin; try discriminate; injection Hin as <-; settle.
  - (* bool *)
    destruct T; cbn in Hin; try discriminate; injection Hin as <-; settle.
    destruct b; reflexivity.
  - (* int *)
    cbn [scripting_value] in Hv. unfold INT64_MIN, INT64_MAX in Hv.
    destruct T; cbn in Hin; try discriminate; injection Hin as <-;
      try (settle; cbn [kept_range int_range];
           first [ apply (signed_kept 8); lia | apply (signed_kept 16); lia
                 | apply (signed_kept 32); lia | apply (unsigned_kept 8); lia
                 | apply (unsigned_kept 16); lia | apply (unsigned_kept 32); lia
                 | idtac ]).
    all: try (unfold INT64_MIN, INT64_MAX;
              first [ rewrite to_signed_unsigned by lia
                    | rewrite to_signed_small by lia ];
              rewrite Z.eqb_refl; symmetry; apply andb_true_iff;
              split; apply Z.leb_le; lia).
    + (* pointer *)
      unfold addr_of_int. destruct (n =? 0); settle.
  - (* float *)
    destruct T; cbn in Hin; try discriminate; injection Hin as <-; settle.
  - (* string *)
    cbn [scripting_value] in Hv.
    destruct T; cbn in Hin; try discriminate;
      try (destruct (0 <? s_length s); [|discriminate]);
      injection Hin as <-; try solve [settle].
    destruct (string_back pool heap s Hok Hroom Hv) as (r & pool' & Hc & He).
    exists (OBJ_VAL (StrRef r)), pool', heap. cbn [marshal_from_c c_string].
    rewrite Hc. split; [reflexivity | exact He].
  - (* another object *)
    destruct T; cbn in Hin; try discriminate.
    + injection Hin as <-. settle.
    + destruct (heap !! a) as [o|] eqn:Ha; [|discriminate].
      assert (Hd : deref heap (OBJ_VAL (HeapRef a)) = Some o) by exact Ha.
      destruct o; try discriminate; injection Hin as <-.
      * destruct ptr; settle; apply (pointer_back heap _ _ _ _ Hd).
      * destruct data; settle; apply (pointer_back heap _ _ _ _ Hd).
    + destruct (heap !! a) as [o|] eqn:Ha; [|discriminate].
      destruct o; try discriminate; injection Hin as <-. settle.
Qed.

Lemma marshal_roundtrip_witness :
  marshal_to_c [] (INT_VAL (-1)) CTYPE_ULONG
  = Some (S_ulong 18446744073709551615)
  /\ exists r pool' heap',
       marshal_from_c (fun _ => EmptyString) pool_init []
         (S_ulong 18446744073709551615) CTYPE_ULONG
       = Ok (r, pool', heap')
       /\ value_equals heap' r (INT_VAL (-1)) = keeps CTYPE_ULONG (INT_VAL (-1)).
Proof.
  split; [reflexivity|].
  apply (marshal_roundtrip (fun _ => EmptyString) pool_init [] CTYPE_ULONG
           (INT_VAL (-1)) (S_ulong 18446744073709551615) pool_ok_init).
  - vm_compute. reflexivity.
  - vm_compute. split; discriminate.
  - reflexivity.
Defined.

(** C5 as stated fails: a bool is accepted by the tag [int] and comes
    back as an int, which no bool equals. *)
Lemma marshal_bool_through_int :
  marshal_to_c [] (BOOL_VAL true) CTYPE_INT = Some (S_int 1)
  /\ marshal_from_c (fun _ => EmptyString) pool_init [] (S_int 1) CTYPE_INT
     = Ok (INT_VAL 1, pool_init, [])
  /\ value_equals [] (INT_VAL 1) (BOOL_VAL true) = false
  /\ INT_VAL 1 <> BOOL_VAL true.
Proof. repeat split; discriminate. Qed.

(** Integers and floats through the floating-point tags. *)
Example keeps_floats :
  keeps CTYPE_FLOAT (INT_VAL 16777216) = true
  /\ keeps CTYPE_FLOAT (INT_VAL 16777217) = false
  /\ keeps CTYPE_DOUBLE (INT_VAL 16777217) = true
  /\ keeps CTYPE_FLOAT (FLOAT_VAL 0.5) = true
  /\ keeps CTYPE_FLOAT (FLOAT_VAL 0x1.999999999999ap-4) = false
  /\ keeps CTYPE_DOUBLE (FLOAT_VAL 0x1.999999999999ap-4) = true
  /\ keeps CTYPE_DOUBLE (FLOAT_VAL nan) = false.
Proof. vm_compute. repeat split; reflexivity. Qed.

End Marshal.
